(** * TACSAssembler: a shallow embedding of the mesh bookkeeping of
    [src/src/TACSAssembler.c] and the properties of its node numbering,
    adjacency structures, set-up calls and residual assembly.

    Conventions.
    - A C [int] is a [Z]; an [int] array is a [list Z] read with [aget] and
      written with [aset]. Mesh sizes and node numbers are array sizes and
      array indices of the program, so no arithmetic below leaves the range
      of [int].
    - A pointer that may be [NULL] is an [option].
    - [TacsScalar] (a [double] in the program) is a parameter: the assembler
      only moves scalars around and hands them to the element kernels.
    - [fprintf(stderr, ...)] is a list of messages, each tagged with the
      rank that printed it. *)

From Stdlib Require Import String.
From Stdlib Require Import ZArith List Lia Bool Sorted Permutation.
Import ListNotations.
Local Open Scope Z_scope.

Set Implicit Arguments.

(** ** Arrays *)

Module Arr.

Section Generic.
Context {A : Type}.

(** [a[i]]; an index outside the array reads the default value. *)
Definition aget (d : A) (a : list A) (i : Z) : A :=
  if i <? 0 then d else nth (Z.to_nat i) a d.

Fixpoint aset_nat (a : list A) (n : nat) (v : A) : list A :=
  match a, n with
  | [], _ => []
  | _ :: r, O => v :: r
  | x :: r, S n' => x :: aset_nat r n' v
  end.

(** [a[i] = v]; a write outside the array is dropped. *)
Definition aset (a : list A) (i : Z) (v : A) : list A :=
  if i <? 0 then a else aset_nat a (Z.to_nat i) v.

(** The entries [a[lo], ..., a[hi-1]]. *)
Definition slice (a : list A) (lo hi : Z) : list A :=
  firstn (Z.to_nat (hi - lo)) (skipn (Z.to_nat lo) a).

(** [memcpy(dst, src, n*sizeof)] into a fresh array of [n] entries. *)
Definition memcpy (src : list A) (n : Z) : list A :=
  firstn (Z.to_nat n) src.
End Generic.

(** [new int[n]] followed by [memset(.., 0, ..)]. *)
Definition zeros (n : Z) : list Z := repeat 0 (Z.to_nat n).

(** The indices [lo, lo+1, ..., hi-1] of a [for] loop. *)
Definition range (lo hi : Z) : list Z :=
  map (fun k => lo + Z.of_nat k) (seq 0 (Z.to_nat (hi - lo))).

(** [for (i = lo; i < hi; i++) s = body(i, s);] *)
Definition for_ {S : Type} (lo hi : Z) (body : Z -> S -> S) (s : S) : S :=
  fold_left (fun acc i => body i acc) (range lo hi) s.

End Arr.
Import Arr.

Abbreviation geti := (aget 0).

(** ** FElibrary *)

Module FElibrary.

(** [FElibrary::comparator], the three-way comparison of two [int]s given
    to [bsearch]. *)
Definition comparator (a b : Z) : comparison := Z.compare a b.

Fixpoint uinsert (x : Z) (l : list Z) : list Z :=
  match l with
  | [] => [x]
  | y :: r =>
      if x <? y then x :: l
      else if x =? y then l
      else y :: uinsert x r
  end.

Definition sort_unique (l : list Z) : list Z := fold_right uinsert [] l.

(** Modelled from the spec: [FElibrary::uniqueSort(array, len)] is declared
    in FElibrary.h, which is not among the sources. It sorts the first
    [len] entries in increasing order, removes the duplicates, and returns
    the number of entries that remain; these are the leading entries of the
    array afterwards. The entries behind them are not specified; the model
    leaves them as they were. *)
Definition uniqueSort (array : list Z) (len : Z) : list Z * Z :=
  let u := sort_unique (firstn (Z.to_nat len) array) in
  (u ++ skipn (length u) array, Z.of_nat (length u)).

(** [bsearch(&key, base, nmemb, sizeof(int), comparator)] of the C library:
    the index of an entry equal to [key], if the halving search meets
    one. *)
Fixpoint bsearch_loop (fuel : nat) (key : Z) (base : list Z) (l u : Z)
  : option Z :=
  match fuel with
  | O => None
  | S fuel' =>
      if l <? u then
        let idx := (l + u) / 2 in
        match comparator key (geti base idx) with
        | Lt => bsearch_loop fuel' key base l idx
        | Gt => bsearch_loop fuel' key base (idx + 1) u
        | Eq => Some idx
        end
      else None
  end.

Definition bsearch (key : Z) (base : list Z) (nmemb : Z) : option Z :=
  bsearch_loop (S (Z.to_nat nmemb)) key base 0 nmemb.

End FElibrary.

(** ** The assembler object *)

Section Assembler.
Context {TacsScalar : Type}.

(** The part of the element interface that the assembler calls. *)
Record TACSElement : Type := {
  elementName : string;
  numNodes_of : Z;                (* numNodes() *)
  numVariables : Z;
  numDisplacements : Z;
  (* addResidual(time, res, Xpts, vars, dvars, ddvars): the new res *)
  addResidual : TacsScalar -> list TacsScalar -> list TacsScalar ->
                list TacsScalar -> list TacsScalar -> list TacsScalar ->
                list TacsScalar;
  (* getDesignVarRange(lb, ub, numDVs): the new lb and ub *)
  getDesignVarRange_of : list TacsScalar -> list TacsScalar -> Z ->
                         list TacsScalar * list TacsScalar;
  (* getDesignVars(dvs, numDVs): the new dvs *)
  getDesignVars_of : list TacsScalar -> Z -> list TacsScalar
}.

(** [TACSAuxElem]: an extra element attached to element number [num]. *)
Record TACSAuxElem : Type := {
  num : Z;
  elem : TACSElement
}.

(** [TACSBVecDepNodes]: the dependent-node table, a reference-counted
    object. *)
Record TACSBVecDepNodes : Type := {
  dep_refs : Z;
  depNodePtr : list Z;
  depNodeConn : list Z;
  depNodeWeights : list TacsScalar
}.

(** One call [bcMap->addBC(node, nbcs, vars, vals)]. *)
Record BCEntry : Type := {
  bc_node : Z;
  bc_nbcs : Z;
  bc_vars : option (list Z);
  bc_vals : option (list TacsScalar)
}.

(** [TACSBVec]: what the constructor is given, and the local entries. *)
Record TACSBVec : Type := {
  bv_ownerRange : list Z;
  bv_bsize : Z;
  bv_bcMap : option (list BCEntry);
  bv_extDist : option (list Z);
  bv_depNodes : option TACSBVecDepNodes;
  bv_x : list TacsScalar;
  bv_x_ext : list TacsScalar;
  bv_x_dep : list TacsScalar
}.

Record TACSAssembler : Type := {
  mpiRank : Z;
  mpiSize : Z;
  varsPerNode : Z;
  numElements : Z;
  numOwnedNodes : Z;
  numDependentNodes : Z;
  numExtNodes : Z;
  numNodes : Z;
  extNodeOffset : Z;
  meshInitializedFlag : bool;
  numThreads : Z;                          (* thread_info->getNumThreads() *)
  time : TacsScalar;
  elements : option (list TACSElement);
  auxElements : option (list TACSAuxElem);
  ownerRange : list Z;                     (* varMap->getOwnerRange() *)
  bcMap : list BCEntry;
  varsVec : option TACSBVec;
  dvarsVec : option TACSBVec;
  ddvarsVec : option TACSBVec;
  xptVec : option TACSBVec;
  tacsExtNodeNums : option (list Z);
  extDistIndices : option (list Z);
  newNodeIndices : option (list Z);
  distMatIndices : option (list Z);
  elementNodeIndex : option (list Z);
  elementTacsNodes : option (list Z);
  depNodes : option TACSBVecDepNodes
}.

(** A line on [stderr]: the rank that prints it and its text. *)
Definition Msg : Type := (Z * string)%type.

(** Assignment of [elementNodeIndex] and [elementTacsNodes]. *)
Definition set_connectivity (tacs : TACSAssembler) (eni : option (list Z)) (etn : option (list Z)) : TACSAssembler :=
  {|
    mpiRank := mpiRank tacs;
    mpiSize := mpiSize tacs;
    varsPerNode := varsPerNode tacs;
    numElements := numElements tacs;
    numOwnedNodes := numOwnedNodes tacs;
    numDependentNodes := numDependentNodes tacs;
    numExtNodes := numExtNodes tacs;
    numNodes := numNodes tacs;
    extNodeOffset := extNodeOffset tacs;
    meshInitializedFlag := meshInitializedFlag tacs;
    numThreads := numThreads tacs;
    time := time tacs;
    elements := elements tacs;
    auxElements := auxElements tacs;
    ownerRange := ownerRange tacs;
    bcMap := bcMap tacs;
    varsVec := varsVec tacs;
    dvarsVec := dvarsVec tacs;
    ddvarsVec := ddvarsVec tacs;
    xptVec := xptVec tacs;
    tacsExtNodeNums := tacsExtNodeNums tacs;
    extDistIndices := extDistIndices tacs;
    newNodeIndices := newNodeIndices tacs;
    distMatIndices := distMatIndices tacs;
    elementNodeIndex := eni;
    elementTacsNodes := etn;
    depNodes := depNodes tacs
  |}.

(** Assignment of [depNodes]. *)
Definition set_depNodes (tacs : TACSAssembler) (d : option TACSBVecDepNodes) : TACSAssembler :=
  {|
    mpiRank := mpiRank tacs;
    mpiSize := mpiSize tacs;
    varsPerNode := varsPerNode tacs;
    numElements := numElements tacs;
    numOwnedNodes := numOwnedNodes tacs;
    numDependentNodes := numDependentNodes tacs;
    numExtNodes := numExtNodes tacs;
    numNodes := numNodes tacs;
    extNodeOffset := extNodeOffset tacs;
    meshInitializedFlag := meshInitializedFlag tacs;
    numThreads := numThreads tacs;
    time := time tacs;
    elements := elements tacs;
    auxElements := auxElements tacs;
    ownerRange := ownerRange tacs;
    bcMap := bcMap tacs;
    varsVec := varsVec tacs;
    dvarsVec := dvarsVec tacs;
    ddvarsVec := ddvarsVec tacs;
    xptVec := xptVec tacs;
    tacsExtNodeNums := tacsExtNodeNums tacs;
    extDistIndices := extDistIndices tacs;
    newNodeIndices := newNodeIndices tacs;
    distMatIndices := distMatIndices tacs;
    elementNodeIndex := elementNodeIndex tacs;
    elementTacsNodes := elementTacsNodes tacs;
    depNodes := d
  |}.

(** The boundary-condition object after calls on it. *)
Definition set_bcMap (tacs : TACSAssembler) (b : list BCEntry) : TACSAssembler :=
  {|
    mpiRank := mpiRank tacs;
    mpiSize := mpiSize tacs;
    varsPerNode := varsPerNode tacs;
    numElements := numElements tacs;
    numOwnedNodes := numOwnedNodes tacs;
    numDependentNodes := numDependentNodes tacs;
    numExtNodes := numExtNodes tacs;
    numNodes := numNodes tacs;
    extNodeOffset := extNodeOffset tacs;
    meshInitializedFlag := meshInitializedFlag tacs;
    numThreads := numThreads tacs;
    time := time tacs;
    elements := elements tacs;
    auxElements := auxElements tacs;
    ownerRange := ownerRange tacs;
    bcMap := b;
    varsVec := varsVec tacs;
    dvarsVec := dvarsVec tacs;
    ddvarsVec := ddvarsVec tacs;
    xptVec := xptVec tacs;
    tacsExtNodeNums := tacsExtNodeNums tacs;
    extDistIndices := extDistIndices tacs;
    newNodeIndices := newNodeIndices tacs;
    distMatIndices := distMatIndices tacs;
    elementNodeIndex := elementNodeIndex tacs;
    elementTacsNodes := elementTacsNodes tacs;
    depNodes := depNodes tacs
  |}.

(** Assignment of [numExtNodes], [tacsExtNodeNums], [numNodes] and [extNodeOffset]. *)
Definition set_extNodes (tacs : TACSAssembler) (n : Z) (ext : option (list Z)) (nn : Z) (off : Z) : TACSAssembler :=
  {|
    mpiRank := mpiRank tacs;
    mpiSize := mpiSize tacs;
    varsPerNode := varsPerNode tacs;
    numElements := numElements tacs;
    numOwnedNodes := numOwnedNodes tacs;
    numDependentNodes := numDependentNodes tacs;
    numExtNodes := n;
    numNodes := nn;
    extNodeOffset := off;
    meshInitializedFlag := meshInitializedFlag tacs;
    numThreads := numThreads tacs;
    time := time tacs;
    elements := elements tacs;
    auxElements := auxElements tacs;
    ownerRange := ownerRange tacs;
    bcMap := bcMap tacs;
    varsVec := varsVec tacs;
    dvarsVec := dvarsVec tacs;
    ddvarsVec := ddvarsVec tacs;
    xptVec := xptVec tacs;
    tacsExtNodeNums := ext;
    extDistIndices := extDistIndices tacs;
    newNodeIndices := newNodeIndices tacs;
    distMatIndices := distMatIndices tacs;
    elementNodeIndex := elementNodeIndex tacs;
    elementTacsNodes := elementTacsNodes tacs;
    depNodes := depNodes tacs
  |}.

(** Assignment of [tacsExtNodeNums]. *)
Definition set_tacsExtNodeNums (tacs : TACSAssembler) (ext : option (list Z)) : TACSAssembler :=
  {|
    mpiRank := mpiRank tacs;
    mpiSize := mpiSize tacs;
    varsPerNode := varsPerNode tacs;
    numElements := numElements tacs;
    numOwnedNodes := numOwnedNodes tacs;
    numDependentNodes := numDependentNodes tacs;
    numExtNodes := numExtNodes tacs;
    numNodes := numNodes tacs;
    extNodeOffset := extNodeOffset tacs;
    meshInitializedFlag := meshInitializedFlag tacs;
    numThreads := numThreads tacs;
    time := time tacs;
    elements := elements tacs;
    auxElements := auxElements tacs;
    ownerRange := ownerRange tacs;
    bcMap := bcMap tacs;
    varsVec := varsVec tacs;
    dvarsVec := dvarsVec tacs;
    ddvarsVec := ddvarsVec tacs;
    xptVec := xptVec tacs;
    tacsExtNodeNums := ext;
    extDistIndices := extDistIndices tacs;
    newNodeIndices := newNodeIndices tacs;
    distMatIndices := distMatIndices tacs;
    elementNodeIndex := elementNodeIndex tacs;
    elementTacsNodes := elementTacsNodes tacs;
    depNodes := depNodes tacs
  |}.

(** Assignment of [distMatIndices]. *)
Definition set_distMatIndices (tacs : TACSAssembler) (ix : option (list Z)) : TACSAssembler :=
  {|
    mpiRank := mpiRank tacs;
    mpiSize := mpiSize tacs;
    varsPerNode := varsPerNode tacs;
    numElements := numElements tacs;
    numOwnedNodes := numOwnedNodes tacs;
    numDependentNodes := numDependentNodes tacs;
    numExtNodes := numExtNodes tacs;
    numNodes := numNodes tacs;
    extNodeOffset := extNodeOffset tacs;
    meshInitializedFlag := meshInitializedFlag tacs;
    numThreads := numThreads tacs;
    time := time tacs;
    elements := elements tacs;
    auxElements := auxElements tacs;
    ownerRange := ownerRange tacs;
    bcMap := bcMap tacs;
    varsVec := varsVec tacs;
    dvarsVec := dvarsVec tacs;
    ddvarsVec := ddvarsVec tacs;
    xptVec := xptVec tacs;
    tacsExtNodeNums := tacsExtNodeNums tacs;
    extDistIndices := extDistIndices tacs;
    newNodeIndices := newNodeIndices tacs;
    distMatIndices := ix;
    elementNodeIndex := elementNodeIndex tacs;
    elementTacsNodes := elementTacsNodes tacs;
    depNodes := depNodes tacs
  |}.

(** Assignment of [newNodeIndices]. *)
Definition set_newNodeIndices (tacs : TACSAssembler) (ix : option (list Z)) : TACSAssembler :=
  {|
    mpiRank := mpiRank tacs;
    mpiSize := mpiSize tacs;
    varsPerNode := varsPerNode tacs;
    numElements := numElements tacs;
    numOwnedNodes := numOwnedNodes tacs;
    numDependentNodes := numDependentNodes tacs;
    numExtNodes := numExtNodes tacs;
    numNodes := numNodes tacs;
    extNodeOffset := extNodeOffset tacs;
    meshInitializedFlag := meshInitializedFlag tacs;
    numThreads := numThreads tacs;
    time := time tacs;
    elements := elements tacs;
    auxElements := auxElements tacs;
    ownerRange := ownerRange tacs;
    bcMap := bcMap tacs;
    varsVec := varsVec tacs;
    dvarsVec := dvarsVec tacs;
    ddvarsVec := ddvarsVec tacs;
    xptVec := xptVec tacs;
    tacsExtNodeNums := tacsExtNodeNums tacs;
    extDistIndices := extDistIndices tacs;
    newNodeIndices := ix;
    distMatIndices := distMatIndices tacs;
    elementNodeIndex := elementNodeIndex tacs;
    elementTacsNodes := elementTacsNodes tacs;
    depNodes := depNodes tacs
  |}.

(** Assignment of [auxElements]. *)
Definition set_auxElements (tacs : TACSAssembler) (aux : option (list TACSAuxElem)) : TACSAssembler :=
  {|
    mpiRank := mpiRank tacs;
    mpiSize := mpiSize tacs;
    varsPerNode := varsPerNode tacs;
    numElements := numElements tacs;
    numOwnedNodes := numOwnedNodes tacs;
    numDependentNodes := numDependentNodes tacs;
    numExtNodes := numExtNodes tacs;
    numNodes := numNodes tacs;
    extNodeOffset := extNodeOffset tacs;
    meshInitializedFlag := meshInitializedFlag tacs;
    numThreads := numThreads tacs;
    time := time tacs;
    elements := elements tacs;
    auxElements := aux;
    ownerRange := ownerRange tacs;
    bcMap := bcMap tacs;
    varsVec := varsVec tacs;
    dvarsVec := dvarsVec tacs;
    ddvarsVec := ddvarsVec tacs;
    xptVec := xptVec tacs;
    tacsExtNodeNums := tacsExtNodeNums tacs;
    extDistIndices := extDistIndices tacs;
    newNodeIndices := newNodeIndices tacs;
    distMatIndices := distMatIndices tacs;
    elementNodeIndex := elementNodeIndex tacs;
    elementTacsNodes := elementTacsNodes tacs;
    depNodes := depNodes tacs
  |}.

(** Assignment of [elements]. *)
Definition set_elements (tacs : TACSAssembler) (els : option (list TACSElement)) : TACSAssembler :=
  {|
    mpiRank := mpiRank tacs;
    mpiSize := mpiSize tacs;
    varsPerNode := varsPerNode tacs;
    numElements := numElements tacs;
    numOwnedNodes := numOwnedNodes tacs;
    numDependentNodes := numDependentNodes tacs;
    numExtNodes := numExtNodes tacs;
    numNodes := numNodes tacs;
    extNodeOffset := extNodeOffset tacs;
    meshInitializedFlag := meshInitializedFlag tacs;
    numThreads := numThreads tacs;
    time := time tacs;
    elements := els;
    auxElements := auxElements tacs;
    ownerRange := ownerRange tacs;
    bcMap := bcMap tacs;
    varsVec := varsVec tacs;
    dvarsVec := dvarsVec tacs;
    ddvarsVec := ddvarsVec tacs;
    xptVec := xptVec tacs;
    tacsExtNodeNums := tacsExtNodeNums tacs;
    extDistIndices := extDistIndices tacs;
    newNodeIndices := newNodeIndices tacs;
    distMatIndices := distMatIndices tacs;
    elementNodeIndex := elementNodeIndex tacs;
    elementTacsNodes := elementTacsNodes tacs;
    depNodes := depNodes tacs
  |}.

(** [thread_info->setNumThreads(t)]. *)
Definition set_numThreads (tacs : TACSAssembler) (t : Z) : TACSAssembler :=
  {|
    mpiRank := mpiRank tacs;
    mpiSize := mpiSize tacs;
    varsPerNode := varsPerNode tacs;
    numElements := numElements tacs;
    numOwnedNodes := numOwnedNodes tacs;
    numDependentNodes := numDependentNodes tacs;
    numExtNodes := numExtNodes tacs;
    numNodes := numNodes tacs;
    extNodeOffset := extNodeOffset tacs;
    meshInitializedFlag := meshInitializedFlag tacs;
    numThreads := t;
    time := time tacs;
    elements := elements tacs;
    auxElements := auxElements tacs;
    ownerRange := ownerRange tacs;
    bcMap := bcMap tacs;
    varsVec := varsVec tacs;
    dvarsVec := dvarsVec tacs;
    ddvarsVec := ddvarsVec tacs;
    xptVec := xptVec tacs;
    tacsExtNodeNums := tacsExtNodeNums tacs;
    extDistIndices := extDistIndices tacs;
    newNodeIndices := newNodeIndices tacs;
    distMatIndices := distMatIndices tacs;
    elementNodeIndex := elementNodeIndex tacs;
    elementTacsNodes := elementTacsNodes tacs;
    depNodes := depNodes tacs
  |}.

(** The state after [initialize()] has set [meshInitializedFlag] and has moved the external node list into [extDistIndices]. *)
Definition set_initialized (tacs : TACSAssembler) (flag : bool) (ext : option (list Z)) (ix : option (list Z)) : TACSAssembler :=
  {|
    mpiRank := mpiRank tacs;
    mpiSize := mpiSize tacs;
    varsPerNode := varsPerNode tacs;
    numElements := numElements tacs;
    numOwnedNodes := numOwnedNodes tacs;
    numDependentNodes := numDependentNodes tacs;
    numExtNodes := numExtNodes tacs;
    numNodes := numNodes tacs;
    extNodeOffset := extNodeOffset tacs;
    meshInitializedFlag := flag;
    numThreads := numThreads tacs;
    time := time tacs;
    elements := elements tacs;
    auxElements := auxElements tacs;
    ownerRange := ownerRange tacs;
    bcMap := bcMap tacs;
    varsVec := varsVec tacs;
    dvarsVec := dvarsVec tacs;
    ddvarsVec := ddvarsVec tacs;
    xptVec := xptVec tacs;
    tacsExtNodeNums := ext;
    extDistIndices := ix;
    newNodeIndices := newNodeIndices tacs;
    distMatIndices := distMatIndices tacs;
    elementNodeIndex := elementNodeIndex tacs;
    elementTacsNodes := elementTacsNodes tacs;
    depNodes := depNodes tacs
  |}.

(** ** Set-up calls *)

(** The first [Some] that [f] gives along [l]: a loop left by [return]. *)
Fixpoint first_some {A B : Type} (f : A -> option B) (l : list A)
  : option B :=
  match l with
  | [] => None
  | x :: r => match f x with Some b => Some b | None => first_some f r end
  end.

Definition is_null {A : Type} (p : option A) : bool :=
  match p with Some _ => false | None => true end.

(** The array behind a pointer; nothing is read through [NULL]. *)
Definition deref {A : Type} (p : option (list A)) : list A :=
  match p with Some a => a | None => [] end.

(** [elements[i]]: the element kernels and a constant kernel of size 0 where
    there is none. *)
Definition null_element : TACSElement :=
  {| elementName := EmptyString; numNodes_of := 0; numVariables := 0;
     numDisplacements := 0;
     addResidual := fun _ res _ _ _ _ => res;
     getDesignVarRange_of := fun lb ub _ => (lb, ub);
     getDesignVars_of := fun dvs _ => dvs |}.

Definition element_at (els : list TACSElement) (i : Z) : TACSElement :=
  aget null_element els i.

(** The value of a call: [Some v] after [return v], [None] when control
    reaches the closing brace of a function without a [return]. *)
Definition RetVal : Type := option Z.

(** [TACSAssembler::setElementConnectivity(conn, ptr)]. *)
Definition setElementConnectivity (tacs : TACSAssembler) (conn ptr : list Z)
  : RetVal * TACSAssembler * list Msg :=
  if meshInitializedFlag tacs then
    (Some 1, tacs,
     [(mpiRank tacs,
       "Cannot call setElementConnectivity() after initialize()"%string)])
  else if negb (is_null (tacsExtNodeNums tacs)) then
    (Some 1, tacs,
     [(mpiRank tacs,
       "Cannot call setElementConnectivity() after reordering"%string)])
  else
    let size := geti ptr (numElements tacs) in
    let eni := memcpy ptr (numElements tacs + 1) in
    let etn := memcpy conn size in
    let tacs' := set_connectivity tacs (Some eni) (Some etn) in
    let mismatch :=
      match elements tacs with
      | Some els =>
          first_some
            (fun i =>
               let size := geti eni (i + 1) - geti eni i in
               if negb (size =? numNodes_of (element_at els i)) then
                 Some (mpiRank tacs,
                       "Element %s does not match connectivity"%string)
               else None)
            (range 0 (numElements tacs))
      | None => None
      end in
    match mismatch with
    | Some m => (Some 1, tacs', [m])
    | None =>
        let ownerRange := ownerRange tacs in
        let bad :=
          first_some
            (fun i =>
               let jend := geti eni (i + 1) in
               first_some
                 (fun j =>
                    if geti etn j >=? geti ownerRange (mpiSize tacs) then
                      Some (mpiRank tacs,
                            "Element %d contains node number out of range"%string)
                    else if geti etn j <? - numDependentNodes tacs then
                      Some (mpiRank tacs,
                            "Element %d contains dependent node number out of range"%string)
                    else None)
                 (range (geti eni i) jend))
            (range 0 (numElements tacs)) in
        match bad with
        | Some m => (Some (-1), tacs', [m])
        | None => (None, tacs', [])
        end
    end.

(** [TACSObject::decref()] on the dependent-node table. *)
Definition decref (d : TACSBVecDepNodes) : TACSBVecDepNodes :=
  {| dep_refs := dep_refs d - 1; depNodePtr := depNodePtr d;
     depNodeConn := depNodeConn d; depNodeWeights := depNodeWeights d |}.

(** [TACSAssembler::setDependentNodes(_depNodePtr, _depNodeToTacs,
    _depNodeWeights)]. *)
Definition setDependentNodes (tacs : TACSAssembler)
  (_depNodePtr _depNodeToTacs : list Z) (_depNodeWeights : list TacsScalar)
  : Z * TACSAssembler * list Msg :=
  if meshInitializedFlag tacs then
    (1, tacs,
     [(mpiRank tacs,
       "Cannot call setDependentNodes() after initialize()"%string)])
  else if negb (is_null (tacsExtNodeNums tacs)) then
    (1, tacs,
     [(mpiRank tacs,
       "Cannot call setDependentNodes() after reordering"%string)])
  else
    (* if (depNodes){ depNodes->decref(); } *)
    let tacs1 := set_depNodes tacs (option_map decref (depNodes tacs)) in
    let ownerRange := ownerRange tacs in
    let bad :=
      first_some
        (fun i =>
           first_some
             (fun jp =>
                if geti _depNodeToTacs jp >=? geti ownerRange (mpiSize tacs)
                then
                  Some (mpiRank tacs,
                        "Dependent node %d contains node number out of range"%string)
                else if geti _depNodeToTacs jp <? 0 then
                  Some (mpiRank tacs,
                        "Dependent node %d contains dependent node %d"%string)
                else None)
             (range (geti _depNodePtr i) (geti _depNodePtr (i + 1))))
        (range 0 (numDependentNodes tacs)) in
    match bad with
    | Some m => (1, tacs1, [m])
    | None =>
        let depNodePtr := memcpy _depNodePtr (numDependentNodes tacs + 1) in
        let size := geti depNodePtr (numDependentNodes tacs) in
        let depNodeToTacs := memcpy _depNodeToTacs size in
        let depNodeWeights := memcpy _depNodeWeights size in
        (* new TACSBVecDepNodes(...); depNodes->incref(); *)
        (0,
         set_depNodes tacs1
           (Some {| dep_refs := 1; depNodePtr := depNodePtr;
                    depNodeConn := depNodeToTacs;
                    depNodeWeights := depNodeWeights |}),
         [])
    end.

(** [TACSAssembler::addBCs(nnodes, nodes, nbcs, vars, vals)]; the object
    [bcMap] is the sequence of the [addBC] calls made on it. *)
Definition addBCs (tacs : TACSAssembler) (nnodes : Z) (nodes : list Z)
  (nbcs : Z) (vars : option (list Z)) (vals : option (list TacsScalar))
  : TACSAssembler * list Msg :=
  if meshInitializedFlag tacs then
    (tacs, [(mpiRank tacs, "Cannot call addBC() after initialize()"%string)])
  else
    let nbcs := if is_null vars || (nbcs <? 0) then varsPerNode tacs
                else nbcs in
    let ownerRange := ownerRange tacs in
    let bc :=
      for_ 0 nnodes
        (fun i bc =>
           if (geti nodes i >=? geti ownerRange (mpiRank tacs)) &&
              (geti nodes i <? geti ownerRange (mpiRank tacs + 1))
           then bc ++ [{| bc_node := geti nodes i; bc_nbcs := nbcs;
                          bc_vars := vars; bc_vals := vals |}]
           else bc)
        (bcMap tacs) in
    (set_bcMap tacs bc, []).

(** ** External nodes and the local numbering *)

(** The test "the node is external" of [computeExtNodes]. *)
Definition is_external (tacs : TACSAssembler) (node : Z) : bool :=
  (node >=? 0) &&
  ((node <? geti (ownerRange tacs) (mpiRank tacs)) ||
   (node >=? geti (ownerRange tacs) (mpiRank tacs + 1))).

(** [while (extNodeOffset < numExtNodes &&
           tacsExtNodeNums[extNodeOffset] < ownerRange[mpiRank])
      extNodeOffset++;] *)
Fixpoint extNodeOffset_loop (fuel : nat) (ext : list Z) (numExt lo off : Z)
  : Z :=
  match fuel with
  | O => off
  | S fuel' =>
      if (off <? numExt) && (geti ext off <? lo)
      then extNodeOffset_loop fuel' ext numExt lo (off + 1)
      else off
  end.

(** [TACSAssembler::computeExtNodes()]. *)
Definition computeExtNodes (tacs : TACSAssembler)
  : Z * TACSAssembler * list Msg :=
  if meshInitializedFlag tacs then
    (1, tacs,
     [(mpiRank tacs,
       "Cannot call computeExtNodes() after initialize()"%string)])
  else
    match elementNodeIndex tacs with
    | None =>
        (1, tacs,
         [(mpiRank tacs,
           "Cannot call computeExtNodes() element connectivity not defined"%string)])
    | Some eni =>
        let etn := deref (elementTacsNodes tacs) in
        (* ext_list[ext_size] = node; ext_size++ *)
        let push := fun (node : Z) (ext_list : list Z) =>
          if is_external tacs node then ext_list ++ [node] else ext_list in
        let ext_list :=
          for_ 0 (geti eni (numElements tacs))
            (fun i ext_list => push (geti etn i) ext_list) [] in
        let ext_list :=
          match depNodes tacs with
          | Some d =>
              let end_ := geti (depNodePtr d) (numDependentNodes tacs) in
              for_ 0 end_
                (fun i ext_list => push (geti (depNodeConn d) i) ext_list)
                ext_list
          | None => ext_list
          end in
        let ext_size := Z.of_nat (length ext_list) in
        let '(ext_list, numExtNodes) :=
          FElibrary.uniqueSort ext_list ext_size in
        let tacsExtNodeNums := memcpy ext_list numExtNodes in
        let numNodes := numOwnedNodes tacs + numExtNodes in
        let extNodeOffset :=
          extNodeOffset_loop (S (Z.to_nat numExtNodes)) tacsExtNodeNums
            numExtNodes (geti (ownerRange tacs) (mpiRank tacs)) 0 in
        (0,
         set_extNodes tacs numExtNodes (Some tacsExtNodeNums) numNodes
           extNodeOffset,
         [])
    end.

(** The external node list that the two numbering functions read:
    [tacsExtNodeNums] and, once [initialize()] has moved it there,
    [extDistIndices]. *)
Definition ext_nodes (tacs : TACSAssembler) : option (list Z) :=
  match tacsExtNodeNums tacs with
  | Some ext => Some ext
  | None => extDistIndices tacs
  end.

(** [TACSAssembler::getLocalNodeNum(node)]: the value returned. *)
Definition getLocalNodeNum (tacs : TACSAssembler) (node : Z) : Z :=
  let ownerRange := ownerRange tacs in
  if (node >=? geti ownerRange (mpiRank tacs)) &&
     (node <? geti ownerRange (mpiRank tacs + 1)) then
    (node - geti ownerRange (mpiRank tacs)) + extNodeOffset tacs
  else if node >=? 0 then
    match ext_nodes tacs with
    | None => -1
    | Some ext_nodes =>
        match FElibrary.bsearch node ext_nodes (numExtNodes tacs) with
        | Some item =>
            if node <? geti ownerRange (mpiRank tacs) then item
            else numOwnedNodes tacs + item
        | None => -1
        end
    end
  else -1.

(** [TACSAssembler::getLocalNodeNum(node)]: what it prints. *)
Definition getLocalNodeNum_stderr (tacs : TACSAssembler) (node : Z)
  : list Msg :=
  let ownerRange := ownerRange tacs in
  if (node >=? geti ownerRange (mpiRank tacs)) &&
     (node <? geti ownerRange (mpiRank tacs + 1)) then []
  else if node >=? 0 then
    match ext_nodes tacs with
    | None => [(mpiRank tacs, "External nodes not defined"%string)]
    | Some ext_nodes =>
        match FElibrary.bsearch node ext_nodes (numExtNodes tacs) with
        | Some _ => []
        | None =>
            [(mpiRank tacs,
              "External node %d not in external node list"%string)]
        end
    end
  else
    [(mpiRank tacs,
      "Cannot compute local number for dependent node %d"%string)].

(** [TACSAssembler::getGlobalNodeNum(node)]: the value returned. *)
Definition getGlobalNodeNum (tacs : TACSAssembler) (node : Z) : Z :=
  let ownerRange := ownerRange tacs in
  if node <? extNodeOffset tacs then
    match ext_nodes tacs with
    | None => -1
    | Some ext_nodes => geti ext_nodes node
    end
  else if node <? extNodeOffset tacs + numOwnedNodes tacs then
    (node - extNodeOffset tacs) + geti ownerRange (mpiRank tacs)
  else if node <? numNodes tacs then
    match ext_nodes tacs with
    | None => -1
    | Some ext_nodes => geti ext_nodes (node - numOwnedNodes tacs)
    end
  else -1.

(** ** matutils *)

(** Modelled from the spec: [matutils::SortAndUniquifyCSR(nvars, rowp, cols,
    remove_diag)] is declared in MatUtils.h, which is not among the
    sources. It sorts every row of the CSR structure in increasing order,
    removes the duplicates, removes the entry [i] from row [i] when
    [remove_diag] is set, and moves the rows together so that [rowp]
    delimits them again. *)
Definition SortAndUniquifyCSR (nvars : Z) (rowp cols : list Z)
  (remove_diag : Z) : list Z * list Z :=
  for_ 0 nvars
    (fun i out =>
       let row :=
         FElibrary.sort_unique (slice cols (geti rowp i) (geti rowp (i + 1))) in
       let row :=
         if remove_diag =? 0 then row
         else filter (fun c => negb (c =? i)) row in
       (fst out ++ [geti (fst out) i + Z.of_nat (length row)],
        snd out ++ row))
    ([geti rowp 0], memcpy cols (geti rowp 0)).

(** ** Node to element and node to node adjacency *)

(** [a[i]++] *)
Definition incr (a : list Z) (i : Z) : list Z := aset a i (geti a i + 1).

(** [depNodes->getDepNodes(&depNodePtr, &depNodeConn, NULL)]; both stay
    [NULL] without dependent nodes. *)
Definition getDepNodes (tacs : TACSAssembler) : list Z * list Z :=
  match depNodes tacs with
  | Some d => (depNodePtr d, depNodeConn d)
  | None => ([], [])
  end.

(** [TACSAssembler::computeNodeToElementCSR(&nodeElementPtr,
    &nodeToElements)]. *)
Definition computeNodeToElementCSR (tacs : TACSAssembler)
  : list Z * list Z :=
  let numNodes := numNodes tacs in
  let elementNodeIndex := deref (elementNodeIndex tacs) in
  let elementTacsNodes := deref (elementTacsNodes tacs) in
  let nodeElementPtr := zeros (numNodes + 1) in
  let depNodePtr := fst (getDepNodes tacs) in
  let depNodeConn := snd (getDepNodes tacs) in
  (* count the references to each node *)
  let nodeElementPtr :=
    for_ 0 (numElements tacs)
      (fun i nodeElementPtr =>
         let end_ := geti elementNodeIndex (i + 1) in
         for_ (geti elementNodeIndex i) end_
           (fun jp nodeElementPtr =>
              let node := geti elementTacsNodes jp in
              if node >=? 0 then
                let node := getLocalNodeNum tacs node in
                incr nodeElementPtr (node + 1)
              else
                let dep_node := - node - 1 in
                let kend := geti depNodePtr (dep_node + 1) in
                for_ (geti depNodePtr dep_node) kend
                  (fun kp nodeElementPtr =>
                     let node := getLocalNodeNum tacs (geti depNodeConn kp) in
                     incr nodeElementPtr (node + 1))
                  nodeElementPtr)
           nodeElementPtr)
      nodeElementPtr in
  (* sum up the total size of the array *)
  let nodeElementPtr :=
    for_ 0 numNodes
      (fun i nodeElementPtr =>
         aset nodeElementPtr (i + 1)
           (geti nodeElementPtr (i + 1) + geti nodeElementPtr i))
      nodeElementPtr in
  let size := geti nodeElementPtr numNodes in
  let nodeToElements := zeros size in
  (* add the elements to the connectivity *)
  let filled :=
    for_ 0 (numElements tacs)
      (fun i st =>
         let end_ := geti elementNodeIndex (i + 1) in
         for_ (geti elementNodeIndex i) end_
           (fun jp st =>
              let node := geti elementTacsNodes jp in
              if node >=? 0 then
                let node := getLocalNodeNum tacs node in
                (incr (fst st) node,
                 aset (snd st) (geti (fst st) node) i)
              else
                let dep_node := - node - 1 in
                let kend := geti depNodePtr (dep_node + 1) in
                for_ (geti depNodePtr dep_node) kend
                  (fun kp st =>
                     let node := geti depNodeConn kp in
                     let node := getLocalNodeNum tacs node in
                     (incr (fst st) node,
                      aset (snd st) (geti (fst st) node) i))
                  st)
           st)
      (nodeElementPtr, nodeToElements) in
  let nodeElementPtr := fst filled in
  let nodeToElements := snd filled in
  (* set up the pointer array: the start of each node *)
  let nodeElementPtr :=
    for_ 0 numNodes
      (fun i nodeElementPtr =>
         aset nodeElementPtr (numNodes - i)
           (geti nodeElementPtr (numNodes - i - 1)))
      nodeElementPtr in
  let nodeElementPtr := aset nodeElementPtr 0 0 in
  SortAndUniquifyCSR numNodes nodeElementPtr nodeToElements 0.

(** [for (i = n; i > 0; i--) s = body(i, s);] *)
Definition for_down {S : Type} (n : Z) (body : Z -> S -> S) (s : S) : S :=
  for_ 0 n (fun k acc => body (n - k) acc) s.

(** [TACSAssembler::computeLocalNodeToNodeCSR(&rowp, &cols, nodiag)]. *)
Definition computeLocalNodeToNodeCSR (tacs : TACSAssembler) (nodiag : Z)
  : list Z * list Z :=
  let numNodes := numNodes tacs in
  let numElements := numElements tacs in
  let elementNodeIndex := deref (elementNodeIndex tacs) in
  let elementTacsNodes := deref (elementTacsNodes tacs) in
  let rowp := zeros (numNodes + 1) in
  let n2e := computeNodeToElementCSR tacs in
  let nodeElementPtr := fst n2e in
  let nodeToElements := snd n2e in
  let built :=
    match depNodes tacs with
    | Some d =>
        let depNodePtr := depNodePtr d in
        let depNodeConn := depNodeConn d in
        (* the number of independent nodes of each element *)
        let nodeCount := zeros numElements in
        let nodeCount :=
          for_ 0 numElements
            (fun i nodeCount =>
               let jend := geti elementNodeIndex (i + 1) in
               for_ (geti elementNodeIndex i) jend
                 (fun jp nodeCount =>
                    let node := geti elementTacsNodes jp in
                    if node >=? 0 then incr nodeCount i
                    else
                      let dep := - node - 1 in
                      aset nodeCount i
                        (geti nodeCount i +
                         (geti depNodePtr (dep + 1) - geti depNodePtr dep)))
                 nodeCount)
            nodeCount in
        let rowp :=
          for_ 0 numNodes
            (fun i rowp =>
               for_ (geti nodeElementPtr i) (geti nodeElementPtr (i + 1))
                 (fun jp rowp =>
                    let elem := geti nodeToElements jp in
                    aset rowp (i + 1) (geti rowp (i + 1) + geti nodeCount elem))
                 rowp)
            rowp in
        let rowp :=
          for_ 0 numNodes
            (fun i rowp => aset rowp (i + 1) (geti rowp (i + 1) + geti rowp i))
            rowp in
        let nnz := geti rowp numNodes in
        let cols := for_ 0 nnz (fun i cols => aset cols i (-1)) (zeros nnz) in
        let filled :=
          for_ 0 numNodes
            (fun i st =>
               for_ (geti nodeElementPtr i) (geti nodeElementPtr (i + 1))
                 (fun jp st =>
                    let elem := geti nodeToElements jp in
                    let kend := geti elementNodeIndex (elem + 1) in
                    let row := geti (fst st) i in
                    (* st' = (row, cols) *)
                    let st' :=
                      for_ (geti elementNodeIndex elem) kend
                        (fun kp rc =>
                           let node := geti elementTacsNodes kp in
                           if node >=? 0 then
                             let node := getLocalNodeNum tacs node in
                             (fst rc + 1, aset (snd rc) (fst rc) node)
                           else
                             let dep_node := - node - 1 in
                             let pend := geti depNodePtr (dep_node + 1) in
                             for_ (geti depNodePtr dep_node) pend
                               (fun p rc =>
                                  let node := geti depNodeConn p in
                                  let node := getLocalNodeNum tacs node in
                                  (fst rc + 1, aset (snd rc) (fst rc) node))
                               rc)
                        (row, snd st) in
                    (aset (fst st) i (fst st'), snd st'))
                 st)
            (rowp, cols) in
        let rowp := fst filled in
        let cols := snd filled in
        let rowp :=
          for_down numNodes (fun i rowp => aset rowp i (geti rowp (i - 1)))
            rowp in
        let rowp := aset rowp 0 0 in
        (rowp, cols)
    | None =>
        let rowp :=
          for_ 0 numNodes
            (fun i rowp =>
               for_ (geti nodeElementPtr i) (geti nodeElementPtr (i + 1))
                 (fun j rowp =>
                    let elem := geti nodeToElements j in
                    aset rowp (i + 1)
                      (geti rowp (i + 1) +
                       (geti elementNodeIndex (elem + 1) -
                        geti elementNodeIndex elem)))
                 rowp)
            rowp in
        let rowp :=
          for_ 0 numNodes
            (fun i rowp => aset rowp (i + 1) (geti rowp (i + 1) + geti rowp i))
            rowp in
        let nnz := geti rowp numNodes in
        let cols := for_ 0 nnz (fun i cols => aset cols i (-1)) (zeros nnz) in
        let filled :=
          for_ 0 numNodes
            (fun i st =>
               for_ (geti nodeElementPtr i) (geti nodeElementPtr (i + 1))
                 (fun jp st =>
                    let elem := geti nodeToElements jp in
                    let row := geti (fst st) i in
                    let kend := geti elementNodeIndex (elem + 1) in
                    let st' :=
                      for_ (geti elementNodeIndex elem) kend
                        (fun kp rc =>
                           let node := geti elementTacsNodes kp in
                           let node := getLocalNodeNum tacs node in
                           (fst rc + 1, aset (snd rc) (fst rc) node))
                        (row, snd st) in
                    (aset (fst st) i (fst st'), snd st'))
                 st)
            (rowp, cols) in
        let rowp := fst filled in
        let cols := snd filled in
        let rowp :=
          for_down numNodes (fun i rowp => aset rowp i (geti rowp (i - 1)))
            rowp in
        let rowp := aset rowp 0 0 in
        (rowp, cols)
    end in
  SortAndUniquifyCSR numNodes (fst built) (snd built) nodiag.

(** [TACSAssembler::computeLocalNodeToNodeCSR(&rowp, &cols, nrnodes, rnodes,
    nodiag)]: the adjacency restricted to the reduced nodes. *)
Definition computeLocalNodeToNodeCSR_reduced (tacs : TACSAssembler)
  (nrnodes : Z) (rnodes : list Z) (nodiag : Z) : list Z * list Z :=
  let numNodes := numNodes tacs in
  let numElements := numElements tacs in
  let elementNodeIndex := deref (elementNodeIndex tacs) in
  let elementTacsNodes := deref (elementTacsNodes tacs) in
  let rowp := zeros (nrnodes + 1) in
  let n2e := computeNodeToElementCSR tacs in
  let nodeElementPtr := fst n2e in
  let nodeToElements := snd n2e in
  let built :=
    match depNodes tacs with
    | Some d =>
        let depNodePtr := depNodePtr d in
        let depNodeConn := depNodeConn d in
        let nodeCount := zeros numElements in
        let nodeCount :=
          for_ 0 numElements
            (fun i nodeCount =>
               let jend := geti elementNodeIndex (i + 1) in
               for_ (geti elementNodeIndex i) jend
                 (fun j nodeCount =>
                    let node := geti elementTacsNodes j in
                    if node >=? 0 then
                      let node := getLocalNodeNum tacs node in
                      if geti rnodes node >=? 0 then incr nodeCount i
                      else nodeCount
                    else
                      let dep := - node - 1 in
                      for_ (geti depNodePtr dep) (geti depNodePtr (dep + 1))
                        (fun k nodeCount =>
                           let node :=
                             getLocalNodeNum tacs (geti depNodeConn k) in
                           if geti rnodes node >=? 0 then incr nodeCount i
                           else nodeCount)
                        nodeCount)
                 nodeCount)
            nodeCount in
        let rowp :=
          for_ 0 numNodes
            (fun i rowp =>
               let node := geti rnodes i in
               if node >=? 0 then
                 for_ (geti nodeElementPtr i) (geti nodeElementPtr (i + 1))
                   (fun j rowp =>
                      let elem := geti nodeToElements j in
                      aset rowp (node + 1)
                        (geti rowp (node + 1) + geti nodeCount elem))
                   rowp
               else rowp)
            rowp in
        let rowp :=
          for_ 0 nrnodes
            (fun i rowp => aset rowp (i + 1) (geti rowp (i + 1) + geti rowp i))
            rowp in
        let nnz := geti rowp nrnodes in
        let cols := zeros nnz in
        let filled :=
          for_ 0 numNodes
            (fun i st =>
               let node := geti rnodes i in
               if node >=? 0 then
                 for_ (geti nodeElementPtr i) (geti nodeElementPtr (i + 1))
                   (fun j st =>
                      let elem := geti nodeToElements j in
                      let kend := geti elementNodeIndex (elem + 1) in
                      let row := geti (fst st) node in
                      let st' :=
                        for_ (geti elementNodeIndex elem) kend
                          (fun k rc =>
                             let local := geti elementTacsNodes k in
                             if local >=? 0 then
                               let local := getLocalNodeNum tacs local in
                               let rn := geti rnodes local in
                               if rn >=? 0 then
                                 (fst rc + 1, aset (snd rc) (fst rc) rn)
                               else rc
                             else
                               let dep := - local - 1 in
                               let pend := geti depNodePtr (dep + 1) in
                               for_ (geti depNodePtr dep) pend
                                 (fun p rc =>
                                    let local := geti depNodeConn p in
                                    let local := getLocalNodeNum tacs local in
                                    let rn := geti rnodes local in
                                    if rn >=? 0 then
                                      (fst rc + 1, aset (snd rc) (fst rc) rn)
                                    else rc)
                                 rc)
                          (row, snd st) in
                      (aset (fst st) node (fst st'), snd st'))
                   st
               else st)
            (rowp, cols) in
        let rowp :=
          for_down nrnodes (fun i rowp => aset rowp i (geti rowp (i - 1)))
            (fst filled) in
        (aset rowp 0 0, snd filled)
    | None =>
        let rowp :=
          for_ 0 numNodes
            (fun i rowp =>
               let node := geti rnodes i in
               if node >=? 0 then
                 for_ (geti nodeElementPtr i) (geti nodeElementPtr (i + 1))
                   (fun j rowp =>
                      let elem := geti nodeToElements j in
                      let count :=
                        for_ (geti elementNodeIndex elem)
                          (geti elementNodeIndex (elem + 1))
                          (fun k count =>
                             let local := geti elementTacsNodes k in
                             let local := getLocalNodeNum tacs local in
                             if geti rnodes local >=? 0 then count + 1
                             else count)
                          0 in
                      aset rowp (node + 1) (geti rowp (node + 1) + count))
                   rowp
               else rowp)
            rowp in
        let rowp :=
          for_ 0 nrnodes
            (fun i rowp => aset rowp (i + 1) (geti rowp (i + 1) + geti rowp i))
            rowp in
        let nnz := geti rowp nrnodes in
        let cols := zeros nnz in
        let filled :=
          for_ 0 numNodes
            (fun i st =>
               let node := geti rnodes i in
               if node >=? 0 then
                 for_ (geti nodeElementPtr i) (geti nodeElementPtr (i + 1))
                   (fun j st =>
                      let elem := geti nodeToElements j in
                      let row := geti (fst st) node in
                      let st' :=
                        for_ (geti elementNodeIndex elem)
                          (geti elementNodeIndex (elem + 1))
                          (fun k rc =>
                             let local := geti elementTacsNodes k in
                             let local := getLocalNodeNum tacs local in
                             let rn := geti rnodes local in
                             if rn >=? 0 then
                               (fst rc + 1, aset (snd rc) (fst rc) rn)
                             else rc)
                          (row, snd st) in
                      (aset (fst st) node (fst st'), snd st'))
                   st
               else st)
            (rowp, cols) in
        let rowp :=
          for_down nrnodes (fun i rowp => aset rowp i (geti rowp (i - 1)))
            (fst filled) in
        (aset rowp 0 0, snd filled)
    end in
  SortAndUniquifyCSR nrnodes (fst built) (snd built) nodiag.

(** ** Reordering *)

Inductive OrderingType : Type :=
  NATURAL_ORDER | RCM_ORDER | AMD_ORDER | ND_ORDER | TACS_AMD_ORDER.

Inductive MatrixOrderingType : Type :=
  ADDITIVE_SCHWARZ | APPROXIMATE_FACTORIZATION | DIRECT_SCHUR
| APPROXIMATE_SCHUR.

Definition OrderingType_eqb (a b : OrderingType) : bool :=
  match a, b with
  | NATURAL_ORDER, NATURAL_ORDER | RCM_ORDER, RCM_ORDER
  | AMD_ORDER, AMD_ORDER | ND_ORDER, ND_ORDER
  | TACS_AMD_ORDER, TACS_AMD_ORDER => true
  | _, _ => false
  end.

(** The ordering packages that [computeMatReordering] calls. None of them
    is among the sources; each is given the matrix as [nvars], [rowp],
    [cols] and fills the arrays named in its field. *)
Record OrderingBackends : Type := {
  (* matutils::ComputeRCMOrder: new_vars *)
  ComputeRCMOrder : Z -> list Z -> list Z -> list Z;
  (* amd_order: perm *)
  amd_order : Z -> list Z -> list Z -> list Z;
  (* METIS_NodeND: perm and new_vars *)
  METIS_NodeND : Z -> list Z -> list Z -> list Z * list Z;
  (* amd_order_interface: perm *)
  amd_order_interface : Z -> list Z -> list Z -> list Z
}.

(** [for (k = 0; k < nvars; k++) out[src[k]] = k;] *)
Definition invert_into (nvars : Z) (src out : list Z) : list Z :=
  for_ 0 nvars (fun k out => aset out (geti src k) k) out.

(** [TACSAssembler::computeMatReordering(order_type, nvars, rowp, cols, perm,
    new_vars)]: the arrays [perm] and [new_vars] after the call, for the
    ones that are not [NULL]. *)
Definition computeMatReordering (be : OrderingBackends)
  (order_type : OrderingType) (nvars : Z) (rowp cols : list Z)
  (perm new_vars : option (list Z)) : option (list Z) * option (list Z) :=
  let _perm := match perm with Some p => p | None => zeros nvars end in
  let _new_vars := match new_vars with Some v => v | None => zeros nvars end in
  match order_type with
  | RCM_ORDER =>
      let _new_vars := ComputeRCMOrder be nvars rowp cols in
      (option_map (fun perm => invert_into nvars _new_vars perm) perm,
       option_map (fun _ => _new_vars) new_vars)
  | AMD_ORDER =>
      let _perm := amd_order be nvars rowp cols in
      (option_map (fun _ => _perm) perm,
       option_map (fun new_vars => invert_into nvars _perm new_vars) new_vars)
  | ND_ORDER =>
      let r := METIS_NodeND be nvars rowp cols in
      (option_map (fun _ => fst r) perm, option_map (fun _ => snd r) new_vars)
  | TACS_AMD_ORDER =>
      let _perm := amd_order_interface be nvars rowp cols in
      (option_map (fun _ => _perm) perm,
       option_map (fun new_vars => invert_into nvars _perm new_vars) new_vars)
  | NATURAL_ORDER =>
      (option_map (fun perm => for_ 0 nvars (fun k perm => aset perm k k) perm)
                  perm,
       option_map (fun new_vars =>
                     for_ 0 nvars (fun k new_vars => aset new_vars k k)
                       new_vars)
                  new_vars)
  end.

(** What the collective calls of the reordering deliver to this process. *)
Record ReorderExchange : Type := {
  (* MPI_Alltoall of the counts in computeCouplingNodes *)
  mpi_recvCount : list Z;
  (* MPI_Alltoallv of the external node numbers in computeCouplingNodes *)
  mpi_recvNodes : list Z;
  (* MPI_Alltoallv of the new node numbers in computeReordering *)
  mpi_newExtNodes : list Z
}.

(** The arrays that [computeCouplingNodes] hands back. *)
Record CouplingNodes : Type := {
  numCouplingNodes : Z;
  couplingNodes : list Z;
  extPtr : list Z;
  extCount : list Z;
  recvPtr : list Z;
  recvCount : list Z;
  recvNodes : list Z
}.

(** [TACSAssembler::computeCouplingNodes(&couplingNodes, &extPtr, &extCount,
    &recvPtr, &recvCount, &recvNodes)]. [matchIntervals] is
    [FElibrary::matchIntervals], which is not among the sources; it fills
    [extPtr]. *)
Definition computeCouplingNodes
  (matchIntervals : Z -> list Z -> Z -> list Z -> list Z)
  (tacs : TACSAssembler) (mpi : ReorderExchange) : CouplingNodes :=
  let ownerRange := ownerRange tacs in
  let mpiSize := mpiSize tacs in
  let extNodes :=
    match extDistIndices tacs with
    | Some ix => ix
    | None => deref (tacsExtNodeNums tacs)
    end in
  let extPtr := matchIntervals mpiSize ownerRange (numExtNodes tacs) extNodes in
  let extCount :=
    for_ 0 mpiSize
      (fun i extCount =>
         let extCount := aset extCount i (geti extPtr (i + 1) - geti extPtr i) in
         if i =? mpiRank tacs then aset extCount i 0 else extCount)
      (zeros mpiSize) in
  let recvCount := memcpy (mpi_recvCount mpi) mpiSize in
  let recvPtr :=
    for_ 0 mpiSize
      (fun i recvPtr =>
         aset recvPtr (i + 1) (geti recvPtr i + geti recvCount i))
      (aset (zeros (mpiSize + 1)) 0 0) in
  let recvNodes := memcpy (mpi_recvNodes mpi) (geti recvPtr mpiSize) in
  let sorted := FElibrary.uniqueSort recvNodes (geti recvPtr mpiSize) in
  let recvNodesSorted := fst sorted in
  let nextern_unique := snd sorted in
  let numCouplingNodes := nextern_unique + numExtNodes tacs in
  (* couplingNodes[index] = ...; index++ *)
  let couplingNodes :=
    for_ 0 (extNodeOffset tacs) (fun i c => c ++ [i]) [] in
  let couplingNodes :=
    for_ 0 nextern_unique
      (fun i c => c ++ [getLocalNodeNum tacs (geti recvNodesSorted i)])
      couplingNodes in
  let couplingNodes :=
    for_ (extNodeOffset tacs) (numExtNodes tacs)
      (fun i c => c ++ [numOwnedNodes tacs + i])
      couplingNodes in
  {| numCouplingNodes := numCouplingNodes;
     couplingNodes := couplingNodes;
     extPtr := extPtr;
     extCount := extCount;
     recvPtr := recvPtr;
     recvCount := recvCount;
     recvNodes := recvNodes |}.

(** [new_vars] of a call [computeMatReordering(order_type, n, rowp, cols,
    NULL, new_vars)]. *)
Definition reorder_new_vars (be : OrderingBackends)
  (order_type : OrderingType) (n : Z) (csr : list Z * list Z)
  (new_vars : list Z) : list Z :=
  match snd (computeMatReordering be order_type n (fst csr) (snd csr)
               None (Some new_vars)) with
  | Some v => v
  | None => new_vars
  end.

(** [for (i = 0, j = 0; i < numNodes; i++)
      if (reducedNodes[i] >= 0){
        newNodeNums[i] = offset + newReducedNodes[j]; j++; }] *)
Definition place_new_numbers (numNodes offset : Z)
  (reducedNodes newReducedNodes newNodeNums : list Z) : list Z :=
  fst (for_ 0 numNodes
         (fun i st =>
            if geti reducedNodes i >=? 0 then
              (aset (fst st) i (offset + geti newReducedNodes (snd st)),
               snd st + 1)
            else st)
         (newNodeNums, 0)).

(** The local part of [computeReordering]: [newNodeNums] when the numbers
    of the owned nodes have been set. *)
Definition computeReordering_local (be : OrderingBackends)
  (tacs : TACSAssembler) (order_type : OrderingType)
  (mat_type : MatrixOrderingType) (numCoupling : Z) (couplingNodes : list Z)
  : list Z * list Msg :=
  let numNodes := numNodes tacs in
  let newNodeNums := zeros numNodes in
  let noDiagonal := if OrderingType_eqb order_type ND_ORDER then 1 else 0 in
  if mpiSize tacs =? 1 then
    let csr := computeLocalNodeToNodeCSR tacs noDiagonal in
    (reorder_new_vars be order_type numNodes csr newNodeNums, [])
  else
    let reducedNodes := zeros numNodes in
    (* the nodes that are external to this processor *)
    let reducedNodes :=
      for_ 0 (extNodeOffset tacs) (fun i r => aset r i (-1)) reducedNodes in
    let reducedNodes :=
      for_ (extNodeOffset tacs + numOwnedNodes tacs) numNodes
        (fun i r => aset r i (-1)) reducedNodes in
    let reducedNodes :=
      match mat_type with
      | DIRECT_SCHUR =>
          for_ 0 numCoupling
            (fun i r => let node := geti couplingNodes i in aset r node (-1))
            reducedNodes
      | APPROXIMATE_SCHUR =>
          let csr := computeLocalNodeToNodeCSR tacs 0 in
          let rowp := fst csr in
          let cols := snd csr in
          for_ 0 numCoupling
            (fun i r =>
               let node := geti couplingNodes i in
               for_ (geti rowp node) (geti rowp (node + 1))
                 (fun jp r => aset r (geti cols jp) (-1)) r)
            reducedNodes
      | _ => reducedNodes
      end in
    (* order all nodes that are non-negative *)
    let st :=
      for_ 0 numNodes
        (fun i st =>
           if geti (fst st) i >=? 0 then
             (aset (fst st) i (snd st), snd st + 1)
           else st)
        (reducedNodes, 0) in
    let reducedNodes := fst st in
    let numReducedNodes := snd st in
    let newReducedNodes := zeros numReducedNodes in
    let csr :=
      computeLocalNodeToNodeCSR_reduced tacs numReducedNodes reducedNodes
        noDiagonal in
    let newReducedNodes :=
      reorder_new_vars be order_type numReducedNodes csr newReducedNodes in
    let offset := geti (ownerRange tacs) (mpiRank tacs) in
    let newNodeNums :=
      place_new_numbers numNodes offset reducedNodes newReducedNodes
        newNodeNums in
    let offset := offset + numReducedNodes in
    (* the coupling variables that have been labeled before *)
    let st :=
      for_ (extNodeOffset tacs) (extNodeOffset tacs + numOwnedNodes tacs)
        (fun i st =>
           if geti (fst st) i <? 0 then
             (aset (fst st) i (snd st), snd st + 1)
           else (aset (fst st) i (-1), snd st))
        (reducedNodes, 0) in
    let reducedNodes := fst st in
    let numReducedNodes := snd st in
    if numReducedNodes >? 0 then
      let msgs :=
        match mat_type with
        | ADDITIVE_SCHWARZ =>
            [(mpiRank tacs, "Error in additive Schwarz reordering"%string)]
        | _ => []
        end in
      let newReducedNodes := zeros numReducedNodes in
      let csr :=
        computeLocalNodeToNodeCSR_reduced tacs numReducedNodes reducedNodes
          noDiagonal in
      let newReducedNodes :=
        reorder_new_vars be order_type numReducedNodes csr newReducedNodes in
      (place_new_numbers numNodes offset reducedNodes newReducedNodes
         newNodeNums, msgs)
    else (newNodeNums, []).

(** The state after the node numbers of [computeReordering] have been
    written into the connectivity, the dependent nodes, the boundary
    conditions and the external node list. *)
Definition set_reordered (tacs : TACSAssembler)
  (etn : option (list Z)) (d : option TACSBVecDepNodes) (b : list BCEntry)
  (ext : option (list Z)) (ix : option (list Z)) : TACSAssembler :=
  set_newNodeIndices
    (set_tacsExtNodeNums
       (set_bcMap
          (set_depNodes (set_connectivity tacs (elementNodeIndex tacs) etn) d)
          b)
       ext)
    ix.

(** [TACSAssembler::computeReordering(order_type, mat_type)]. *)
Definition computeReordering
  (be : OrderingBackends)
  (matchIntervals : Z -> list Z -> Z -> list Z -> list Z)
  (tacs : TACSAssembler) (order_type : OrderingType)
  (mat_type : MatrixOrderingType) (mpi : ReorderExchange)
  : TACSAssembler * list Msg :=
  if is_null (elementNodeIndex tacs) then
    (tacs,
     [(mpiRank tacs,
       "Must define element connectivity before reordering"%string)])
  else if negb (is_null (tacsExtNodeNums tacs)) then
    (tacs,
     [(mpiRank tacs,
       "TACSAssembler::computeReordering() can only be called once"%string)])
  else
    let ext := computeExtNodes tacs in
    let tacs := snd (fst ext) in
    let msgs0 := snd ext in
    let cn := computeCouplingNodes matchIntervals tacs mpi in
    let numCoupling := numCouplingNodes cn in
    let loc :=
      computeReordering_local be tacs order_type mat_type numCoupling
        (couplingNodes cn) in
    let newNodeNums := fst loc in
    let numNodes := numNodes tacs in
    (* the new numbers of the nodes that other processes asked for *)
    let recvNodes :=
      for_ 0 (geti (recvPtr cn) (mpiSize tacs))
        (fun i recvNodes =>
           let node := getLocalNodeNum tacs (geti recvNodes i) in
           aset recvNodes i (geti newNodeNums node))
        (recvNodes cn) in
    let newExtNodes :=
      memcpy (mpi_newExtNodes mpi) (geti (extPtr cn) (mpiSize tacs)) in
    let newNodeNums :=
      for_ 0 (extNodeOffset tacs)
        (fun i nn => aset nn i (geti newExtNodes i)) newNodeNums in
    let newNodeNums :=
      for_ (extNodeOffset tacs) (numExtNodes tacs)
        (fun i nn => aset nn (i + numOwnedNodes tacs) (geti newExtNodes i))
        newNodeNums in
    (* reorder the local dependent node connectivity *)
    let depNodes' :=
      match depNodes tacs with
      | Some d =>
          let end_ := geti (depNodePtr d) (numDependentNodes tacs) in
          let depConn :=
            for_ 0 end_
              (fun i depConn =>
                 let node := getLocalNodeNum tacs (geti depConn i) in
                 aset depConn i (geti newNodeNums node))
              (depNodeConn d) in
          Some {| dep_refs := dep_refs d; depNodePtr := depNodePtr d;
                  depNodeConn := depConn;
                  depNodeWeights := depNodeWeights d |}
      | None => None
      end in
    (* reorder the element connectivity *)
    let eni := deref (elementNodeIndex tacs) in
    let end_ := geti eni (numElements tacs) in
    let etn :=
      for_ 0 end_
        (fun i etn =>
           let node := geti etn i in
           if node >=? 0 then
             let node := getLocalNodeNum tacs node in
             aset etn i (geti newNodeNums node)
           else etn)
        (deref (elementTacsNodes tacs)) in
    (* reorder the boundary conditions *)
    let bcs :=
      map (fun b =>
             let node := getLocalNodeNum tacs (bc_node b) in
             {| bc_node := geti newNodeNums node; bc_nbcs := bc_nbcs b;
                bc_vars := bc_vars b; bc_vals := bc_vals b |})
          (bcMap tacs) in
    (* reorder the external node numbers *)
    let extNums := deref (tacsExtNodeNums tacs) in
    let extNums :=
      for_ 0 (extNodeOffset tacs)
        (fun i e => aset e i (geti newNodeNums i)) extNums in
    let extNums :=
      for_ (extNodeOffset tacs) (numExtNodes tacs)
        (fun i e => aset e i (geti newNodeNums (i + numOwnedNodes tacs)))
        extNums in
    let extNums := fst (FElibrary.uniqueSort extNums (numExtNodes tacs)) in
    (set_reordered tacs
       (option_map (fun _ => etn) (elementTacsNodes tacs))
       depNodes' bcs
       (option_map (fun _ => extNums) (tacsExtNodeNums tacs))
       (Some newNodeNums),
     msgs0 ++ snd loc).

(** ** Vectors and matrices *)

(** The operations of [TACSBVec] that the assembler calls. The class is not
    among the sources; its methods are parameters of the model. *)
Record BVecOps : Type := {
  (* the scalar 0.0 *)
  scalar_zero : TacsScalar;
  (* vec->getValues(n, index, vals): the vals read *)
  getValues : TACSBVec -> Z -> list Z -> list TacsScalar;
  (* vec->setValues(n, index, vals, ADD_VALUES) *)
  setValues_ADD : TACSBVec -> Z -> list Z -> list TacsScalar -> TACSBVec;
  (* vec->beginSetValues(ADD_VALUES) *)
  beginSetValues_ADD : TACSBVec -> TACSBVec;
  (* vec->endSetValues(ADD_VALUES) *)
  endSetValues_ADD : TACSBVec -> TACSBVec;
  (* vec->applyBCs(other) *)
  applyBCs : TACSBVec -> option TACSBVec -> TACSBVec
}.

(** Modelled from the spec: [TACSBVec::zeroEntries] is not among the
    sources. It is the step [ZeroAccumulators]: every local entry of the
    vector becomes zero; nothing else of the vector changes. *)
Definition zeroEntries (ops : BVecOps) (v : TACSBVec) : TACSBVec :=
  {| bv_ownerRange := bv_ownerRange v;
     bv_bsize := bv_bsize v;
     bv_bcMap := bv_bcMap v;
     bv_extDist := bv_extDist v;
     bv_depNodes := bv_depNodes v;
     bv_x := map (fun _ => scalar_zero ops) (bv_x v);
     bv_x_ext := map (fun _ => scalar_zero ops) (bv_x_ext v);
     bv_x_dep := map (fun _ => scalar_zero ops) (bv_x_dep v) |}.

(** Modelled from the spec: the constructor [TACSBVec(varMap, bsize, bcMap,
    extDist, depNodes)] is not among the sources. The vector has [bsize]
    zero entries for each owned, each external and each dependent node. *)
Definition new_TACSBVec (ops : BVecOps) (tacs : TACSAssembler) (bsize : Z)
  (bcs : option (list BCEntry)) : TACSBVec :=
  let zs := fun n => repeat (scalar_zero ops) (Z.to_nat n) in
  {| bv_ownerRange := ownerRange tacs;
     bv_bsize := bsize;
     bv_bcMap := bcs;
     bv_extDist := extDistIndices tacs;
     bv_depNodes := depNodes tacs;
     bv_x := zs (bsize * numOwnedNodes tacs);
     bv_x_ext := zs (bsize * numExtNodes tacs);
     bv_x_dep := zs (bsize * numDependentNodes tacs) |}.

(** [TACSAssembler::createVec()]. *)
Definition createVec (ops : BVecOps) (tacs : TACSAssembler)
  : option TACSBVec * TACSAssembler * list Msg :=
  if negb (meshInitializedFlag tacs) then
    (None, tacs,
     [(mpiRank tacs, "Cannot call createVec() before initialize()"%string)])
  else
    (Some (new_TACSBVec ops tacs (varsPerNode tacs) (Some (bcMap tacs))),
     tacs, []).

(** [DistMat]: what the constructor is given. *)
Record DistMat : Type := {
  dm_ownerRange : list Z;
  dm_bsize : Z;
  dm_numNodes : Z;
  dm_rowp : list Z;
  dm_cols : list Z;
  dm_indices : list Z;
  dm_bcMap : list BCEntry
}.

(** [TACSAssembler::createMat()]. *)
Definition createMat (tacs : TACSAssembler)
  : option DistMat * TACSAssembler * list Msg :=
  if negb (meshInitializedFlag tacs) then
    (None, tacs,
     [(mpiRank tacs, "Cannot call createMat() before initialize()"%string)])
  else
    (* create the DistMat indices if they do not already exist *)
    let tacs :=
      match distMatIndices tacs with
      | Some _ => tacs
      | None =>
          let indices :=
            for_ 0 (numNodes tacs)
              (fun i indices => aset indices i (getGlobalNodeNum tacs i))
              (zeros (numNodes tacs)) in
          set_distMatIndices tacs (Some indices)
      end in
    let csr := computeLocalNodeToNodeCSR tacs 0 in
    let dmat :=
      {| dm_ownerRange := ownerRange tacs;
         dm_bsize := varsPerNode tacs;
         dm_numNodes := numNodes tacs;
         dm_rowp := fst csr;
         dm_cols := snd csr;
         dm_indices := deref (distMatIndices tacs);
         dm_bcMap := bcMap tacs |} in
    (Some dmat, tacs, []).

(** ** Design variables *)

(** [auxElements->getDesignVarRange(lb, ub, numDVs)]: every auxiliary
    element in turn. *)
Definition aux_getDesignVarRange (aux : list TACSAuxElem)
  (lb ub : list TacsScalar) (numDVs : Z) : list TacsScalar * list TacsScalar :=
  fold_left
    (fun b a => getDesignVarRange_of (elem a) (fst b) (snd b) numDVs)
    aux (lb, ub).

(** [TACSAssembler::getDesignVarRange(lb, ub, numDVs)]: the arrays [lb] and
    [ub] after the call. *)
Definition getDesignVarRange (tacs : TACSAssembler)
  (lb ub : list TacsScalar) (numDVs : Z) : list TacsScalar * list TacsScalar :=
  let els := deref (elements tacs) in
  let b :=
    for_ 0 (numElements tacs)
      (fun i b =>
         getDesignVarRange_of (element_at els i) (fst b) (snd b) numDVs)
      (lb, ub) in
  match auxElements tacs with
  | Some aux => aux_getDesignVarRange aux (fst b) (snd b) numDVs
  | None => b
  end.

(** ** Residual assembly *)

(** Modelled from the spec: [TACSAuxElements::sort] is not among the
    sources. It orders the auxiliary elements by the number of the element
    they are attached to, keeping the order of those of one element. *)
Fixpoint aux_insert (a : TACSAuxElem) (l : list TACSAuxElem)
  : list TACSAuxElem :=
  match l with
  | [] => [a]
  | b :: r => if num a <? num b then a :: l else b :: aux_insert a r
  end.

Definition aux_sort (l : list TACSAuxElem) : list TACSAuxElem :=
  fold_right aux_insert [] l.

Definition null_aux : TACSAuxElem := {| num := 0; elem := null_element |}.

(** The scratch arrays of one element after the gather. *)
Record ElemData : Type := {
  ed_len : Z;
  ed_nodes : list Z;
  ed_xpts : list TacsScalar;
  ed_vars : list TacsScalar;
  ed_dvars : list TacsScalar;
  ed_ddvars : list TacsScalar
}.

Definition getv (ops : BVecOps) (v : option TACSBVec) (len : Z)
  (nodes : list Z) : list TacsScalar :=
  match v with Some v => getValues ops v len nodes | None => [] end.

(** The gather of element [i]: [getValues] on the four state vectors. *)
Definition gather (ops : BVecOps) (tacs : TACSAssembler) (i : Z) : ElemData :=
  let eni := deref (elementNodeIndex tacs) in
  let ptr := geti eni i in
  let len := geti eni (i + 1) - ptr in
  let nodes := slice (deref (elementTacsNodes tacs)) ptr (ptr + len) in
  {| ed_len := len; ed_nodes := nodes;
     ed_xpts := getv ops (xptVec tacs) len nodes;
     ed_vars := getv ops (varsVec tacs) len nodes;
     ed_dvars := getv ops (dvarsVec tacs) len nodes;
     ed_ddvars := getv ops (ddvarsVec tacs) len nodes |}.

Definition add_residual_of (tacs : TACSAssembler) (e : TACSElement)
  (ed : ElemData) (elemRes : list TacsScalar) : list TacsScalar :=
  addResidual e (time tacs) elemRes (ed_xpts ed) (ed_vars ed) (ed_dvars ed)
    (ed_ddvars ed).

(** [memset(elemRes, 0, nvars*sizeof(TacsScalar));
     elements[i]->addResidual(time, elemRes, elemXpts, vars, dvars, ddvars);] *)
Definition element_residual (ops : BVecOps) (tacs : TACSAssembler) (i : Z)
  (ed : ElemData) : list TacsScalar :=
  let e := element_at (deref (elements tacs)) i in
  let nvars := numVariables e in
  let elemRes := repeat (scalar_zero ops) (Z.to_nat nvars) in
  add_residual_of tacs e ed elemRes.

(** [while (aux_count < naux && aux[aux_count].num == i){
       aux[aux_count].elem->addResidual(...); aux_count++; }] *)
Fixpoint aux_loop (fuel : nat) (tacs : TACSAssembler)
  (aux : list TACSAuxElem) (naux i : Z) (ed : ElemData)
  (st : list TacsScalar * Z) : list TacsScalar * Z :=
  match fuel with
  | O => st
  | S fuel' =>
      let aux_count := snd st in
      if (aux_count <? naux) && (num (aget null_aux aux aux_count) =? i) then
        aux_loop fuel' tacs aux naux i ed
          (add_residual_of tacs (elem (aget null_aux aux aux_count)) ed (fst st),
           aux_count + 1)
      else st
  end.

(** The serial element loop of [assembleRes]: the residual vector and
    [aux_count] after the loop. *)
Definition assembleRes_serial (ops : BVecOps) (tacs : TACSAssembler)
  (residual : TACSBVec) : TACSBVec * Z :=
  let aux := deref (auxElements tacs) in
  let naux := Z.of_nat (length aux) in
  for_ 0 (numElements tacs)
    (fun i st =>
       let ed := gather ops tacs i in
       let elemRes := element_residual ops tacs i ed in
       let r :=
         aux_loop (S (Z.to_nat naux)) tacs aux naux i ed (elemRes, snd st) in
       (setValues_ADD ops (fst st) (ed_len ed) (ed_nodes ed) (fst r), snd r))
    (residual, 0).

(** Modelled from the spec: the worker [TACSAssembler::assembleRes_thread]
    is not among the sources. Each worker takes the next unassigned element
    under the mutex, computes the residual of the element and of the
    auxiliary elements attached to it, and adds it to the residual vector
    under the mutex. [sched] is the order in which the elements are added,
    which the scheduler decides. *)
Definition assembleRes_threaded (ops : BVecOps) (tacs : TACSAssembler)
  (sched : list Z) (residual : TACSBVec) : TACSBVec :=
  let aux := deref (auxElements tacs) in
  fold_left
    (fun res i =>
       let ed := gather ops tacs i in
       let elemRes := element_residual ops tacs i ed in
       let elemRes :=
         fold_left (fun r a => add_residual_of tacs (elem a) ed r)
           (filter (fun a => num a =? i) aux) elemRes in
       setValues_ADD ops res (ed_len ed) (ed_nodes ed) elemRes)
    sched residual.

(** [TACSAssembler::assembleRes(residual)]: the assembler and the residual
    vector after the call. *)
Definition assembleRes (ops : BVecOps) (tacs : TACSAssembler)
  (sched : list Z) (residual : TACSBVec) : TACSAssembler * TACSBVec :=
  (* auxElements->sort() *)
  let tacs := set_auxElements tacs (option_map aux_sort (auxElements tacs)) in
  (* zero the residual *)
  let residual := zeroEntries ops residual in
  let residual :=
    if numThreads tacs >? 1 then assembleRes_threaded ops tacs sched residual
    else fst (assembleRes_serial ops tacs residual) in
  (* finish transmitting the residual *)
  let residual := beginSetValues_ADD ops residual in
  let residual := endSetValues_ADD ops residual in
  (* apply the boundary conditions *)
  let residual := applyBCs ops residual (varsVec tacs) in
  (tacs, residual).

(** ** Construction *)

(** [TACSAssembler::TACSAssembler(tacs_comm, varsPerNode, numOwnedNodes,
    numElements, numDependentNodes)]. The rank and size of the
    communicator, and the ownership ranges that [TACSVarMap] gathers from
    all processes, are given. *)
Definition new_TACSAssembler (rank size : Z) (ranges : list Z)
  (t0 : TacsScalar) (_varsPerNode _numOwnedNodes _numElements
  _numDependentNodes : Z) : TACSAssembler :=
  {| mpiRank := rank;
     mpiSize := size;
     varsPerNode := _varsPerNode;
     numElements := _numElements;
     numOwnedNodes := _numOwnedNodes;
     numDependentNodes := _numDependentNodes;
     numExtNodes := 0;
     numNodes := 0;
     extNodeOffset := 0;
     meshInitializedFlag := false;
     numThreads := 1;
     time := t0;
     elements := None;
     auxElements := None;
     ownerRange := ranges;
     bcMap := [];
     varsVec := None;
     dvarsVec := None;
     ddvarsVec := None;
     xptVec := None;
     tacsExtNodeNums := None;
     extDistIndices := None;
     newNodeIndices := None;
     distMatIndices := None;
     elementNodeIndex := None;
     elementTacsNodes := None;
     depNodes := None |}.

(** ** Vocabulary of the node numbering *)

(** The test [nodes[i] >= ownerRange[mpiRank] &&
    nodes[i] < ownerRange[mpiRank+1]]. *)
Definition ownedb (tacs : TACSAssembler) (g : Z) : bool :=
  (g >=? geti (ownerRange tacs) (mpiRank tacs)) &&
  (g <? geti (ownerRange tacs) (mpiRank tacs + 1)).

(** The global node [g] is owned by this process. *)
Definition owned (tacs : TACSAssembler) (g : Z) : Prop :=
  geti (ownerRange tacs) (mpiRank tacs) <= g <
  geti (ownerRange tacs) (mpiRank tacs + 1).

(** [TACSVarMap] is built from [numOwnedNodes]: the block of this process
    in [ownerRange] has that many nodes. *)
Definition varMap_consistent (tacs : TACSAssembler) : Prop :=
  geti (ownerRange tacs) (mpiRank tacs + 1) =
  geti (ownerRange tacs) (mpiRank tacs) + numOwnedNodes tacs /\
  0 <= numOwnedNodes tacs.

(** [g] occurs in the element connectivity. *)
Definition in_connectivity (tacs : TACSAssembler) (g : Z) : Prop :=
  exists i, 0 <= i < geti (deref (elementNodeIndex tacs)) (numElements tacs) /\
            geti (deref (elementTacsNodes tacs)) i = g.

(** [g] occurs in the parent list of a dependent node. *)
Definition in_dep_parents (tacs : TACSAssembler) (g : Z) : Prop :=
  exists d i, depNodes tacs = Some d /\
              0 <= i < geti (depNodePtr d) (numDependentNodes tacs) /\
              geti (depNodeConn d) i = g.

(** The external node list [ext] has been computed: the state that
    [computeExtNodes] leaves behind and that [initialize] keeps. *)
Definition ExtNodesComputed (tacs : TACSAssembler) (ext : list Z) : Prop :=
  ext_nodes tacs = Some ext /\
  StronglySorted Z.lt ext /\
  (forall g, In g ext -> 0 <= g /\ ~ owned tacs g) /\
  numExtNodes tacs = Z.of_nat (length ext) /\
  extNodeOffset tacs =
    Z.of_nat (length (filter
      (fun g => g <? geti (ownerRange tacs) (mpiRank tacs)) ext)) /\
  numNodes tacs = numOwnedNodes tacs + numExtNodes tacs.

(** ** Vocabulary of the adjacency structures *)

(** The local numbers of the parents of the dependent node with the
    (negative) number [node]. *)
Definition dep_parents (tacs : TACSAssembler) (node : Z) : list Z :=
  let depNodePtr := fst (getDepNodes tacs) in
  let depNodeConn := snd (getDepNodes tacs) in
  map (fun kp => getLocalNodeNum tacs (geti depNodeConn kp))
      (range (geti depNodePtr (- node - 1)) (geti depNodePtr (- node - 1 + 1))).

(** An entry of the connectivity as local nodes: the node itself, or the
    parents of a dependent node. *)
Definition expand_node (tacs : TACSAssembler) (node : Z) : list Z :=
  if node >=? 0 then [getLocalNodeNum tacs node] else dep_parents tacs node.

(** The entries of the connectivity of element [e]. *)
Definition element_nodes (tacs : TACSAssembler) (e : Z) : list Z :=
  map (geti (deref (elementTacsNodes tacs)))
      (range (geti (deref (elementNodeIndex tacs)) e)
             (geti (deref (elementNodeIndex tacs)) (e + 1))).

(** The local nodes of element [e] after every dependent node has been
    replaced by its parents. *)
Definition element_local_nodes (tacs : TACSAssembler) (e : Z) : list Z :=
  flat_map (expand_node tacs) (element_nodes tacs e).

(** All pairs (element, local node of the element), in the order in which
    the loops over the connectivity meet them. *)
Definition incidences (tacs : TACSAssembler) : list (Z * Z) :=
  flat_map (fun e => map (pair e) (element_local_nodes tacs e))
           (range 0 (numElements tacs)).

(** Row [i] of a CSR structure: [cols[rowp[i]], ..., cols[rowp[i+1]-1]]. *)
Definition csr_row (csr : list Z * list Z) (i : Z) : list Z :=
  map (geti (snd csr)) (range (geti (fst csr) i) (geti (fst csr) (i + 1))).

(** The arrays [rowp], [cols] hold the rows [rows 0, ..., rows (n-1)] one
    after the other. *)
Definition is_csr (n : Z) (rowp cols : list Z) (rows : Z -> list Z) : Prop :=
  Z.of_nat (length rowp) = n + 1 /\
  geti rowp 0 = 0 /\
  (forall k, 0 <= k < n ->
     0 <= geti rowp k /\
     geti rowp k <= geti rowp (k + 1) <= Z.of_nat (length cols) /\
     slice cols (geti rowp k) (geti rowp (k + 1)) = rows k).

(** What [SortAndUniquifyCSR] makes of row [k]. *)
Definition sorted_row (remove_diag k : Z) (row : list Z) : list Z :=
  let u := FElibrary.sort_unique row in
  if remove_diag =? 0 then u else filter (fun c => negb (c =? k)) u.

(** Every node that the connectivity refers to is known on this process:
    a node number resolves to a local node, a dependent node has its row
    in the table of dependent nodes, and the parents in that row resolve
    to local nodes. *)
Definition connectivity_resolved (tacs : TACSAssembler) : Prop :=
  0 <= numNodes tacs /\
  (forall e, 0 <= e < numElements tacs ->
     geti (deref (elementNodeIndex tacs)) e <=
     geti (deref (elementNodeIndex tacs)) (e + 1)) /\
  (forall e node, 0 <= e < numElements tacs ->
     In node (element_nodes tacs e) -> node < 0 ->
     exists d, depNodes tacs = Some d /\
               geti (depNodePtr d) (- node - 1) <=
               geti (depNodePtr d) (- node - 1 + 1)) /\
  (forall e n, 0 <= e < numElements tacs ->
     In n (element_local_nodes tacs e) -> 0 <= n < numNodes tacs).

(** [psum c k] is [c 0 + ... + c (k-1)]. *)
Definition psum (c : Z -> Z) (k : Z) : Z :=
  fold_left Z.add (map c (range 0 k)) 0.

(** The number of entries of [l] equal to [k]. *)
Definition count_eq (l : list Z) (k : Z) : Z :=
  Z.of_nat (length (filter (fun n => n =? k) l)).

(** The state [(cur, arr)] of the loop that fills the buckets of the
    incidences [P], after the incidences [P1]: bucket [k] starts at the
    prefix sum of the bucket sizes and holds the elements met so far. *)
Definition FillInv (n : Z) (P P1 : list (Z * Z)) (st : list Z * list Z)
  : Prop :=
  let base := psum (count_eq (map snd P)) in
  Z.of_nat (length (fst st)) = n + 1 /\
  Z.of_nat (length (snd st)) = base n /\
  (forall k, 0 <= k < n ->
     geti (fst st) k = base k + count_eq (map snd P1) k) /\
  (forall k, 0 <= k < n ->
     slice (snd st) (base k) (base k + count_eq (map snd P1) k) =
     map fst (filter (fun x => snd x =? k) P1)).

(** The elements that contain the local node [k], in increasing order. *)
Definition node_elements (tacs : TACSAssembler) (k : Z) : list Z :=
  FElibrary.sort_unique
    (map fst (filter (fun x => snd x =? k) (incidences tacs))).

(** The local nodes of all elements that contain the local node [k], one
    element after the other. *)
Definition node_neighbours (tacs : TACSAssembler) (k : Z) : list Z :=
  flat_map (element_local_nodes tacs) (node_elements tacs k).

(** The sum of a list. *)
Definition zsum (l : list Z) : Z := fold_left Z.add l 0.

(** [cols[row] = n; row++] *)
Definition write_next (rc : Z * list Z) (n : Z) : Z * list Z :=
  (fst rc + 1, aset (snd rc) (fst rc) n).

(** The rows [rows 0, ..., rows (k-1)] one after the other. *)
Definition rows_upto (rows : Z -> list Z) (k : Z) : list Z :=
  flat_map rows (range 0 k).

(** ** Vocabulary of the reordering *)

(** The local index [i] is the index of an owned node. *)
Definition owned_local (tacs : TACSAssembler) (i : Z) : Prop :=
  extNodeOffset tacs <= i < extNodeOffset tacs + numOwnedNodes tacs.

(** The first [n] entries of [v] are a permutation of [0, ..., n-1]. *)
Definition is_permutation_array (n : Z) (v : list Z) : Prop :=
  (forall k, 0 <= k < n -> 0 <= geti v k < n) /\
  (forall k k', 0 <= k < n -> 0 <= k' < n -> geti v k = geti v k' -> k = k') /\
  (forall t, 0 <= t < n -> exists k, 0 <= k < n /\ geti v k = t).

(** Every ordering package returns a permutation of the variables. *)
Definition backends_valid (be : OrderingBackends) : Prop :=
  forall n rowp cols, 0 <= n ->
    is_permutation_array n (ComputeRCMOrder be n rowp cols) /\
    is_permutation_array n (amd_order be n rowp cols) /\
    is_permutation_array n (snd (METIS_NodeND be n rowp cols)) /\
    is_permutation_array n (amd_order_interface be n rowp cols).

(** The indices in [lo, hi) at which the array [r] is not negative. *)
Definition nonneg_indices (r : list Z) (lo hi : Z) : list Z :=
  filter (fun i => geti r i >=? 0) (range lo hi).

(** The indices in [lo, hi) at which the array [r] is negative. *)
Definition neg_indices (r : list Z) (lo hi : Z) : list Z :=
  filter (fun i => geti r i <? 0) (range lo hi).

(** ** Vocabulary of the set-up calls *)

(** Entry [j] of element [i] in the connectivity [conn], [ptr] is a node
    number out of range. *)
Definition node_out_of_range (tacs : TACSAssembler) (conn ptr : list Z)
  (i j : Z) : Prop :=
  0 <= i < numElements tacs /\
  geti ptr i <= j < geti ptr (i + 1) /\
  j < geti ptr (numElements tacs) /\
  (geti conn j >= geti (ownerRange tacs) (mpiSize tacs) \/
   geti conn j < - numDependentNodes tacs).

(** The sizes in [ptr] agree with the elements that are set. *)
Definition sizes_match (tacs : TACSAssembler) (ptr : list Z) : Prop :=
  forall els i, elements tacs = Some els -> 0 <= i < numElements tacs ->
                geti ptr (i + 1) - geti ptr i = numNodes_of (element_at els i).

(** The statement that a connectivity with a node out of range is refused
    without a trace: an error is reported and the stored connectivity is
    the one from before the call. *)
Definition refused_without_trace (tacs : TACSAssembler) (conn ptr : list Z)
  : Prop :=
  let r := setElementConnectivity tacs conn ptr in
  snd r <> [] /\
  elementNodeIndex (snd (fst r)) = elementNodeIndex tacs /\
  elementTacsNodes (snd (fst r)) = elementTacsNodes tacs.

(** Parent [jp] of dependent node [i] in the table [ptr], [conn] is itself
    a dependent node or is at or above the global node count. *)
Definition bad_parent (tacs : TACSAssembler) (ptr conn : list Z) (i jp : Z)
  : Prop :=
  0 <= i < numDependentNodes tacs /\
  geti ptr i <= jp < geti ptr (i + 1) /\
  (geti conn jp < 0 \/ geti conn jp >= geti (ownerRange tacs) (mpiSize tacs)).

(** Every parent in the table [ptr], [conn] is an independent node in
    range. *)
Definition parents_independent (tacs : TACSAssembler) (ptr conn : list Z)
  : Prop :=
  forall i jp, 0 <= i < numDependentNodes tacs ->
               geti ptr i <= jp < geti ptr (i + 1) ->
               0 <= geti conn jp < geti (ownerRange tacs) (mpiSize tacs).

(** The offsets of a table with [n] rows end at [ptr[n]]. *)
Definition offsets_bounded (n : Z) (ptr : list Z) : Prop :=
  forall i, 0 <= i < n -> geti ptr (i + 1) <= geti ptr n.

(** The stored dependent-node table is flat: no dependent node has a
    dependent node among its parents. *)
Definition dep_table_flat (tacs : TACSAssembler) : Prop :=
  forall d, depNodes tacs = Some d ->
            parents_independent tacs (depNodePtr d) (depNodeConn d).

(** The statement that [setDependentNodes] stores every table whose
    parents are independent nodes in range, and returns 0. *)
Definition stores_valid_table (tacs : TACSAssembler)
  (ptr conn : list Z) (w : list TacsScalar) : Prop :=
  parents_independent tacs ptr conn ->
  let r := setDependentNodes tacs ptr conn w in
  fst (fst r) = 0 /\
  option_map depNodeConn (depNodes (snd (fst r))) =
  Some (memcpy conn (geti ptr (numDependentNodes tacs))).

(** ** Vocabulary of the residual assembly *)

(** The residual of element [i] together with the residuals of the
    auxiliary elements attached to element [i]. *)
Definition element_contribution (ops : BVecOps) (tacs : TACSAssembler)
  (i : Z) : list TacsScalar :=
  let ed := gather ops tacs i in
  fold_left (fun r a => add_residual_of tacs (elem a) ed r)
    (filter (fun a => num a =? i) (deref (auxElements tacs)))
    (element_residual ops tacs i ed).

(** The contribution of element [i] added into the vector [res]. *)
Definition add_element (ops : BVecOps) (tacs : TACSAssembler)
  (res : TACSBVec) (i : Z) : TACSBVec :=
  let ed := gather ops tacs i in
  setValues_ADD ops res (ed_len ed) (ed_nodes ed)
    (element_contribution ops tacs i).

(** The order of [TACSAuxElements::sort]. *)
Definition aux_le (a b : TACSAuxElem) : Prop := num a <= num b.

(** Two vectors that differ at most in the values of their entries. *)
Definition same_layout (v w : TACSBVec) : Prop :=
  bv_ownerRange v = bv_ownerRange w /\
  bv_bsize v = bv_bsize w /\
  bv_bcMap v = bv_bcMap w /\
  bv_extDist v = bv_extDist w /\
  bv_depNodes v = bv_depNodes w /\
  length (bv_x v) = length (bv_x w) /\
  length (bv_x_ext v) = length (bv_x_ext w) /\
  length (bv_x_dep v) = length (bv_x_dep w).

(** The order in which [assembleRes] adds the elements. *)
Definition element_order (tacs : TACSAssembler) (sched : list Z) : list Z :=
  if numThreads tacs >? 1 then sched else range 0 (numElements tacs).

End Assembler.

Arguments TACSElement : clear implicits.
Arguments TACSAuxElem : clear implicits.
Arguments TACSBVecDepNodes : clear implicits.
Arguments BCEntry : clear implicits.
Arguments TACSBVec : clear implicits.
Arguments TACSAssembler : clear implicits.
Arguments OrderingBackends : clear implicits.
Arguments BVecOps : clear implicits.
Arguments DistMat : clear implicits.
Arguments ElemData : clear implicits.

(** ** Example meshes *)

(** The second process of a chain of five nodes on two processes: process 0
    owns the nodes 0, 1, 2 and process 1 the nodes 3, 4. Process 1 has the
    elements (2, 3) and (3, d), where the dependent node d hangs between
    the nodes 2 and 4. *)
Definition mesh1 : TACSAssembler Z := new_TACSAssembler 1 2 [0; 3; 5] 0 1 2 2 1.
Definition mesh1_ptr : list Z := [0; 2; 4].
Definition mesh1_conn : list Z := [2; 3; 3; -1].

Definition mesh1_connected : TACSAssembler Z :=
  snd (fst (setElementConnectivity mesh1 mesh1_conn mesh1_ptr)).

Definition mesh1_dep : TACSAssembler Z :=
  snd (fst (setDependentNodes mesh1_connected [0; 2] [2; 4] [1; 1])).

Definition mesh1_ext : TACSAssembler Z :=
  snd (fst (computeExtNodes mesh1_dep)).

Definition mesh1_initialized : TACSAssembler Z :=
  set_initialized mesh1_ext true None (tacsExtNodeNums mesh1_ext).

(** Two processes with one element each; the elements give different
    bounds for design variable 0. *)
Definition dv_element (lo hi : Z) : TACSElement Z :=
  {| elementName := "dv"%string; numNodes_of := 2; numVariables := 2;
     numDisplacements := 1;
     addResidual := fun _ res _ _ _ _ => map (fun r => r + 1) res;
     getDesignVarRange_of := fun lb ub _ => (aset lb 0 lo, aset ub 0 hi);
     getDesignVars_of := fun dvs _ => dvs |}.

Definition dv_rank0 : TACSAssembler Z :=
  set_elements (new_TACSAssembler 0 2 [0; 3; 5] 0 1 3 1 0)
    (Some [dv_element 1 5]).

Definition dv_rank1 : TACSAssembler Z :=
  set_elements (new_TACSAssembler 1 2 [0; 3; 5] 0 1 2 1 0)
    (Some [dv_element 2 4]).

Definition max_of (l : list Z) : Z :=
  match l with [] => 0 | x :: r => fold_left Z.max r x end.

Definition min_of (l : list Z) : Z :=
  match l with [] => 0 | x :: r => fold_left Z.min r x end.

(** The reconciliation in the words of the documentation of
    [getDesignVarRange]: over all processes, the maximum of the lower
    bounds and the minimum of the upper bounds that the processes find. *)
Definition reconciled_range (procs : list (TACSAssembler Z))
  (lb ub : list Z) (numDVs : Z) : list Z * list Z :=
  let found := map (fun t => getDesignVarRange t lb ub numDVs) procs in
  (map (fun k => max_of (map (fun b => geti (fst b) k) found))
       (range 0 numDVs),
   map (fun k => min_of (map (fun b => geti (snd b) k) found))
       (range 0 numDVs)).

(** ** Example packages *)

(** A vector package on integer entries: [setValues] adds the values of the
    nodes that are not negative into the owned entries; the exchange
    between the processes is empty. *)
Definition zops : BVecOps Z :=
  {| scalar_zero := 0;
     getValues := fun v _ index => map (fun n => geti (bv_x v) n) index;
     setValues_ADD := fun v n index vals =>
       {| bv_ownerRange := bv_ownerRange v; bv_bsize := bv_bsize v;
          bv_bcMap := bv_bcMap v; bv_extDist := bv_extDist v;
          bv_depNodes := bv_depNodes v;
          bv_x := for_ 0 n
                    (fun k x =>
                       aset x (geti index k)
                         (geti x (geti index k) + geti vals k))
                    (bv_x v);
          bv_x_ext := bv_x_ext v; bv_x_dep := bv_x_dep v |};
     beginSetValues_ADD := fun v => v;
     endSetValues_ADD := fun v => v;
     applyBCs := fun v _ => v |}.

(** The ordering packages that keep the order in which they find the
    variables. *)
Definition natural_order (n : Z) : list Z :=
  for_ 0 n (fun k v => aset v k k) (zeros n).

Definition natural_backends : OrderingBackends :=
  {| ComputeRCMOrder := fun n _ _ => natural_order n;
     amd_order := fun n _ _ => natural_order n;
     METIS_NodeND := fun n _ _ => (natural_order n, natural_order n);
     amd_order_interface := fun n _ _ => natural_order n |}.

(** The exchange of process 1 of the chain: process 0 refers to node 3,
    and the new number of the external node 2 comes back as 2. *)
Definition mesh1_exchange : ReorderExchange :=
  {| mpi_recvCount := [1; 0]; mpi_recvNodes := [3]; mpi_newExtNodes := [2] |}.

(** The intervals of the external nodes of process 1 of the chain: the one
    external node belongs to process 0. *)
Definition mesh1_intervals (size : Z) (range : list Z) (n : Z) (ext : list Z)
  : list Z := [0; 1; 1].

(** A connectivity for the chain in which the last entry is no node. *)
Definition mesh1_bad_conn : list Z := [2; 3; 3; 7].

(** Process 1 of the design-variable example with one auxiliary element on
    its element, and a residual vector with entries from an earlier call. *)
Definition dv_aux : TACSAssembler Z :=
  set_auxElements
    (snd (fst (setElementConnectivity dv_rank1 [3; 4] [0; 2])))
    (Some [{| num := 0; elem := dv_element 0 0 |}]).

Definition dv_residual : TACSBVec Z :=
  {| bv_ownerRange := [0; 3; 5]; bv_bsize := 1; bv_bcMap := None;
     bv_extDist := None; bv_depNodes := None;
     bv_x := [7; 8; 9; 10; 11]; bv_x_ext := []; bv_x_dep := [] |}.

(** A closed goal on an example is decided by evaluation. *)
Ltac by_computation :=
  vm_compute; first [reflexivity | discriminate | intro; discriminate].


(** * Further calls of the assembler *)

Section AssemblerCalls.
Context {TacsScalar : Type}.

(** The members [maxElementSize], [maxElementNodes], [maxElementIndepNodes]
    of the assembler and the lengths of its scratch arrays [elementData]
    and [elementIData], which are [NULL] before [initialize()]. *)
Record ElementStorage : Type := {
  maxElementSize : Z;
  maxElementNodes : Z;
  maxElementIndepNodes : Z;
  elementData : option Z;
  elementIData : option Z
}.

(** The values that the constructor gives these members. *)
Definition new_ElementStorage : ElementStorage :=
  {| maxElementSize := 0; maxElementNodes := 0; maxElementIndepNodes := 0;
     elementData := None; elementIData := None |}.

(** Assignment of the four vectors of the assembler. *)
Definition set_vectors (tacs : TACSAssembler TacsScalar) (v dv ddv x : option (TACSBVec TacsScalar))
  : TACSAssembler TacsScalar :=
  {|
    mpiRank := mpiRank tacs;
    mpiSize := mpiSize tacs;
    varsPerNode := varsPerNode tacs;
    numElements := numElements tacs;
    numOwnedNodes := numOwnedNodes tacs;
    numDependentNodes := numDependentNodes tacs;
    numExtNodes := numExtNodes tacs;
    numNodes := numNodes tacs;
    extNodeOffset := extNodeOffset tacs;
    meshInitializedFlag := meshInitializedFlag tacs;
    numThreads := numThreads tacs;
    time := time tacs;
    elements := elements tacs;
    auxElements := auxElements tacs;
    ownerRange := ownerRange tacs;
    bcMap := bcMap tacs;
    varsVec := v;
    dvarsVec := dv;
    ddvarsVec := ddv;
    xptVec := x;
    tacsExtNodeNums := tacsExtNodeNums tacs;
    extDistIndices := extDistIndices tacs;
    newNodeIndices := newNodeIndices tacs;
    distMatIndices := distMatIndices tacs;
    elementNodeIndex := elementNodeIndex tacs;
    elementTacsNodes := elementTacsNodes tacs;
    depNodes := depNodes tacs
  |}.

(** ** [setElements] and [setAuxElements] *)

(** The loop of [setElements] over the elements: [maxElementSize] and
    [maxElementNodes] when it ends, and the message of the [return 1]
    that ends it early. *)
Fixpoint setElements_sizes (tacs : TACSAssembler TacsScalar)
  (_elements : list (TACSElement TacsScalar)) (idx : list Z)
  (maxSize maxNodes : Z) : Z * Z * option Msg :=
  match idx with
  | [] => (maxSize, maxNodes, None)
  | i :: rest =>
      let e := element_at _elements i in
      if negb (numDisplacements e =? varsPerNode tacs) then
        (maxSize, maxNodes,
         Some (mpiRank tacs,
               "Element %s does not match variables per node"%string))
      else
        let elemSize := numVariables e in
        let maxSize := if elemSize >? maxSize then elemSize else maxSize in
        let elemSize := numNodes_of e in
        let maxNodes := if elemSize >? maxNodes then elemSize else maxNodes in
        setElements_sizes tacs _elements rest maxSize maxNodes
  end.

(** [TACSAssembler::setElements(_elements)]. *)
Definition setElements (tacs : TACSAssembler TacsScalar)
  (st : ElementStorage) (_elements : list (TACSElement TacsScalar))
  : Z * TACSAssembler TacsScalar * ElementStorage * list Msg :=
  if meshInitializedFlag tacs then
    (1, tacs, st,
     [(mpiRank tacs, "Cannot call setElements() after initialize()"%string)])
  else
    (* elements[i] = _elements[i] *)
    let els := memcpy _elements (numElements tacs) in
    let tacs' := set_elements tacs (Some els) in
    let r :=
      setElements_sizes tacs _elements (range 0 (numElements tacs)) 0 0 in
    let st' :=
      {| maxElementSize := fst (fst r); maxElementNodes := snd (fst r);
         maxElementIndepNodes := maxElementIndepNodes st;
         elementData := elementData st; elementIData := elementIData st |} in
    match snd r with
    | Some m => (1, tacs', st', [m])
    | None =>
        (* if the connectivity is set, determine if it is consistent *)
        let mismatch :=
          match elementNodeIndex tacs with
          | Some eni =>
              first_some
                (fun i =>
                   let size := geti eni (i + 1) - geti eni i in
                   if negb (size =? numNodes_of (element_at els i)) then
                     Some (mpiRank tacs,
                           "Element %s does not match connectivity"%string)
                   else None)
                (range 0 (numElements tacs))
          | None => None
          end in
        match mismatch with
        | Some m => (1, tacs', st', [m])
        | None => (0, tacs', st', [])
        end
    end.

(** [TACSAssembler::setAuxElements(_aux_elems)]. *)
Definition setAuxElements (tacs : TACSAssembler TacsScalar)
  (_aux_elems : option (list (TACSAuxElem TacsScalar)))
  : TACSAssembler TacsScalar * list Msg :=
  let tacs' := set_auxElements tacs _aux_elems in
  let msgs :=
    match _aux_elems with
    | Some aux =>
        for_ 0 (Z.of_nat (length aux))
          (fun k msgs =>
             let a := aget null_aux aux k in
             let elem_ := num a in
             if negb (numVariables (element_at (deref (elements tacs)) elem_)
                      =? numVariables (elem a)) then
               msgs ++ [(mpiRank tacs,
                         "Auxiliary element sizes do not match"%string)]
             else msgs)
          []
    | None => []
    end in
  (tacs', msgs).

(** ** [initialize] *)

(** The number of independent nodes of element [i] that [initialize()]
    counts: one for a node, the length of its row for a dependent node. *)
Definition count_indep_nodes (tacs : TACSAssembler TacsScalar)
  (depNodePtr : list Z) (i : Z) : Z :=
  let eni := deref (elementNodeIndex tacs) in
  let etn := deref (elementTacsNodes tacs) in
  let jend := geti eni (i + 1) in
  for_ (geti eni i) jend
    (fun j nnodes =>
       if geti etn j >=? 0 then nnodes + 1
       else
         let dep := - geti etn j - 1 in
         nnodes + (geti depNodePtr (dep + 1) - geti depNodePtr dep))
    0.

(** [maxElementIndepNodes] as [initialize()] computes it. *)
Definition compute_maxElementIndepNodes (tacs : TACSAssembler TacsScalar)
  (st : ElementStorage) : Z :=
  let m := maxElementNodes st in
  if numDependentNodes tacs >? 0 then
    let depNodePtr := fst (getDepNodes tacs) in
    for_ 0 (numElements tacs)
      (fun i m =>
         let nnodes := count_indep_nodes tacs depNodePtr i in
         if nnodes >? m then nnodes else m)
      m
  else m.

(** The length of [elementData] that [initialize()] allocates. *)
Definition dataSize_of (TACS_SPATIAL_DIM : Z) (st : ElementStorage) : Z :=
  let dataSize :=
    maxElementIndepNodes st + 4 * maxElementSize st +
    2 * TACS_SPATIAL_DIM * maxElementNodes st in
  if TACS_SPATIAL_DIM * maxElementNodes st >? maxElementSize st then
    dataSize + TACS_SPATIAL_DIM * maxElementNodes st * maxElementSize st
  else dataSize + maxElementSize st * maxElementSize st.

(** [TACSAssembler::initialize()]. [TACS_SPATIAL_DIM] is a constant of
    TACSObject.h and [scatterExternalBCs] adds to [bcMap] what the other
    processes send; [TACSBcMap] and the exchange are not among the sources,
    so the boundary conditions after the exchange are given. *)
Definition initialize (ops : BVecOps TacsScalar) (TACS_SPATIAL_DIM : Z)
  (scatterExternalBCs :
     TACSAssembler TacsScalar -> list (BCEntry TacsScalar))
  (tacs : TACSAssembler TacsScalar) (st : ElementStorage)
  : RetVal * TACSAssembler TacsScalar * ElementStorage * list Msg :=
  if meshInitializedFlag tacs then
    (Some 1, tacs, st,
     [(mpiRank tacs, "Cannot call initialize() more than once!"%string)])
  else if (numDependentNodes tacs >? 0) && is_null (depNodes tacs) then
    (Some 1, tacs, st,
     [(mpiRank tacs, "Error: Dependent nodes not defined"%string)])
  else if is_null (elements tacs) then
    (Some 1, tacs, st,
     [(mpiRank tacs, "Error: Elements not defined"%string)])
  else if is_null (elementNodeIndex tacs) then
    (Some 1, tacs, st,
     [(mpiRank tacs, "Error: Element connectivity not defined"%string)])
  else
    (* if the external nodes have not been computed, compute them now *)
    let ext :=
      if is_null (tacsExtNodeNums tacs) then computeExtNodes tacs
      else (0, tacs, []) in
    let tacs := snd (fst ext) in
    let msgs := snd ext in
    let maxIndep := compute_maxElementIndepNodes tacs st in
    (* meshInitializedFlag = 1; extDistIndices takes the array of
       tacsExtNodeNums; tacsExtNodeNums = NULL *)
    let tacs := set_initialized tacs true None (tacsExtNodeNums tacs) in
    let tacs := set_bcMap tacs (scatterExternalBCs tacs) in
    (* allocate the vectors *)
    let vec := fst (fst (createVec ops tacs)) in
    let xpt := Some (new_TACSBVec ops tacs TACS_SPATIAL_DIM None) in
    let tacs := set_vectors tacs vec vec vec xpt in
    let st :=
      {| maxElementSize := maxElementSize st;
         maxElementNodes := maxElementNodes st;
         maxElementIndepNodes := maxIndep;
         elementData := elementData st; elementIData := elementIData st |} in
    (* allocate memory for the working arrays *)
    let st :=
      {| maxElementSize := maxElementSize st;
         maxElementNodes := maxElementNodes st;
         maxElementIndepNodes := maxElementIndepNodes st;
         elementData := Some (dataSize_of TACS_SPATIAL_DIM st);
         elementIData :=
           Some (maxElementIndepNodes st + maxElementNodes st + 1) |} in
    (None, tacs, st, msgs).

(** ** The scratch array *)

(** [TACSAssembler::getDataPointers(data, &v1, &v2, &v3, &v4, &x1, &x2,
    &weights, &mat)]: the offset in [data] of every pointer that is asked
    for; an argument is [true] when the pointer passed is not [NULL]. *)
Definition getDataPointers (TACS_SPATIAL_DIM : Z) (st : ElementStorage)
  (v1 v2 v3 v4 x1 x2 weights mat : bool) : list (option Z) :=
  let s := 0 in
  let p1 := if v1 then Some s else None in
  let s := if v1 then s + maxElementSize st else s in
  let p2 := if v2 then Some s else None in
  let s := if v2 then s + maxElementSize st else s in
  let p3 := if v3 then Some s else None in
  let s := if v3 then s + maxElementSize st else s in
  let p4 := if v4 then Some s else None in
  let s := if v4 then s + maxElementSize st else s in
  let p5 := if x1 then Some s else None in
  let s := if x1 then s + TACS_SPATIAL_DIM * maxElementNodes st else s in
  let p6 := if x2 then Some s else None in
  let s := if x2 then s + TACS_SPATIAL_DIM * maxElementNodes st else s in
  let p7 := if weights then Some s else None in
  let s := if weights then s + maxElementIndepNodes st else s in
  let p8 := if mat then Some s else None in
  [p1; p2; p3; p4; p5; p6; p7; p8].

(** The lengths of the eight segments; the last one holds the element
    matrix, of up to [maxElementSize * maxElementSize] entries, or the
    derivative of the residuals with respect to the nodes, of up to
    [TACS_SPATIAL_DIM * maxElementNodes * maxElementSize] entries. *)
Definition segment_sizes (TACS_SPATIAL_DIM : Z) (st : ElementStorage)
  : list Z :=
  [maxElementSize st; maxElementSize st; maxElementSize st;
   maxElementSize st; TACS_SPATIAL_DIM * maxElementNodes st;
   TACS_SPATIAL_DIM * maxElementNodes st; maxElementIndepNodes st;
   Z.max (maxElementSize st * maxElementSize st)
         (TACS_SPATIAL_DIM * maxElementNodes st * maxElementSize st)].

(** ** The reordering, once computed *)

(** [TACSAssembler::getReordering(oldToNew)]: the array afterwards. *)
Definition getReordering (tacs : TACSAssembler TacsScalar)
  (oldToNew : list Z) : list Z :=
  match newNodeIndices tacs with
  | Some newNodes =>
      (* memcpy(oldToNew, &newNodes[extNodeOffset], numOwnedNodes) *)
      for_ 0 (numOwnedNodes tacs)
        (fun k o => aset o k (geti newNodes (extNodeOffset tacs + k)))
        oldToNew
  | None =>
      for_ 0 (numOwnedNodes tacs)
        (fun k o => aset o k (geti (ownerRange tacs) (mpiRank tacs) + k))
        oldToNew
  end.

(** [TACSAssembler::reorderVec(vec)]: the vector afterwards. *)
Definition reorderVec (ops : BVecOps TacsScalar)
  (tacs : TACSAssembler TacsScalar) (vec : TACSBVec TacsScalar)
  : TACSBVec TacsScalar :=
  match newNodeIndices tacs with
  | Some newNodes =>
      let bsize := bv_bsize vec in
      let xold := bv_x vec in
      let x :=
        for_ 0 (numOwnedNodes tacs)
          (fun i x =>
             let node := geti newNodes (extNodeOffset tacs + i) in
             let node := node - geti (ownerRange tacs) (mpiRank tacs) in
             for_ 0 bsize
               (fun k x =>
                  aset x (bsize * node + k)
                    (aget (scalar_zero ops) xold (bsize * i + k)))
               x)
          (bv_x vec) in
      {| bv_ownerRange := bv_ownerRange vec; bv_bsize := bv_bsize vec;
         bv_bcMap := bv_bcMap vec; bv_extDist := bv_extDist vec;
         bv_depNodes := bv_depNodes vec;
         bv_x := x; bv_x_ext := bv_x_ext vec; bv_x_dep := bv_x_dep vec |}
  | None => vec
  end.

(** ** Vocabulary of the further calls *)

(** Every element has as many nodes as its row of the connectivity. *)
Definition elements_fit_connectivity (tacs : TACSAssembler TacsScalar)
  : Prop :=
  forall els eni, elements tacs = Some els ->
    elementNodeIndex tacs = Some eni ->
    forall i, 0 <= i < numElements tacs ->
      geti eni (i + 1) - geti eni i = numNodes_of (element_at els i).

(** The auxiliary element [a] has another number of variables than the
    element that it is attached to. *)
Definition aux_mismatch (tacs : TACSAssembler TacsScalar)
  (a : TACSAuxElem TacsScalar) : bool :=
  negb (numVariables (element_at (deref (elements tacs)) (num a))
        =? numVariables (elem a)).

(** What the checks of the set-up calls leave of the connectivity and of
    the table of dependent nodes: the offsets do not decrease and end at
    the last offset, every reference to a dependent node has its row in
    the table, and the parents in that row are independent nodes. *)
Definition connectivity_checked (tacs : TACSAssembler TacsScalar) : Prop :=
  let eni := deref (elementNodeIndex tacs) in
  let etn := deref (elementTacsNodes tacs) in
  (forall e, 0 <= e < numElements tacs ->
     0 <= geti eni e <= geti eni (e + 1) /\
     geti eni (e + 1) <= geti eni (numElements tacs)) /\
  (forall j, 0 <= j < geti eni (numElements tacs) ->
     - numDependentNodes tacs <= geti etn j) /\
  (forall dep, 0 <= dep < numDependentNodes tacs ->
     exists d, depNodes tacs = Some d /\
       0 <= geti (depNodePtr d) dep <= geti (depNodePtr d) (dep + 1) /\
       geti (depNodePtr d) (dep + 1) <=
         geti (depNodePtr d) (numDependentNodes tacs) /\
       forall kp, geti (depNodePtr d) dep <= kp < geti (depNodePtr d) (dep + 1) ->
                  0 <= geti (depNodeConn d) kp).

End AssemblerCalls.

Arguments ElementStorage : clear implicits.

(** ** Further examples *)

(** Two elements with two nodes, for the two elements of the chain, and a
    pair in which the second element has two displacements per node. *)
Definition chain_elements : list (TACSElement Z) :=
  [dv_element 1 5; dv_element 2 4].

Definition two_displacements : TACSElement Z :=
  {| elementName := "pair"%string; numNodes_of := 2; numVariables := 4;
     numDisplacements := 2;
     addResidual := fun _ res _ _ _ _ => res;
     getDesignVarRange_of := fun lb ub _ => (lb, ub);
     getDesignVars_of := fun dvs _ => dvs |}.

Definition chain_bad_elements : list (TACSElement Z) :=
  [dv_element 1 5; two_displacements].

(** Process 1 of the chain with connectivity, dependent nodes and
    elements, ready for [initialize()]. *)
Definition mesh1_ready : TACSAssembler Z :=
  snd (fst (fst (setElements mesh1_dep new_ElementStorage chain_elements))).

Definition mesh1_storage : ElementStorage :=
  snd (fst (setElements mesh1_dep new_ElementStorage chain_elements)).

(** No boundary conditions arrive from the other processes. *)
Definition no_external_bcs (tacs : TACSAssembler Z) : list (BCEntry Z) :=
  bcMap tacs.

Definition mesh1_started : TACSAssembler Z :=
  snd (fst (fst (initialize zops 3 no_external_bcs mesh1_ready
                   mesh1_storage))).

Definition mesh1_started_storage : ElementStorage :=
  snd (fst (initialize zops 3 no_external_bcs mesh1_ready mesh1_storage)).

(** One process with three nodes and the elements (0, 1) and (1, 2). *)
Definition serial_mesh : TACSAssembler Z :=
  snd (fst (setElementConnectivity
              (new_TACSAssembler 0 1 [0; 3] 0 1 3 2 0)
              [0; 1; 1; 2] [0; 2; 4])).

(** A vector with one value for each of the two owned nodes of process 1
    of the chain. *)
Definition mesh1_vector : TACSBVec Z :=
  {| bv_ownerRange := [0; 3; 5]; bv_bsize := 1; bv_bcMap := None;
     bv_extDist := None; bv_depNodes := None;
     bv_x := [30; 40]; bv_x_ext := []; bv_x_dep := [] |}.

(** * Part II: properties *)

(** ** Arrays and loops *)

Section ArrayFacts.
Context {A : Type}.
Implicit Types (a : list A) (d v : A).

Lemma aset_nat_length a n v : length (aset_nat a n v) = length a.
Proof.
  revert n; induction a as [|x r IH]; intros [|n]; simpl; auto.
Qed.

Lemma aset_length a i v : length (aset a i v) = length a.
Proof.
  unfold aset. destruct (i <? 0); auto using aset_nat_length.
Qed.

Lemma nth_aset_nat_eq d a n v :
  (n < length a)%nat -> nth n (aset_nat a n v) d = v.
Proof.
  revert n; induction a as [|x r IH]; intros [|n]; simpl; intros H;
    try lia; auto.
  all: try (apply IH; lia).
Qed.

Lemma nth_aset_nat_ne d a n m v :
  n <> m -> nth m (aset_nat a n v) d = nth m a d.
Proof.
  revert n m; induction a as [|x r IH]; intros [|n] [|m] H; simpl; auto;
    try congruence.
Qed.

Lemma aget_aset_eq d a i v :
  0 <= i < Z.of_nat (length a) -> aget d (aset a i v) i = v.
Proof.
  intros H. unfold aget, aset.
  destruct (Z.ltb_spec i 0); try lia.
  apply nth_aset_nat_eq. lia.
Qed.

Lemma aget_aset_ne d a i j v :
  i <> j -> aget d (aset a i v) j = aget d a j.
Proof.
  intros H. unfold aget, aset.
  destruct (Z.ltb_spec j 0); auto.
  destruct (Z.ltb_spec i 0); auto.
  apply nth_aset_nat_ne. lia.
Qed.

Lemma aget_aset d a i j v :
  0 <= i < Z.of_nat (length a) ->
  aget d (aset a i v) j = if j =? i then v else aget d a j.
Proof.
  intros H. destruct (Z.eqb_spec j i) as [->|Hne].
  - now apply aget_aset_eq.
  - apply aget_aset_ne; congruence.
Qed.

Lemma aget_aset_gen d a i k v :
  0 <= k < Z.of_nat (length a) ->
  aget d (aset a i v) k = if k =? i then v else aget d a k.
Proof.
  intros H. destruct (Z.eqb_spec k i) as [->|Hne].
  - now apply aget_aset_eq.
  - apply aget_aset_ne; congruence.
Qed.

Lemma aset_out_of_range a i v :
  i < 0 \/ Z.of_nat (length a) <= i -> aset a i v = a.
Proof.
  unfold aset. destruct (Z.ltb_spec i 0); auto.
  intros [Hi|Hi]; try lia.
  assert (Hn : (length a <= Z.to_nat i)%nat) by lia.
  revert Hn. generalize (Z.to_nat i) as n. clear.
  induction a as [|x r IH]; intros [|n]; simpl; intros; auto; try lia.
  f_equal. apply IH. lia.
Qed.

Lemma aget_nth d a (n : nat) : aget d a (Z.of_nat n) = nth n a d.
Proof.
  unfold aget. destruct (Z.ltb_spec (Z.of_nat n) 0); try lia.
  now rewrite Nat2Z.id.
Qed.

Lemma aget_app_l d a b i :
  i < Z.of_nat (length a) -> aget d (a ++ b) i = aget d a i.
Proof.
  intros H. unfold aget. destruct (Z.ltb_spec i 0); auto.
  apply app_nth1. lia.
Qed.

Lemma aget_app_r d a b i :
  Z.of_nat (length a) <= i ->
  aget d (a ++ b) i = aget d b (i - Z.of_nat (length a)).
Proof.
  intros H. unfold aget.
  destruct (Z.ltb_spec i 0); try lia.
  destruct (Z.ltb_spec (i - Z.of_nat (length a)) 0); try lia.
  rewrite app_nth2 by lia. f_equal. lia.
Qed.

Lemma aget_In d a i :
  0 <= i < Z.of_nat (length a) -> In (aget d a i) a.
Proof.
  intros H. unfold aget. destruct (Z.ltb_spec i 0); try lia.
  apply nth_In. lia.
Qed.

Lemma In_aget d a x :
  In x a -> exists i, 0 <= i < Z.of_nat (length a) /\ aget d a i = x.
Proof.
  intros H. destruct (In_nth _ _ d H) as (n & Hn & Hx).
  exists (Z.of_nat n). split; [lia|]. now rewrite aget_nth.
Qed.

Lemma slice_length a lo hi :
  0 <= lo -> lo <= hi -> hi <= Z.of_nat (length a) ->
  Z.of_nat (length (slice a lo hi)) = hi - lo.
Proof.
  intros. unfold slice. rewrite length_firstn, length_skipn. lia.
Qed.

Lemma slice_nil a lo hi : hi <= lo -> slice a lo hi = [].
Proof.
  intros H. unfold slice. replace (Z.to_nat (hi - lo)) with O by lia.
  reflexivity.
Qed.

Lemma aget_slice d a lo hi i :
  0 <= lo -> 0 <= i < hi - lo ->
  aget d (slice a lo hi) i = aget d a (lo + i).
Proof.
  intros Hlo Hi. unfold aget, slice.
  destruct (Z.ltb_spec i 0); try lia.
  destruct (Z.ltb_spec (lo + i) 0); try lia.
  rewrite nth_firstn.
  destruct (Nat.ltb_spec (Z.to_nat i) (Z.to_nat (hi - lo))); try lia.
  rewrite nth_skipn. f_equal. lia.
Qed.

Lemma slice_app_l a b lo hi :
  0 <= lo -> hi <= Z.of_nat (length a) ->
  slice (a ++ b) lo hi = slice a lo hi.
Proof.
  intros Hlo Hhi. unfold slice.
  destruct (Z.le_gt_cases hi lo) as [H|H].
  - replace (Z.to_nat (hi - lo)) with O by lia. reflexivity.
  - rewrite skipn_app, firstn_app.
    rewrite length_skipn.
    replace (Z.to_nat (hi - lo) - (length a - Z.to_nat lo))%nat with O by lia.
    simpl. now rewrite app_nil_r.
Qed.

Lemma slice_app_r a b lo hi :
  Z.of_nat (length a) <= lo ->
  slice (a ++ b) lo hi =
  slice b (lo - Z.of_nat (length a)) (hi - Z.of_nat (length a)).
Proof.
  intros Hlo. unfold slice.
  rewrite skipn_app.
  rewrite (skipn_all2 a) by lia. simpl.
  f_equal; [lia|]. f_equal. lia.
Qed.

Lemma slice_full a : slice a 0 (Z.of_nat (length a)) = a.
Proof.
  unfold slice. simpl. rewrite Z.sub_0_r, Nat2Z.id. apply firstn_all.
Qed.

Lemma firstn_plus a (n m : nat) :
  firstn (n + m) a = firstn n a ++ firstn m (skipn n a).
Proof.
  revert a; induction n as [|n IH]; intros [|x r]; simpl; auto.
  - now rewrite firstn_nil.
  - now rewrite IH.
Qed.

Lemma slice_split a lo mid hi :
  0 <= lo -> lo <= mid -> mid <= hi ->
  slice a lo hi = slice a lo mid ++ slice a mid hi.
Proof.
  intros H0 H1 H2. unfold slice.
  replace (Z.to_nat (hi - lo))
    with (Z.to_nat (mid - lo) + Z.to_nat (hi - mid))%nat by lia.
  rewrite firstn_plus. f_equal.
  rewrite skipn_skipn. do 2 f_equal. lia.
Qed.

Lemma memcpy_length a n :
  0 <= n <= Z.of_nat (length a) -> Z.of_nat (length (memcpy a n)) = n.
Proof.
  intros H. unfold memcpy. rewrite length_firstn. lia.
Qed.

Lemma aget_memcpy d a n i :
  i < n -> aget d (memcpy a n) i = aget d a i.
Proof.
  intros H. unfold aget, memcpy. destruct (Z.ltb_spec i 0); auto.
  rewrite nth_firstn.
  destruct (Nat.ltb_spec (Z.to_nat i) (Z.to_nat n)); auto. lia.
Qed.

End ArrayFacts.

Lemma zeros_length n : length (zeros n) = Z.to_nat n.
Proof. apply repeat_length. Qed.

Lemma aget_zeros n i : aget 0 (zeros n) i = 0.
Proof.
  unfold aget, zeros. destruct (i <? 0); auto.
  destruct (Nat.lt_ge_cases (Z.to_nat i) (Z.to_nat n)) as [H|H].
  - apply nth_repeat_lt; auto.
  - now apply nth_overflow; rewrite repeat_length.
Qed.

Lemma range_nil lo hi : hi <= lo -> range lo hi = [].
Proof.
  intros H. unfold range. replace (Z.to_nat (hi - lo)) with O by lia.
  reflexivity.
Qed.

Lemma range_length lo hi : length (range lo hi) = Z.to_nat (hi - lo).
Proof. unfold range. now rewrite length_map, length_seq. Qed.

Lemma In_range lo hi i : In i (range lo hi) <-> lo <= i < hi.
Proof.
  unfold range. rewrite in_map_iff. split.
  - intros (k & <- & Hk). apply in_seq in Hk. lia.
  - intros H. exists (Z.to_nat (i - lo)). split; [lia|]. apply in_seq. lia.
Qed.

Lemma range_split lo mid hi :
  lo <= mid -> mid <= hi -> range lo hi = range lo mid ++ range mid hi.
Proof.
  intros H1 H2. unfold range.
  replace (Z.to_nat (hi - lo))
    with (Z.to_nat (mid - lo) + Z.to_nat (hi - mid))%nat by lia.
  rewrite seq_app, map_app. f_equal.
  assert (forall m s,
            map (fun k => lo + Z.of_nat k) (seq (Z.to_nat (mid - lo) + s) m) =
            map (fun k => mid + Z.of_nat k) (seq s m)) as Hshift.
  { induction m as [|m IH]; intros s; simpl; auto.
    f_equal; [lia|]. rewrite <- IH. do 2 f_equal. lia. }
  specialize (Hshift (Z.to_nat (hi - mid)) O).
  now rewrite Nat.add_0_r in Hshift.
Qed.

Lemma range_one lo : range lo (lo + 1) = [lo].
Proof.
  unfold range. replace (Z.to_nat (lo + 1 - lo)) with 1%nat by lia.
  simpl. f_equal. lia.
Qed.

Lemma range_cons lo hi : lo < hi -> range lo hi = lo :: range (lo + 1) hi.
Proof.
  intros H. rewrite (@range_split lo (lo + 1) hi) by lia.
  now rewrite range_one.
Qed.

Lemma range_snoc lo hi : lo <= hi -> range lo (hi + 1) = range lo hi ++ [hi].
Proof.
  intros H. rewrite (@range_split lo hi (hi + 1)) by lia.
  now rewrite range_one.
Qed.

Lemma NoDup_range lo hi : NoDup (range lo hi).
Proof.
  unfold range. generalize (Z.to_nat (hi - lo)) as n. generalize O as s.
  intros s n; revert s; induction n as [|n IH]; intros s; simpl;
    constructor; auto.
  rewrite in_map_iff. intros (k & Hk & Hin). apply in_seq in Hin. lia.
Qed.

Lemma map_aget_range {A : Type} (d : A) (a : list A) lo hi :
  0 <= lo -> hi <= Z.of_nat (length a) ->
  map (aget d a) (range lo hi) = slice a lo hi.
Proof.
  intros Hlo Hhi.
  destruct (Z.le_gt_cases hi lo) as [H|H].
  { now rewrite range_nil, slice_nil by lia. }
  apply nth_ext with (d := d) (d' := d).
  - rewrite length_map, range_length.
    apply Nat2Z.inj. rewrite slice_length by lia. lia.
  - intros n Hn. rewrite length_map, range_length in Hn.
    rewrite <- (aget_nth d (slice a lo hi)).
    rewrite aget_slice by lia.
    unfold range. rewrite map_map.
    rewrite nth_indep with (d' := (fun k => aget d a (lo + Z.of_nat k)) O)
      by (rewrite length_map, length_seq; lia).
    rewrite map_nth with (f := fun k => aget d a (lo + Z.of_nat k)).
    rewrite seq_nth by lia. reflexivity.
Qed.

Section LoopFacts.
Context {S : Type}.
Implicit Types (body : Z -> S -> S) (s : S).

Lemma for_nil lo hi body s : hi <= lo -> for_ lo hi body s = s.
Proof. intros H. unfold for_. now rewrite range_nil. Qed.

Lemma for_split lo mid hi body s :
  lo <= mid -> mid <= hi ->
  for_ lo hi body s = for_ mid hi body (for_ lo mid body s).
Proof.
  intros H1 H2. unfold for_.
  now rewrite (@range_split lo mid hi), fold_left_app.
Qed.

Lemma for_snoc lo hi body s :
  lo <= hi -> for_ lo (hi + 1) body s = body hi (for_ lo hi body s).
Proof.
  intros H. unfold for_. rewrite range_snoc, fold_left_app by lia.
  reflexivity.
Qed.

Lemma for_cons lo hi body s :
  lo < hi -> for_ lo hi body s = for_ (lo + 1) hi body (body lo s).
Proof.
  intros H. unfold for_. now rewrite range_cons.
Qed.

Lemma for_ext lo hi body body' s :
  (forall i s', lo <= i < hi -> body i s' = body' i s') ->
  for_ lo hi body s = for_ lo hi body' s.
Proof.
  intros H. unfold for_.
  assert (Hin : forall i, In i (range lo hi) -> lo <= i < hi)
    by (intros i; apply In_range).
  revert s Hin. induction (range lo hi) as [|x r IH]; intros s Hin; simpl; auto.
  rewrite H by (apply Hin; now left).
  apply IH. intros i Hi. apply Hin. now right.
Qed.

(** Loop invariants: [P i s] holds before the iteration with index [i]. *)
Lemma for_invariant (P : Z -> S -> Prop) lo hi body s :
  lo <= hi ->
  P lo s ->
  (forall i s', lo <= i < hi -> P i s' -> P (i + 1) (body i s')) ->
  P hi (for_ lo hi body s).
Proof.
  intros Hle H0 Hstep.
  assert (forall n : nat, lo + Z.of_nat n <= hi ->
            P (lo + Z.of_nat n) (for_ lo (lo + Z.of_nat n) body s)) as Hn.
  { induction n as [|n IH]; intros Hb.
    - rewrite Z.add_0_r, for_nil by lia. assumption.
    - replace (lo + Z.of_nat (Datatypes.S n)) with (lo + Z.of_nat n + 1) by lia.
      rewrite for_snoc by lia. apply Hstep; [lia|]. apply IH. lia. }
  specialize (Hn (Z.to_nat (hi - lo))).
  replace (lo + Z.of_nat (Z.to_nat (hi - lo))) with hi in Hn by lia.
  apply Hn. lia.
Qed.

End LoopFacts.

(** A loop that reads [a[i]] and folds it into the state is a fold over
    the entries read. *)
Lemma for_fold_aget {S A : Type} (d : A) (a : list A) (f : A -> S -> S)
  lo hi (s : S) :
  for_ lo hi (fun i acc => f (aget d a i) acc) s =
  fold_left (fun acc x => f x acc) (map (aget d a) (range lo hi)) s.
Proof.
  unfold for_. generalize (range lo hi) as l. intros l. revert s.
  induction l as [|x r IH]; intros s; simpl; auto.
Qed.

Lemma fold_left_push_filter {A : Type} (p : A -> bool) (l init : list A) :
  fold_left (fun acc x => if p x then acc ++ [x] else acc) l init =
  init ++ filter p l.
Proof.
  revert init. induction l as [|x r IH]; intros init; simpl.
  - now rewrite app_nil_r.
  - rewrite IH. destruct (p x); auto. now rewrite <- app_assoc.
Qed.

Lemma first_some_None {A B : Type} (f : A -> option B) l :
  first_some f l = None <-> forall x, In x l -> f x = None.
Proof.
  induction l as [|x r IH]; simpl.
  - split; auto. intros _ x [].
  - destruct (f x) eqn:E.
    + split; [discriminate|]. intros H. rewrite <- E. apply H. now left.
    + rewrite IH. split.
      * intros H y [<-|Hy]; auto.
      * intros H y Hy. apply H. now right.
Qed.

Lemma first_some_Some {A B : Type} (f : A -> option B) l b :
  first_some f l = Some b -> exists x, In x l /\ f x = Some b.
Proof.
  induction l as [|x r IH]; simpl; [discriminate|].
  destruct (f x) eqn:E.
  - intros [= <-]. exists x. auto.
  - intros H. destruct (IH H) as (y & Hy & Hf). exists y. auto.
Qed.

Lemma first_some_hit {A B : Type} (f : A -> option B) l x :
  In x l -> f x <> None -> first_some f l <> None.
Proof.
  intros Hin Hf H. rewrite first_some_None in H. auto.
Qed.

(** ** Sorting, deduplication and binary search *)

Lemma uinsert_In x y l : In y (FElibrary.uinsert x l) <-> y = x \/ In y l.
Proof.
  induction l as [|z r IH]; simpl.
  - intuition.
  - destruct (Z.ltb_spec x z); simpl; [intuition|].
    destruct (Z.eqb_spec x z); simpl.
    + subst. intuition.
    + rewrite IH. intuition.
Qed.

Lemma uinsert_sorted x l :
  StronglySorted Z.lt l -> StronglySorted Z.lt (FElibrary.uinsert x l).
Proof.
  induction 1 as [|z r Hs IH Hall]; simpl.
  - repeat constructor.
  - destruct (Z.ltb_spec x z).
    + constructor; [now constructor|].
      constructor; auto.
      eapply Forall_impl; [|exact Hall]. simpl; intros; lia.
    + destruct (Z.eqb_spec x z); [now constructor|].
      constructor; auto.
      rewrite Forall_forall in *. intros y Hy.
      apply uinsert_In in Hy. destruct Hy as [->|Hy]; [lia|auto].
Qed.

Lemma sort_unique_In x l : In x (FElibrary.sort_unique l) <-> In x l.
Proof.
  induction l as [|y r IH]; simpl; [reflexivity|].
  rewrite uinsert_In, IH. intuition.
Qed.

Lemma sort_unique_sorted l : StronglySorted Z.lt (FElibrary.sort_unique l).
Proof.
  induction l as [|y r IH]; simpl; [constructor|].
  now apply uinsert_sorted.
Qed.

Lemma uinsert_length x l :
  (length (FElibrary.uinsert x l) <= S (length l))%nat.
Proof.
  induction l as [|z r IH]; simpl; auto.
  destruct (x <? z); simpl; auto.
  destruct (x =? z); simpl; lia.
Qed.

Lemma sort_unique_length l :
  (length (FElibrary.sort_unique l) <= length l)%nat.
Proof.
  induction l as [|y r IH]; simpl; auto.
  pose proof (uinsert_length y (FElibrary.sort_unique r)). lia.
Qed.

(** On a strictly increasing list nothing moves. *)
Lemma sort_unique_id l :
  StronglySorted Z.lt l -> FElibrary.sort_unique l = l.
Proof.
  induction 1 as [|z r Hs IH Hall]; simpl; auto.
  rewrite IH. destruct r as [|y r']; simpl; auto.
  inversion Hall; subst.
  destruct (Z.ltb_spec z y); auto; lia.
Qed.

(** The leading entries that [uniqueSort] returns are the sorted,
    duplicate-free image of the whole input when [len] is its length. *)
Lemma uniqueSort_all array :
  let '(a, n) := FElibrary.uniqueSort array (Z.of_nat (length array)) in
  memcpy a n = FElibrary.sort_unique array /\
  n = Z.of_nat (length (FElibrary.sort_unique array)).
Proof.
  unfold FElibrary.uniqueSort. rewrite Nat2Z.id, firstn_all.
  split; auto. unfold memcpy. rewrite Nat2Z.id.
  rewrite firstn_app, Nat.sub_diag, firstn_all. simpl.
  now rewrite app_nil_r.
Qed.

Lemma sorted_aget_lt l i j :
  StronglySorted Z.lt l ->
  0 <= i -> i < j -> j < Z.of_nat (length l) ->
  geti l i < geti l j.
Proof.
  intros Hs. revert i j. induction Hs as [|z r Hs IH Hall]; intros i j Hi Hij Hj.
  - simpl in Hj. lia.
  - simpl length in Hj.
    destruct (Z.eq_dec i 0) as [->|Hne].
    + change (geti (z :: r) 0) with z.
      replace j with (Z.of_nat (S (Z.to_nat (j - 1)))) by lia.
      rewrite aget_nth. simpl.
      rewrite Forall_forall in Hall. apply Hall. apply nth_In. lia.
    + replace i with (Z.of_nat (S (Z.to_nat (i - 1)))) by lia.
      replace j with (Z.of_nat (S (Z.to_nat (j - 1)))) by lia.
      rewrite !aget_nth. simpl. rewrite <- !aget_nth.
      apply IH; lia.
Qed.

Lemma sorted_aget_inj l i j :
  StronglySorted Z.lt l ->
  0 <= i < Z.of_nat (length l) -> 0 <= j < Z.of_nat (length l) ->
  geti l i = geti l j -> i = j.
Proof.
  intros Hs Hi Hj E.
  destruct (Z.lt_trichotomy i j) as [H|[H|H]]; auto.
  - pose proof (@sorted_aget_lt _ (i) (j) Hs). lia.
  - pose proof (@sorted_aget_lt _ (j) (i) Hs). lia.
Qed.

Lemma bsearch_loop_found l k fuel lo hi :
  StronglySorted Z.lt l ->
  0 <= lo -> lo <= k -> k < hi -> hi <= Z.of_nat (length l) ->
  hi - lo <= Z.of_nat fuel ->
  FElibrary.bsearch_loop fuel (geti l k) l lo hi = Some k.
Proof.
  intros Hs. revert lo hi.
  induction fuel as [|fuel IH]; intros lo hi H0 H1 H2 H3 Hf; [lia|].
  simpl. destruct (Z.ltb_spec lo hi); [|lia].
  assert (Hmid : lo <= (lo + hi) / 2 < hi).
  { split; [apply Z.div_le_lower_bound|apply Z.div_lt_upper_bound]; lia. }
  unfold FElibrary.comparator.
  destruct (Z.compare_spec (geti l k) (geti l ((lo + hi) / 2))) as [E|E|E].
  - f_equal. symmetry. apply (sorted_aget_inj Hs); auto; lia.
  - apply IH; try lia.
    destruct (Z.lt_ge_cases k ((lo + hi) / 2)) as [|Hge]; auto.
    destruct (Z.eq_dec k ((lo + hi) / 2)) as [Heq|Hne]; [rewrite <- Heq in E; lia|].
    pose proof (@sorted_aget_lt _ ((lo + hi) / 2) (k) Hs). lia.
  - apply IH; try lia.
    destruct (Z.lt_ge_cases ((lo + hi) / 2) k) as [|Hge]; [lia|].
    destruct (Z.eq_dec k ((lo + hi) / 2)) as [Heq|Hne]; [rewrite <- Heq in E; lia|].
    pose proof (@sorted_aget_lt _ (k) ((lo + hi) / 2) Hs). lia.
Qed.

(** On a strictly increasing array the search finds every entry, at its
    own index. *)
Lemma bsearch_found l k :
  StronglySorted Z.lt l ->
  0 <= k < Z.of_nat (length l) ->
  FElibrary.bsearch (geti l k) l (Z.of_nat (length l)) = Some k.
Proof.
  intros Hs Hk. unfold FElibrary.bsearch.
  apply bsearch_loop_found; auto; lia.
Qed.

Lemma bsearch_loop_sound key l fuel lo hi i :
  0 <= lo ->
  FElibrary.bsearch_loop fuel key l lo hi = Some i ->
  lo <= i < hi /\ geti l i = key.
Proof.
  revert lo hi. induction fuel as [|fuel IH]; intros lo hi H0; simpl;
    [discriminate|].
  destruct (Z.ltb_spec lo hi); [|discriminate].
  assert (Hmid : lo <= (lo + hi) / 2 < hi).
  { split; [apply Z.div_le_lower_bound|apply Z.div_lt_upper_bound]; lia. }
  unfold FElibrary.comparator.
  destruct (Z.compare_spec key (geti l ((lo + hi) / 2))) as [E|E|E].
  - intros [= <-]. auto.
  - intros H1. apply IH in H1; lia.
  - intros H1. apply IH in H1; lia.
Qed.

Lemma bsearch_sound key l n i :
  FElibrary.bsearch key l n = Some i -> 0 <= i < n /\ geti l i = key.
Proof. apply bsearch_loop_sound. lia. Qed.

(** ** The scan for [extNodeOffset] *)

Lemma filter_all_true {A : Type} (p : A -> bool) l :
  (forall x, In x l -> p x = true) -> filter p l = l.
Proof.
  induction l as [|x r IH]; simpl; intros H; auto.
  rewrite H by auto. f_equal. auto.
Qed.

Lemma filter_all_false {A : Type} (p : A -> bool) l :
  (forall x, In x l -> p x = false) -> filter p l = [].
Proof.
  induction l as [|x r IH]; simpl; intros H; auto.
  rewrite H by auto. auto.
Qed.

(** In a strictly increasing list, the entries below [lo] are a prefix. *)
Lemma sorted_count_below ext lo r :
  StronglySorted Z.lt ext ->
  0 <= r <= Z.of_nat (length ext) ->
  (forall i, 0 <= i < r -> geti ext i < lo) ->
  (r < Z.of_nat (length ext) -> lo <= geti ext r) ->
  Z.of_nat (length (filter (fun g => g <? lo) ext)) = r.
Proof.
  intros Hs Hr Hbelow Hat.
  rewrite <- (firstn_skipn (Z.to_nat r) ext) at 1.
  rewrite filter_app, length_app.
  rewrite filter_all_true, filter_all_false.
  - rewrite length_firstn. simpl. lia.
  - intros x Hx. apply (In_aget 0) in Hx. destruct Hx as (i & Hi & <-).
    rewrite length_skipn in Hi.
    unfold aget at 1. destruct (Z.ltb_spec i 0); [lia|].
    rewrite nth_skipn.
    replace (Z.to_nat r + Z.to_nat i)%nat with (Z.to_nat (r + i)) by lia.
    rewrite <- (Z2Nat.id (r + i)) by lia. rewrite Nat2Z.id.
    rewrite <- aget_nth. rewrite Z2Nat.id by lia.
    apply Z.ltb_ge.
    destruct (Z.eq_dec i 0) as [->|Hne].
    + rewrite Z.add_0_r. apply Hat. lia.
    + pose proof (@sorted_aget_lt _ (r) (r + i) Hs).
      specialize (Hat ltac:(lia)). lia.
  - intros x Hx. apply (In_aget 0) in Hx. destruct Hx as (i & Hi & <-).
    rewrite length_firstn in Hi.
    unfold aget at 1. destruct (Z.ltb_spec i 0); [lia|].
    rewrite nth_firstn.
    destruct (Nat.ltb_spec (Z.to_nat i) (Z.to_nat r)); [|lia].
    rewrite <- aget_nth. rewrite Z2Nat.id by lia.
    apply Z.ltb_lt. apply Hbelow. lia.
Qed.

Lemma extNodeOffset_loop_spec ext lo fuel off :
  0 <= off <= Z.of_nat (length ext) ->
  Z.of_nat (length ext) - off < Z.of_nat fuel ->
  (forall i, 0 <= i < off -> geti ext i < lo) ->
  let r := extNodeOffset_loop fuel ext (Z.of_nat (length ext)) lo off in
  0 <= r <= Z.of_nat (length ext) /\
  (forall i, 0 <= i < r -> geti ext i < lo) /\
  (r < Z.of_nat (length ext) -> lo <= geti ext r).
Proof.
  revert off. induction fuel as [|fuel IH]; intros off Hoff Hf Hbelow; [lia|].
  simpl.
  destruct (Z.ltb_spec off (Z.of_nat (length ext))); simpl.
  - destruct (Z.ltb_spec (geti ext off) lo).
    + apply IH; try lia.
      intros i Hi. destruct (Z.eq_dec i off) as [->|]; auto.
      apply Hbelow. lia.
    + repeat split; auto; lia.
  - repeat split; auto; lia.
Qed.

(** ** External nodes *)

Section ExtNodes.
Context {TacsScalar : Type}.
Implicit Types tacs : TACSAssembler TacsScalar.

Lemma is_external_spec tacs g :
  is_external tacs g = true <-> 0 <= g /\ ~ owned tacs g.
Proof.
  unfold is_external, owned.
  rewrite andb_true_iff, orb_true_iff, Z.geb_le, Z.ltb_lt, Z.geb_le. lia.
Qed.

(** The candidate list that the two scans of [computeExtNodes] collect. *)
Lemma ext_scan_In tacs (a : list Z) n init g :
  In g (for_ 0 n
          (fun i ext_list =>
             if is_external tacs (geti a i) then ext_list ++ [geti a i]
             else ext_list) init) <->
  In g init \/
  (0 <= g /\ ~ owned tacs g /\ exists i, 0 <= i < n /\ geti a i = g).
Proof.
  rewrite (for_fold_aget 0 a
             (fun x acc => if is_external tacs x then acc ++ [x] else acc)).
  rewrite fold_left_push_filter, in_app_iff, filter_In, in_map_iff.
  rewrite is_external_spec.
  split; intros [H|H]; auto; right.
  - destruct H as ((i & Hi & Hr) & H1 & H2). apply In_range in Hr.
    repeat split; auto. exists i; auto.
  - destruct H as (H1 & H2 & i & Hi & Hr).
    repeat split; auto. exists i. split; auto. now apply In_range.
Qed.

(** The state that a successful [computeExtNodes] returns. *)
Lemma computeExtNodes_result tacs tacs' msgs :
  computeExtNodes tacs = (0, tacs', msgs) ->
  exists ext,
    (forall g, In g ext <->
               0 <= g /\ ~ owned tacs g /\
               (in_connectivity tacs g \/ in_dep_parents tacs g)) /\
    StronglySorted Z.lt ext /\
    tacs' = set_extNodes tacs (Z.of_nat (length ext)) (Some ext)
              (numOwnedNodes tacs + Z.of_nat (length ext))
              (extNodeOffset_loop (S (length ext)) ext (Z.of_nat (length ext))
                 (geti (ownerRange tacs) (mpiRank tacs)) 0).
Proof.
  unfold computeExtNodes.
  destruct (meshInitializedFlag tacs); [discriminate|].
  destruct (elementNodeIndex tacs) as [eni|] eqn:Heni; [|discriminate].
  match goal with
  | |- context [FElibrary.uniqueSort ?l (Z.of_nat (length ?l))] =>
      set (cand := l); pose proof (uniqueSort_all cand) as Hu;
      destruct (FElibrary.uniqueSort cand (Z.of_nat (length cand))) as [a n]
  end.
  destruct Hu as [Ha Hn]. rewrite Ha, Hn, Nat2Z.id.
  intros [= <- _].
  exists (FElibrary.sort_unique cand).
  split; [|split; [apply sort_unique_sorted|reflexivity]].
  intros g. rewrite sort_unique_In. subst cand.
  unfold in_connectivity, in_dep_parents. rewrite Heni. cbn [deref].
  destruct (depNodes tacs) as [d|] eqn:Hd; rewrite !ext_scan_In; cbn [In].
  - split.
    + intros [[[]|H]|H]; destruct H as (H1 & H2 & i & Hi & E);
        (split; [|split]); auto.
      * left. exists i. auto.
      * right. exists d, i. auto.
    + intros (H1 & H2 & [(i & Hi & E)|(d' & i & Hd' & Hi & E)]).
      * left. right. split; [|split]; auto. exists i; auto.
      * injection Hd' as <-. right. split; [|split]; auto. exists i; auto.
  - split.
    + intros [[]|H]. destruct H as (H1 & H2 & i & Hi & E).
      split; [|split]; auto. left. exists i. auto.
    + intros (H1 & H2 & [(i & Hi & E)|(d' & i & Hd' & Hi & E)]);
        [|discriminate].
      right. split; [|split]; auto. exists i; auto.
Qed.

(** The scan for [extNodeOffset] counts the external nodes below the owned
    range. *)
Lemma extNodeOffset_counts (ext : list Z) (lo : Z) :
  StronglySorted Z.lt ext ->
  extNodeOffset_loop (S (length ext)) ext (Z.of_nat (length ext)) lo 0 =
  Z.of_nat (length (filter (fun g => g <? lo) ext)).
Proof.
  intros Hs.
  pose proof (@extNodeOffset_loop_spec ext lo (S (length ext)) 0) as Hl.
  cbv zeta in Hl. destruct Hl as (Hr & Hb & Hat); try lia.
  symmetry. apply sorted_count_below; auto.
Qed.

(** C2. After a successful [computeExtNodes], [tacsExtNodeNums] is the
    strictly increasing enumeration of exactly the non-negative global
    node numbers that occur in the element connectivity or in a parent
    list of a dependent node and that are not owned by this process;
    [numExtNodes] is the number of these nodes, [extNodeOffset] the number
    of them below [ownerRange[mpiRank]], and [numNodes] is
    [numOwnedNodes + numExtNodes]. *)
Theorem computeExtNodes_enumerates tacs tacs' msgs :
  computeExtNodes tacs = (0, tacs', msgs) ->
  exists ext,
    tacsExtNodeNums tacs' = Some ext /\
    StronglySorted Z.lt ext /\
    (forall g, In g ext <->
               0 <= g /\ ~ owned tacs g /\
               (in_connectivity tacs g \/ in_dep_parents tacs g)) /\
    numExtNodes tacs' = Z.of_nat (length ext) /\
    extNodeOffset tacs' =
      Z.of_nat (length (filter
        (fun g => g <? geti (ownerRange tacs) (mpiRank tacs)) ext)) /\
    numNodes tacs' = numOwnedNodes tacs' + numExtNodes tacs'.
Proof.
  intros H. destruct (computeExtNodes_result tacs H) as (ext & Hin & Hs & ->).
  exists ext. cbn [set_extNodes tacsExtNodeNums numExtNodes extNodeOffset
                   numNodes numOwnedNodes].
  split; [reflexivity|]. split; [assumption|]. split; [assumption|].
  split; [reflexivity|]. split; [|reflexivity].
  now apply extNodeOffset_counts.
Qed.

Lemma computeExtNodes_owned tacs tacs' r msgs g :
  computeExtNodes tacs = (r, tacs', msgs) -> owned tacs' g <-> owned tacs g.
Proof.
  unfold computeExtNodes.
  destruct (meshInitializedFlag tacs); [intros [= _ <- _]; reflexivity|].
  destruct (elementNodeIndex tacs); [|intros [= _ <- _]; reflexivity].
  destruct (FElibrary.uniqueSort _ _). intros [= _ <- _]. reflexivity.
Qed.

(** [computeExtNodes] leaves the state in which the external node list is
    computed. *)
Lemma computeExtNodes_computed tacs tacs' msgs :
  computeExtNodes tacs = (0, tacs', msgs) ->
  exists ext, ExtNodesComputed tacs' ext.
Proof.
  intros H. pose proof (computeExtNodes_owned tacs) as Ho.
  destruct (computeExtNodes_result tacs H) as (ext & H3 & H2 & E).
  exists ext. unfold ExtNodesComputed, ext_nodes.
  assert (Hown : forall g, owned tacs' g <-> owned tacs g)
    by (intros g; apply (Ho _ _ _ g H)).
  subst tacs'.
  cbn [set_extNodes tacsExtNodeNums numExtNodes extNodeOffset numNodes
       numOwnedNodes ownerRange mpiRank].
  repeat split; auto.
  - now apply H3.
  - rewrite Hown. now apply H3.
  - now apply extNodeOffset_counts.
Qed.

(** [computeExtNodes] fails exactly after [initialize()] or without a
    connectivity, and then changes nothing. *)
Lemma computeExtNodes_fails tacs :
  meshInitializedFlag tacs = true \/ elementNodeIndex tacs = None ->
  exists m, computeExtNodes tacs = (1, tacs, [m]).
Proof.
  unfold computeExtNodes.
  destruct (meshInitializedFlag tacs); [eauto|].
  intros [H| ->]; [discriminate|eauto].
Qed.

Lemma computeExtNodes_succeeds tacs :
  meshInitializedFlag tacs = false -> elementNodeIndex tacs <> None ->
  exists tacs', computeExtNodes tacs = (0, tacs', []).
Proof.
  unfold computeExtNodes. intros -> H.
  destruct (elementNodeIndex tacs); [|congruence].
  destruct (FElibrary.uniqueSort _ _). eauto.
Qed.

(** ** Local and global node numbers *)

Lemma count_below_le (ext : list Z) (lo : Z) :
  (length (filter (fun g => (g <? lo)%Z) ext) <= length ext)%nat.
Proof. apply filter_length_le. Qed.

(** In the computed external list the entries below the owned block are
    exactly those in front of [extNodeOffset]. *)
Lemma ext_below_iff tacs ext k :
  ExtNodesComputed tacs ext ->
  0 <= k < Z.of_nat (length ext) ->
  (geti ext k < geti (ownerRange tacs) (mpiRank tacs) <->
   k < extNodeOffset tacs).
Proof.
  intros (He & Hs & Hx & Hn & Ho & Hnn) Hk.
  set (lo := geti (ownerRange tacs) (mpiRank tacs)) in *.
  pose proof (@extNodeOffset_loop_spec ext lo (S (length ext)) 0) as Hl.
  cbv zeta in Hl. destruct Hl as (Hr & Hb & Hat); try lia.
  set (r := extNodeOffset_loop _ _ _ _ _) in *.
  assert (Hoff : extNodeOffset tacs = r).
  { rewrite Ho. apply sorted_count_below; auto. }
  rewrite Hoff. split; intros H.
  - destruct (Z.lt_ge_cases k r) as [|Hge]; auto.
    specialize (Hat ltac:(lia)).
    destruct (Z.eq_dec k r) as [->|]; [lia|].
    pose proof (@sorted_aget_lt ext r k Hs). lia.
  - apply Hb. lia.
Qed.

(** C3. Once the external node list has been computed, the two numbering
    functions are inverse to each other: [getLocalNodeNum] undoes
    [getGlobalNodeNum] on every local index in [[0, numNodes)], and
    [getGlobalNodeNum] undoes [getLocalNodeNum] on every global node that
    is owned or in the external node list. *)
Theorem local_global_inverse tacs ext :
  varMap_consistent tacs ->
  ExtNodesComputed tacs ext ->
  (forall l, 0 <= l < numNodes tacs ->
             getLocalNodeNum tacs (getGlobalNodeNum tacs l) = l) /\
  (forall g, owned tacs g \/ In g ext ->
             getGlobalNodeNum tacs (getLocalNodeNum tacs g) = g).
Proof.
  intros [Hvm Hown] Hc.
  assert (Hbelow := fun k => @ext_below_iff tacs ext k Hc).
  destruct Hc as (He & Hs & Hx & Hn & Ho & Hnn).
  set (lo := geti (ownerRange tacs) (mpiRank tacs)) in *.
  set (hi := geti (ownerRange tacs) (mpiRank tacs + 1)) in *.
  assert (Hoff : 0 <= extNodeOffset tacs <= numExtNodes tacs).
  { rewrite Ho, Hn. pose proof (count_below_le ext lo). lia. }
  (* an external entry: where the two functions send it *)
  assert (Hext : forall k, 0 <= k < Z.of_nat (length ext) ->
            getLocalNodeNum tacs (geti ext k) =
            if k <? extNodeOffset tacs then k else numOwnedNodes tacs + k).
  { intros k Hk.
    destruct (Hx (geti ext k)) as [Hpos Hnown]; [now apply aget_In|].
    unfold getLocalNodeNum. fold lo hi. unfold owned in Hnown. fold lo hi in Hnown.
    destruct (Z.geb_spec (geti ext k) lo); destruct (Z.ltb_spec (geti ext k) hi);
      simpl; try lia.
    all: destruct (Z.geb_spec (geti ext k) 0); try lia.
    all: rewrite He, Hn, bsearch_found by auto.
    all: specialize (Hbelow k Hk); fold lo in Hbelow.
    all: destruct (Z.ltb_spec (geti ext k) lo);
         destruct (Z.ltb_spec k (extNodeOffset tacs)); auto; lia. }
  split.
  - intros l Hl. unfold getGlobalNodeNum. fold lo hi. rewrite He.
    destruct (Z.ltb_spec l (extNodeOffset tacs)).
    + rewrite Hext by lia.
      destruct (Z.ltb_spec l (extNodeOffset tacs)); lia.
    + destruct (Z.ltb_spec l (extNodeOffset tacs + numOwnedNodes tacs)).
      * unfold getLocalNodeNum. fold lo hi.
        destruct (Z.geb_spec (l - extNodeOffset tacs + lo) lo);
          destruct (Z.ltb_spec (l - extNodeOffset tacs + lo) hi); simpl; lia.
      * destruct (Z.ltb_spec l (numNodes tacs)); [|lia].
        rewrite Hext by lia.
        destruct (Z.ltb_spec (l - numOwnedNodes tacs) (extNodeOffset tacs)); lia.
  - intros g [Hg|Hg].
    + unfold owned in Hg. fold lo hi in Hg.
      unfold getLocalNodeNum. fold lo hi.
      destruct (Z.geb_spec g lo); destruct (Z.ltb_spec g hi); simpl; try lia.
      unfold getGlobalNodeNum. fold lo hi.
      destruct (Z.ltb_spec (g - lo + extNodeOffset tacs) (extNodeOffset tacs));
        [lia|].
      destruct (Z.ltb_spec (g - lo + extNodeOffset tacs)
                  (extNodeOffset tacs + numOwnedNodes tacs)); lia.
    + apply (In_aget 0) in Hg. destruct Hg as (k & Hk & <-).
      rewrite Hext by auto.
      unfold getGlobalNodeNum. fold lo hi. rewrite He.
      destruct (Z.ltb_spec k (extNodeOffset tacs)) as [Hlt|Hge].
      * destruct (Z.ltb_spec k (extNodeOffset tacs)); [auto|lia].
      * destruct (Z.ltb_spec (numOwnedNodes tacs + k) (extNodeOffset tacs));
          [lia|].
        destruct (Z.ltb_spec (numOwnedNodes tacs + k)
                    (extNodeOffset tacs + numOwnedNodes tacs)); [lia|].
        destruct (Z.ltb_spec (numOwnedNodes tacs + k) (numNodes tacs)); [|lia].
        f_equal. lia.
Qed.

End ExtNodes.

(** ** Set-up calls *)

Section SetUp.
Context {TacsScalar : Type}.
Implicit Types tacs : TACSAssembler TacsScalar.

Lemma set_bcMap_same tacs : set_bcMap tacs (bcMap tacs) = tacs.
Proof. destruct tacs; reflexivity. Qed.

(** C10. Before [initialize()] has been called, [createVec()] and
    [createMat()] print one error line tagged with the rank of the process
    and return [NULL]; the assembler is left as it was. *)
Theorem create_before_initialize (ops : BVecOps TacsScalar) tacs :
  meshInitializedFlag tacs = false ->
  (exists text,
     createVec ops tacs = (None, tacs, [(mpiRank tacs, text)])) /\
  (exists text,
     createMat tacs = (None, tacs, [(mpiRank tacs, text)])).
Proof.
  intros H. unfold createVec, createMat. rewrite H. simpl. eauto.
Qed.

(** After [initialize()] both calls return an object and print nothing. *)
Lemma create_after_initialize (ops : BVecOps TacsScalar) tacs :
  meshInitializedFlag tacs = true ->
  (exists v, createVec ops tacs = (Some v, tacs, [])) /\
  (exists m tacs', createMat tacs = (Some m, tacs', [])).
Proof.
  intros H. unfold createVec, createMat. rewrite H. simpl. eauto.
Qed.

(** The records that a loop of [addBC] calls appends. *)
Lemma addBCs_loop tacs (nodes : list Z) nnodes (mk : Z -> BCEntry TacsScalar)
  init :
  for_ 0 nnodes
    (fun i bc =>
       if (geti nodes i >=? geti (ownerRange tacs) (mpiRank tacs)) &&
          (geti nodes i <? geti (ownerRange tacs) (mpiRank tacs + 1))
       then bc ++ [mk (geti nodes i)] else bc) init =
  init ++ map mk (filter (ownedb tacs) (map (geti nodes) (range 0 nnodes))).
Proof.
  rewrite (for_fold_aget 0 nodes
             (fun x acc => if ownedb tacs x then acc ++ [mk x] else acc)).
  generalize (map (geti nodes) (range 0 nnodes)) as l. intros l. revert init.
  induction l as [|x r IH]; intros init; simpl.
  - now rewrite app_nil_r.
  - rewrite IH. destruct (ownedb tacs x); simpl; auto.
    now rewrite <- app_assoc.
Qed.

(** C9. [addBCs] records a boundary condition for exactly the nodes of the
    input list that lie in the ownership range of this process, in the
    order of the list. A node outside the range leaves no record and no
    message: the only message is the one of a call after [initialize()],
    which records nothing. The number of constrained variables is
    [varsPerNode] when the variable list is [NULL] or the count is
    negative. Nothing but [bcMap] changes. *)
Theorem addBCs_records_owned tacs nnodes (nodes : list Z) nbcs
  (vars : option (list Z)) (vals : option (list TacsScalar)) :
  let nbcs' := if is_null vars || (nbcs <? 0) then varsPerNode tacs
               else nbcs in
  let recorded :=
    if meshInitializedFlag tacs then []
    else filter (ownedb tacs) (map (geti nodes) (range 0 nnodes)) in
  addBCs tacs nnodes nodes nbcs vars vals =
  (set_bcMap tacs
     (bcMap tacs ++
      map (fun g => {| bc_node := g; bc_nbcs := nbcs';
                       bc_vars := vars; bc_vals := vals |}) recorded),
   if meshInitializedFlag tacs
   then [(mpiRank tacs, "Cannot call addBC() after initialize()"%string)]
   else []).
Proof.
  intros nbcs' recorded. unfold addBCs. subst recorded.
  destruct (meshInitializedFlag tacs).
  - simpl. now rewrite app_nil_r, set_bcMap_same.
  - f_equal. f_equal.
    apply (addBCs_loop tacs nodes nnodes
             (fun g => {| bc_node := g; bc_nbcs := nbcs';
                          bc_vars := vars; bc_vals := vals |})).
Qed.

Lemma ownedb_spec tacs g : ownedb tacs g = true <-> owned tacs g.
Proof.
  unfold ownedb, owned. rewrite andb_true_iff, Z.geb_le, Z.ltb_lt. lia.
Qed.

(** *** [setElementConnectivity] *)

(** C6, as it holds. When [setElementConnectivity] is called before
    [initialize()] and before the reordering with a connectivity in which
    some node number is out of range, it returns a non-zero value and
    prints one error line tagged with the rank; by then the arrays given
    have been copied into the assembler, so the stored connectivity is the
    one of the call. Nothing else of the assembler changes. *)
Theorem setElementConnectivity_out_of_range tacs (conn ptr : list Z) i j :
  meshInitializedFlag tacs = false ->
  tacsExtNodeNums tacs = None ->
  node_out_of_range tacs conn ptr i j ->
  exists r text,
    r <> 0 /\
    setElementConnectivity tacs conn ptr =
    (Some r,
     set_connectivity tacs
       (Some (memcpy ptr (numElements tacs + 1)))
       (Some (memcpy conn (geti ptr (numElements tacs)))),
     [(mpiRank tacs, text)]).
Proof.
  intros Hflag Hext (Hi & Hj & Hsz & Hbad).
  unfold setElementConnectivity. rewrite Hflag, Hext. cbn [is_null negb].
  cbv zeta.
  match goal with
  | |- context [match ?m with Some _ => _ | None => _ end] =>
      destruct m as [m1|] eqn:Hm
  end.
  - exists 1. destruct m1 as [rk text]. exists text. split; [lia|].
    destruct (elements tacs) as [els|]; [|discriminate].
    apply first_some_Some in Hm. destruct Hm as (x & _ & Hx).
    destruct (negb _); [|discriminate]. now injection Hx as <- <-.
  - match goal with
    | |- context [match ?m with Some _ => _ | None => _ end] =>
        destruct m as [m1|] eqn:Hb
    end.
    + exists (-1). destruct m1 as [rk text]. exists text. split; [lia|].
      apply first_some_Some in Hb. destruct Hb as (x & _ & Hx).
      apply first_some_Some in Hx. destruct Hx as (y & _ & Hy).
      destruct (_ >=? _); [now injection Hy as <- <-|].
      destruct (_ <? _); [now injection Hy as <- <-|discriminate].
    + exfalso. rewrite first_some_None in Hb.
      specialize (Hb i ltac:(apply In_range; lia)).
      rewrite first_some_None in Hb.
      specialize (Hb j).
      rewrite !aget_memcpy in Hb by lia.
      specialize (Hb ltac:(apply In_range; lia)).
      destruct (Z.geb_spec (geti conn j)
                  (geti (ownerRange tacs) (mpiSize tacs))); [discriminate|].
      destruct (Z.ltb_spec (geti conn j) (- numDependentNodes tacs));
        [discriminate|]. lia.
Qed.

(** Without a node out of range, and with sizes that agree with the
    elements, the call stores the connectivity and prints nothing; control
    then reaches the end of the function, which has no [return]. *)
Lemma setElementConnectivity_accepts tacs (conn ptr : list Z) :
  meshInitializedFlag tacs = false ->
  tacsExtNodeNums tacs = None ->
  sizes_match tacs ptr ->
  (forall i j, ~ node_out_of_range tacs conn ptr i j) ->
  offsets_bounded (numElements tacs) ptr ->
  setElementConnectivity tacs conn ptr =
  (None,
   set_connectivity tacs
     (Some (memcpy ptr (numElements tacs + 1)))
     (Some (memcpy conn (geti ptr (numElements tacs)))),
   []).
Proof.
  intros Hflag Hext Hsz Hok Hoff.
  unfold setElementConnectivity. rewrite Hflag, Hext. cbn [is_null negb].
  cbv zeta.
  match goal with
  | |- context [match ?m with Some _ => _ | None => _ end] =>
      replace m with (@None Msg)
  end.
  2:{ symmetry. destruct (elements tacs) as [els|] eqn:He; auto.
      apply first_some_None. intros i Hi. apply In_range in Hi.
      rewrite !aget_memcpy by lia.
      rewrite (Hsz els i He Hi), Z.eqb_refl. reflexivity. }
  match goal with
  | |- context [match ?m with Some _ => _ | None => _ end] =>
      replace m with (@None Msg); auto
  end.
  symmetry. apply first_some_None. intros i Hi. apply In_range in Hi.
  apply first_some_None. intros j Hj. apply In_range in Hj.
  rewrite !aget_memcpy in Hj by lia.
  pose proof (Hoff i Hi) as Hb.
  rewrite !aget_memcpy by lia.
  specialize (Hok i j). unfold node_out_of_range in Hok.
  destruct (Z.geb_spec (geti conn j) (geti (ownerRange tacs) (mpiSize tacs)));
    [exfalso; apply Hok; repeat split; lia|].
  destruct (Z.ltb_spec (geti conn j) (- numDependentNodes tacs));
    [exfalso; apply Hok; repeat split; lia|].
  reflexivity.
Qed.

(** After [initialize()] or after the reordering the call is refused and
    nothing changes. *)
Lemma setElementConnectivity_guarded tacs (conn ptr : list Z) :
  meshInitializedFlag tacs = true \/ tacsExtNodeNums tacs <> None ->
  exists text,
    setElementConnectivity tacs conn ptr =
    (Some 1, tacs, [(mpiRank tacs, text)]).
Proof.
  unfold setElementConnectivity.
  destruct (meshInitializedFlag tacs); [eauto|].
  intros [H|H]; [discriminate|].
  destruct (tacsExtNodeNums tacs); [simpl; eauto|congruence].
Qed.

(** *** [setDependentNodes] *)

Lemma set_depNodes_twice tacs d1 d2 :
  set_depNodes (set_depNodes tacs d1) d2 = set_depNodes tacs d2.
Proof. reflexivity. Qed.

(** After [initialize()] or after the reordering the call is refused and
    nothing changes. *)
Lemma setDependentNodes_guarded tacs (ptr conn : list Z)
  (w : list TacsScalar) :
  meshInitializedFlag tacs = true \/ tacsExtNodeNums tacs <> None ->
  exists text,
    setDependentNodes tacs ptr conn w = (1, tacs, [(mpiRank tacs, text)]).
Proof.
  unfold setDependentNodes.
  destruct (meshInitializedFlag tacs); [eauto|].
  intros [H|H]; [discriminate|].
  destruct (tacsExtNodeNums tacs); [simpl; eauto|congruence].
Qed.

(** The check of the parents finds nothing exactly when all parents are
    independent nodes in range. *)
Lemma parents_check_None tacs (ptr conn : list Z) :
  first_some
    (fun i =>
       first_some
         (fun jp =>
            if geti conn jp >=? geti (ownerRange tacs) (mpiSize tacs)
            then
              Some (mpiRank tacs,
                    "Dependent node %d contains node number out of range"%string)
            else if geti conn jp <? 0 then
              Some (mpiRank tacs,
                    "Dependent node %d contains dependent node %d"%string)
            else None)
         (range (geti ptr i) (geti ptr (i + 1))))
    (range 0 (numDependentNodes tacs)) = None <->
  parents_independent tacs ptr conn.
Proof.
  rewrite first_some_None. unfold parents_independent. split.
  - intros H i jp Hi Hj.
    specialize (H i ltac:(now apply In_range)).
    rewrite first_some_None in H.
    specialize (H jp ltac:(now apply In_range)).
    destruct (Z.geb_spec (geti conn jp)
                (geti (ownerRange tacs) (mpiSize tacs))); [discriminate|].
    destruct (Z.ltb_spec (geti conn jp) 0); [discriminate|]. lia.
  - intros H i Hi. apply In_range in Hi.
    apply first_some_None. intros jp Hj. apply In_range in Hj.
    specialize (H i jp Hi Hj).
    destruct (Z.geb_spec (geti conn jp)
                (geti (ownerRange tacs) (mpiSize tacs))); [lia|].
    destruct (Z.ltb_spec (geti conn jp) 0); [lia|]. reflexivity.
Qed.

Lemma parents_check_Some tacs (ptr conn : list Z) m :
  first_some
    (fun i =>
       first_some
         (fun jp =>
            if geti conn jp >=? geti (ownerRange tacs) (mpiSize tacs)
            then
              Some (mpiRank tacs,
                    "Dependent node %d contains node number out of range"%string)
            else if geti conn jp <? 0 then
              Some (mpiRank tacs,
                    "Dependent node %d contains dependent node %d"%string)
            else None)
         (range (geti ptr i) (geti ptr (i + 1))))
    (range 0 (numDependentNodes tacs)) = Some m ->
  fst m = mpiRank tacs.
Proof.
  intros H. apply first_some_Some in H. destruct H as (i & _ & H).
  apply first_some_Some in H. destruct H as (jp & _ & H).
  destruct (_ >=? _); [now injection H as <-|].
  destruct (_ <? _); [now injection H as <-|discriminate].
Qed.


End SetUp.

(** ** Residual assembly *)

Section Assembly.
Context {TacsScalar : Type}.
Implicit Types tacs : TACSAssembler TacsScalar.
Implicit Types aux : list (TACSAuxElem TacsScalar).

Lemma aux_insert_In a b aux : In b (aux_insert a aux) <-> b = a \/ In b aux.
Proof.
  induction aux as [|c r IH]; simpl; [intuition|].
  destruct (num a <? num c); simpl; [intuition|].
  rewrite IH. intuition.
Qed.

Lemma aux_insert_sorted a aux :
  StronglySorted aux_le aux -> StronglySorted aux_le (aux_insert a aux).
Proof.
  induction 1 as [|c r Hs IH Hall]; simpl.
  - repeat constructor.
  - destruct (Z.ltb_spec (num a) (num c)).
    + constructor; [now constructor|].
      constructor; [unfold aux_le; lia|].
      eapply Forall_impl; [|exact Hall]. unfold aux_le. intros; lia.
    + constructor; auto.
      rewrite Forall_forall in *. intros y Hy.
      apply aux_insert_In in Hy. destruct Hy as [->|Hy]; auto.
Qed.

Lemma aux_sort_sorted aux : StronglySorted aux_le (aux_sort aux).
Proof.
  induction aux as [|a r IH]; simpl; [constructor|].
  now apply aux_insert_sorted.
Qed.

Lemma aux_sort_In a aux : In a (aux_sort aux) <-> In a aux.
Proof.
  induction aux as [|b r IH]; simpl; [reflexivity|].
  rewrite aux_insert_In, IH. intuition.
Qed.

(** A sorted list of auxiliary elements is the block of those below [i],
    then those attached to [i], then those above [i]. *)
Lemma aux_sorted_blocks aux i :
  StronglySorted aux_le aux ->
  aux = filter (fun a => num a <? i) aux ++
        filter (fun a => num a =? i) aux ++
        filter (fun a => i <? num a) aux.
Proof.
  induction 1 as [|c r Hs IH Hall]; simpl; auto.
  rewrite Forall_forall in Hall. unfold aux_le in Hall.
  destruct (Z.ltb_spec (num c) i); destruct (Z.eqb_spec (num c) i);
    destruct (Z.ltb_spec i (num c)); try lia; simpl.
  - now rewrite <- IH.
  - rewrite (@filter_all_false _ (fun a => num a <? i) r).
    + simpl. f_equal.
      rewrite IH at 1.
      rewrite (@filter_all_false _ (fun a => num a <? i) r); auto.
      intros x Hx. apply Z.ltb_ge. specialize (Hall x Hx). lia.
    + intros x Hx. apply Z.ltb_ge. specialize (Hall x Hx). lia.
  - rewrite (@filter_all_false _ (fun a => num a <? i) r).
    + rewrite (@filter_all_false _ (fun a => num a =? i) r).
      * simpl. f_equal. symmetry. apply filter_all_true.
        intros x Hx. apply Z.ltb_lt. specialize (Hall x Hx). lia.
      * intros x Hx. apply Z.eqb_neq. specialize (Hall x Hx). lia.
    + intros x Hx. apply Z.ltb_ge. specialize (Hall x Hx). lia.
Qed.

(** The [while] loop over the auxiliary elements walks through a block of
    elements attached to [i] and stops behind it. *)
Lemma aux_loop_block tacs (A B C : list (TACSAuxElem TacsScalar)) i ed fuel
  res :
  Forall (fun a => num a = i) B ->
  Forall (fun a => num a <> i) (firstn 1 C) ->
  (length B < fuel)%nat ->
  aux_loop fuel tacs (A ++ B ++ C) (Z.of_nat (length (A ++ B ++ C))) i ed
    (res, Z.of_nat (length A)) =
  (fold_left (fun r a => add_residual_of tacs (elem a) ed r) B res,
   Z.of_nat (length A) + Z.of_nat (length B)).
Proof.
  revert A res fuel. induction B as [|b B IH]; intros A res fuel HB HC Hf.
  - destruct fuel as [|fuel]; [simpl in Hf; lia|]. simpl.
    rewrite length_app.
    destruct C as [|c C]; simpl.
    + rewrite Nat.add_0_r.
      destruct (Z.ltb_spec (Z.of_nat (length A)) (Z.of_nat (length A)));
        [lia|]. simpl. f_equal. lia.
    + destruct (Z.ltb_spec (Z.of_nat (length A))
                  (Z.of_nat (length A + S (length C)))); [|lia].
      simpl. rewrite aget_nth, app_nth2, Nat.sub_diag by lia. simpl.
      inversion HC as [|? ? Hc _]; subst.
      destruct (Z.eqb_spec (num c) i); [contradiction|]. f_equal. lia.
  - destruct fuel as [|fuel]; [simpl in Hf; lia|].
    inversion HB as [|? ? Hb HB']; subst.
    cbn [aux_loop fst snd].
    assert (Hlen : Z.of_nat (length A) <
                   Z.of_nat (length (A ++ (b :: B) ++ C))).
    { rewrite !length_app. simpl. lia. }
    destruct (Z.ltb_spec (Z.of_nat (length A))
                (Z.of_nat (length (A ++ (b :: B) ++ C)))); [|lia].
    rewrite aget_nth, app_nth2, Nat.sub_diag by lia.
    cbn [nth app]. rewrite Z.eqb_refl. cbn [andb].
    replace (A ++ b :: B ++ C) with ((A ++ [b]) ++ B ++ C)
      by (rewrite <- app_assoc; reflexivity).
    replace (Z.of_nat (length A) + 1) with (Z.of_nat (length (A ++ [b])))
      by (rewrite length_app; simpl; lia).
    rewrite IH; auto; [|simpl in Hf; lia].
    cbn [fold_left]. f_equal. rewrite length_app. simpl. lia.
Qed.

Lemma firstn_1_filter_gt aux i :
  Forall (fun a => num a <> i) (firstn 1 (filter (fun a => i <? num a) aux)).
Proof.
  destruct (filter (fun a => i <? num a) aux) as [|x r] eqn:E; simpl;
    constructor; [|constructor].
  assert (In x (filter (fun a => i <? num a) aux)) as Hin
    by (rewrite E; now left).
  apply filter_In in Hin. destruct Hin as [_ Hin]. apply Z.ltb_lt in Hin. lia.
Qed.

Lemma filter_lt_succ aux i :
  StronglySorted aux_le aux ->
  filter (fun a => num a <? i + 1) aux =
  filter (fun a => num a <? i) aux ++ filter (fun a => num a =? i) aux.
Proof.
  induction 1 as [|c r Hs IH Hall]; simpl; auto.
  rewrite Forall_forall in Hall. unfold aux_le in Hall.
  destruct (Z.ltb_spec (num c) (i + 1)); destruct (Z.ltb_spec (num c) i);
    destruct (Z.eqb_spec (num c) i); try lia; simpl.
  - now rewrite IH.
  - rewrite IH.
    rewrite (@filter_all_false _ (fun a => num a <? i) r); auto.
    intros x Hx. apply Z.ltb_ge. specialize (Hall x Hx). lia.
  - apply IH.
Qed.

(** The serial element loop adds the contribution of every element, in
    the order of the elements. *)
Lemma assembleRes_serial_fold (ops : BVecOps TacsScalar) tacs residual :
  StronglySorted aux_le (deref (auxElements tacs)) ->
  (forall a, In a (deref (auxElements tacs)) -> 0 <= num a) ->
  fst (assembleRes_serial ops tacs residual) =
  fold_left (add_element ops tacs) (range 0 (numElements tacs)) residual.
Proof.
  intros Hs Hpos. unfold assembleRes_serial.
  set (aux := deref (auxElements tacs)) in *.
  set (body := fun i st => _).
  destruct (Z.le_gt_cases 0 (numElements tacs)) as [Hn|Hn].
  2:{ rewrite for_nil, range_nil by lia. reflexivity. }
  enough (for_ 0 (numElements tacs) body (residual, 0) =
          (fold_left (add_element ops tacs) (range 0 (numElements tacs))
             residual,
           Z.of_nat (length (filter (fun a => num a <? numElements tacs) aux))))
    as H by now rewrite H.
  apply (for_invariant
           (fun i st => st =
              (fold_left (add_element ops tacs) (range 0 i) residual,
               Z.of_nat (length (filter (fun a => num a <? i) aux))))); auto.
  - rewrite range_nil by lia. simpl. f_equal.
    rewrite filter_all_false; auto.
    intros x Hx. apply Z.ltb_ge. now apply Hpos.
  - intros i st Hi ->. subst body. cbn [fst snd].
    rewrite range_snoc, fold_left_app by lia. cbn [fold_left].
    pose proof (aux_sorted_blocks i Hs) as Hblocks.
    set (A := filter (fun a => num a <? i) aux) in *.
    set (B := filter (fun a => num a =? i) aux) in *.
    set (C := filter (fun a => i <? num a) aux) in *.
    assert (Hloop : forall res,
              aux_loop (S (Z.to_nat (Z.of_nat (length aux)))) tacs aux
                (Z.of_nat (length aux)) i (gather ops tacs i)
                (res, Z.of_nat (length A)) =
              (fold_left
                 (fun r a => add_residual_of tacs (elem a) (gather ops tacs i) r)
                 B res,
               Z.of_nat (length A) + Z.of_nat (length B))).
    { intros res.
      pose proof (@aux_loop_block tacs A B C i (gather ops tacs i)
                    (S (Z.to_nat (Z.of_nat (length aux)))) res) as H.
      rewrite <- Hblocks in H. apply H.
      - subst B. apply Forall_forall. intros x Hx. apply filter_In in Hx.
        now apply Z.eqb_eq.
      - apply firstn_1_filter_gt.
      - assert (length aux = length (A ++ B ++ C)) as Hl by now rewrite <- Hblocks.
        rewrite !length_app in Hl. lia. }
    rewrite Hloop. cbn [fst snd].
    unfold add_element, element_contribution. fold aux B.
    f_equal.
    rewrite (filter_lt_succ i Hs). fold A B. rewrite length_app. lia.
Qed.

Lemma zeroEntries_same_layout (ops : BVecOps TacsScalar)
  (v w : TACSBVec TacsScalar) :
  same_layout v w -> zeroEntries ops v = zeroEntries ops w.
Proof.
  assert (Hmap : forall (a b : list TacsScalar), length a = length b ->
            map (fun _ => scalar_zero ops) a = map (fun _ => scalar_zero ops) b).
  { induction a as [|x a IH]; intros [|y b]; simpl; intros H;
      try discriminate; auto. f_equal. apply IH. lia. }
  intros (H1 & H2 & H3 & H4 & H5 & H6 & H7 & H8).
  unfold zeroEntries. rewrite H1, H2, H3, H4, H5.
  now rewrite (Hmap _ _ H6), (Hmap _ _ H7), (Hmap _ _ H8).
Qed.


End Assembly.

(** ** Offsets, prefix sums and rows *)

Lemma fold_left_add_acc (l : list Z) a :
  fold_left Z.add l a = a + fold_left Z.add l 0.
Proof.
  revert a. induction l as [|x r IH]; intros a; simpl; [lia|].
  rewrite (IH (a + x)), (IH x). lia.
Qed.

Lemma psum_0 c k : k <= 0 -> psum c k = 0.
Proof. intros H. unfold psum. now rewrite range_nil. Qed.

Lemma psum_succ c k : 0 <= k -> psum c (k + 1) = psum c k + c k.
Proof.
  intros H. unfold psum. rewrite range_snoc, map_app, fold_left_app by lia.
  reflexivity.
Qed.

Lemma psum_ext c c' k :
  (forall m, 0 <= m < k -> c m = c' m) -> psum c k = psum c' k.
Proof.
  intros H. unfold psum. f_equal. apply map_ext_in.
  intros m Hm. apply In_range in Hm. auto.
Qed.

Lemma psum_mono c k k' :
  (forall m, 0 <= m -> 0 <= c m) -> 0 <= k <= k' -> psum c k <= psum c k'.
Proof.
  intros Hc [H0 Hk].
  replace k' with (k + Z.of_nat (Z.to_nat (k' - k))) by lia.
  induction (Z.to_nat (k' - k)) as [|n IH]; [rewrite Z.add_0_r; lia|].
  replace (k + Z.of_nat (S n)) with (k + Z.of_nat n + 1) by lia.
  rewrite psum_succ by lia. specialize (Hc (k + Z.of_nat n)). lia.
Qed.

Lemma psum_nonneg c k : (forall m, 0 <= m -> 0 <= c m) -> 0 <= psum c k.
Proof.
  intros Hc. destruct (Z.le_gt_cases k 0).
  - rewrite psum_0; lia.
  - rewrite <- (psum_0 c (k := 0)) by lia. apply psum_mono; auto; lia.
Qed.

(** The loop [for (i = 0; i < n; i++) p[i+1] += p[i];] turns the counts
    [c 0, ..., c (n-1)] stored at [p[1], ..., p[n]] into their prefix
    sums. *)
Lemma prefix_sum_loop n (p : list Z) c :
  0 <= n -> Z.of_nat (length p) = n + 1 -> geti p 0 = 0 ->
  (forall k, 0 <= k < n -> geti p (k + 1) = c k) ->
  let p' := for_ 0 n (fun i p => aset p (i + 1) (geti p (i + 1) + geti p i)) p in
  Z.of_nat (length p') = n + 1 /\
  (forall k, 0 <= k <= n -> geti p' k = psum c k).
Proof.
  intros Hn Hlen H0 Hc. cbv zeta.
  pose (Inv := fun i (q : list Z) =>
    Z.of_nat (length q) = n + 1 /\
    (forall k, 0 <= k <= i -> geti q k = psum c k) /\
    (forall k, i < k <= n -> geti q k = c (k - 1))).
  assert (Inv n (for_ 0 n
            (fun i p => aset p (i + 1) (geti p (i + 1) + geti p i)) p)) as H.
  { apply (@for_invariant _ Inv); auto.
    - repeat split; auto.
      + intros k Hk. assert (k = 0) as -> by lia. rewrite psum_0; lia.
      + intros k Hk. rewrite <- Hc by lia. f_equal. lia.
    - intros i q Hi (Hl & Hlo & Hhi). repeat split.
      + now rewrite aset_length.
      + intros k Hk. rewrite aget_aset by lia.
        destruct (Z.eqb_spec k (i + 1)) as [->|Hne].
        * rewrite psum_succ by lia. rewrite Hhi, Hlo by lia.
          replace (i + 1 - 1) with i by lia. lia.
        * apply Hlo. lia.
      + intros k Hk. rewrite aget_aset by lia.
        destruct (Z.eqb_spec k (i + 1)); [lia|]. apply Hhi. lia. }
  destruct H as (Hl & Hlo & _). split; auto.
Qed.

(** The loop that moves every offset one place up, followed by
    [p[0] = 0]. *)
Lemma shift_loop n (p : list Z) f :
  0 <= n -> Z.of_nat (length p) = n + 1 ->
  (forall k, 0 <= k < n -> geti p k = f (k + 1)) ->
  let p' :=
    aset (for_ 0 n (fun i p => aset p (n - i) (geti p (n - i - 1))) p) 0 0 in
  Z.of_nat (length p') = n + 1 /\
  geti p' 0 = 0 /\
  (forall k, 1 <= k <= n -> geti p' k = f k).
Proof.
  intros Hn Hlen Hp. cbv zeta.
  pose (Inv := fun i (q : list Z) =>
    Z.of_nat (length q) = n + 1 /\
    (forall k, 0 <= k <= n - i -> geti q k = geti p k) /\
    (forall k, n - i < k <= n -> geti q k = f k)).
  assert (Inv n (for_ 0 n
            (fun i p => aset p (n - i) (geti p (n - i - 1))) p)) as H.
  { apply (@for_invariant _ Inv); auto.
    - repeat split; auto. intros; lia.
    - intros i q Hi (Hl & Hlo & Hhi). repeat split.
      + now rewrite aset_length.
      + intros k Hk. rewrite aget_aset by lia.
        destruct (Z.eqb_spec k (n - i)); [lia|]. apply Hlo. lia.
      + intros k Hk. rewrite aget_aset by lia.
        destruct (Z.eqb_spec k (n - i)) as [->|Hne].
        * rewrite Hlo, Hp by lia. f_equal. lia.
        * apply Hhi. lia. }
  destruct H as (Hl & _ & Hhi). repeat split.
  - now rewrite aset_length.
  - apply aget_aset_eq. lia.
  - intros k Hk. rewrite aget_aset_ne by lia. apply Hhi. lia.
Qed.

Lemma for_down_eq {S : Type} n (body : Z -> S -> S) s :
  for_down n body s = for_ 0 n (fun k acc => body (n - k) acc) s.
Proof. reflexivity. Qed.

Lemma is_csr_row n rowp cols rows k :
  is_csr n rowp cols rows -> 0 <= k < n -> csr_row (rowp, cols) k = rows k.
Proof.
  intros (_ & _ & H) Hk. destruct (H k Hk) as (H0 & H1 & H2).
  unfold csr_row. cbn [fst snd]. rewrite map_aget_range by lia. exact H2.
Qed.

(** The offsets of a CSR structure are the prefix sums of the row
    lengths. *)
Lemma is_csr_offsets n rowp cols rows k :
  is_csr n rowp cols rows -> 0 <= k <= n ->
  geti rowp k = psum (fun m => Z.of_nat (length (rows m))) k.
Proof.
  intros (Hl & H0 & H) Hk.
  replace k with (Z.of_nat (Z.to_nat k)) by lia.
  assert (Z.of_nat (Z.to_nat k) <= n) as Hb by lia. revert Hb.
  induction (Z.to_nat k) as [|m IH]; intros Hb.
  - simpl. rewrite psum_0; lia.
  - replace (Z.of_nat (S m)) with (Z.of_nat m + 1) by lia.
    rewrite psum_succ by lia. rewrite <- IH by lia.
    destruct (H (Z.of_nat m)) as (Ha & Hb' & Hc); [lia|].
    rewrite <- Hc. rewrite slice_length; lia.
Qed.

(** [SortAndUniquifyCSR] sorts and deduplicates every row and keeps the
    structure. *)
Lemma SortAndUniquifyCSR_is_csr n rowp cols rows d :
  0 <= n -> is_csr n rowp cols rows ->
  is_csr n (fst (SortAndUniquifyCSR n rowp cols d))
    (snd (SortAndUniquifyCSR n rowp cols d))
    (fun k => sorted_row d k (rows k)).
Proof.
  intros Hn (Hl & H0 & H). unfold SortAndUniquifyCSR.
  set (body := fun i out => _).
  pose (Inv := fun i (out : list Z * list Z) =>
    Z.of_nat (length (fst out)) = i + 1 /\
    geti (fst out) 0 = 0 /\
    geti (fst out) i = Z.of_nat (length (snd out)) /\
    (forall k, 0 <= k < i ->
       0 <= geti (fst out) k /\
       geti (fst out) k <= geti (fst out) (k + 1) <=
         Z.of_nat (length (snd out)) /\
       slice (snd out) (geti (fst out) k) (geti (fst out) (k + 1)) =
         sorted_row d k (rows k))).
  assert (Inv n (for_ 0 n body ([geti rowp 0], memcpy cols (geti rowp 0))))
    as HI.
  { apply (@for_invariant _ Inv); auto.
    - rewrite H0. unfold Inv. cbn [fst snd]. repeat split; auto; try lia.
    - intros i [rp cs] Hi (I1 & I2 & I3 & I4). subst body. cbn [fst snd] in *.
      destruct (H i Hi) as (Ha & Hb & Hc). rewrite Hc.
      fold (sorted_row d i (rows i)).
      set (row := sorted_row d i (rows i)) in *.
      assert (Hrp : Z.of_nat (length rp) = i + 1) by exact I1.
      unfold Inv. cbn [fst snd]. repeat split.
      + rewrite length_app. simpl. lia.
      + rewrite aget_app_l by lia. exact I2.
      + rewrite aget_app_r by lia.
        replace (i + 1 - Z.of_nat (length rp)) with 0 by lia.
        rewrite length_app. change (geti [?x] 0) with x. lia.
      + destruct (Z.eq_dec k i) as [->|Hne].
        * rewrite aget_app_l by lia. lia.
        * rewrite aget_app_l by lia. apply I4. lia.
      + destruct (Z.eq_dec k i) as [->|Hne].
        * rewrite aget_app_l by lia. rewrite aget_app_r by lia.
          replace (i + 1 - Z.of_nat (length rp)) with 0 by lia.
          change (geti [?x] 0) with x. lia.
        * rewrite !aget_app_l by lia. apply I4. lia.
      + rewrite length_app.
        destruct (Z.eq_dec k i) as [->|Hne].
        * rewrite aget_app_r by lia.
          replace (i + 1 - Z.of_nat (length rp)) with 0 by lia.
          change (geti [?x] 0) with x. lia.
        * rewrite !aget_app_l by lia.
          destruct (I4 k) as (? & ? & ?); lia.
      + destruct (Z.eq_dec k i) as [->|Hne].
        * rewrite aget_app_l by lia. rewrite aget_app_r by lia.
          replace (i + 1 - Z.of_nat (length rp)) with 0 by lia.
          change (geti [?x] 0) with x.
          rewrite I3, slice_app_r by lia.
          replace (Z.of_nat (length cs) - Z.of_nat (length cs)) with 0 by lia.
          replace (Z.of_nat (length cs) + Z.of_nat (length row) -
                   Z.of_nat (length cs)) with (Z.of_nat (length row)) by lia.
          apply slice_full.
        * rewrite !aget_app_l by lia.
          destruct (I4 k) as (? & ? & Hs); [lia|].
          rewrite slice_app_l by lia. exact Hs. }
  destruct HI as (I1 & I2 & I3 & I4). split; [|split]; auto.
Qed.

Lemma sorted_row_In d k row x :
  In x (sorted_row d k row) <-> In x row /\ (d <> 0 -> x <> k).
Proof.
  unfold sorted_row. destruct (Z.eqb_spec d 0) as [->|Hd].
  - rewrite sort_unique_In. intuition.
  - rewrite filter_In, sort_unique_In, negb_true_iff, Z.eqb_neq. intuition.
Qed.

Lemma StronglySorted_filter {A : Type} (R : A -> A -> Prop) (p : A -> bool) l :
  StronglySorted R l -> StronglySorted R (filter p l).
Proof.
  induction 1 as [|x r Hs IH Hall]; simpl; [constructor|].
  destruct (p x); auto. constructor; auto.
  rewrite Forall_forall in *. intros y Hy. apply filter_In in Hy.
  apply Hall. tauto.
Qed.

Lemma sorted_row_sorted d k row : StronglySorted Z.lt (sorted_row d k row).
Proof.
  unfold sorted_row. destruct (d =? 0).
  - apply sort_unique_sorted.
  - apply StronglySorted_filter, sort_unique_sorted.
Qed.

(** ** Loops over the connectivity *)

Lemma fold_left_flat_map {S A B : Type} (f : S -> B -> S) (g : A -> list B)
  l s :
  fold_left f (flat_map g l) s = fold_left (fun s x => fold_left f (g x) s) l s.
Proof.
  revert s. induction l as [|x r IH]; intros s; simpl; auto.
  now rewrite fold_left_app, IH.
Qed.

Lemma fold_left_map {S A B : Type} (f : S -> B -> S) (g : A -> B) l s :
  fold_left f (map g l) s = fold_left (fun s x => f s (g x)) l s.
Proof.
  revert s. induction l as [|x r IH]; intros s; simpl; auto.
Qed.

Lemma fold_left_ext_in {S A : Type} (f g : S -> A -> S) l s :
  (forall s x, In x l -> f s x = g s x) -> fold_left f l s = fold_left g l s.
Proof.
  revert s. induction l as [|x r IH]; intros s H; simpl; auto.
  rewrite H by now left. apply IH. intros; apply H; now right.
Qed.

Section Connectivity.
Context {TacsScalar : Type}.
Implicit Types tacs : TACSAssembler TacsScalar.

(** The loop nest over the elements, their connectivity entries and the
    parents of dependent nodes visits the incidences in order. *)
Lemma incidence_loop {S : Type} tacs (h : Z -> Z -> S -> S) (s : S) :
  for_ 0 (numElements tacs)
    (fun i s =>
       for_ (geti (deref (elementNodeIndex tacs)) i)
            (geti (deref (elementNodeIndex tacs)) (i + 1))
         (fun jp s =>
            if geti (deref (elementTacsNodes tacs)) jp >=? 0 then
              h i (getLocalNodeNum tacs (geti (deref (elementTacsNodes tacs)) jp)) s
            else
              for_ (geti (fst (getDepNodes tacs))
                      (- geti (deref (elementTacsNodes tacs)) jp - 1))
                   (geti (fst (getDepNodes tacs))
                      (- geti (deref (elementTacsNodes tacs)) jp - 1 + 1))
                (fun kp s =>
                   h i (getLocalNodeNum tacs
                          (geti (snd (getDepNodes tacs)) kp)) s)
                s)
         s)
    s =
  fold_left (fun s x => h (fst x) (snd x) s) (incidences tacs) s.
Proof.
  unfold incidences. rewrite fold_left_flat_map. unfold for_ at 1.
  apply fold_left_ext_in. intros s' i _.
  rewrite fold_left_map. cbn [fst snd].
  unfold element_local_nodes, element_nodes.
  rewrite fold_left_flat_map, fold_left_map. unfold for_ at 1.
  apply fold_left_ext_in. intros s'' jp _.
  unfold expand_node.
  destruct (geti (deref (elementTacsNodes tacs)) jp >=? 0); [reflexivity|].
  unfold dep_parents. rewrite fold_left_map. reflexivity.
Qed.

(** The same for one element. *)
Lemma element_loop {S : Type} tacs (h : Z -> S -> S) e (s : S) :
  for_ (geti (deref (elementNodeIndex tacs)) e)
       (geti (deref (elementNodeIndex tacs)) (e + 1))
    (fun jp s =>
       if geti (deref (elementTacsNodes tacs)) jp >=? 0 then
         h (getLocalNodeNum tacs (geti (deref (elementTacsNodes tacs)) jp)) s
       else
         for_ (geti (fst (getDepNodes tacs))
                 (- geti (deref (elementTacsNodes tacs)) jp - 1))
              (geti (fst (getDepNodes tacs))
                 (- geti (deref (elementTacsNodes tacs)) jp - 1 + 1))
           (fun kp s =>
              h (getLocalNodeNum tacs (geti (snd (getDepNodes tacs)) kp)) s)
           s)
    s =
  fold_left (fun s n => h n s) (element_local_nodes tacs e) s.
Proof.
  unfold element_local_nodes, element_nodes.
  rewrite fold_left_flat_map, fold_left_map. unfold for_ at 1.
  apply fold_left_ext_in. intros s'' jp _.
  unfold expand_node.
  destruct (geti (deref (elementTacsNodes tacs)) jp >=? 0); [reflexivity|].
  unfold dep_parents. rewrite fold_left_map. reflexivity.
Qed.

Lemma incidences_In tacs e n :
  In (e, n) (incidences tacs) <->
  0 <= e < numElements tacs /\ In n (element_local_nodes tacs e).
Proof.
  unfold incidences. rewrite in_flat_map. split.
  - intros (e' & He & Hin). apply In_range in He.
    apply in_map_iff in Hin. destruct Hin as (n' & [= <- <-] & Hn). auto.
  - intros (He & Hn). exists e. split; [now apply In_range|].
    apply in_map_iff. eauto.
Qed.

End Connectivity.

(** ** Counting and filling buckets *)

Lemma count_eq_nonneg l k : 0 <= count_eq l k.
Proof. unfold count_eq. lia. Qed.

Lemma count_eq_app l1 l2 k :
  count_eq (l1 ++ l2) k = count_eq l1 k + count_eq l2 k.
Proof. unfold count_eq. rewrite filter_app, length_app. lia. Qed.

Lemma count_eq_nil k : count_eq [] k = 0.
Proof. reflexivity. Qed.

Lemma count_eq_cons x l k :
  count_eq (x :: l) k = (if x =? k then 1 else 0) + count_eq l k.
Proof.
  unfold count_eq. cbn [filter]. destruct (x =? k); cbn [length]; lia.
Qed.

(** The counting loop: [p[n+1]++] for every node [n] of the list. *)
Lemma count_fold n (nodes : list Z) (p : list Z) :
  (forall x, In x nodes -> 0 <= x < n) ->
  Z.of_nat (length p) = n + 1 ->
  let p' := fold_left (fun p x => incr p (x + 1)) nodes p in
  Z.of_nat (length p') = n + 1 /\
  geti p' 0 = geti p 0 /\
  (forall k, 0 <= k < n -> geti p' (k + 1) = geti p (k + 1) + count_eq nodes k).
Proof.
  revert p. induction nodes as [|x r IH]; intros p Hin Hlen; cbv zeta.
  - cbn [fold_left]. repeat split; auto. intros. unfold count_eq.
    cbn [filter length Z.of_nat]. lia.
  - simpl fold_left.
    assert (Hx : 0 <= x < n) by (apply Hin; now left).
    destruct (IH (incr p (x + 1))) as (H1 & H2 & H3).
    + intros y Hy. apply Hin. now right.
    + unfold incr. now rewrite aset_length.
    + cbv zeta in H1, H2, H3. repeat split; auto.
      * rewrite H2. unfold incr. apply aget_aset_ne. lia.
      * intros k Hk. rewrite H3 by auto. rewrite count_eq_cons.
        unfold incr. rewrite aget_aset by lia.
        destruct (Z.eqb_spec (k + 1) (x + 1)); destruct (Z.eqb_spec x k);
          subst; lia.
Qed.

Lemma slice_aset_outside (a : list Z) i v lo hi :
  0 <= lo -> i < lo \/ hi <= i -> slice (aset a i v) lo hi = slice a lo hi.
Proof.
  intros Hlo Hi.
  destruct (Z.le_gt_cases hi lo); [now rewrite !slice_nil by lia|].
  destruct (Z.lt_ge_cases i 0) as [Hneg|Hpos].
  { now rewrite aset_out_of_range by lia. }
  destruct (Z.le_gt_cases (Z.of_nat (length a)) i).
  { now rewrite aset_out_of_range by lia. }
  apply nth_ext with (d := 0) (d' := 0).
  - unfold slice. rewrite !length_firstn, !length_skipn, aset_length. lia.
  - intros m Hm. rewrite <- !aget_nth.
    unfold slice in Hm. rewrite length_firstn, length_skipn, aset_length in Hm.
    rewrite !aget_slice by lia. apply aget_aset_ne. lia.
Qed.

Lemma slice_snoc (a : list Z) lo hi :
  0 <= lo -> lo <= hi -> hi < Z.of_nat (length a) ->
  slice a lo (hi + 1) = slice a lo hi ++ [geti a hi].
Proof.
  intros H0 H1 H2. rewrite (@slice_split _ a lo hi (hi + 1)) by lia.
  f_equal.
  apply nth_ext with (d := 0) (d' := 0).
  - apply Nat2Z.inj. rewrite slice_length by lia. simpl. lia.
  - intros m Hm.
    assert (Z.of_nat (length (slice a hi (hi + 1))) = 1) as Hl
      by (rewrite slice_length; lia).
    assert (m = O) as -> by lia. simpl.
    rewrite <- (aget_nth 0 (slice a hi (hi + 1)) 0).
    rewrite aget_slice by lia. f_equal. lia.
Qed.

Section Buckets.
Variable n : Z.
Variable P : list (Z * Z).
Hypothesis P_nodes : forall x, In x P -> 0 <= snd x < n.

Let cnt (k : Z) : Z := count_eq (map snd P) k.
Let base (k : Z) : Z := psum cnt k.

Lemma base_mono k k' : 0 <= k <= k' -> base k <= base k'.
Proof.
  apply psum_mono. intros. apply count_eq_nonneg.
Qed.

Lemma base_succ k : 0 <= k -> base (k + 1) = base k + cnt k.
Proof. apply psum_succ. Qed.

Lemma fill_fold P2 : forall P1 st,
  P = P1 ++ P2 -> FillInv n P P1 st ->
  FillInv n P P
    (fold_left
       (fun st x =>
          (incr (fst st) (snd x), aset (snd st) (geti (fst st) (snd x)) (fst x)))
       P2 st).
Proof.
  induction P2 as [|x P2 IH]; intros P1 st HP Hinv.
  - rewrite app_nil_r in HP. subst P1. exact Hinv.
  - simpl fold_left. apply (IH (P1 ++ [x])).
    { rewrite <- app_assoc. exact HP. }
    destruct Hinv as (I1 & I2 & I3 & I4). destruct st as [cur arr].
    cbn [fst snd] in *.
    change (psum (count_eq (map snd P))) with base in *.
    assert (Hx : 0 <= snd x < n).
    { apply P_nodes. rewrite HP. apply in_or_app. right. now left. }
    assert (Hcnt : forall k, count_eq (map snd P1) k +
                             (if snd x =? k then 1 else 0) <= cnt k).
    { intros k. unfold cnt. rewrite HP, map_app, count_eq_app. simpl map.
      rewrite count_eq_cons. pose proof (count_eq_nonneg (map snd P2) k).
      lia. }
    assert (Hnn : forall k, 0 <= base k).
    { intros k. apply psum_nonneg. intros. apply count_eq_nonneg. }
    assert (Hw : 0 <= geti cur (snd x) < Z.of_nat (length arr)).
    { rewrite I3, I2 by lia. specialize (Hcnt (snd x)).
      rewrite Z.eqb_refl in Hcnt.
      pose proof (count_eq_nonneg (map snd P1) (snd x)).
      pose proof (@base_succ (snd x) ltac:(lia)).
      pose proof (@base_mono (snd x + 1) n ltac:(lia)).
      specialize (Hnn (snd x)). lia. }
    unfold FillInv. cbn [fst snd].
    change (psum (count_eq (map snd P))) with base.
    split; [|split; [|split]].
    + unfold incr. now rewrite aset_length.
    + now rewrite aset_length.
    + intros k Hk. rewrite map_app, count_eq_app. simpl map.
      rewrite count_eq_cons, count_eq_nil.
      unfold incr. rewrite aget_aset by lia.
      destruct (Z.eqb_spec k (snd x)) as [->|Hne].
      * rewrite Z.eqb_refl, I3 by lia. lia.
      * destruct (Z.eqb_spec (snd x) k); [congruence|]. rewrite I3 by lia. lia.
    + intros k Hk. rewrite map_app, count_eq_app. simpl map.
      rewrite count_eq_cons, count_eq_nil.
      rewrite filter_app, map_app. simpl filter.
      pose proof (count_eq_nonneg (map snd P1) k) as Hc1.
      destruct (Z.eqb_spec (snd x) k) as [Heq|Hne].
      * subst k. simpl map.
        replace (base (snd x) + (count_eq (map snd P1) (snd x) + (1 + 0)))
          with (base (snd x) + count_eq (map snd P1) (snd x) + 1) by lia.
        rewrite slice_snoc;
          [|apply Hnn|lia|rewrite aset_length, <- I3 by lia; lia].
        rewrite slice_aset_outside by (try apply Hnn; rewrite I3; lia).
        rewrite I4 by lia. f_equal.
        rewrite <- I3 by lia. rewrite aget_aset_eq by lia. reflexivity.
      * simpl map. rewrite app_nil_r, Z.add_0_r.
        rewrite slice_aset_outside; [now apply I4|apply Hnn|].
        rewrite I3 by lia.
        pose proof (Hcnt k) as Hck. pose proof (Hcnt (snd x)) as Hcx.
        rewrite Z.eqb_refl in Hcx.
        destruct (Z.eqb_spec (snd x) k); [congruence|].
        pose proof (count_eq_nonneg (map snd P1) (snd x)).
        destruct (Z.lt_ge_cases k (snd x)).
        -- right. pose proof (@base_succ k ltac:(lia)).
           pose proof (@base_mono (k + 1) (snd x) ltac:(lia)). lia.
        -- left. pose proof (@base_succ (snd x) ltac:(lia)).
           pose proof (@base_mono (snd x + 1) k ltac:(lia)). lia.
Qed.

End Buckets.

Section NodeToElement.
Context {TacsScalar : Type}.
Implicit Types tacs : TACSAssembler TacsScalar.

Lemma incidences_nodes tacs x :
  connectivity_resolved tacs -> In x (incidences tacs) ->
  0 <= snd x < numNodes tacs.
Proof.
  intros (_ & _ & _ & H) Hx. destruct x as [e n].
  apply incidences_In in Hx. destruct Hx as [He Hn]. simpl. eauto.
Qed.

Lemma incidences_elements tacs x :
  In x (incidences tacs) -> 0 <= fst x < numElements tacs.
Proof.
  destruct x as [e n]. intros Hx. apply incidences_In in Hx. tauto.
Qed.

(** [computeNodeToElementCSR] as a counting loop, a prefix sum, a filling
    loop and a shift over the list of incidences. *)
Lemma computeNodeToElementCSR_eq tacs :
  computeNodeToElementCSR tacs =
  let n := numNodes tacs in
  let P := incidences tacs in
  let p1 := fold_left (fun p x => incr p (snd x + 1)) P (zeros (n + 1)) in
  let p2 :=
    for_ 0 n (fun i p => aset p (i + 1) (geti p (i + 1) + geti p i)) p1 in
  let filled :=
    fold_left
      (fun st x =>
         (incr (fst st) (snd x), aset (snd st) (geti (fst st) (snd x)) (fst x)))
      P (p2, zeros (geti p2 n)) in
  SortAndUniquifyCSR n
    (aset (for_ 0 n (fun i p => aset p (n - i) (geti p (n - i - 1)))
             (fst filled)) 0 0)
    (snd filled) 0.
Proof.
  unfold computeNodeToElementCSR. cbv zeta.
  pose proof (fun s => incidence_loop tacs (fun e n p => incr p (n + 1)) s)
    as Hc. cbv beta in Hc. rewrite Hc. clear Hc.
  pose proof (fun s => incidence_loop tacs
                (fun e n (st : list Z * list Z) =>
                   (incr (fst st) n, aset (snd st) (geti (fst st) n) e)) s)
    as Hf. cbv beta in Hf. rewrite Hf. clear Hf.
  reflexivity.
Qed.

(** The node to element structure lists, for every local node, the
    elements that contain it. *)
Lemma computeNodeToElementCSR_is_csr tacs :
  connectivity_resolved tacs ->
  is_csr (numNodes tacs) (fst (computeNodeToElementCSR tacs))
    (snd (computeNodeToElementCSR tacs)) (node_elements tacs).
Proof.
  intros Hres. pose proof Hres as (Hn & _).
  pose proof (@incidences_nodes tacs) as Hnodes.
  rewrite computeNodeToElementCSR_eq. cbv zeta.
  set (n := numNodes tacs) in *. set (P := incidences tacs) in *.
  set (cnt := count_eq (map snd P)). set (base := psum cnt).
  assert (Hnn : forall k, 0 <= base k).
  { intros k. apply psum_nonneg. intros. apply count_eq_nonneg. }
  (* counting *)
  set (p1 := fold_left _ P (zeros (n + 1))).
  assert (Hp1 : Z.of_nat (length p1) = n + 1 /\ geti p1 0 = 0 /\
                forall k, 0 <= k < n -> geti p1 (k + 1) = cnt k).
  { subst p1.
    pose proof (@count_fold n (map snd P) (zeros (n + 1))) as Hc.
    rewrite fold_left_map in Hc. cbv zeta in Hc.
    destruct Hc as (H1 & H2 & H3).
    - intros x Hx. apply in_map_iff in Hx. destruct Hx as (y & <- & Hy).
      apply Hnodes; auto.
    - rewrite zeros_length. lia.
    - split; [exact H1|]. split.
      + rewrite H2. apply aget_zeros.
      + intros k Hk. rewrite H3 by auto. rewrite aget_zeros. reflexivity. }
  destruct Hp1 as (L1 & Z1 & C1).
  (* prefix sums *)
  set (p2 := for_ 0 n _ p1).
  destruct (@prefix_sum_loop n p1 cnt Hn L1 Z1 C1) as (L2 & B2).
  fold p2 in L2, B2.
  (* filling *)
  set (filled := fold_left _ P (p2, zeros (geti p2 n))).
  assert (Hfill : FillInv n P P filled).
  { subst filled.
    apply (@fill_fold n P (fun x Hx => Hnodes x Hres Hx) P [] _ eq_refl).
    unfold FillInv. cbn [fst snd]. fold cnt. fold base.
    rewrite B2 by lia. fold base.
    split; [exact L2|]. split; [|split].
    - rewrite zeros_length. specialize (Hnn n). lia.
    - intros k Hk. rewrite B2 by lia. fold base. cbn [map].
      rewrite count_eq_nil. lia.
    - intros k Hk. cbn [map]. rewrite count_eq_nil, Z.add_0_r.
      rewrite slice_nil by lia. reflexivity. }
  destruct Hfill as (L3 & L4 & B3 & R3). fold cnt in L4, B3, R3.
  fold base in L4, B3, R3.
  (* shifting *)
  destruct (@shift_loop n (fst filled) base Hn L3) as (L5 & Z5 & B5).
  { intros k Hk. rewrite B3 by lia. unfold base. rewrite psum_succ by lia.
    reflexivity. }
  cbv zeta in L5, Z5, B5.
  set (p3 := aset (for_ 0 n _ (fst filled)) 0 0) in *.
  assert (B5' : forall k, 0 <= k <= n -> geti p3 k = base k).
  { intros k Hk. destruct (Z.eq_dec k 0) as [->|Hne].
    - rewrite Z5. unfold base. now rewrite psum_0.
    - apply B5. lia. }
  (* sorting *)
  assert (Hcsr : is_csr n p3 (snd filled)
                   (fun k => map fst (filter (fun x => snd x =? k) P))).
  { split; [exact L5|]. split; [exact Z5|].
    intros k Hk. rewrite !B5' by lia.
    assert (base (k + 1) = base k + cnt k) as Hs
      by (unfold base; now rewrite psum_succ by lia).
    pose proof (count_eq_nonneg (map snd P) k). fold cnt in H.
    split; [apply Hnn|]. split.
    - rewrite L4. split; [lia|]. apply psum_mono.
      + intros. apply count_eq_nonneg.
      + lia.
    - rewrite Hs. now apply R3. }
  pose proof (@SortAndUniquifyCSR_is_csr n p3 (snd filled) _ 0 Hn Hcsr) as H.
  exact H.
Qed.

End NodeToElement.

(** ** Building rows by estimate and fill *)

Lemma zsum_cons x l : zsum (x :: l) = x + zsum l.
Proof. unfold zsum. simpl. apply fold_left_add_acc. Qed.

Lemma zsum_app l1 l2 : zsum (l1 ++ l2) = zsum l1 + zsum l2.
Proof.
  induction l1 as [|x r IH]; simpl; [reflexivity|].
  rewrite !zsum_cons, IH. lia.
Qed.

Lemma length_flat_map_zsum {A B : Type} (f : A -> list B) l :
  Z.of_nat (length (flat_map f l)) =
  zsum (map (fun x => Z.of_nat (length (f x))) l).
Proof.
  induction l as [|x r IH]; simpl; [reflexivity|].
  rewrite length_app, zsum_cons. lia.
Qed.

Lemma aset_aset {A : Type} (a : list A) i u v :
  aset (aset a i u) i v = aset a i v.
Proof.
  unfold aset. destruct (i <? 0); auto.
  generalize (Z.to_nat i) as m. intros m. revert a.
  induction m as [|m IH]; intros [|x r]; simpl; auto. now rewrite IH.
Qed.

Lemma aset_same (a : list Z) i : aset a i (geti a i) = a.
Proof.
  destruct (Z.lt_ge_cases i 0); [now apply aset_out_of_range; left|].
  destruct (Z.le_gt_cases (Z.of_nat (length a)) i);
    [now apply aset_out_of_range; right|].
  apply nth_ext with (d := 0) (d' := 0); [apply aset_length|].
  intros m Hm. rewrite <- !aget_nth. rewrite aset_length in Hm.
  rewrite aget_aset by lia. destruct (Z.eqb_spec (Z.of_nat m) i); congruence.
Qed.

(** A loop that adds to one entry adds the sum. *)
Lemma accumulate_fold {A : Type} (w : A -> Z) (l : list A) (a : list Z) i :
  0 <= i < Z.of_nat (length a) ->
  fold_left (fun a x => aset a i (geti a i + w x)) l a =
  aset a i (geti a i + zsum (map w l)).
Proof.
  revert a. induction l as [|x r IH]; intros a Hi; simpl.
  - unfold zsum. simpl. rewrite Z.add_0_r. symmetry. apply aset_same.
  - rewrite IH by now rewrite aset_length.
    rewrite aget_aset_eq by lia. rewrite aset_aset, zsum_cons.
    f_equal. lia.
Qed.

(** Writing a list entry by entry behind the entries written so far. *)
Lemma write_next_fold (l : list Z) : forall row cols W,
  Z.of_nat (length W) = row -> memcpy cols row = W ->
  row + Z.of_nat (length l) <= Z.of_nat (length cols) ->
  let rc := fold_left write_next l (row, cols) in
  fst rc = row + Z.of_nat (length l) /\
  memcpy (snd rc) (fst rc) = W ++ l /\
  length (snd rc) = length cols.
Proof.
  induction l as [|x r IH]; intros row cols W HW Hm Hb; cbv zeta.
  - simpl. rewrite Z.add_0_r, app_nil_r. auto.
  - simpl fold_left. cbn [length] in Hb.
    destruct (IH (row + 1) (aset cols row x) (W ++ [x])) as (H1 & H2 & H3).
    + rewrite length_app. simpl. lia.
    + unfold memcpy in *.
      apply nth_ext with (d := 0) (d' := 0).
      * rewrite length_firstn, aset_length, length_app. simpl. lia.
      * intros m Hm'. rewrite length_firstn, aset_length in Hm'.
        rewrite <- !aget_nth.
        change (firstn (Z.to_nat (row + 1)) (aset cols row x))
          with (memcpy (aset cols row x) (row + 1)).
        rewrite aget_memcpy by lia. rewrite aget_aset by lia.
        destruct (Z.eqb_spec (Z.of_nat m) row) as [E|E].
        -- rewrite aget_app_r by lia.
           replace (Z.of_nat m - Z.of_nat (length W)) with 0 by lia.
           reflexivity.
        -- rewrite aget_app_l by lia. rewrite <- Hm.
           change (firstn (Z.to_nat row) cols) with (memcpy cols row).
           rewrite aget_memcpy by lia. reflexivity.
    + rewrite aset_length. lia.
    + cbv zeta in H1, H2, H3.
      change (write_next (row, cols) x) with (row + 1, aset cols row x).
      rewrite H1, H3, aset_length. rewrite H1 in H2.
      split; [cbn [length]; lia|]. split; auto.
      rewrite H2, <- app_assoc. reflexivity.
Qed.

Lemma rows_upto_succ rows k :
  0 <= k -> rows_upto rows (k + 1) = rows_upto rows k ++ rows k.
Proof.
  intros H. unfold rows_upto. rewrite range_snoc, flat_map_app by lia.
  simpl. now rewrite app_nil_r.
Qed.

Lemma rows_upto_length rows k :
  Z.of_nat (length (rows_upto rows k)) =
  psum (fun m => Z.of_nat (length (rows m))) k.
Proof.
  unfold rows_upto, psum. rewrite length_flat_map_zsum. reflexivity.
Qed.

Lemma rows_upto_split rows k n :
  0 <= k <= n ->
  rows_upto rows n = rows_upto rows k ++ flat_map rows (range k n).
Proof.
  intros H. unfold rows_upto. rewrite (@range_split 0 k n) by lia.
  apply flat_map_app.
Qed.

(** In the concatenation of the rows, row [k] lies between the prefix
    sums of the row lengths. *)
Lemma rows_upto_slice rows k n :
  0 <= k < n ->
  slice (rows_upto rows n)
    (psum (fun m => Z.of_nat (length (rows m))) k)
    (psum (fun m => Z.of_nat (length (rows m))) (k + 1)) = rows k.
Proof.
  intros Hk. rewrite (@rows_upto_split rows (k + 1) n) by lia.
  rewrite rows_upto_succ by lia. rewrite <- !rows_upto_length.
  rewrite rows_upto_succ by lia.
  rewrite slice_app_l by (try rewrite !length_app; lia).
  rewrite slice_app_r by lia. rewrite length_app.
  replace (Z.of_nat (length (rows_upto rows k)) -
           Z.of_nat (length (rows_upto rows k))) with 0 by lia.
  replace (Z.of_nat (length (rows_upto rows k) + length (rows k)) -
           Z.of_nat (length (rows_upto rows k)))
    with (Z.of_nat (length (rows k))) by lia.
  apply slice_full.
Qed.

Lemma memcpy_all {A : Type} (a : list A) n :
  Z.of_nat (length a) = n -> memcpy a n = a.
Proof.
  intros <-. unfold memcpy. rewrite Nat2Z.id. apply firstn_all.
Qed.

Lemma for_aset_length {A : Type} lo hi (g : Z -> list A -> Z)
  (v : Z -> list A -> A) (a : list A) :
  length (for_ lo hi (fun i c => aset c (g i c) (v i c)) a) = length a.
Proof.
  unfold for_. generalize (range lo hi) as l. intros l. revert a.
  induction l as [|x r IH]; intros a; simpl; auto.
  now rewrite IH, aset_length.
Qed.

Section BuildRows.
Variable n : Z.
Variables nep n2el : list Z.
Variable elems : Z -> list Z.
Variable rows_e : Z -> list Z.
Variable sz : Z -> Z.
Variable wr : Z -> Z * list Z -> Z * list Z.
Hypothesis Hn : 0 <= n.
Hypothesis Hcsr : is_csr n nep n2el elems.
Hypothesis Hsz : forall k e, 0 <= k < n -> In e (elems k) ->
  sz e = Z.of_nat (length (rows_e e)).
Hypothesis Hwr : forall k e rc, 0 <= k < n -> In e (elems k) ->
  wr e rc = fold_left write_next (rows_e e) rc.

Let rows (k : Z) : list Z := flat_map rows_e (elems k).
Let off (k : Z) : Z := psum (fun m => Z.of_nat (length (rows m))) k.

Lemma row_entries k :
  0 <= k < n -> map (geti n2el) (range (geti nep k) (geti nep (k + 1))) = elems k.
Proof. intros Hk. apply (is_csr_row Hcsr Hk). Qed.

Lemma off_nonneg k : 0 <= off k.
Proof. apply psum_nonneg. intros; lia. Qed.

Lemma off_succ k : 0 <= k -> off (k + 1) = off k + Z.of_nat (length (rows k)).
Proof. apply psum_succ. Qed.

Lemma off_mono k k' : 0 <= k <= k' -> off k <= off k'.
Proof. apply psum_mono. intros; lia. Qed.

Lemma estimate_loop :
  let rowp1 :=
    for_ 0 n
      (fun i rowp =>
         for_ (geti nep i) (geti nep (i + 1))
           (fun jp rowp =>
              aset rowp (i + 1) (geti rowp (i + 1) + sz (geti n2el jp)))
           rowp)
      (zeros (n + 1)) in
  Z.of_nat (length rowp1) = n + 1 /\
  geti rowp1 0 = 0 /\
  (forall k, 0 <= k < n -> geti rowp1 (k + 1) = Z.of_nat (length (rows k))).
Proof.
  cbv zeta.
  pose (Inv := fun i (rowp : list Z) =>
    Z.of_nat (length rowp) = n + 1 /\
    geti rowp 0 = 0 /\
    (forall k, 0 <= k < i -> geti rowp (k + 1) = Z.of_nat (length (rows k))) /\
    (forall k, i <= k < n -> geti rowp (k + 1) = 0)).
  match goal with
  | |- context [for_ 0 n ?body ?init] =>
      assert (Inv n (for_ 0 n body init)) as H
  end.
  { apply (@for_invariant _ Inv); auto.
    - unfold Inv. rewrite zeros_length. repeat split; try lia.
      + apply aget_zeros.
      + intros. apply aget_zeros.
    - intros i rowp Hi (I1 & I2 & I3 & I4).
      rewrite (for_fold_aget 0 n2el
                 (fun x a => aset a (i + 1) (geti a (i + 1) + sz x))).
      rewrite row_entries by lia.
      rewrite accumulate_fold by lia.
      assert (Hsum : zsum (map sz (elems i)) = Z.of_nat (length (rows i))).
      { unfold rows. rewrite length_flat_map_zsum. f_equal.
        apply map_ext_in. intros e He. exact (@Hsz i e Hi He). }
      rewrite Hsum, I4 by lia.
      unfold Inv. rewrite aset_length. repeat split; auto.
      + rewrite aget_aset_ne by lia. exact I2.
      + intros k Hk. rewrite aget_aset by lia.
        destruct (Z.eqb_spec (k + 1) (i + 1)) as [E|E].
        * replace k with i by lia. lia.
        * apply I3. lia.
      + intros k Hk. rewrite aget_aset_ne by lia. apply I4. lia. }
  destruct H as (I1 & I2 & I3 & _). auto.
Qed.

(** The elements of one node, written one after the other. *)
Lemma fill_row i (L : list Z) : forall (W rowp cols : list Z),
  0 <= i < n -> (forall e, In e L -> In e (elems i)) ->
  Z.of_nat (length rowp) = n + 1 ->
  geti rowp i = Z.of_nat (length W) ->
  memcpy cols (Z.of_nat (length W)) = W ->
  Z.of_nat (length W) + Z.of_nat (length (flat_map rows_e L)) <=
    Z.of_nat (length cols) ->
  let st :=
    fold_left
      (fun st e =>
         (aset (fst st) i (fst (wr e (geti (fst st) i, snd st))),
          snd (wr e (geti (fst st) i, snd st))))
      L (rowp, cols) in
  fst st = aset rowp i (Z.of_nat (length (W ++ flat_map rows_e L))) /\
  memcpy (snd st) (Z.of_nat (length (W ++ flat_map rows_e L))) =
    W ++ flat_map rows_e L /\
  length (snd st) = length cols.
Proof.
  induction L as [|e L IH]; intros W rowp cols Hi HL Hlen Hrow Hm Hb;
    cbv zeta.
  - simpl. rewrite app_nil_r. rewrite <- Hrow, aset_same.
    rewrite Hrow. auto.
  - simpl fold_left. cbn [fst snd].
    rewrite (@Hwr i e _ Hi (HL e (or_introl eq_refl))).
    simpl flat_map in Hb. rewrite length_app in Hb.
    destruct (@write_next_fold (rows_e e) (geti rowp i) cols W)
      as (H1 & H2 & H3); auto; try lia.
    { now rewrite Hrow. }
    cbv zeta in H1, H2, H3.
    set (rc := fold_left write_next (rows_e e) (geti rowp i, cols)) in *.
    destruct (IH (W ++ rows_e e) (aset rowp i (fst rc)) (snd rc))
      as (J1 & J2 & J3); auto.
    + intros e' He'. apply HL. now right.
    + now rewrite aset_length.
    + rewrite aget_aset_eq by lia. rewrite H1, Hrow, length_app. lia.
    + rewrite length_app, Nat2Z.inj_add, <- Hrow, <- H1. exact H2.
    + rewrite length_app. lia.
    + cbv zeta in J1, J2, J3. simpl flat_map. rewrite app_assoc.
      rewrite J1, J2, J3, H3, aset_aset. auto.
Qed.

Lemma fill_loop (rowp2 cols : list Z) :
  Z.of_nat (length rowp2) = n + 1 ->
  (forall k, 0 <= k <= n -> geti rowp2 k = off k) ->
  Z.of_nat (length cols) = off n ->
  let filled :=
    for_ 0 n
      (fun i st =>
         for_ (geti nep i) (geti nep (i + 1))
           (fun jp st =>
              (aset (fst st) i
                 (fst (wr (geti n2el jp) (geti (fst st) i, snd st))),
               snd (wr (geti n2el jp) (geti (fst st) i, snd st))))
           st)
      (rowp2, cols) in
  Z.of_nat (length (fst filled)) = n + 1 /\
  (forall k, 0 <= k < n -> geti (fst filled) k = off (k + 1)) /\
  snd filled = rows_upto rows n.
Proof.
  intros L2 B2 Lc. cbv zeta.
  pose (Inv := fun i (st : list Z * list Z) =>
    Z.of_nat (length (fst st)) = n + 1 /\
    Z.of_nat (length (snd st)) = off n /\
    (forall k, 0 <= k < i -> geti (fst st) k = off (k + 1)) /\
    (forall k, i <= k <= n -> geti (fst st) k = off k) /\
    memcpy (snd st) (off i) = rows_upto rows i).
  match goal with
  | |- context [for_ 0 n ?body ?init] =>
      assert (Inv n (for_ 0 n body init)) as H
  end.
  { apply (@for_invariant _ Inv); auto.
    - unfold Inv. cbn [fst snd]. repeat split; auto; try lia.
    - intros i [rowp cs] Hi (I1 & I2 & I3 & I4 & I5). cbn [fst snd] in *.
      rewrite (for_fold_aget 0 n2el
                 (fun e (st : list Z * list Z) =>
                    (aset (fst st) i (fst (wr e (geti (fst st) i, snd st))),
                     snd (wr e (geti (fst st) i, snd st))))).
      rewrite row_entries by lia.
      assert (Hoi : off i = Z.of_nat (length (rows_upto rows i))).
      { unfold off. now rewrite rows_upto_length. }
      destruct (@fill_row i (elems i) (rows_upto rows i) rowp cs)
        as (J1 & J2 & J3); auto.
      + rewrite <- Hoi. apply I4. lia.
      + rewrite <- Hoi. exact I5.
      + fold (rows i). rewrite <- Hoi, <- off_succ, I2 by lia.
        apply off_mono. lia.
      + cbv zeta in J1, J2, J3. fold (rows i) in J1, J2.
        rewrite <- rows_upto_succ in J1, J2 by lia.
        unfold Inv. rewrite J1, aset_length.
        assert (Ho1 : off (i + 1) = Z.of_nat (length (rows_upto rows (i + 1)))).
        { unfold off. now rewrite rows_upto_length. }
        rewrite <- Ho1 in *.
        repeat split; auto.
        * rewrite <- I2. f_equal. exact J3.
        * intros k Hk. rewrite aget_aset by lia.
          destruct (Z.eqb_spec k i) as [->|E]; auto. apply I3. lia.
        * intros k Hk. rewrite aget_aset_ne by lia. apply I4. lia. }
  destruct H as (I1 & I2 & I3 & _ & I5). repeat split; auto.
  rewrite <- I5. symmetry. now apply memcpy_all.
Qed.

(** Estimate, prefix sum, fill and shift give the rows of all nodes. *)
Lemma build_rows :
  let rowp1 :=
    for_ 0 n
      (fun i rowp =>
         for_ (geti nep i) (geti nep (i + 1))
           (fun jp rowp =>
              aset rowp (i + 1) (geti rowp (i + 1) + sz (geti n2el jp)))
           rowp)
      (zeros (n + 1)) in
  let rowp2 :=
    for_ 0 n (fun i rowp => aset rowp (i + 1) (geti rowp (i + 1) + geti rowp i))
      rowp1 in
  let nnz := geti rowp2 n in
  let cols := for_ 0 nnz (fun i cols => aset cols i (-1)) (zeros nnz) in
  let filled :=
    for_ 0 n
      (fun i st =>
         for_ (geti nep i) (geti nep (i + 1))
           (fun jp st =>
              (aset (fst st) i
                 (fst (wr (geti n2el jp) (geti (fst st) i, snd st))),
               snd (wr (geti n2el jp) (geti (fst st) i, snd st))))
           st)
      (rowp2, cols) in
  let rowp3 :=
    aset (for_down n (fun i rowp => aset rowp i (geti rowp (i - 1)))
            (fst filled)) 0 0 in
  is_csr n rowp3 (snd filled) rows.
Proof.
  cbv zeta.
  destruct estimate_loop as (L1 & Z1 & C1). cbv zeta in L1, Z1, C1.
  set (rowp1 := for_ 0 n _ (zeros (n + 1))) in *.
  destruct (@prefix_sum_loop n rowp1 (fun m => Z.of_nat (length (rows m)))
              Hn L1 Z1 C1) as (L2 & B2).
  set (rowp2 := for_ 0 n _ rowp1) in *. fold off in B2.
  set (cols := for_ 0 (geti rowp2 n) _ (zeros (geti rowp2 n))).
  assert (Lc : Z.of_nat (length cols) = off n).
  { subst cols.
    rewrite (for_aset_length 0 (geti rowp2 n) (fun i _ => i) (fun _ _ => -1)).
    rewrite zeros_length, B2 by lia. pose proof (off_nonneg n) as Hnn.
    unfold off in *. lia. }
  destruct (@fill_loop rowp2 cols L2 B2 Lc) as (L3 & B3 & C3).
  cbv zeta in L3, B3, C3.
  set (filled := for_ 0 n _ (rowp2, cols)) in *.
  rewrite for_down_eq.
  destruct (@shift_loop n (fst filled) off Hn L3 B3) as (L4 & Z4 & B4).
  cbv zeta in L4, Z4, B4.
  match goal with
  | |- is_csr n ?p _ _ => set (rowp3 := p) in *
  end.
  assert (B4' : forall k, 0 <= k <= n -> geti rowp3 k = off k).
  { intros k Hk. destruct (Z.eq_dec k 0) as [->|Hne].
    - rewrite Z4. unfold off. now rewrite psum_0.
    - apply B4. lia. }
  split; [exact L4|]. split; [exact Z4|].
  intros k Hk. rewrite !B4' by lia. rewrite C3.
  split; [apply off_nonneg|]. split.
  - rewrite rows_upto_length. fold (off n). split; apply off_mono; lia.
  - now apply rows_upto_slice.
Qed.

End BuildRows.

(** ** The node to node adjacency *)

Section NodeToNode.
Context {TacsScalar : Type}.
Implicit Types tacs : TACSAssembler TacsScalar.

Lemma node_elements_In tacs k e :
  In e (node_elements tacs k) <->
  0 <= e < numElements tacs /\ In k (element_local_nodes tacs e).
Proof.
  unfold node_elements. rewrite sort_unique_In, in_map_iff. split.
  - intros ([e' n] & <- & Hx). apply filter_In in Hx. destruct Hx as [Hx Hk].
    simpl in Hk. apply Z.eqb_eq in Hk. subst n.
    now apply incidences_In in Hx.
  - intros (He & Hk). exists (e, k). split; auto.
    apply filter_In. split; [now apply incidences_In|]. simpl. apply Z.eqb_refl.
Qed.

(** The number of local nodes that a connectivity entry stands for. *)
Lemma expand_node_length tacs e node :
  connectivity_resolved tacs -> 0 <= e < numElements tacs ->
  In node (element_nodes tacs e) ->
  Z.of_nat (length (expand_node tacs node)) =
  if node >=? 0 then 1
  else geti (fst (getDepNodes tacs)) (- node - 1 + 1) -
       geti (fst (getDepNodes tacs)) (- node - 1).
Proof.
  intros (_ & _ & Hdep & _) He Hin. unfold expand_node.
  destruct (Z.geb_spec node 0); [reflexivity|].
  destruct (Hdep e node He Hin) as (d & Hd & Hm); [lia|].
  unfold dep_parents, getDepNodes. rewrite Hd. cbn [fst snd].
  rewrite length_map, range_length. lia.
Qed.

(** Without a table of dependent nodes every connectivity entry is a
    node. *)
Lemma no_dep_nodes tacs e node :
  connectivity_resolved tacs -> depNodes tacs = None ->
  0 <= e < numElements tacs -> In node (element_nodes tacs e) -> 0 <= node.
Proof.
  intros (_ & _ & Hdep & _) Hd He Hin.
  destruct (Z.lt_ge_cases node 0) as [Hneg|]; auto.
  destruct (Hdep e node He Hin Hneg) as (d & Hd' & _). congruence.
Qed.

Lemma element_local_nodes_no_dep tacs e :
  connectivity_resolved tacs -> depNodes tacs = None ->
  0 <= e < numElements tacs ->
  element_local_nodes tacs e =
  map (getLocalNodeNum tacs) (element_nodes tacs e).
Proof.
  intros Hres Hd He. unfold element_local_nodes.
  pose proof (fun node => @no_dep_nodes tacs e node Hres Hd He) as Hpos.
  induction (element_nodes tacs e) as [|x r IH]; simpl; auto.
  rewrite IH by (intros; apply Hpos; now right).
  unfold expand_node. specialize (Hpos x (or_introl eq_refl)).
  destruct (Z.geb_spec x 0); [reflexivity|lia].
Qed.

Lemma element_nodes_length tacs e :
  connectivity_resolved tacs -> 0 <= e < numElements tacs ->
  Z.of_nat (length (element_nodes tacs e)) =
  geti (deref (elementNodeIndex tacs)) (e + 1) -
  geti (deref (elementNodeIndex tacs)) e.
Proof.
  intros (_ & Hm & _) He. unfold element_nodes.
  rewrite length_map, range_length. specialize (Hm e He). lia.
Qed.

(** The array [nodeCount] of the variant with dependent nodes. *)
Lemma nodeCount_loop tacs e :
  connectivity_resolved tacs -> 0 <= e < numElements tacs ->
  geti
    (for_ 0 (numElements tacs)
       (fun i nodeCount =>
          for_ (geti (deref (elementNodeIndex tacs)) i)
               (geti (deref (elementNodeIndex tacs)) (i + 1))
            (fun jp nodeCount =>
               if geti (deref (elementTacsNodes tacs)) jp >=? 0
               then incr nodeCount i
               else
                 aset nodeCount i
                   (geti nodeCount i +
                    (geti (fst (getDepNodes tacs))
                       (- geti (deref (elementTacsNodes tacs)) jp - 1 + 1) -
                     geti (fst (getDepNodes tacs))
                       (- geti (deref (elementTacsNodes tacs)) jp - 1))))
            nodeCount)
       (zeros (numElements tacs))) e =
  Z.of_nat (length (element_local_nodes tacs e)).
Proof.
  intros Hres He.
  pose (w := fun node =>
    if node >=? 0 then 1
    else geti (fst (getDepNodes tacs)) (- node - 1 + 1) -
         geti (fst (getDepNodes tacs)) (- node - 1)).
  pose (Inv := fun i (nc : list Z) =>
    Z.of_nat (length nc) = numElements tacs /\
    (forall k, 0 <= k < i ->
       geti nc k = Z.of_nat (length (element_local_nodes tacs k))) /\
    (forall k, i <= k < numElements tacs -> geti nc k = 0)).
  match goal with
  | |- geti (for_ 0 ?m ?body ?init) e = _ =>
      assert (Inv m (for_ 0 m body init)) as H
  end.
  { apply (@for_invariant _ Inv); try lia.
    - unfold Inv. rewrite zeros_length. repeat split; try lia.
      intros. apply aget_zeros.
    - intros i nc Hi (I1 & I2 & I3).
      rewrite (for_fold_aget 0 (deref (elementTacsNodes tacs))
                 (fun node nc =>
                    if node >=? 0 then incr nc i
                    else aset nc i
                           (geti nc i +
                            (geti (fst (getDepNodes tacs)) (- node - 1 + 1) -
                             geti (fst (getDepNodes tacs)) (- node - 1))))).
      fold (element_nodes tacs i).
      rewrite (@fold_left_ext_in _ _ _
                 (fun nc node => aset nc i (geti nc i + w node))).
      2:{ intros nc' node _. unfold w, incr.
          destruct (node >=? 0); reflexivity. }
      rewrite accumulate_fold by lia.
      assert (Hsum : zsum (map w (element_nodes tacs i)) =
                     Z.of_nat (length (element_local_nodes tacs i))).
      { unfold element_local_nodes. rewrite length_flat_map_zsum. f_equal.
        apply map_ext_in. intros node Hin. symmetry.
        apply (@expand_node_length tacs i node Hres Hi Hin). }
      rewrite Hsum, I3 by lia.
      unfold Inv. rewrite aset_length. repeat split; auto.
      + intros k Hk. rewrite aget_aset by lia.
        destruct (Z.eqb_spec k i) as [->|E]; [lia|]. apply I2. lia.
      + intros k Hk. rewrite aget_aset_ne by lia. apply I3. lia. }
  destruct H as (_ & I2 & _). apply I2. lia.
Qed.

(** The arrays before the final sort hold, for every local node, the
    local nodes of all elements that contain it. *)
Lemma computeLocalNodeToNodeCSR_is_csr tacs nodiag :
  connectivity_resolved tacs ->
  is_csr (numNodes tacs)
    (fst (computeLocalNodeToNodeCSR tacs nodiag))
    (snd (computeLocalNodeToNodeCSR tacs nodiag))
    (fun k => sorted_row nodiag k (node_neighbours tacs k)).
Proof.
  intros Hres. pose proof Hres as (Hn & _).
  pose proof (computeNodeToElementCSR_is_csr Hres) as Hcsr.
  unfold computeLocalNodeToNodeCSR. cbv zeta.
  apply SortAndUniquifyCSR_is_csr; auto.
  destruct (depNodes tacs) as [d|] eqn:Hd.
  - assert (Hg : getDepNodes tacs = (depNodePtr d, depNodeConn d))
      by (unfold getDepNodes; now rewrite Hd).
    pose proof (@nodeCount_loop tacs) as Hnc.
    pose proof (fun e rc => @element_loop _ _ tacs (fun n rc => write_next rc n)
                  e rc) as Hel.
    unfold write_next at 1 in Hel. cbv beta in Hel.
    rewrite Hg in Hnc, Hel. cbn [fst snd] in Hnc, Hel.
    cbn [fst snd].
    match goal with
    | |- context [aset _ (_ + 1) (_ + geti ?nc (geti _ _))] =>
        set (nodeCount := nc) in *
    end.
    refine (@build_rows (numNodes tacs) _ _ (node_elements tacs)
              (element_local_nodes tacs)
              (fun e => geti nodeCount e)
              (fun e rc =>
                 for_ (geti (deref (elementNodeIndex tacs)) e)
                      (geti (deref (elementNodeIndex tacs)) (e + 1))
                   (fun kp rc =>
                      if geti (deref (elementTacsNodes tacs)) kp >=? 0 then
                        (fst rc + 1,
                         aset (snd rc) (fst rc)
                           (getLocalNodeNum tacs
                              (geti (deref (elementTacsNodes tacs)) kp)))
                      else
                        for_ (geti (depNodePtr d)
                                (- geti (deref (elementTacsNodes tacs)) kp - 1))
                             (geti (depNodePtr d)
                                (- geti (deref (elementTacsNodes tacs)) kp - 1 + 1))
                          (fun p rc =>
                             (fst rc + 1,
                              aset (snd rc) (fst rc)
                                (getLocalNodeNum tacs (geti (depNodeConn d) p))))
                          rc)
                   rc)
              Hn Hcsr _ _).
    + intros k e Hk He. apply node_elements_In in He.
      apply Hnc; tauto.
    + intros k e rc Hk He. apply Hel.
  - pose proof (fun e rc => @element_loop _ _ tacs (fun n rc => write_next rc n)
                  e rc) as Hel.
    cbn [fst snd].
    refine (@build_rows (numNodes tacs) _ _ (node_elements tacs)
              (element_local_nodes tacs)
              (fun e => geti (deref (elementNodeIndex tacs)) (e + 1) -
                        geti (deref (elementNodeIndex tacs)) e)
              (fun e rc =>
                 for_ (geti (deref (elementNodeIndex tacs)) e)
                      (geti (deref (elementNodeIndex tacs)) (e + 1))
                   (fun kp rc =>
                      (fst rc + 1,
                       aset (snd rc) (fst rc)
                         (getLocalNodeNum tacs
                            (geti (deref (elementTacsNodes tacs)) kp))))
                   rc)
              Hn Hcsr _ _).
    + intros k e Hk He. apply node_elements_In in He. destruct He as [He _].
      rewrite (element_local_nodes_no_dep Hres Hd He), length_map.
      symmetry. now apply element_nodes_length.
    + intros k e rc Hk He. apply node_elements_In in He. destruct He as [He _].
      rewrite (element_local_nodes_no_dep Hres Hd He).
      rewrite fold_left_map. unfold element_nodes. rewrite fold_left_map.
      reflexivity.
Qed.

(** C4. In the structure that [computeLocalNodeToNodeCSR] returns, the
    row of the local node [i] contains the local node [j] exactly when
    some element has both [i] and [j] among its nodes, once every
    dependent node of the element has been replaced by its parents; with
    [nodiag] set, the entry [i] itself is left out of row [i]. Every row
    is strictly increasing, so it is sorted and has no duplicates. *)
Theorem computeLocalNodeToNodeCSR_adjacency tacs nodiag i j :
  connectivity_resolved tacs ->
  0 <= i < numNodes tacs ->
  (In j (csr_row (computeLocalNodeToNodeCSR tacs nodiag) i) <->
   (exists e, 0 <= e < numElements tacs /\
              In i (element_local_nodes tacs e) /\
              In j (element_local_nodes tacs e)) /\
   (nodiag <> 0 -> j <> i)) /\
  StronglySorted Z.lt (csr_row (computeLocalNodeToNodeCSR tacs nodiag) i).
Proof.
  intros Hres Hi.
  pose proof (computeLocalNodeToNodeCSR_is_csr nodiag Hres) as Hcsr.
  rewrite (surjective_pairing (computeLocalNodeToNodeCSR tacs nodiag)).
  rewrite (is_csr_row Hcsr Hi). split; [|apply sorted_row_sorted].
  rewrite sorted_row_In. unfold node_neighbours. rewrite in_flat_map.
  split; intros [Hex Hd]; split; auto.
  - destruct Hex as (e & He & Hj). apply node_elements_In in He.
    exists e. tauto.
  - destruct Hex as (e & He & Hie & Hj). exists e. split; auto.
    apply node_elements_In. tauto.
Qed.

End NodeToNode.

(** ** Loops of the reordering *)

(** A loop of writes leaves alone every entry that it does not write. *)
Lemma for_aset_frame {A : Type} (d : A) lo hi (g : Z -> list A -> Z)
  (v : Z -> list A -> A) (a : list A) k :
  (forall i b, lo <= i < hi -> g i b <> k) ->
  aget d (for_ lo hi (fun i c => aset c (g i c) (v i c)) a) k = aget d a k.
Proof.
  intros H. unfold for_.
  assert (Hin : forall i, In i (range lo hi) -> lo <= i < hi)
    by (intros i; apply In_range).
  revert a Hin. induction (range lo hi) as [|x r IH]; intros a Hin; simpl; auto.
  rewrite IH by (intros; apply Hin; now right).
  apply aget_aset_ne. apply H. apply Hin. now left.
Qed.

(** A loop that appends one entry per index. *)
Lemma for_append {A : Type} lo hi (f : Z -> A) (c : list A) :
  for_ lo hi (fun i c => c ++ [f i]) c = c ++ map f (range lo hi).
Proof.
  unfold for_. generalize (range lo hi) as l. intros l. revert c.
  induction l as [|x r IH]; intros c; simpl.
  - now rewrite app_nil_r.
  - rewrite IH, <- app_assoc. reflexivity.
Qed.

(** A loop that marks the entries [g lo, ..., g (hi-1)] with [-1]. *)
Lemma mark_loop lo hi (g : Z -> Z) (r : list Z) k :
  0 <= k < Z.of_nat (length r) ->
  geti (for_ lo hi (fun i r => aset r (g i) (-1)) r) k =
  if existsb (fun i => g i =? k) (range lo hi) then -1 else geti r k.
Proof.
  unfold for_. generalize (range lo hi) as l. intros l. revert r.
  induction l as [|x l IH]; intros r Hk; simpl; auto.
  rewrite IH by now rewrite aset_length.
  destruct (existsb (fun i => g i =? k) l) eqn:E.
  - now rewrite orb_true_r.
  - rewrite orb_false_r. rewrite aget_aset_gen.
    + destruct (Z.eqb_spec (g x) k); destruct (Z.eqb_spec k (g x));
        congruence.
    + auto.
Qed.

Lemma nonneg_indices_In r lo hi i :
  In i (nonneg_indices r lo hi) <-> lo <= i < hi /\ 0 <= geti r i.
Proof.
  unfold nonneg_indices. rewrite filter_In, In_range, Z.geb_le. lia.
Qed.

Lemma neg_indices_In r lo hi i :
  In i (neg_indices r lo hi) <-> lo <= i < hi /\ geti r i < 0.
Proof.
  unfold neg_indices. rewrite filter_In, In_range, Z.ltb_lt. lia.
Qed.

Lemma nonneg_indices_succ r lo i :
  lo <= i ->
  nonneg_indices r lo (i + 1) =
  nonneg_indices r lo i ++ (if geti r i >=? 0 then [i] else []).
Proof.
  intros H. unfold nonneg_indices. rewrite range_snoc, filter_app by lia.
  simpl. destruct (geti r i >=? 0); reflexivity.
Qed.

Lemma neg_indices_succ r lo i :
  lo <= i ->
  neg_indices r lo (i + 1) =
  neg_indices r lo i ++ (if geti r i <? 0 then [i] else []).
Proof.
  intros H. unfold neg_indices. rewrite range_snoc, filter_app by lia.
  simpl. destruct (geti r i <? 0); reflexivity.
Qed.

Lemma filter_ext_in_eq {A : Type} (p q : A -> bool) l :
  (forall x, In x l -> p x = q x) -> filter p l = filter q l.
Proof.
  induction l as [|x r IH]; simpl; intros H; auto.
  rewrite (H x) by auto. rewrite IH by auto. reflexivity.
Qed.

(** The first numbering pass: the entries that are not negative are
    numbered; the signs of the entries stay. *)
Lemma number_nonneg n (r0 : list Z) :
  0 <= n -> Z.of_nat (length r0) = n ->
  let st :=
    for_ 0 n
      (fun i st =>
         if geti (fst st) i >=? 0 then
           (aset (fst st) i (snd st), snd st + 1)
         else st)
      (r0, 0) in
  Z.of_nat (length (fst st)) = n /\
  snd st = Z.of_nat (length (nonneg_indices r0 0 n)) /\
  (forall k, 0 <= k < n -> (geti (fst st) k >=? 0) = (geti r0 k >=? 0)).
Proof.
  intros Hn Hlen. cbv zeta.
  pose (Inv := fun i (st : list Z * Z) =>
    Z.of_nat (length (fst st)) = n /\
    snd st = Z.of_nat (length (nonneg_indices r0 0 i)) /\
    (forall k, 0 <= k < i -> (geti (fst st) k >=? 0) = (geti r0 k >=? 0)) /\
    (forall k, i <= k < n -> geti (fst st) k = geti r0 k)).
  match goal with
  | |- context [for_ 0 n ?body ?init] =>
      assert (Inv n (for_ 0 n body init)) as H
  end.
  { apply (@for_invariant _ Inv); auto.
    - unfold Inv. cbn [fst snd]. repeat split; auto; intros; try lia.
    - intros i [r c] Hi (I1 & I2 & I3 & I4). cbn [fst snd] in *.
      rewrite I4 by lia. unfold Inv.
      rewrite nonneg_indices_succ by lia.
      destruct (Z.geb_spec (geti r0 i) 0) as [Hp|Hp]; cbn [fst snd].
      + rewrite aset_length, length_app. simpl length.
        split; [auto|]. split; [lia|]. split.
        * intros k Hk. rewrite aget_aset by lia.
          destruct (Z.eqb_spec k i) as [->|E]; [|apply I3; lia].
          destruct (Z.geb_spec (geti r0 i) 0); [|lia].
          apply Z.geb_le. lia.
        * intros k Hk. rewrite aget_aset_ne by lia. apply I4. lia.
      + rewrite app_nil_r. split; [auto|]. split; [auto|]. split.
        * intros k Hk. destruct (Z.eq_dec k i) as [->|E]; [|apply I3; lia].
          now rewrite I4 by lia.
        * intros k Hk. apply I4. lia. }
  destruct H as (I1 & I2 & I3 & _). auto.
Qed.

(** The second numbering pass over the owned nodes: the negative entries
    are numbered, the others become [-1]. *)
Lemma number_neg lo hi (r1 : list Z) :
  0 <= lo -> lo <= hi -> hi <= Z.of_nat (length r1) ->
  let st :=
    for_ lo hi
      (fun i st =>
         if geti (fst st) i <? 0 then
           (aset (fst st) i (snd st), snd st + 1)
         else (aset (fst st) i (-1), snd st))
      (r1, 0) in
  length (fst st) = length r1 /\
  snd st = Z.of_nat (length (neg_indices r1 lo hi)) /\
  (forall k, lo <= k < hi -> (geti (fst st) k >=? 0) = (geti r1 k <? 0)) /\
  (forall k, k < lo \/ hi <= k -> geti (fst st) k = geti r1 k).
Proof.
  intros H0 Hle Hlen. cbv zeta.
  pose (Inv := fun i (st : list Z * Z) =>
    length (fst st) = length r1 /\
    snd st = Z.of_nat (length (neg_indices r1 lo i)) /\
    (forall k, lo <= k < i -> (geti (fst st) k >=? 0) = (geti r1 k <? 0)) /\
    (forall k, k < lo \/ i <= k -> geti (fst st) k = geti r1 k)).
  match goal with
  | |- context [for_ lo hi ?body ?init] =>
      assert (Inv hi (for_ lo hi body init)) as H
  end.
  { apply (@for_invariant _ Inv); auto.
    - unfold Inv, neg_indices. cbn [fst snd]. rewrite range_nil by lia.
      repeat split; auto; intros; try lia.
    - intros i [r c] Hi (I1 & I2 & I3 & I4). cbn [fst snd] in *.
      rewrite I4 by lia. unfold Inv.
      rewrite neg_indices_succ by lia.
      destruct (Z.ltb_spec (geti r1 i) 0) as [Hp|Hp]; cbn [fst snd].
      + rewrite aset_length, length_app. simpl length.
        split; [auto|]. split; [lia|]. split.
        * intros k Hk. rewrite aget_aset by lia.
          destruct (Z.eqb_spec k i) as [->|E]; [|apply I3; lia].
          destruct (Z.ltb_spec (geti r1 i) 0); [|lia].
          apply Z.geb_le. lia.
        * intros k Hk. rewrite aget_aset_ne by lia. apply I4. lia.
      + rewrite aset_length, app_nil_r. split; [auto|]. split; [auto|]. split.
        * intros k Hk. rewrite aget_aset by lia.
          destruct (Z.eqb_spec k i) as [->|E]; [|apply I3; lia].
          destruct (Z.ltb_spec (geti r1 i) 0); [lia|]. reflexivity.
        * intros k Hk. rewrite aget_aset_ne by lia. apply I4. lia. }
  destruct H as (I1 & I2 & I3 & I4). auto.
Qed.

(** The new numbers go to the entries that are not negative, in order. *)
Lemma place_spec n offset (r P nn : list Z) :
  0 <= n -> Z.of_nat (length nn) = n ->
  let L := nonneg_indices r 0 n in
  let nn' := place_new_numbers n offset r P nn in
  Z.of_nat (length nn') = n /\
  (forall k, 0 <= k < Z.of_nat (length L) ->
     geti nn' (geti L k) = offset + geti P k) /\
  (forall i, ~ In i L -> geti nn' i = geti nn i).
Proof.
  intros Hn Hlen. cbv zeta. unfold place_new_numbers.
  pose (Inv := fun i (st : list Z * Z) =>
    Z.of_nat (length (fst st)) = n /\
    snd st = Z.of_nat (length (nonneg_indices r 0 i)) /\
    (forall k, 0 <= k < Z.of_nat (length (nonneg_indices r 0 i)) ->
       geti (fst st) (geti (nonneg_indices r 0 i) k) = offset + geti P k) /\
    (forall idx, ~ In idx (nonneg_indices r 0 i) ->
       geti (fst st) idx = geti nn idx)).
  match goal with
  | |- context [for_ 0 n ?body ?init] =>
      assert (Inv n (for_ 0 n body init)) as H
  end.
  { apply (@for_invariant _ Inv); auto.
    - unfold Inv, nonneg_indices. cbn [fst snd]. rewrite range_nil by lia.
      simpl. repeat split; auto; intros; try lia.
    - intros i [a j] Hi (I1 & I2 & I3 & I4). cbn [fst snd] in *.
      unfold Inv. rewrite nonneg_indices_succ by lia.
      set (Li := nonneg_indices r 0 i) in *.
      assert (HLi : forall k, 0 <= k < Z.of_nat (length Li) ->
                0 <= geti Li k < i).
      { intros k Hk. pose proof (aget_In 0 Li Hk) as Hin.
        apply nonneg_indices_In in Hin. lia. }
      destruct (Z.geb_spec (geti r i) 0) as [Hp|Hp]; cbn [fst snd].
      + rewrite aset_length, length_app. simpl length.
        split; [auto|]. split; [lia|]. split.
        * intros k Hk.
          destruct (Z.eq_dec k (Z.of_nat (length Li))) as [->|E].
          -- rewrite aget_app_r by lia. rewrite Z.sub_diag.
             change (geti [i] 0) with i.
             rewrite aget_aset_eq by lia. now rewrite I2.
          -- rewrite aget_app_l by lia.
             rewrite aget_aset_ne by (specialize (HLi k); lia).
             apply I3. lia.
        * intros idx Hidx. rewrite in_app_iff in Hidx.
          rewrite aget_aset_ne by (intros ->; apply Hidx; right; now left).
          apply I4. tauto.
      + rewrite app_nil_r. auto. }
  destruct H as (I1 & I2 & I3 & I4). auto.
Qed.

(** ** The ordering packages *)

Lemma natural_order_array n (v : list Z) :
  Z.of_nat (length v) = n ->
  is_permutation_array n (for_ 0 n (fun k v => aset v k k) v).
Proof.
  intros Hlen.
  assert (H : forall k, 0 <= k < n ->
            geti (for_ 0 n (fun k v => aset v k k) v) k = k).
  { intros k Hk.
    rewrite (@for_split _ 0 (k + 1) n) by lia.
    rewrite (@for_aset_frame Z 0 (k + 1) n (fun i _ => i) (fun i _ => i))
      by (intros; lia).
    rewrite for_snoc by lia. apply aget_aset_eq.
    rewrite (for_aset_length 0 k (fun i _ => i) (fun i _ => i)). lia. }
  repeat split.
  - rewrite H; lia.
  - rewrite H; lia.
  - intros k k' Hk Hk'. rewrite !H by lia. auto.
  - intros t Ht. exists t. split; auto.
Qed.

(** The inverse of a permutation array is a permutation array. *)
Lemma invert_into_array n (perm out : list Z) :
  0 <= n -> Z.of_nat (length out) = n ->
  is_permutation_array n perm ->
  is_permutation_array n (invert_into n perm out).
Proof.
  intros Hn Hlen (Hr & Hi & Hs). unfold invert_into.
  pose (Inv := fun i (o : list Z) =>
    Z.of_nat (length o) = n /\
    (forall j, 0 <= j < i -> geti o (geti perm j) = j)).
  assert (H : Inv n (for_ 0 n (fun k out => aset out (geti perm k) k) out)).
  { apply (@for_invariant _ Inv); auto.
    - split; auto. intros; lia.
    - intros i o Hi' (I1 & I2). split; [now rewrite aset_length|].
      intros j Hj. specialize (Hr i Hi') as Hri.
      rewrite aget_aset by lia.
      destruct (Z.eqb_spec (geti perm j) (geti perm i)) as [E|E].
      + apply Hi in E; lia.
      + apply I2. assert (j <> i) by (intros ->; now apply E). lia. }
  destruct H as (I1 & I2).
  set (o := for_ 0 n _ out) in *.
  repeat split.
  - destruct (Hs k H) as (j & Hj & <-). rewrite I2; lia.
  - destruct (Hs k H) as (j & Hj & <-). rewrite I2; lia.
  - intros t t' Ht Ht'.
    destruct (Hs t Ht) as (j & Hj & <-).
    destruct (Hs t' Ht') as (j' & Hj' & <-).
    rewrite !I2 by lia. now intros ->.
  - intros k Hk. exists (geti perm k). split; [now apply Hr|]. now apply I2.
Qed.

Lemma reorder_new_vars_valid (be : OrderingBackends) order n csr
  (new_vars : list Z) :
  backends_valid be -> 0 <= n -> Z.of_nat (length new_vars) = n ->
  is_permutation_array n (reorder_new_vars be order n csr new_vars).
Proof.
  intros Hbe Hn Hlen.
  destruct (Hbe n (fst csr) (snd csr) Hn) as (H1 & H2 & H3 & H4).
  unfold reorder_new_vars, computeMatReordering.
  destruct order; cbn [snd option_map].
  - now apply natural_order_array.
  - exact H1.
  - now apply invert_into_array.
  - exact H3.
  - now apply invert_into_array.
Qed.

(** ** Two blocks of new numbers *)

Lemma filter_partition_length {A : Type} (p : A -> bool) l :
  (length (filter p l) + length (filter (fun x => negb (p x)) l) = length l)%nat.
Proof.
  induction l as [|x r IH]; simpl; auto.
  destruct (p x); simpl; lia.
Qed.

(** Two lists of indices that are numbered through two permutations, the
    second block behind the first, are numbered one-to-one onto the whole
    range. *)
Lemma two_blocks (L1 L2 P1 P2 nn : list Z) lo n1 n2 (own cpl : Z -> Prop) :
  Z.of_nat (length L1) = n1 -> Z.of_nat (length L2) = n2 ->
  is_permutation_array n1 P1 -> is_permutation_array n2 P2 ->
  (forall k, 0 <= k < n1 -> geti nn (geti L1 k) = lo + geti P1 k) ->
  (forall k, 0 <= k < n2 -> geti nn (geti L2 k) = lo + n1 + geti P2 k) ->
  (forall i, In i L1 <-> own i /\ ~ cpl i) ->
  (forall i, In i L2 <-> own i /\ cpl i) ->
  (forall i, own i -> ~ cpl i -> lo <= geti nn i < lo + n1) /\
  (forall i, own i -> cpl i -> lo + n1 <= geti nn i < lo + n1 + n2) /\
  (forall i i', own i -> own i' -> geti nn i = geti nn i' -> i = i') /\
  (forall v, lo <= v < lo + n1 + n2 -> exists i, own i /\ geti nn i = v).
Proof.
  intros Hl1 Hl2 (R1 & I1 & S1) (R2 & I2 & S2) F1 F2 M1 M2.
  assert (V1 : forall i, own i -> ~ cpl i ->
            exists k, 0 <= k < n1 /\ geti L1 k = i /\ geti nn i = lo + geti P1 k).
  { intros i Ho Hc. assert (In i L1) as Hin by (apply M1; auto).
    apply (In_aget 0) in Hin. destruct Hin as (k & Hk & <-).
    exists k. repeat split; try lia. apply F1. lia. }
  assert (V2 : forall i, own i -> cpl i ->
            exists k, 0 <= k < n2 /\ geti L2 k = i /\
                      geti nn i = lo + n1 + geti P2 k).
  { intros i Ho Hc. assert (In i L2) as Hin by (apply M2; auto).
    apply (In_aget 0) in Hin. destruct Hin as (k & Hk & <-).
    exists k. repeat split; try lia. apply F2. lia. }
  assert (Hdec : forall i, own i -> cpl i \/ ~ cpl i).
  { intros i Ho. destruct (in_dec Z.eq_dec i L2) as [Hin|Hin].
    - left. now apply M2.
    - right. intros Hc. apply Hin. apply M2. auto. }
  split; [|split; [|split]].
  - intros i Ho Hc. destruct (V1 i Ho Hc) as (k & Hk & _ & ->).
    specialize (R1 k Hk). lia.
  - intros i Ho Hc. destruct (V2 i Ho Hc) as (k & Hk & _ & ->).
    specialize (R2 k Hk). lia.
  - intros i i' Ho Ho' E.
    destruct (Hdec i Ho) as [Hc|Hc]; destruct (Hdec i' Ho') as [Hc'|Hc'].
    + destruct (V2 i Ho Hc) as (k & Hk & <- & E1).
      destruct (V2 i' Ho' Hc') as (k' & Hk' & <- & E2).
      rewrite E1, E2 in E. f_equal. apply I2; lia.
    + destruct (V2 i Ho Hc) as (k & Hk & _ & E1).
      destruct (V1 i' Ho' Hc') as (k' & Hk' & _ & E2).
      specialize (R2 k Hk). specialize (R1 k' Hk'). lia.
    + destruct (V1 i Ho Hc) as (k & Hk & _ & E1).
      destruct (V2 i' Ho' Hc') as (k' & Hk' & _ & E2).
      specialize (R1 k Hk). specialize (R2 k' Hk'). lia.
    + destruct (V1 i Ho Hc) as (k & Hk & <- & E1).
      destruct (V1 i' Ho' Hc') as (k' & Hk' & <- & E2).
      rewrite E1, E2 in E. f_equal. apply I1; lia.
  - intros v Hv. destruct (Z.lt_ge_cases v (lo + n1)) as [Hlt|Hge].
    + destruct (S1 (v - lo)) as (k & Hk & E); [lia|].
      exists (geti L1 k).
      assert (In (geti L1 k) L1) as Hin by (apply aget_In; lia).
      apply M1 in Hin. split; [tauto|]. rewrite F1 by lia. lia.
    + destruct (S2 (v - lo - n1)) as (k & Hk & E); [lia|].
      exists (geti L2 k).
      assert (In (geti L2 k) L2) as Hin by (apply aget_In; lia).
      apply M2 in Hin. split; [tauto|]. rewrite F2 by lia. lia.
Qed.

Lemma existsb_range_self lo hi k :
  existsb (fun i => i =? k) (range lo hi) = true <-> lo <= k < hi.
Proof.
  rewrite existsb_exists. split.
  - intros (i & Hi & E). apply In_range in Hi. apply Z.eqb_eq in E. lia.
  - intros H. exists k. split; [now apply In_range|apply Z.eqb_refl].
Qed.

Lemma existsb_range_aget (c : list Z) k :
  existsb (fun i => geti c i =? k) (range 0 (Z.of_nat (length c))) = true <->
  In k c.
Proof.
  rewrite existsb_exists. split.
  - intros (i & Hi & E). apply In_range in Hi. apply Z.eqb_eq in E.
    subst k. now apply aget_In.
  - intros H. apply (In_aget 0) in H. destruct H as (i & Hi & <-).
    exists i. split; [now apply In_range|apply Z.eqb_refl].
Qed.

(** ** The two blocks of [computeReordering] *)

Section Reordering.
Context {TacsScalar : Type}.
Implicit Types tacs : TACSAssembler TacsScalar.

(** The array [reducedNodes] after the external nodes and the coupling
    nodes have been marked. *)
Lemma reducedNodes_marked n off nO (c : list Z) k :
  0 <= off -> 0 <= nO -> off + nO <= n -> 0 <= k < n ->
  let r0 :=
    for_ 0 (Z.of_nat (length c)) (fun i r => aset r (geti c i) (-1))
      (for_ (off + nO) n (fun i r => aset r i (-1))
         (for_ 0 off (fun i r => aset r i (-1)) (zeros n))) in
  (geti r0 k = 0 \/ geti r0 k = -1) /\
  (geti r0 k = 0 <-> (off <= k < off + nO) /\ ~ In k c).
Proof.
  intros Hoff HnO Hn Hk. cbv zeta.
  set (ra := for_ 0 off _ (zeros n)).
  set (rb := for_ (off + nO) n _ ra).
  assert (La : Z.of_nat (length ra) = n).
  { subst ra. rewrite (for_aset_length 0 off (fun i _ => i) (fun _ _ => -1)).
    rewrite zeros_length. lia. }
  assert (Lb : Z.of_nat (length rb) = n).
  { subst rb.
    rewrite (for_aset_length (off + nO) n (fun i _ => i) (fun _ _ => -1)).
    exact La. }
  pose proof (@mark_loop 0 (Z.of_nat (length c)) (fun i => geti c i) rb k)
    as H0. cbv beta in H0. rewrite H0 by lia. clear H0.
  pose proof (@mark_loop (off + nO) n (fun i => i) ra k) as Hb.
  cbv beta in Hb. fold rb in Hb. rewrite Hb by lia. clear Hb.
  pose proof (@mark_loop 0 off (fun i => i) (zeros n) k) as Ha.
  cbv beta in Ha. fold ra in Ha. rewrite Ha by (rewrite zeros_length; lia).
  clear Ha. rewrite aget_zeros.
  pose proof (existsb_range_aget c k) as E1.
  pose proof (existsb_range_self (off + nO) n k) as E2.
  pose proof (existsb_range_self 0 off k) as E3.
  destruct (existsb _ (range 0 (Z.of_nat (length c)))).
  { split; [now right|]. split; [discriminate|]. intros [_ Hc].
    exfalso. apply Hc. now apply E1. }
  assert (Hc : ~ In k c) by (intros Hc; apply E1 in Hc; discriminate).
  destruct (existsb _ (range (off + nO) n)).
  { split; [now right|]. split; [discriminate|].
    assert (off + nO <= k < n) by now apply E2. lia. }
  assert (~ (off + nO <= k < n)) by (intros Hx; apply E2 in Hx; discriminate).
  destruct (existsb _ (range 0 off)).
  { split; [now right|]. split; [discriminate|].
    assert (0 <= k < off) by now apply E3. lia. }
  assert (~ (0 <= k < off)) by (intros Hx; apply E3 in Hx; discriminate).
  split; [now left|]. split; auto. intros _. split; [lia|auto].
Qed.

Lemma reducedNodes_marked_length n off nO (c : list Z) :
  0 <= n ->
  Z.of_nat (length
    (for_ 0 (Z.of_nat (length c)) (fun i r => aset r (geti c i) (-1))
       (for_ (off + nO) n (fun i r => aset r i (-1))
          (for_ 0 off (fun i r => aset r i (-1)) (zeros n))))) = n.
Proof.
  intros Hn.
  rewrite (for_aset_length 0 (Z.of_nat (length c)) (fun i _ => geti c i)
             (fun _ _ => -1)).
  rewrite (for_aset_length (off + nO) n (fun i _ => i) (fun _ _ => -1)).
  rewrite (for_aset_length 0 off (fun i _ => i) (fun _ _ => -1)).
  rewrite zeros_length. lia.
Qed.

(** The local part of the reordering with [DIRECT_SCHUR] on more than one
    process numbers the owned nodes in two blocks. *)
Lemma computeReordering_local_blocks (be : OrderingBackends) tacs order
  (c : list Z) :
  backends_valid be ->
  (mpiSize tacs =? 1) = false ->
  0 <= extNodeOffset tacs -> 0 <= numOwnedNodes tacs ->
  extNodeOffset tacs + numOwnedNodes tacs <= numNodes tacs ->
  let nn :=
    fst (computeReordering_local be tacs order DIRECT_SCHUR
           (Z.of_nat (length c)) c) in
  let lo := geti (ownerRange tacs) (mpiRank tacs) in
  exists m, 0 <= m <= numOwnedNodes tacs /\
    (forall i, owned_local tacs i -> ~ In i c -> lo <= geti nn i < lo + m) /\
    (forall i, owned_local tacs i -> In i c ->
               lo + m <= geti nn i < lo + numOwnedNodes tacs) /\
    (forall i i', owned_local tacs i -> owned_local tacs i' ->
                  geti nn i = geti nn i' -> i = i') /\
    (forall v, lo <= v < lo + numOwnedNodes tacs ->
               exists i, owned_local tacs i /\ geti nn i = v).
Proof.
  intros Hbe Hmpi Hoff HnO Hn. cbv zeta.
  unfold computeReordering_local. rewrite Hmpi. cbv beta iota zeta.
  set (n := numNodes tacs) in *. set (off := extNodeOffset tacs) in *.
  set (nO := numOwnedNodes tacs) in *.
  set (lo := geti (ownerRange tacs) (mpiRank tacs)).
  assert (Hn0 : 0 <= n) by lia.
  set (r0 := for_ 0 (Z.of_nat (length c)) _ _).
  pose proof (fun k => @reducedNodes_marked n off nO c k Hoff HnO Hn) as Hr0.
  cbv zeta in Hr0. fold r0 in Hr0.
  pose proof (@reducedNodes_marked_length n off nO c Hn0) as Lr0. fold r0 in Lr0.
  (* first pass *)
  destruct (@number_nonneg n r0 Hn0 Lr0) as (L1 & N1 & S1).
  cbv zeta in L1, N1, S1.
  set (st1 := for_ 0 n _ (r0, 0)) in *.
  set (I1 := nonneg_indices r0 0 n) in *.
  assert (HI1 : nonneg_indices (fst st1) 0 n = I1).
  { unfold I1, nonneg_indices. apply filter_ext_in_eq.
    intros k Hk. apply In_range in Hk. now apply S1. }
  assert (M1 : forall i, In i I1 <-> (off <= i < off + nO) /\ ~ In i c).
  { intros i. unfold I1. rewrite nonneg_indices_In. split.
    - intros [Hi Hp]. destruct (Hr0 i Hi) as [[E|E] Hiff]; [|lia].
      now apply Hiff.
    - intros Hi. assert (0 <= i < n) as Hi' by lia.
      destruct (Hr0 i Hi') as [_ Hiff]. apply Hiff in Hi. lia. }
  set (P1 := reorder_new_vars be order (snd st1) _ (zeros (snd st1))).
  assert (V1 : is_permutation_array (snd st1) P1).
  { apply reorder_new_vars_valid; auto; [lia|].
    rewrite zeros_length. lia. }
  destruct (@place_spec n lo (fst st1) P1 (zeros n) Hn0) as (L2 & F1 & G1).
  { rewrite zeros_length. lia. }
  cbv zeta in L2, F1, G1. rewrite HI1 in F1, G1.
  set (nn1 := place_new_numbers n lo (fst st1) P1 (zeros n)) in *.
  (* second pass *)
  destruct (@number_neg off (off + nO) (fst st1)) as (L3 & N3 & S3 & T3);
    try lia.
  cbv zeta in L3, N3, S3, T3.
  set (st2 := for_ off (off + nO) _ (fst st1, 0)) in *.
  set (I2 := neg_indices (fst st1) off (off + nO)) in *.
  assert (Hsign : forall k, 0 <= k < n ->
            (geti (fst st1) k <? 0) = negb (geti r0 k >=? 0)).
  { intros k Hk. rewrite <- S1 by auto.
    destruct (Z.ltb_spec (geti (fst st1) k) 0);
      destruct (Z.geb_spec (geti (fst st1) k) 0); auto; lia. }
  assert (M2 : forall i, In i I2 <-> (off <= i < off + nO) /\ In i c).
  { intros i. unfold I2. rewrite neg_indices_In. split.
    - intros [Hi Hp]. split; auto.
      assert (0 <= i < n) as Hi' by lia.
      destruct (Hr0 i Hi') as [Hv Hiff].
      destruct (in_dec Z.eq_dec i c) as [|Hnc]; auto.
      assert (geti r0 i = 0) as E by (apply Hiff; auto).
      specialize (Hsign i Hi'). rewrite E in Hsign. simpl in Hsign.
      apply Z.ltb_ge in Hsign. lia.
    - intros [Hi Hc]. split; auto.
      assert (0 <= i < n) as Hi' by lia.
      destruct (Hr0 i Hi') as [[E|E] Hiff]; [apply Hiff in E; tauto|].
      specialize (Hsign i Hi'). rewrite E in Hsign. simpl in Hsign.
      now apply Z.ltb_lt in Hsign. }
  assert (HI2 : nonneg_indices (fst st2) 0 n = I2).
  { unfold nonneg_indices, I2, neg_indices.
    rewrite (@range_split 0 off n) by lia.
    rewrite (@range_split off (off + nO) n) by lia.
    rewrite !filter_app.
    rewrite (@filter_all_false _ _ (range 0 off)).
    2:{ intros k Hk. apply In_range in Hk. rewrite T3 by lia.
        rewrite Z.geb_leb; apply Z.leb_gt.
        assert (0 <= k < n) as Hk' by lia.
        specialize (Hsign k Hk').
        destruct (Hr0 k Hk') as [[E|E] Hiff]; [apply Hiff in E; lia|].
        rewrite E in Hsign. simpl in Hsign. now apply Z.ltb_lt in Hsign. }
    rewrite (@filter_all_false _ _ (range (off + nO) n)).
    2:{ intros k Hk. apply In_range in Hk. rewrite T3 by lia.
        rewrite Z.geb_leb; apply Z.leb_gt.
        assert (0 <= k < n) as Hk' by lia.
        specialize (Hsign k Hk').
        destruct (Hr0 k Hk') as [[E|E] Hiff]; [apply Hiff in E; lia|].
        rewrite E in Hsign. simpl in Hsign. now apply Z.ltb_lt in Hsign. }
    rewrite app_nil_r. simpl app.
    apply filter_ext_in_eq. intros k Hk. apply In_range in Hk. now apply S3. }
  (* the sizes of the two blocks *)
  assert (Hsum : snd st1 + snd st2 = nO).
  { rewrite N1, N3.
    assert (HI1' : I1 = filter (fun i => geti r0 i >=? 0)
                          (range off (off + nO))).
    { unfold I1, nonneg_indices.
      rewrite (@range_split 0 off n) by lia.
      rewrite (@range_split off (off + nO) n) by lia.
      rewrite !filter_app.
      rewrite (@filter_all_false _ _ (range 0 off)).
      2:{ intros k Hk. apply In_range in Hk. rewrite Z.geb_leb; apply Z.leb_gt.
          destruct (Hr0 k ltac:(lia)) as [[E|E] Hiff];
            [apply Hiff in E; lia|lia]. }
      rewrite (@filter_all_false _ _ (range (off + nO) n)).
      2:{ intros k Hk. apply In_range in Hk. rewrite Z.geb_leb; apply Z.leb_gt.
          destruct (Hr0 k ltac:(lia)) as [[E|E] Hiff];
            [apply Hiff in E; lia|lia]. }
      now rewrite app_nil_r. }
    assert (HI2' : I2 = filter (fun i => negb (geti r0 i >=? 0))
                          (range off (off + nO))).
    { unfold I2, neg_indices. apply filter_ext_in_eq.
      intros k Hk. apply In_range in Hk. apply Hsign. lia. }
    rewrite HI1', HI2'.
    pose proof (filter_partition_length (fun i => geti r0 i >=? 0)
                  (range off (off + nO))) as Hp.
    rewrite range_length in Hp. lia. }
  assert (Hn1 : 0 <= snd st1) by lia.
  assert (Hn2 : 0 <= snd st2) by lia.
  exists (snd st1). split; [lia|].
  replace nO with (snd st1 + snd st2) by lia.
  replace (lo + (snd st1 + snd st2)) with (lo + snd st1 + snd st2) by lia.
  destruct (Z.gtb_spec (snd st2) 0) as [Hpos|Hzero]; cbn [fst].
  - set (P2 := reorder_new_vars be order (snd st2) _ (zeros (snd st2))).
    assert (V2 : is_permutation_array (snd st2) P2).
    { apply reorder_new_vars_valid; auto. rewrite zeros_length. lia. }
    destruct (@place_spec n (lo + snd st1) (fst st2) P2 nn1 Hn0 L2)
      as (L4 & F2 & G2).
    cbv zeta in L4, F2, G2. rewrite HI2 in F2, G2.
    apply (@two_blocks I1 I2 P1 P2 _ lo (snd st1) (snd st2)
             (fun i => off <= i < off + nO) (fun i => In i c)); auto.
    + intros k Hk. rewrite G2.
      * apply F1. lia.
      * intros Hin. apply M2 in Hin.
        assert (In (geti I1 k) I1) as Hin1 by (apply aget_In; lia).
        apply M1 in Hin1. tauto.
    + intros k Hk. apply F2. lia.
  - assert (E2 : snd st2 = 0) by lia.
    assert (HP0 : is_permutation_array (snd st2) []).
    { rewrite E2. repeat split; intros; lia. }
    apply (@two_blocks I1 I2 P1 [] _ lo (snd st1) (snd st2)
             (fun i => off <= i < off + nO) (fun i => In i c)); auto.
    + intros k Hk. apply F1. lia.
    + intros k Hk. lia.
Qed.

(** The list of coupling nodes has [numCouplingNodes] entries. *)
Lemma couplingNodes_length mi tacs mpi :
  0 <= extNodeOffset tacs <= numExtNodes tacs ->
  Z.of_nat (length (couplingNodes (computeCouplingNodes mi tacs mpi))) =
  numCouplingNodes (computeCouplingNodes mi tacs mpi).
Proof.
  intros H. unfold computeCouplingNodes. cbv zeta.
  cbn [couplingNodes numCouplingNodes].
  rewrite !for_append. cbn [app].
  rewrite !length_app, !length_map, !range_length.
  unfold FElibrary.uniqueSort. cbv zeta. cbn [snd fst]. lia.
Qed.

(** The node numbers that [computeReordering] stores. *)
Lemma computeReordering_newNodeIndices be mi tacs order mat mpi :
  elementNodeIndex tacs <> None -> tacsExtNodeNums tacs = None ->
  let tacs1 := snd (fst (computeExtNodes tacs)) in
  let cn := computeCouplingNodes mi tacs1 mpi in
  let newExtNodes :=
    memcpy (mpi_newExtNodes mpi) (geti (extPtr cn) (mpiSize tacs1)) in
  newNodeIndices (fst (computeReordering be mi tacs order mat mpi)) =
  Some
    (for_ (extNodeOffset tacs1) (numExtNodes tacs1)
       (fun i nn => aset nn (i + numOwnedNodes tacs1) (geti newExtNodes i))
       (for_ 0 (extNodeOffset tacs1)
          (fun i nn => aset nn i (geti newExtNodes i))
          (fst (computeReordering_local be tacs1 order mat
                  (numCouplingNodes cn) (couplingNodes cn))))).
Proof.
  intros Heni Hext. unfold computeReordering.
  destruct (elementNodeIndex tacs); [|congruence].
  rewrite Hext. reflexivity.
Qed.

(** C1. For [computeReordering] with [DIRECT_SCHUR] on more than one
    process, the new numbers of the owned nodes are a bijection onto the
    ownership range [ownerRange[mpiRank], ownerRange[mpiRank+1]), which
    splits into two consecutive blocks: an owned node that is not a
    coupling node gets a number in the leading block, an owned coupling
    node a number in the trailing block, so that every owned coupling node
    is numbered above every owned node that is not a coupling node. *)
Theorem computeReordering_direct_schur (be : OrderingBackends) mi tacs order
  mpi :
  elementNodeIndex tacs <> None -> tacsExtNodeNums tacs = None ->
  meshInitializedFlag tacs = false -> 1 < mpiSize tacs ->
  varMap_consistent tacs -> backends_valid be ->
  let tacs1 := snd (fst (computeExtNodes tacs)) in
  let cn := computeCouplingNodes mi tacs1 mpi in
  let res := fst (computeReordering be mi tacs order DIRECT_SCHUR mpi) in
  let lo := geti (ownerRange tacs) (mpiRank tacs) in
  let hi := geti (ownerRange tacs) (mpiRank tacs + 1) in
  exists nn m,
    newNodeIndices res = Some nn /\ 0 <= m <= hi - lo /\
    (forall i, owned_local tacs1 i -> ~ In i (couplingNodes cn) ->
               lo <= geti nn i < lo + m) /\
    (forall i, owned_local tacs1 i -> In i (couplingNodes cn) ->
               lo + m <= geti nn i < hi) /\
    (forall i j, owned_local tacs1 i -> ~ In i (couplingNodes cn) ->
                 owned_local tacs1 j -> In j (couplingNodes cn) ->
                 geti nn i < geti nn j) /\
    (forall i i', owned_local tacs1 i -> owned_local tacs1 i' ->
                  geti nn i = geti nn i' -> i = i') /\
    (forall v, lo <= v < hi -> exists i, owned_local tacs1 i /\ geti nn i = v).
Proof.
  intros Heni Hnone Hflag Hsize (Hhi & HnO) Hbe. cbv zeta.
  rewrite (@computeReordering_newNodeIndices be mi tacs order DIRECT_SCHUR
             mpi Heni Hnone). cbv zeta.
  destruct (computeExtNodes_succeeds tacs Hflag Heni) as (t1 & E).
  rewrite E. cbn [fst snd].
  destruct (computeExtNodes_result tacs E) as (ext & _ & Hs & Et).
  assert (Eoff : extNodeOffset t1 =
                 Z.of_nat (length (filter
                   (fun g => g <? geti (ownerRange tacs) (mpiRank tacs)) ext))).
  { subst t1. cbn [set_extNodes extNodeOffset].
    now apply extNodeOffset_counts. }
  assert (Enum : numExtNodes t1 = Z.of_nat (length ext))
    by (subst t1; reflexivity).
  assert (EnO : numOwnedNodes t1 = numOwnedNodes tacs)
    by (subst t1; reflexivity).
  assert (En : numNodes t1 = numOwnedNodes tacs + Z.of_nat (length ext))
    by (subst t1; reflexivity).
  assert (Er : ownerRange t1 = ownerRange tacs) by (subst t1; reflexivity).
  assert (Ek : mpiRank t1 = mpiRank tacs) by (subst t1; reflexivity).
  assert (Ez : mpiSize t1 = mpiSize tacs) by (subst t1; reflexivity).
  clear Et.
  pose proof (count_below_le ext (geti (ownerRange tacs) (mpiRank tacs)))
    as Hle.
  assert (Hoff : 0 <= extNodeOffset t1 <= numExtNodes t1) by lia.
  rewrite <- (@couplingNodes_length mi t1 mpi Hoff).
  set (cn := computeCouplingNodes mi t1 mpi).
  assert (Hmpi : (mpiSize t1 =? 1) = false)
    by (rewrite Ez; apply Z.eqb_neq; lia).
  destruct (@computeReordering_local_blocks be t1 order (couplingNodes cn)
              Hbe Hmpi) as (m & Hm & B1 & B2 & Inj & Sur); try lia.
  cbv zeta in B1, B2, Inj, Sur. rewrite Er, Ek, EnO in *.
  set (loc := fst (computeReordering_local be t1 order DIRECT_SCHUR _ _)) in *.
  set (newExt := memcpy _ _).
  set (nn := for_ (extNodeOffset t1) _ _ _).
  assert (Hfr : forall i, owned_local t1 i -> geti nn i = geti loc i).
  { intros i Hi. unfold owned_local in Hi. unfold nn.
    rewrite (@for_aset_frame Z 0 (extNodeOffset t1) (numExtNodes t1)
               (fun i _ => i + numOwnedNodes tacs)
               (fun i _ => geti newExt i)) by (intros; lia).
    rewrite (@for_aset_frame Z 0 0 (extNodeOffset t1)
               (fun i _ => i) (fun i _ => geti newExt i)) by (intros; lia).
    reflexivity. }
  exists nn, m. rewrite Hhi.
  split; [reflexivity|]. split; [lia|].
  split; [intros i Hi Hc; rewrite Hfr by auto; now apply B1|].
  split; [intros i Hi Hc; rewrite Hfr by auto; now apply B2|].
  split.
  { intros i j Hi Hci Hj Hcj. rewrite !Hfr by auto.
    specialize (B1 i Hi Hci). specialize (B2 j Hj Hcj). lia. }
  split.
  { intros i i' Hi Hi'. rewrite !Hfr by auto. now apply Inj. }
  intros v Hv. destruct (Sur v Hv) as (i & Hi & Hval).
  exists i. split; auto. now rewrite Hfr.
Qed.

End Reordering.


(** * The theorems on the example meshes *)

Lemma natural_backends_valid : backends_valid natural_backends.
Proof.
  intros n rowp cols Hn. cbn [natural_backends ComputeRCMOrder amd_order
    METIS_NodeND amd_order_interface snd]. unfold natural_order.
  assert (H : is_permutation_array n
                (for_ 0 n (fun k v => aset v k k) (zeros n))).
  { apply natural_order_array. rewrite zeros_length. lia. }
  tauto.
Qed.

Lemma mesh1_dep_consistent : varMap_consistent mesh1_dep.
Proof. split; vm_compute; [reflexivity|discriminate]. Qed.

(** The reordering of process 1 of the chain: node 4 is local and gets the
    number 3, node 3 is a coupling node and gets the number 4. *)
Lemma computeReordering_direct_schur_witness :
  newNodeIndices
    (fst (computeReordering natural_backends mesh1_intervals mesh1_dep
            RCM_ORDER DIRECT_SCHUR mesh1_exchange)) = Some [2; 4; 3] /\
  exists nn m,
    newNodeIndices
      (fst (computeReordering natural_backends mesh1_intervals mesh1_dep
              RCM_ORDER DIRECT_SCHUR mesh1_exchange)) = Some nn /\
    0 <= m <= 5 - 3 /\
    (forall v, 3 <= v < 5 ->
       exists i, owned_local mesh1_ext i /\ geti nn i = v).
Proof.
  split; [reflexivity|].
  destruct (@computeReordering_direct_schur Z natural_backends
              mesh1_intervals mesh1_dep RCM_ORDER mesh1_exchange)
    as (nn & m & H1 & H2 & _ & _ & _ & _ & H3).
  - discriminate.
  - reflexivity.
  - reflexivity.
  - reflexivity.
  - exact mesh1_dep_consistent.
  - exact natural_backends_valid.
  - exists nn, m. split; [exact H1|]. split; [exact H2|exact H3].
Defined.

Lemma computeExtNodes_enumerates_witness :
  computeExtNodes mesh1_dep = (0, mesh1_ext, []) /\
  exists ext,
    tacsExtNodeNums mesh1_ext = Some ext /\
    StronglySorted Z.lt ext /\
    (forall g, In g ext <->
               0 <= g /\ ~ owned mesh1_dep g /\
               (in_connectivity mesh1_dep g \/ in_dep_parents mesh1_dep g)) /\
    numExtNodes mesh1_ext = Z.of_nat (length ext) /\
    extNodeOffset mesh1_ext =
      Z.of_nat (length (filter
        (fun g => g <? geti (ownerRange mesh1_dep) (mpiRank mesh1_dep)) ext)) /\
    numNodes mesh1_ext = numOwnedNodes mesh1_ext + numExtNodes mesh1_ext.
Proof.
  split; [reflexivity|].
  apply (@computeExtNodes_enumerates Z mesh1_dep mesh1_ext []). reflexivity.
Defined.

Lemma mesh1_ext_computed : ExtNodesComputed mesh1_ext [2].
Proof.
  destruct (@computeExtNodes_computed Z mesh1_dep mesh1_ext [] eq_refl)
    as (ext & H).
  assert (E : ext = [2]).
  { destruct H as (H & _). vm_compute in H. congruence. }
  now subst ext.
Qed.

Lemma local_global_inverse_witness :
  varMap_consistent mesh1_ext /\ ExtNodesComputed mesh1_ext [2] /\
  (forall l, 0 <= l < numNodes mesh1_ext ->
             getLocalNodeNum mesh1_ext (getGlobalNodeNum mesh1_ext l) = l) /\
  (forall g, owned mesh1_ext g \/ In g [2] ->
             getGlobalNodeNum mesh1_ext (getLocalNodeNum mesh1_ext g) = g).
Proof.
  assert (H1 : varMap_consistent mesh1_ext)
    by (split; vm_compute; [reflexivity|discriminate]).
  split; [exact H1|]. split; [exact mesh1_ext_computed|].
  exact (@local_global_inverse Z mesh1_ext [2] H1 mesh1_ext_computed).
Defined.

Lemma mesh1_ext_resolved : connectivity_resolved mesh1_ext.
Proof.
  unfold connectivity_resolved.
  change (numElements mesh1_ext) with 2.
  split; [by_computation|]. split; [|split].
  - intros e He. assert (e = 0 \/ e = 1) as [->| ->] by lia; by_computation.
  - intros e node He Hin Hneg.
    exists {| dep_refs := 1; depNodePtr := [0; 2]; depNodeConn := [2; 4];
              depNodeWeights := [1; 1] |}.
    split; [reflexivity|].
    assert (e = 0 \/ e = 1) as [->| ->] by lia; vm_compute in Hin;
      destruct Hin as [<-|[<-|[]]]; try lia; by_computation.
  - intros e n He Hin.
    assert (e = 0 \/ e = 1) as [->| ->] by lia; vm_compute in Hin;
      repeat (destruct Hin as [<-|Hin]; [vm_compute; split; congruence|]);
      destruct Hin.
Qed.

(** Row 1 of the adjacency of process 1 of the chain, without the
    diagonal entry: the nodes 0 and 2. *)
Lemma computeLocalNodeToNodeCSR_adjacency_witness :
  connectivity_resolved mesh1_ext /\ 0 <= 1 < numNodes mesh1_ext /\
  csr_row (computeLocalNodeToNodeCSR mesh1_ext 1) 1 = [0; 2] /\
  (In 2 (csr_row (computeLocalNodeToNodeCSR mesh1_ext 1) 1) <->
   (exists e, 0 <= e < numElements mesh1_ext /\
              In 1 (element_local_nodes mesh1_ext e) /\
              In 2 (element_local_nodes mesh1_ext e)) /\
   (1 <> 0 -> 2 <> 1)) /\
  StronglySorted Z.lt (csr_row (computeLocalNodeToNodeCSR mesh1_ext 1) 1).
Proof.
  assert (H : 0 <= 1 < numNodes mesh1_ext) by (split; by_computation).
  split; [exact mesh1_ext_resolved|]. split; [exact H|].
  split; [reflexivity|].
  exact (@computeLocalNodeToNodeCSR_adjacency Z mesh1_ext 1 1 2
           mesh1_ext_resolved H).
Defined.

Lemma dv_aux_nums : forall a, In a (deref (auxElements dv_aux)) -> 0 <= num a.
Proof. intros a [<-|[]]. by_computation. Qed.


Lemma mesh1_bad_node :
  node_out_of_range mesh1_connected mesh1_bad_conn mesh1_ptr 1 3.
Proof.
  unfold node_out_of_range. repeat split; try by_computation.
  left. by_computation.
Qed.

Lemma setElementConnectivity_out_of_range_witness :
  meshInitializedFlag mesh1_connected = false /\
  tacsExtNodeNums mesh1_connected = None /\
  node_out_of_range mesh1_connected mesh1_bad_conn mesh1_ptr 1 3 /\
  exists r text,
    r <> 0 /\
    setElementConnectivity mesh1_connected mesh1_bad_conn mesh1_ptr =
    (Some r,
     set_connectivity mesh1_connected
       (Some (memcpy mesh1_ptr (numElements mesh1_connected + 1)))
       (Some (memcpy mesh1_bad_conn
                (geti mesh1_ptr (numElements mesh1_connected)))),
     [(mpiRank mesh1_connected, text)]).
Proof.
  split; [reflexivity|]. split; [reflexivity|].
  split; [exact mesh1_bad_node|].
  exact (@setElementConnectivity_out_of_range Z mesh1_connected
           mesh1_bad_conn mesh1_ptr 1 3 eq_refl eq_refl mesh1_bad_node).
Defined.

(** The connectivity with the node 7 is refused, and then it is the stored
    connectivity. *)
Lemma setElementConnectivity_commits_before_check :
  meshInitializedFlag mesh1_connected = false /\
  node_out_of_range mesh1_connected mesh1_bad_conn mesh1_ptr 1 3 /\
  elementTacsNodes mesh1_connected = Some [2; 3; 3; -1] /\
  elementTacsNodes
    (snd (fst (setElementConnectivity mesh1_connected mesh1_bad_conn
                 mesh1_ptr))) = Some [2; 3; 3; 7] /\
  ~ refused_without_trace mesh1_connected mesh1_bad_conn mesh1_ptr.
Proof.
  split; [reflexivity|]. split; [exact mesh1_bad_node|].
  split; [reflexivity|]. split; [reflexivity|].
  intros (_ & _ & H). vm_compute in H. discriminate.
Qed.

Lemma mesh1_parents_independent (tacs : TACSAssembler Z) (a b : Z) :
  numDependentNodes tacs = 1 -> geti (ownerRange tacs) (mpiSize tacs) = 5 ->
  0 <= a < 5 -> 0 <= b < 5 ->
  parents_independent tacs [0; 2] [a; b].
Proof.
  intros Hn Hr Ha Hb i jp Hi Hjp. rewrite Hn in Hi. rewrite Hr.
  assert (i = 0) as -> by lia. change (geti [0; 2] 0) with 0 in Hjp.
  change (geti [0; 2] (0 + 1)) with 2 in Hjp.
  assert (jp = 0 \/ jp = 1) as [->| ->] by lia.
  - change (geti [a; b] 0) with a. lia.
  - change (geti [a; b] 1) with b. lia.
Qed.



Lemma create_before_initialize_witness :
  meshInitializedFlag mesh1_ext = false /\
  (exists text,
     createVec zops mesh1_ext = (None, mesh1_ext, [(mpiRank mesh1_ext, text)])) /\
  (exists text,
     createMat mesh1_ext = (None, mesh1_ext, [(mpiRank mesh1_ext, text)])).
Proof.
  split; [reflexivity|].
  exact (@create_before_initialize Z zops mesh1_ext eq_refl).
Defined.

(** C8. [getDesignVarRange] returns the bounds that the elements of the
    calling process give: on two processes whose elements give the bounds
    [1, 5] and [2, 4] for design variable 0, process 0 returns [1, 5] and
    process 1 returns [2, 4], while the maximum of the lower bounds and
    the minimum of the upper bounds over the processes are [2, 4]. *)
Theorem getDesignVarRange_not_reduced :
  getDesignVarRange dv_rank0 [0] [0] 1 = ([1], [5]) /\
  getDesignVarRange dv_rank1 [0] [0] 1 = ([2], [4]) /\
  reconciled_range [dv_rank0; dv_rank1] [0] [0] 1 = ([2], [4]) /\
  getDesignVarRange dv_rank0 [0] [0] 1 <>
  reconciled_range [dv_rank0; dv_rank1] [0] [0] 1.
Proof. repeat split; by_computation. Qed.


(** * Further properties of the adjacency structures *)

(** Every position of the column array in front of [rowp[n]] lies in one
    of the rows. *)
Lemma csr_position_row n rowp cols rows p :
  0 <= n -> is_csr n rowp cols rows -> 0 <= p < geti rowp n ->
  exists k, 0 <= k < n /\ geti rowp k <= p < geti rowp (k + 1).
Proof.
  intros Hn (Hl & H0 & H) Hp. revert Hp.
  assert (Hind : forall m : nat, Z.of_nat m <= n ->
            0 <= p < geti rowp (Z.of_nat m) ->
            exists k, 0 <= k < Z.of_nat m /\
                      geti rowp k <= p < geti rowp (k + 1)).
  { induction m as [|m IH]; intros Hm Hp.
    - simpl in Hp. lia.
    - replace (Z.of_nat (S m)) with (Z.of_nat m + 1) in * by lia.
      destruct (Z.lt_ge_cases p (geti rowp (Z.of_nat m))) as [Hlt|Hge].
      + destruct IH as (k & Hk & Hr); [lia|lia|]. exists k. split; [lia|auto].
      + exists (Z.of_nat m). split; [lia|lia]. }
  intros Hp. destruct (Hind (Z.to_nat n)) as (k & Hk & Hr).
  - lia.
  - now rewrite Z2Nat.id by lia.
  - exists k. split; [lia|auto].
Qed.

(** An entry of the column array is an entry of its row. *)
Lemma csr_entry_in_row n rowp cols rows k p :
  is_csr n rowp cols rows -> 0 <= k < n ->
  geti rowp k <= p < geti rowp (k + 1) ->
  In (geti cols p) (rows k).
Proof.
  intros (Hl & H0 & H) Hk Hp. destruct (H k Hk) as (Ha & Hb & Hc).
  rewrite <- Hc.
  replace p with (geti rowp k + (p - geti rowp k)) by lia.
  rewrite <- (@aget_slice Z 0 cols (geti rowp k) (geti rowp (k + 1))) by lia.
  apply aget_In. rewrite slice_length; lia.
Qed.

Section AdjacencyMore.
Context {TacsScalar : Type}.
Implicit Types tacs : TACSAssembler TacsScalar.

(** X1. In the structure that [computeNodeToElementCSR] returns, the row
    of the local node [i] lists exactly the elements that have [i] among
    their nodes, once the dependent nodes are replaced by their parents;
    the row is strictly increasing, so no element is listed twice. *)
Theorem computeNodeToElementCSR_rows tacs i e :
  connectivity_resolved tacs -> 0 <= i < numNodes tacs ->
  (In e (csr_row (computeNodeToElementCSR tacs) i) <->
   0 <= e < numElements tacs /\ In i (element_local_nodes tacs e)) /\
  StronglySorted Z.lt (csr_row (computeNodeToElementCSR tacs) i).
Proof.
  intros Hres Hi.
  pose proof (computeNodeToElementCSR_is_csr Hres) as Hcsr.
  rewrite (surjective_pairing (computeNodeToElementCSR tacs)).
  rewrite (is_csr_row Hcsr Hi). split.
  - apply node_elements_In.
  - unfold node_elements. apply sort_unique_sorted.
Qed.

(** X2. The adjacency that [computeLocalNodeToNodeCSR] returns is
    symmetric: the row of node [i] contains [j] exactly when the row of
    node [j] contains [i]. *)
Theorem computeLocalNodeToNodeCSR_symmetric tacs nodiag i j :
  connectivity_resolved tacs ->
  0 <= i < numNodes tacs -> 0 <= j < numNodes tacs ->
  In j (csr_row (computeLocalNodeToNodeCSR tacs nodiag) i) <->
  In i (csr_row (computeLocalNodeToNodeCSR tacs nodiag) j).
Proof.
  intros Hres Hi Hj.
  pose proof (computeLocalNodeToNodeCSR_is_csr nodiag Hres) as Hcsr.
  rewrite (surjective_pairing (computeLocalNodeToNodeCSR tacs nodiag)).
  rewrite (is_csr_row Hcsr Hi), (is_csr_row Hcsr Hj).
  rewrite !sorted_row_In. unfold node_neighbours. rewrite !in_flat_map.
  split; intros ((e & He & Hin) & Hd); (split; [|intros Hn; specialize (Hd Hn); congruence]);
    apply node_elements_In in He; destruct He as (He & Hk);
    exists e; (split; [apply node_elements_In; split; auto|auto]).
Qed.

(** X3. The structure that [computeLocalNodeToNodeCSR] returns is well
    formed: [rowp] has [numNodes + 1] entries, starts at 0, does not
    decrease and ends within [cols], and every column entry in front of
    [rowp[numNodes]] is a local node in [[0, numNodes)]. *)
Theorem computeLocalNodeToNodeCSR_wellformed tacs nodiag :
  connectivity_resolved tacs ->
  let rowp := fst (computeLocalNodeToNodeCSR tacs nodiag) in
  let cols := snd (computeLocalNodeToNodeCSR tacs nodiag) in
  Z.of_nat (length rowp) = numNodes tacs + 1 /\
  geti rowp 0 = 0 /\
  (forall k, 0 <= k < numNodes tacs -> geti rowp k <= geti rowp (k + 1)) /\
  geti rowp (numNodes tacs) <= Z.of_nat (length cols) /\
  (forall p, 0 <= p < geti rowp (numNodes tacs) ->
             0 <= geti cols p < numNodes tacs).
Proof.
  intros Hres. cbv zeta.
  pose proof (computeLocalNodeToNodeCSR_is_csr nodiag Hres) as Hcsr.
  set (rowp := fst _) in *. set (cols := snd _) in *.
  pose proof Hcsr as (Hl & H0 & H).
  split; [exact Hl|]. split; [exact H0|]. split; [|split].
  - intros k Hk. destruct (H k Hk) as (_ & Hb & _). lia.
  - destruct Hres as (Hn & _).
    destruct (Z.eq_dec (numNodes tacs) 0) as [E|E].
    + rewrite E, H0. lia.
    + destruct (H (numNodes tacs - 1)) as (_ & Hb & _); [lia|].
      replace (numNodes tacs - 1 + 1) with (numNodes tacs) in Hb by lia. lia.
  - intros p Hp.
    destruct (csr_position_row (proj1 Hres) Hcsr Hp) as (k & Hk & Hr).
    pose proof (csr_entry_in_row Hcsr Hk Hr) as Hin.
    apply sorted_row_In in Hin. destruct Hin as [Hin _].
    unfold node_neighbours in Hin. apply in_flat_map in Hin.
    destruct Hin as (e & He & Hin). apply node_elements_In in He.
    destruct Hres as (_ & _ & _ & Hloc). apply (Hloc e); tauto.
Qed.

End AdjacencyMore.


(** * Further properties of the local numbering *)

(** The search finds nothing that is not in the list. *)
Lemma bsearch_absent key l :
  ~ In key l -> FElibrary.bsearch key l (Z.of_nat (length l)) = None.
Proof.
  intros Hnot.
  destruct (FElibrary.bsearch key l (Z.of_nat (length l))) as [i|] eqn:E; auto.
  apply bsearch_sound in E. destruct E as (Hi & <-).
  exfalso. apply Hnot. now apply aget_In.
Qed.

Section NumberingMore.
Context {TacsScalar : Type}.
Implicit Types tacs : TACSAssembler TacsScalar.

Lemma getLocalNodeNum_owned tacs g :
  owned tacs g ->
  getLocalNodeNum tacs g =
  g - geti (ownerRange tacs) (mpiRank tacs) + extNodeOffset tacs.
Proof.
  unfold owned, getLocalNodeNum. intros H.
  destruct (Z.geb_spec g (geti (ownerRange tacs) (mpiRank tacs)));
    destruct (Z.ltb_spec g (geti (ownerRange tacs) (mpiRank tacs + 1)));
    simpl; lia.
Qed.

(** Where [getLocalNodeNum] sends the entry [k] of the external list. *)
Lemma getLocalNodeNum_external tacs ext k :
  ExtNodesComputed tacs ext -> 0 <= k < Z.of_nat (length ext) ->
  getLocalNodeNum tacs (geti ext k) =
  if k <? extNodeOffset tacs then k else numOwnedNodes tacs + k.
Proof.
  intros Hc Hk. pose proof (@ext_below_iff _ tacs ext k Hc Hk) as Hbelow.
  destruct Hc as (He & Hs & Hx & Hn & Ho & Hnn).
  destruct (Hx (geti ext k)) as [Hpos Hnown]; [now apply aget_In|].
  unfold getLocalNodeNum. unfold owned in Hnown.
  set (lo := geti (ownerRange tacs) (mpiRank tacs)) in *.
  set (hi := geti (ownerRange tacs) (mpiRank tacs + 1)) in *.
  destruct (Z.geb_spec (geti ext k) lo); destruct (Z.ltb_spec (geti ext k) hi);
    simpl; try lia.
  all: destruct (Z.geb_spec (geti ext k) 0); try lia.
  all: rewrite He, Hn, bsearch_found by auto.
  all: destruct (Z.ltb_spec (geti ext k) lo);
       destruct (Z.ltb_spec k (extNodeOffset tacs)); auto; lia.
Qed.

(** The local number of a known node, by cases. *)
Lemma getLocalNodeNum_known tacs ext g :
  varMap_consistent tacs -> ExtNodesComputed tacs ext ->
  owned tacs g \/ In g ext ->
  let lo := geti (ownerRange tacs) (mpiRank tacs) in
  let off := extNodeOffset tacs in
  let nO := numOwnedNodes tacs in
  (g < lo /\ 0 <= getLocalNodeNum tacs g < off /\
   geti ext (getLocalNodeNum tacs g) = g) \/
  (lo <= g < lo + nO /\ getLocalNodeNum tacs g = g - lo + off) \/
  (lo + nO <= g /\ off + nO <= getLocalNodeNum tacs g < numNodes tacs /\
   geti ext (getLocalNodeNum tacs g - nO) = g).
Proof.
  intros (Hvm & HnO) Hc Hg. cbv zeta.
  destruct Hg as [Hg|Hg].
  - right; left. rewrite (getLocalNodeNum_owned Hg).
    unfold owned in Hg. rewrite Hvm in Hg. split; [lia|reflexivity].
  - apply (In_aget 0) in Hg. destruct Hg as (k & Hk & <-).
    rewrite (getLocalNodeNum_external Hc Hk).
    pose proof (@ext_below_iff _ tacs ext k Hc Hk) as Hbelow.
    destruct Hc as (He & Hs & Hx & Hn & Ho & Hnn).
    destruct (Hx (geti ext k)) as [Hpos Hnown]; [now apply aget_In|].
    unfold owned in Hnown. rewrite Hvm in Hnown.
    destruct (Z.ltb_spec k (extNodeOffset tacs)) as [Hlt|Hge].
    + left. split; [now apply Hbelow|]. split; [lia|reflexivity].
    + right; right.
      assert (~ geti ext k < geti (ownerRange tacs) (mpiRank tacs))
        by (rewrite Hbelow; lia).
      split; [lia|]. split; [lia|]. f_equal. lia.
Qed.

(** X4. Once the external node list has been computed, the local
    numbering keeps the order of the global numbers: of two nodes that
    the process knows (owned or in the external list), the one with the
    smaller global number has the smaller local number, and both local
    numbers lie in [[0, numNodes)]. *)
Theorem getLocalNodeNum_order_preserving tacs ext g g' :
  varMap_consistent tacs -> ExtNodesComputed tacs ext ->
  owned tacs g \/ In g ext -> owned tacs g' \/ In g' ext ->
  g < g' ->
  0 <= getLocalNodeNum tacs g /\
  getLocalNodeNum tacs g < getLocalNodeNum tacs g' /\
  getLocalNodeNum tacs g' < numNodes tacs.
Proof.
  intros Hvm Hc Hg Hg' Hlt.
  pose proof (getLocalNodeNum_known Hvm Hc Hg) as K.
  pose proof (getLocalNodeNum_known Hvm Hc Hg') as K'.
  cbv zeta in K, K'.
  destruct Hc as (He & Hs & Hx & Hn & Ho & Hnn).
  assert (Hoff : 0 <= extNodeOffset tacs <= numExtNodes tacs).
  { rewrite Ho, Hn.
    pose proof (count_below_le ext (geti (ownerRange tacs) (mpiRank tacs))).
    lia. }
  destruct Hvm as (Hvm & HnO).
  set (l := getLocalNodeNum tacs g) in *.
  set (l' := getLocalNodeNum tacs g') in *.
  assert (Hmono : forall a b, 0 <= a < Z.of_nat (length ext) ->
            0 <= b < Z.of_nat (length ext) ->
            geti ext a < geti ext b -> a < b).
  { intros a b Ha Hb Hab.
    destruct (Z.lt_ge_cases a b) as [|Hge]; auto.
    destruct (Z.eq_dec a b) as [->|Hne]; [lia|].
    pose proof (@sorted_aget_lt ext b a Hs). lia. }
  destruct K as [(K1 & K2 & K3)|[(K1 & K2)|(K1 & K2 & K3)]];
    destruct K' as [(K1' & K2' & K3')|[(K1' & K2')|(K1' & K2' & K3')]];
    try lia.
  - assert (l < l') by (apply Hmono; lia). lia.
  - assert (l - numOwnedNodes tacs < l' - numOwnedNodes tacs)
      by (apply Hmono; lia). lia.
Qed.

(** X5. Once the external node list has been computed, [getLocalNodeNum]
    returns -1 exactly for the nodes that the process does not know
    (neither owned nor in the external list, or a dependent node), and it
    prints a message, tagged with its rank, exactly for these. *)
Theorem getLocalNodeNum_unknown tacs ext g :
  varMap_consistent tacs -> ExtNodesComputed tacs ext ->
  (getLocalNodeNum tacs g = -1 <-> ~ (owned tacs g \/ In g ext)) /\
  (owned tacs g \/ In g ext -> getLocalNodeNum_stderr tacs g = []) /\
  (~ (owned tacs g \/ In g ext) ->
   exists text, getLocalNodeNum_stderr tacs g = [(mpiRank tacs, text)]).
Proof.
  intros Hvm Hc.
  assert (Hunk : ~ (owned tacs g \/ In g ext) ->
            getLocalNodeNum tacs g = -1 /\
            exists text, getLocalNodeNum_stderr tacs g = [(mpiRank tacs, text)]).
  { intros Hnot. destruct Hc as (He & Hs & Hx & Hn & Ho & Hnn).
    unfold getLocalNodeNum, getLocalNodeNum_stderr.
    assert (Hno : ~ owned tacs g) by tauto. unfold owned in Hno.
    destruct (Z.geb_spec g (geti (ownerRange tacs) (mpiRank tacs)));
      destruct (Z.ltb_spec g (geti (ownerRange tacs) (mpiRank tacs + 1)));
      simpl; try lia.
    all: destruct (Z.geb_spec g 0); [|split; eauto].
    all: rewrite He, Hn, bsearch_absent by tauto; split; eauto. }
  assert (Hkn : owned tacs g \/ In g ext ->
            0 <= getLocalNodeNum tacs g /\ getLocalNodeNum_stderr tacs g = []).
  { intros Hg. pose proof (getLocalNodeNum_known Hvm Hc Hg) as K.
    cbv zeta in K. split.
    - destruct Hc as (He & Hs & Hx & Hn & Ho & Hnn).
      assert (0 <= extNodeOffset tacs) by lia.
      destruct Hvm as (_ & HnO). lia.
    - unfold getLocalNodeNum_stderr. destruct Hg as [Hg|Hg].
      + unfold owned in Hg.
        destruct (Z.geb_spec g (geti (ownerRange tacs) (mpiRank tacs)));
          destruct (Z.ltb_spec g (geti (ownerRange tacs) (mpiRank tacs + 1)));
          simpl; auto; lia.
      + destruct Hc as (He & Hs & Hx & Hn & Ho & Hnn).
        destruct (Hx g Hg) as (Hpos & _).
        destruct (_ && _); auto.
        destruct (Z.geb_spec g 0); [|lia].
        rewrite He, Hn.
        apply (In_aget 0) in Hg. destruct Hg as (k & Hk & <-).
        now rewrite bsearch_found. }
  split; [|split].
  - split.
    + intros E Hg. destruct (Hkn Hg). lia.
    + intros Hnot. now destruct (Hunk Hnot).
  - intros Hg. now destruct (Hkn Hg).
  - intros Hnot. now destruct (Hunk Hnot).
Qed.


End NumberingMore.


(** * Elements, auxiliary elements and [initialize] *)

Section ElementsMore.
Context {TacsScalar : Type}.
Implicit Types tacs : TACSAssembler TacsScalar.

(** The loop over the elements when every element has [varsPerNode]
    displacements: it runs to its end and takes the two maxima. *)
Lemma setElements_sizes_ok tacs (els : list (TACSElement TacsScalar)) idx :
  (forall i, In i idx ->
             numDisplacements (element_at els i) = varsPerNode tacs) ->
  forall ms mn, exists ms' mn',
    setElements_sizes tacs els idx ms mn = (ms', mn', None) /\
    ms <= ms' /\ mn <= mn' /\
    (forall i, In i idx ->
               numVariables (element_at els i) <= ms' /\
               numNodes_of (element_at els i) <= mn') /\
    (ms' = ms \/ exists i, In i idx /\ numVariables (element_at els i) = ms') /\
    (mn' = mn \/ exists i, In i idx /\ numNodes_of (element_at els i) = mn').
Proof.
  induction idx as [|x r IH]; intros Hok ms mn.
  - exists ms, mn. simpl. repeat split; auto; try lia; intros i [].
  - cbn [setElements_sizes]. cbv zeta.
    rewrite (Hok x (or_introl eq_refl)), Z.eqb_refl. cbn [negb].
    set (ms1 := if numVariables (element_at els x) >? ms
                then numVariables (element_at els x) else ms).
    set (mn1 := if numNodes_of (element_at els x) >? mn
                then numNodes_of (element_at els x) else mn).
    destruct (IH (fun i Hi => Hok i (or_intror Hi)) ms1 mn1)
      as (ms' & mn' & E & H1 & H2 & H3 & H4 & H5).
    exists ms', mn'. rewrite E.
    assert (Hms : ms <= ms1 /\ numVariables (element_at els x) <= ms1 /\
                  (ms1 = ms \/ ms1 = numVariables (element_at els x))).
    { subst ms1. destruct (Z.gtb_spec (numVariables (element_at els x)) ms); lia. }
    assert (Hmn : mn <= mn1 /\ numNodes_of (element_at els x) <= mn1 /\
                  (mn1 = mn \/ mn1 = numNodes_of (element_at els x))).
    { subst mn1. destruct (Z.gtb_spec (numNodes_of (element_at els x)) mn); lia. }
    split; [reflexivity|]. split; [lia|]. split; [lia|]. split; [|split].
    + intros i [<-|Hi]; [lia|]. now apply H3.
    + destruct H4 as [->|(i & Hi & Hv)].
      * destruct Hms as (_ & _ & [->| ->]); [now left|].
        right. exists x. split; [now left|reflexivity].
      * right. exists i. split; [now right|exact Hv].
    + destruct H5 as [->|(i & Hi & Hv)].
      * destruct Hmn as (_ & _ & [->| ->]); [now left|].
        right. exists x. split; [now left|reflexivity].
      * right. exists i. split; [now right|exact Hv].
Qed.

(** The loop is left with a message at an element with another number of
    displacements. *)
Lemma setElements_sizes_bad tacs (els : list (TACSElement TacsScalar)) idx :
  (exists i, In i idx /\
             numDisplacements (element_at els i) <> varsPerNode tacs) ->
  forall ms mn, exists ms' mn' text,
    setElements_sizes tacs els idx ms mn =
    (ms', mn', Some (mpiRank tacs, text)).
Proof.
  induction idx as [|x r IH]; intros (i & Hi & Hbad) ms mn; [destruct Hi|].
  cbn [setElements_sizes]. cbv zeta.
  destruct (Z.eqb_spec (numDisplacements (element_at els x)) (varsPerNode tacs))
    as [E|E]; cbn [negb].
  - destruct Hi as [->|Hi]; [congruence|]. apply IH. eauto.
  - eauto.
Qed.

Lemma setElements_sizes_msg tacs (els : list (TACSElement TacsScalar)) idx
  ms mn m :
  snd (setElements_sizes tacs els idx ms mn) = Some m ->
  exists text, m = (mpiRank tacs, text).
Proof.
  revert ms mn. induction idx as [|x r IH]; intros ms mn;
    cbn [setElements_sizes]; cbv zeta; [discriminate|].
  destruct (negb _); [intros [= <-]; eauto|apply IH].
Qed.

(** X7. Before [initialize()], [setElements] with elements that all have
    [varsPerNode] displacements and, where the connectivity is set, as
    many nodes as their rows of the connectivity, returns 0 and prints
    nothing; it stores the elements, and [maxElementSize] and
    [maxElementNodes] become the largest number of variables and of nodes
    of an element (0 without elements). *)
Theorem setElements_accepts tacs (st : ElementStorage)
  (els : list (TACSElement TacsScalar)) :
  meshInitializedFlag tacs = false ->
  (forall i, 0 <= i < numElements tacs ->
             numDisplacements (element_at els i) = varsPerNode tacs) ->
  (forall eni i, elementNodeIndex tacs = Some eni ->
                 0 <= i < numElements tacs ->
                 geti eni (i + 1) - geti eni i = numNodes_of (element_at els i)) ->
  exists st',
    setElements tacs st els =
    (0, set_elements tacs (Some (memcpy els (numElements tacs))), st', []) /\
    (forall i, 0 <= i < numElements tacs ->
               numVariables (element_at els i) <= maxElementSize st' /\
               numNodes_of (element_at els i) <= maxElementNodes st') /\
    (maxElementSize st' = 0 \/
     exists i, 0 <= i < numElements tacs /\
               numVariables (element_at els i) = maxElementSize st') /\
    (maxElementNodes st' = 0 \/
     exists i, 0 <= i < numElements tacs /\
               numNodes_of (element_at els i) = maxElementNodes st').
Proof.
  intros Hflag Hd Hc. unfold setElements. rewrite Hflag. cbv zeta.
  destruct (@setElements_sizes_ok tacs els (range 0 (numElements tacs)))
    with (ms := 0) (mn := 0) as (ms' & mn' & E & H1 & H2 & H3 & H4 & H5).
  { intros i Hi. apply Hd. now apply In_range. }
  rewrite E. cbn [fst snd].
  assert (Hm : match elementNodeIndex tacs with
               | Some eni =>
                   first_some
                     (fun i =>
                        if negb (geti eni (i + 1) - geti eni i =?
                                 numNodes_of
                                   (element_at (memcpy els (numElements tacs)) i))
                        then Some (mpiRank tacs,
                                   "Element %s does not match connectivity"%string)
                        else None)
                     (range 0 (numElements tacs))
               | None => None
               end = None).
  { destruct (elementNodeIndex tacs) as [eni|] eqn:Heni; auto.
    apply first_some_None. intros i Hi. apply In_range in Hi.
    unfold element_at. rewrite aget_memcpy by lia. fold (element_at els i).
    rewrite (Hc eni i eq_refl Hi), Z.eqb_refl. reflexivity. }
  rewrite Hm. eexists. split; [reflexivity|]. cbn [maxElementSize maxElementNodes].
  split; [|split].
  - intros i Hi. apply H3. now apply In_range.
  - destruct H4 as [->|(i & Hi & Hv)]; [now left|].
    right. exists i. split; [now apply In_range|exact Hv].
  - destruct H5 as [->|(i & Hi & Hv)]; [now left|].
    right. exists i. split; [now apply In_range|exact Hv].
Qed.

(** X8. Before [initialize()], [setElements] returns 1 and prints one
    message, tagged with the rank, when an element has another number of
    displacements than [varsPerNode], or another number of nodes than its
    row of the connectivity; the elements are stored all the same. *)
Theorem setElements_rejects tacs (st : ElementStorage)
  (els : list (TACSElement TacsScalar)) :
  meshInitializedFlag tacs = false ->
  (exists i, 0 <= i < numElements tacs /\
             numDisplacements (element_at els i) <> varsPerNode tacs) \/
  (exists eni i, elementNodeIndex tacs = Some eni /\
                 0 <= i < numElements tacs /\
                 geti eni (i + 1) - geti eni i <>
                 numNodes_of (element_at els i)) ->
  exists st' text,
    setElements tacs st els =
    (1, set_elements tacs (Some (memcpy els (numElements tacs))), st',
     [(mpiRank tacs, text)]).
Proof.
  intros Hflag Hbad. unfold setElements. rewrite Hflag. cbv zeta.
  destruct (snd (setElements_sizes tacs els (range 0 (numElements tacs)) 0 0))
    as [m|] eqn:E.
  - destruct (setElements_sizes_msg _ _ _ _ _ E) as (text & ->). eauto.
  - destruct Hbad as [(i & Hi & Hd)|(eni & i & Heni & Hi & Hs)].
    + destruct (@setElements_sizes_bad tacs els (range 0 (numElements tacs)))
        with (ms := 0) (mn := 0) as (ms' & mn' & text & E').
      { exists i. split; [now apply In_range|exact Hd]. }
      rewrite E' in E. discriminate.
    + rewrite Heni.
      match goal with
      | |- context [first_some ?f ?l] => destruct (first_some f l) as [m|] eqn:F
      end.
      * apply first_some_Some in F. destruct F as (x & _ & Hx).
        destruct (negb _); [|discriminate]. injection Hx as <-. eauto.
      * exfalso. rewrite first_some_None in F.
        specialize (F i (proj2 (In_range _ _ _) Hi)). cbv beta zeta in F.
        unfold element_at in F. rewrite aget_memcpy in F by lia.
        fold (element_at els i) in F.
        destruct (Z.eqb_spec (geti eni (i + 1) - geti eni i)
                    (numNodes_of (element_at els i))); [congruence|].
        discriminate.
Qed.

(** X9. Whichever of [setElements] and [setElementConnectivity] is called
    last checks the two against each other: when [setElements] returns 0,
    or [setElementConnectivity] runs to its end, every element has as many
    nodes as its row of the connectivity. *)
Theorem elements_fit_connectivity_checked tacs (st : ElementStorage)
  (els : list (TACSElement TacsScalar)) (conn ptr : list Z) :
  (fst (fst (fst (setElements tacs st els))) = 0 ->
   elements_fit_connectivity (snd (fst (fst (setElements tacs st els))))) /\
  (fst (fst (setElementConnectivity tacs conn ptr)) = None ->
   elements_fit_connectivity (snd (fst (setElementConnectivity tacs conn ptr)))).
Proof.
  split.
  - unfold setElements. destruct (meshInitializedFlag tacs); [discriminate|].
    cbv zeta. destruct (snd (setElements_sizes _ _ _ _ _)); [discriminate|].
    destruct (elementNodeIndex tacs) as [eni|] eqn:Heni.
    + match goal with
      | |- context [first_some ?f ?l] => destruct (first_some f l) as [m|] eqn:F
      end; [discriminate|].
      intros _. cbn [fst snd]. intros els' eni' Hels Heni' i Hi.
      cbn [set_elements elements elementNodeIndex numElements] in *.
      injection Hels as <-. rewrite Heni in Heni'. injection Heni' as <-.
      rewrite first_some_None in F.
      specialize (F i (proj2 (In_range _ _ _) Hi)). cbv beta zeta in F.
      destruct (Z.eqb_spec (geti eni (i + 1) - geti eni i)
                  (numNodes_of (element_at (memcpy els (numElements tacs)) i)));
        [assumption|discriminate].
    + intros _. cbn [fst snd]. intros els' eni' _ Heni'.
      cbn [set_elements elementNodeIndex] in Heni'. congruence.
  - unfold setElementConnectivity.
    destruct (meshInitializedFlag tacs); [discriminate|].
    destruct (negb _); [discriminate|]. cbv zeta.
    destruct (elements tacs) as [els0|] eqn:Hels.
    + match goal with
      | |- context [first_some ?f ?l] => destruct (first_some f l) as [m|] eqn:F
      end; [discriminate|].
      match goal with
      | |- context [match ?b with Some _ => _ | None => _ end] =>
          destruct b; [discriminate|]
      end.
      intros _. cbn [fst snd]. intros els' eni' Hels' Heni' i Hi.
      cbn [set_connectivity elements elementNodeIndex numElements] in *.
      rewrite Hels in Hels'. injection Hels' as <-. injection Heni' as <-.
      rewrite first_some_None in F.
      specialize (F i (proj2 (In_range _ _ _) Hi)). cbv beta zeta in F.
      match type of F with
      | (if negb (?a =? ?b) then _ else _) = _ =>
          destruct (Z.eqb_spec a b); [assumption|discriminate]
      end.
    + match goal with
      | |- context [match ?b with Some _ => _ | None => _ end] =>
          destruct b; [discriminate|]
      end.
      intros _. cbn [fst snd]. intros els' eni' Hels'.
      cbn [set_connectivity elements] in Hels'. congruence.
Qed.


End ElementsMore.


(** ** [initialize] *)

(** A loop that adds up. *)
Lemma sum_loop (f : Z -> Z) lo hi z :
  for_ lo hi (fun j n => n + f j) z = z + zsum (map f (range lo hi)).
Proof.
  unfold for_. generalize (range lo hi) as l. intros l. revert z.
  induction l as [|x r IH]; intros z; simpl.
  - unfold zsum. simpl. lia.
  - rewrite IH, zsum_cons. lia.
Qed.

(** A loop that takes the maximum. *)
Lemma max_loop (c : Z -> Z) n m0 :
  0 <= n ->
  let m := for_ 0 n (fun i m => if c i >? m then c i else m) m0 in
  m0 <= m /\ forall k, 0 <= k < n -> c k <= m.
Proof.
  intros Hn. cbv zeta.
  apply (@for_invariant _
           (fun i m => m0 <= m /\ forall k, 0 <= k < i -> c k <= m)); auto.
  - split; [lia|]. intros; lia.
  - intros i m Hi (H1 & H2).
    destruct (Z.gtb_spec (c i) m); split; try lia; intros k Hk;
      destruct (Z.eq_dec k i) as [->|]; try lia;
      specialize (H2 k ltac:(lia)); lia.
Qed.

Section InitializeMore.
Context {TacsScalar : Type}.
Implicit Types tacs : TACSAssembler TacsScalar.

(** The external nodes are computed from the connectivity and the
    dependent nodes, and leave them as they are. *)
Lemma computeExtNodes_keeps tacs :
  let tacs' := snd (fst (computeExtNodes tacs)) in
  elementNodeIndex tacs' = elementNodeIndex tacs /\
  elementTacsNodes tacs' = elementTacsNodes tacs /\
  depNodes tacs' = depNodes tacs /\
  elements tacs' = elements tacs /\
  numElements tacs' = numElements tacs /\
  numDependentNodes tacs' = numDependentNodes tacs /\
  meshInitializedFlag tacs' = meshInitializedFlag tacs /\
  mpiRank tacs' = mpiRank tacs.
Proof.
  cbv zeta. unfold computeExtNodes.
  destruct (meshInitializedFlag tacs) eqn:F; [cbn; rewrite F; tauto|].
  destruct (elementNodeIndex tacs) eqn:E; [|cbn; rewrite F, E; tauto].
  destruct (FElibrary.uniqueSort _ _). cbn. rewrite E. tauto.
Qed.

(** X11. [initialize()] is refused when it has been called before, when
    there are dependent nodes without their table, without elements, or
    without connectivity: it returns 1, prints one message tagged with
    the rank, and changes nothing. *)
Theorem initialize_refused (ops : BVecOps TacsScalar) dim sc tacs
  (st : ElementStorage) :
  meshInitializedFlag tacs = true \/
  (numDependentNodes tacs > 0 /\ depNodes tacs = None) \/
  elements tacs = None \/ elementNodeIndex tacs = None ->
  exists text,
    initialize ops dim sc tacs st = (Some 1, tacs, st, [(mpiRank tacs, text)]).
Proof.
  intros H. unfold initialize.
  destruct (meshInitializedFlag tacs) eqn:F; [eauto|].
  destruct ((numDependentNodes tacs >? 0) && is_null (depNodes tacs)) eqn:D;
    [eauto|].
  destruct (elements tacs) eqn:E; cbn [is_null]; [|eauto].
  destruct (elementNodeIndex tacs) eqn:E'; cbn [is_null]; [|eauto].
  destruct H as [H|[(H1 & H2)|[H|H]]]; try discriminate.
  exfalso. rewrite H2 in D. cbn [is_null] in D. rewrite andb_true_r in D.
  destruct (Z.gtb_spec (numDependentNodes tacs) 0); [discriminate|lia].
Qed.

(** The state in which [initialize()] runs to its end. *)
Lemma initialize_runs (ops : BVecOps TacsScalar) dim sc tacs
  (st : ElementStorage) :
  meshInitializedFlag tacs = false ->
  numDependentNodes tacs <= 0 \/ depNodes tacs <> None ->
  elements tacs <> None -> elementNodeIndex tacs <> None ->
  let ext :=
    if is_null (tacsExtNodeNums tacs) then computeExtNodes tacs
    else (0, tacs, []) in
  let t1 := snd (fst ext) in
  let t2 := set_initialized t1 true None (tacsExtNodeNums t1) in
  let t3 := set_bcMap t2 (sc t2) in
  let vec := Some (new_TACSBVec ops t3 (varsPerNode t3) (Some (bcMap t3))) in
  initialize ops dim sc tacs st =
  (None,
   set_vectors t3 vec vec vec (Some (new_TACSBVec ops t3 dim None)),
   {| maxElementSize := maxElementSize st;
      maxElementNodes := maxElementNodes st;
      maxElementIndepNodes := compute_maxElementIndepNodes t1 st;
      elementData :=
        Some (dataSize_of dim
                {| maxElementSize := maxElementSize st;
                   maxElementNodes := maxElementNodes st;
                   maxElementIndepNodes := compute_maxElementIndepNodes t1 st;
                   elementData := elementData st;
                   elementIData := elementIData st |});
      elementIData :=
        Some (compute_maxElementIndepNodes t1 st + maxElementNodes st + 1) |},
   snd ext).
Proof.
  intros F D E E'. cbv zeta. unfold initialize. rewrite F.
  assert (D' : (numDependentNodes tacs >? 0) && is_null (depNodes tacs) = false).
  { destruct D as [D|D].
    - destruct (Z.gtb_spec (numDependentNodes tacs) 0); [lia|reflexivity].
    - destruct (depNodes tacs); [|congruence]. cbn. apply andb_false_r. }
  rewrite D'.
  destruct (elements tacs); [|congruence].
  destruct (elementNodeIndex tacs); [|congruence]. cbn [is_null].
  cbv zeta. unfold createVec. cbn [set_initialized set_bcMap
    meshInitializedFlag negb fst]. reflexivity.
Qed.

(** X12. When none of its four tests fails and no reordering has been
    computed, [initialize()] runs to its end without a message: the mesh
    is initialized, the connectivity, the elements and the dependent
    nodes are as before, the three state vectors and the node vector are
    allocated, and the external node list, now held by [extDistIndices],
    is the strictly increasing list of the nodes of the connectivity and
    of the parent lists that this process does not own. *)
Theorem initialize_establishes_layout (ops : BVecOps TacsScalar) dim sc tacs
  (st : ElementStorage) :
  meshInitializedFlag tacs = false ->
  numDependentNodes tacs <= 0 \/ depNodes tacs <> None ->
  elements tacs <> None -> elementNodeIndex tacs <> None ->
  tacsExtNodeNums tacs = None ->
  let r := initialize ops dim sc tacs st in
  let tacs' := snd (fst (fst r)) in
  fst (fst (fst r)) = None /\ snd r = [] /\
  meshInitializedFlag tacs' = true /\
  tacsExtNodeNums tacs' = None /\
  elementNodeIndex tacs' = elementNodeIndex tacs /\
  elementTacsNodes tacs' = elementTacsNodes tacs /\
  elements tacs' = elements tacs /\ depNodes tacs' = depNodes tacs /\
  varsVec tacs' <> None /\ dvarsVec tacs' <> None /\
  ddvarsVec tacs' <> None /\ xptVec tacs' <> None /\
  exists ext,
    extDistIndices tacs' = Some ext /\ ExtNodesComputed tacs' ext /\
    (forall g, In g ext <->
               0 <= g /\ ~ owned tacs g /\
               (in_connectivity tacs g \/ in_dep_parents tacs g)).
Proof.
  intros F D E E' X. cbv zeta.
  rewrite (@initialize_runs ops dim sc tacs st F D E E'). cbv zeta.
  rewrite X. cbn [is_null fst snd].
  destruct (computeExtNodes_succeeds tacs F E') as (t1 & Ec).
  rewrite Ec. cbn [fst snd].
  destruct (computeExtNodes_result tacs Ec) as (ext & Hin & Hs & Et).
  subst t1.
  cbn [set_vectors set_bcMap set_initialized set_extNodes meshInitializedFlag
       tacsExtNodeNums elementNodeIndex elementTacsNodes elements depNodes
       varsVec dvarsVec ddvarsVec xptVec extDistIndices].
  repeat (split; [reflexivity || discriminate|]).
  exists ext. split; [reflexivity|]. split; [|exact Hin].
  unfold ExtNodesComputed, ext_nodes, owned.
  cbn [set_vectors set_bcMap set_initialized set_extNodes tacsExtNodeNums
       extDistIndices ownerRange mpiRank numExtNodes extNodeOffset numNodes
       numOwnedNodes].
  split; [reflexivity|]. split; [exact Hs|]. split.
  { intros g Hg. apply Hin in Hg. unfold owned in Hg. tauto. }
  split; [reflexivity|]. split; [|reflexivity].
  now apply extNodeOffset_counts.
Qed.

(** X13. After an [initialize()] that ran to its end the set-up is
    frozen: [setElementConnectivity], [setDependentNodes], [setElements],
    [addBCs], [computeExtNodes] and a second [initialize()] each print
    one message tagged with the rank and leave the assembler as it is;
    those that return a value return 1. *)
Theorem setup_frozen_after_initialize (ops : BVecOps TacsScalar) dim sc tacs0
  (st0 st : ElementStorage) (conn ptr dptr dconn : list Z)
  (w : list TacsScalar) (els : list (TACSElement TacsScalar))
  nnodes (nodes : list Z) nbcs vars (vals : option (list TacsScalar)) :
  fst (fst (fst (initialize ops dim sc tacs0 st0))) = None ->
  let tacs := snd (fst (fst (initialize ops dim sc tacs0 st0))) in
  (exists text, setElementConnectivity tacs conn ptr =
                (Some 1, tacs, [(mpiRank tacs, text)])) /\
  (exists text, setDependentNodes tacs dptr dconn w =
                (1, tacs, [(mpiRank tacs, text)])) /\
  (exists text, setElements tacs st els =
                (1, tacs, st, [(mpiRank tacs, text)])) /\
  (exists text, addBCs tacs nnodes nodes nbcs vars vals =
                (tacs, [(mpiRank tacs, text)])) /\
  (exists text, computeExtNodes tacs = (1, tacs, [(mpiRank tacs, text)])) /\
  (exists text, initialize ops dim sc tacs st =
                (Some 1, tacs, st, [(mpiRank tacs, text)])).
Proof.
  intros Hrun. cbv zeta.
  set (tacs := snd (fst (fst (initialize ops dim sc tacs0 st0)))).
  assert (F : meshInitializedFlag tacs = true).
  { subst tacs. revert Hrun. unfold initialize.
    destruct (meshInitializedFlag tacs0); [discriminate|].
    destruct (_ && _); [discriminate|].
    destruct (is_null (elements tacs0)); [discriminate|].
    destruct (is_null (elementNodeIndex tacs0)); [discriminate|].
    intros _. reflexivity. }
  split; [apply setElementConnectivity_guarded; auto|].
  split; [apply setDependentNodes_guarded; auto|].
  split; [unfold setElements; rewrite F; eauto|].
  split; [unfold addBCs; rewrite F; eauto|].
  split; [unfold computeExtNodes; rewrite F; eauto|].
  unfold initialize. rewrite F. eauto.
Qed.

(** The number of independent nodes that [initialize()] counts for an
    element is the number of its local nodes after the dependent nodes
    have been replaced by their parents. *)
Lemma count_indep_nodes_length tacs e :
  connectivity_resolved tacs -> 0 <= e < numElements tacs ->
  count_indep_nodes tacs (fst (getDepNodes tacs)) e =
  Z.of_nat (length (element_local_nodes tacs e)).
Proof.
  intros Hres He. unfold count_indep_nodes. cbv zeta.
  set (cnt := fun j =>
    if geti (deref (elementTacsNodes tacs)) j >=? 0 then 1
    else geti (fst (getDepNodes tacs))
           (- geti (deref (elementTacsNodes tacs)) j - 1 + 1) -
         geti (fst (getDepNodes tacs))
           (- geti (deref (elementTacsNodes tacs)) j - 1)).
  rewrite (@for_ext _ _ _ _ (fun j n => n + cnt j)).
  2:{ intros j n _. unfold cnt. destruct (_ >=? 0); reflexivity. }
  rewrite sum_loop. unfold element_local_nodes.
  rewrite length_flat_map_zsum. unfold element_nodes at 1. rewrite map_map.
  rewrite Z.add_0_l. f_equal. apply map_ext_in. intros j Hj.
  rewrite (@expand_node_length _ tacs e).
  - reflexivity.
  - exact Hres.
  - exact He.
  - unfold element_nodes. now apply in_map.
Qed.

(** The bound is at least [maxElementNodes] and, with dependent nodes, at
    least the number of independent nodes of every element. *)
Lemma compute_maxElementIndepNodes_bound tacs (st : ElementStorage) e :
  connectivity_resolved tacs -> 0 <= e < numElements tacs ->
  maxElementNodes st <= compute_maxElementIndepNodes tacs st /\
  (numDependentNodes tacs > 0 ->
   Z.of_nat (length (element_local_nodes tacs e)) <=
   compute_maxElementIndepNodes tacs st).
Proof.
  intros Hres He. unfold compute_maxElementIndepNodes. cbv zeta.
  destruct (Z.gtb_spec (numDependentNodes tacs) 0) as [Hd|Hd].
  - destruct (@max_loop (count_indep_nodes tacs (fst (getDepNodes tacs)))
                (numElements tacs) (maxElementNodes st)) as (H1 & H2); [lia|].
    split; [exact H1|]. intros _.
    rewrite <- (count_indep_nodes_length Hres He). now apply H2.
  - split; [lia|]. intros; lia.
Qed.

(** X14. After an [initialize()] that ran to its end, the bound
    [maxElementIndepNodes] is at least [maxElementNodes], and, when there
    are dependent nodes, at least the number of independent nodes of
    every element: its local nodes once the dependent nodes are replaced
    by their parents. *)
Theorem initialize_indep_nodes_bound (ops : BVecOps TacsScalar) dim sc tacs
  (st : ElementStorage) e :
  meshInitializedFlag tacs = false ->
  numDependentNodes tacs <= 0 \/ depNodes tacs <> None ->
  elements tacs <> None -> elementNodeIndex tacs <> None ->
  let r := initialize ops dim sc tacs st in
  let tacs' := snd (fst (fst r)) in
  let st' := snd (fst r) in
  connectivity_resolved tacs' -> 0 <= e < numElements tacs' ->
  maxElementNodes st' <= maxElementIndepNodes st' /\
  (numDependentNodes tacs' > 0 ->
   Z.of_nat (length (element_local_nodes tacs' e)) <=
   maxElementIndepNodes st').
Proof.
  intros F D E E'. cbv zeta.
  rewrite (@initialize_runs ops dim sc tacs st F D E E'). cbv zeta.
  cbn [fst snd maxElementNodes maxElementIndepNodes].
  set (t1 := snd (fst (if is_null (tacsExtNodeNums tacs)
                       then computeExtNodes tacs else (0, tacs, [])))).
  set (tacs' := set_vectors _ _ _ _ _).
  intros Hres He.
  change (compute_maxElementIndepNodes t1 st)
    with (compute_maxElementIndepNodes tacs' st).
  now apply compute_maxElementIndepNodes_bound.
Qed.

End InitializeMore.


(** ** The scratch array and the boundary conditions *)

(** The offsets as sums of the segments in front. *)
Lemma getDataPointers_sums dim (st : ElementStorage)
  (v1 v2 v3 v4 x1 x2 weights mat : bool) :
  let b := fun (v : bool) (size : Z) => if v then size else 0 in
  let ptr := fun (v : bool) (s : Z) => if v then Some s else None in
  let M := maxElementSize st in
  let A := dim * maxElementNodes st in
  let s2 := b v1 M in
  let s3 := s2 + b v2 M in
  let s4 := s3 + b v3 M in
  let s5 := s4 + b v4 M in
  let s6 := s5 + b x1 A in
  let s7 := s6 + b x2 A in
  let s8 := s7 + b weights (maxElementIndepNodes st) in
  getDataPointers dim st v1 v2 v3 v4 x1 x2 weights mat =
  [ptr v1 0; ptr v2 s2; ptr v3 s3; ptr v4 s4; ptr x1 s5; ptr x2 s6;
   ptr weights s7; ptr mat s8].
Proof.
  cbv zeta. unfold getDataPointers. cbv zeta.
  destruct v1, v2, v3, v4, x1, x2, weights, mat;
    rewrite ?Z.add_0_l, ?Z.add_0_r; reflexivity.
Qed.

(** X15. The segments that [getDataPointers] hands out lie one behind the
    other in the array [elementData] that [initialize()] allocates: a
    pointer that is asked for is not negative, its segment (for [mat], the
    larger of an element matrix and of the derivative of the residuals
    with respect to the nodes) ends within the array, and it ends where or before the segment of every
    later pointer begins. *)
Theorem getDataPointers_within_data dim (st : ElementStorage)
  (v1 v2 v3 v4 x1 x2 weights mat : bool) (i : nat) p :
  0 <= dim -> 0 <= maxElementSize st -> 0 <= maxElementNodes st ->
  0 <= maxElementIndepNodes st ->
  nth_error (getDataPointers dim st v1 v2 v3 v4 x1 x2 weights mat) i =
    Some (Some p) ->
  0 <= p /\
  p + nth i (segment_sizes dim st) 0 <= dataSize_of dim st /\
  (forall j q, (i < j)%nat ->
     nth_error (getDataPointers dim st v1 v2 v3 v4 x1 x2 weights mat) j =
       Some (Some q) ->
     p + nth i (segment_sizes dim st) 0 <= q).
Proof.
  intros Hd Hs Hn Hw. rewrite getDataPointers_sums. cbv zeta.
  unfold segment_sizes, dataSize_of.
  set (A := dim * maxElementNodes st). set (M := maxElementSize st) in *.
  set (W := maxElementIndepNodes st) in *.
  replace (2 * dim * maxElementNodes st) with (2 * A) by (unfold A; ring).
  assert (HA : 0 <= A) by (unfold A; nia).
  set (B := M * M). assert (HB : 0 <= B) by (unfold B; nia).
  set (C := A * M). assert (HC : 0 <= C) by (unfold C; nia).
  replace (dim * maxElementNodes st * M) with C by (unfold C, A; ring).
  assert (HBC : M < A -> B <= C) by (unfold B, C; nia).
  assert (HCB : A <= M -> C <= B) by (unfold B, C; nia).
  set (D := if A >? M then W + 4 * M + 2 * A + C else W + 4 * M + 2 * A + B).
  assert (HD : W + 4 * M + 2 * A + Z.max B C <= D).
  { unfold D. destruct (Z.gtb_spec A M); lia. }
  clearbody D A B C M W.
  assert (Hb : forall (v : bool) size, 0 <= size ->
            0 <= (if v then size else 0) <= size /\
            (v = true -> (if v then size else 0) = size)).
  { intros [|] size Hsz; split; auto; lia. }
  destruct (Hb v1 M Hs) as (I1 & J1). destruct (Hb v2 M Hs) as (I2 & J2).
  destruct (Hb v3 M Hs) as (I3 & J3). destruct (Hb v4 M Hs) as (I4 & J4).
  destruct (Hb x1 A HA) as (I5 & J5). destruct (Hb x2 A HA) as (I6 & J6).
  destruct (Hb weights W Hw) as (I7 & J7).
  set (b1 := if v1 then M else 0) in *. set (b2 := if v2 then M else 0) in *.
  set (b3 := if v3 then M else 0) in *. set (b4 := if v4 then M else 0) in *.
  set (b5 := if x1 then A else 0) in *. set (b6 := if x2 then A else 0) in *.
  set (b7 := if weights then W else 0) in *.
  clearbody b1 b2 b3 b4 b5 b6 b7.
  assert (Hopt : forall (v : bool) (s r : Z),
            (if v then Some s else None) = Some r -> v = true /\ r = s).
  { intros [|] s r; [intros [= <-]; auto|discriminate]. }
  do 9 (try destruct i as [|i]); cbn [nth_error nth];
    intros E; try discriminate; injection E as E;
    apply Hopt in E; destruct E as (Ev & ->);
    repeat match goal with
           | H : ?v = true, J : ?v = true -> _ |- _ => specialize (J H)
           end;
    (split; [lia|]); (split; [lia|]);
    intros j q Hj; do 9 (try destruct j as [|j]); try lia;
    cbn [nth_error]; intros E; try discriminate; injection E as E;
    apply Hopt in E; destruct E as (Ev' & ->); lia.
Qed.

Section BoundaryConditionsMore.
Context {TacsScalar : Type}.
Implicit Types tacs : TACSAssembler TacsScalar.

(** X16. Boundary conditions may be added in batches: two calls of
    [addBCs] with the same variables and values, one after the other,
    leave the assembler as one call with the two node lists put
    together. *)
Theorem addBCs_batches tacs (nodes1 nodes2 : list Z) nbcs
  (vars : option (list Z)) (vals : option (list TacsScalar)) :
  let n1 := Z.of_nat (length nodes1) in
  let n2 := Z.of_nat (length nodes2) in
  fst (addBCs (fst (addBCs tacs n1 nodes1 nbcs vars vals)) n2 nodes2 nbcs
         vars vals) =
  fst (addBCs tacs (n1 + n2) (nodes1 ++ nodes2) nbcs vars vals).
Proof.
  cbv zeta. unfold addBCs.
  destruct (meshInitializedFlag tacs) eqn:F; cbn [fst]; [now rewrite F|].
  cbn [set_bcMap meshInitializedFlag varsPerNode ownerRange mpiRank bcMap].
  rewrite F. cbv zeta. cbn [fst].
  set (mk := fun g => {| bc_node := g;
                         bc_nbcs := if is_null vars || (nbcs <? 0)
                                    then varsPerNode tacs else nbcs;
                         bc_vars := vars; bc_vals := vals |}).
  pose proof (fun nodes n init => @addBCs_loop _ tacs nodes n mk init) as L.
  unfold mk in L. cbv beta in L. rewrite !L. fold mk.
  rewrite !map_aget_range by (rewrite ?length_app; lia).
  rewrite <- Nat2Z.inj_add, <- length_app, !slice_full.
  rewrite filter_app, map_app, app_assoc. reflexivity.
Qed.

End BoundaryConditionsMore.


(** * Further properties of the reordering *)

(** A loop that fills an array entry by entry. *)
Lemma tabulate_loop {A : Type} (d : A) (f : Z -> A) n (a : list A) :
  Z.of_nat (length a) = n ->
  let r := for_ 0 n (fun i a => aset a i (f i)) a in
  length r = length a /\ forall k, 0 <= k < n -> aget d r k = f k.
Proof.
  intros Hlen. cbv zeta. split.
  - apply (for_aset_length 0 n (fun i _ => i) (fun i _ => f i)).
  - intros k Hk.
    rewrite (@for_split _ 0 (k + 1) n) by lia.
    rewrite (@for_aset_frame A d (k + 1) n (fun i _ => i) (fun i _ => f i))
      by (intros; lia).
    rewrite for_snoc by lia. apply aget_aset_eq.
    rewrite (for_aset_length 0 k (fun i _ => i) (fun i _ => f i)). lia.
Qed.

(** The inverse array undoes the array. *)
Lemma invert_into_get n (src out : list Z) :
  Z.of_nat (length out) = n -> is_permutation_array n src ->
  forall k, 0 <= k < n ->
    geti (invert_into n src out) (geti src k) = k /\
    geti src (geti (invert_into n src out) k) = k.
Proof.
  intros Hlen (Hr & Hi & Hs). unfold invert_into.
  pose (Inv := fun i (o : list Z) =>
    Z.of_nat (length o) = n /\
    (forall j, 0 <= j < i -> geti o (geti src j) = j)).
  assert (H : 0 <= n ->
            Inv n (for_ 0 n (fun k out => aset out (geti src k) k) out)).
  { intros Hn. apply (@for_invariant _ Inv); auto.
    - split; auto. intros; lia.
    - intros i o Hi' (I1 & I2). split; [now rewrite aset_length|].
      intros j Hj. specialize (Hr i Hi') as Hri.
      rewrite aget_aset by lia.
      destruct (Z.eqb_spec (geti src j) (geti src i)) as [E|E].
      + apply Hi in E; lia.
      + apply I2. assert (j <> i) by (intros ->; now apply E). lia. }
  intros k Hk. destruct (H ltac:(lia)) as (I1 & I2). split.
  - now apply I2.
  - destruct (Hs k Hk) as (j & Hj & <-). now rewrite I2.
Qed.

Section ReorderingMore.
Context {TacsScalar : Type}.
Implicit Types tacs : TACSAssembler TacsScalar.

(** X17. With ordering packages that return permutations, and for every
    ordering but nested dissection (where both arrays come from METIS),
    the arrays [perm] and [new_vars] that [computeMatReordering] fills
    are permutations of [0, ..., nvars-1] and inverse to each other. *)
Theorem computeMatReordering_inverse (be : OrderingBackends) order n
  (rowp cols perm0 nv0 : list Z) :
  backends_valid be -> 0 <= n ->
  Z.of_nat (length perm0) = n -> Z.of_nat (length nv0) = n ->
  order <> ND_ORDER ->
  exists perm nv,
    computeMatReordering be order n rowp cols (Some perm0) (Some nv0) =
    (Some perm, Some nv) /\
    is_permutation_array n perm /\ is_permutation_array n nv /\
    (forall k, 0 <= k < n ->
               geti nv (geti perm k) = k /\ geti perm (geti nv k) = k).
Proof.
  intros Hbe Hn Lp Lv Hnd.
  destruct (Hbe n rowp cols Hn) as (H1 & H2 & H3 & H4).
  unfold computeMatReordering. destruct order; cbn [option_map];
    try congruence; eexists; eexists; (split; [reflexivity|]).
  - destruct (@tabulate_loop Z 0 (fun k => k) n perm0 Lp) as (_ & Gp).
    destruct (@tabulate_loop Z 0 (fun k => k) n nv0 Lv) as (_ & Gv).
    cbv zeta in Gp, Gv.
    split; [now apply natural_order_array|].
    split; [now apply natural_order_array|].
    intros k Hk. rewrite !Gp, !Gv by (rewrite ?Gp, ?Gv; lia). auto.
  - split; [now apply invert_into_array|]. split; [exact H1|].
    intros k Hk. destruct (@invert_into_get n _ perm0 Lp H1 k Hk). auto.
  - split; [exact H2|]. split; [now apply invert_into_array|].
    intros k Hk. destruct (@invert_into_get n _ nv0 Lv H2 k Hk). auto.
  - split; [exact H4|]. split; [now apply invert_into_array|].
    intros k Hk. destruct (@invert_into_get n _ nv0 Lv H4 k Hk). auto.
Qed.

(** The fields that [computeReordering] does not touch. *)
Lemma computeReordering_keeps (be : OrderingBackends) mi tacs order mat mpi :
  elementNodeIndex tacs <> None -> tacsExtNodeNums tacs = None ->
  meshInitializedFlag tacs = false ->
  let res := fst (computeReordering be mi tacs order mat mpi) in
  mpiRank res = mpiRank tacs /\
  meshInitializedFlag res = false /\
  elementNodeIndex res = elementNodeIndex tacs /\
  tacsExtNodeNums res <> None /\
  numElements res = numElements tacs /\
  numOwnedNodes res = numOwnedNodes tacs /\
  ownerRange res = ownerRange tacs /\
  extNodeOffset res = extNodeOffset (snd (fst (computeExtNodes tacs))).
Proof.
  intros Heni Hext Hflag. cbv zeta.
  destruct (computeExtNodes_succeeds tacs Hflag Heni) as (t1 & E).
  destruct (computeExtNodes_result tacs E) as (ext & _ & _ & Et).
  unfold computeReordering.
  destruct (elementNodeIndex tacs) eqn:Heni'; [|congruence].
  rewrite Hext. cbn [is_null negb]. cbv zeta. rewrite E. cbn [fst snd].
  subst t1.
  cbn [set_reordered set_newNodeIndices set_tacsExtNodeNums set_bcMap
       set_depNodes set_connectivity set_extNodes mpiRank meshInitializedFlag
       elementNodeIndex tacsExtNodeNums numElements numOwnedNodes ownerRange
       extNodeOffset option_map].
  rewrite Heni', Hflag. repeat split; auto. discriminate.
Qed.


(** A loop that replaces the entries that are not negative. *)
Lemma replace_nonneg_loop (f : Z -> Z) n (a : list Z) :
  0 <= n <= Z.of_nat (length a) ->
  let r :=
    for_ 0 n
      (fun i etn =>
         let node := geti etn i in
         if node >=? 0 then aset etn i (f node) else etn) a in
  length r = length a /\
  forall k, 0 <= k < Z.of_nat (length a) ->
    geti r k =
    if (k <? n) && (geti a k >=? 0) then f (geti a k) else geti a k.
Proof.
  intros Hn. cbv zeta.
  pose (Inv := fun i (r : list Z) =>
    length r = length a /\
    forall k, 0 <= k < Z.of_nat (length a) ->
      geti r k =
      if (k <? i) && (geti a k >=? 0) then f (geti a k) else geti a k).
  apply (@for_invariant _ Inv); [lia| |].
  - split; auto. intros k Hk.
    destruct (Z.ltb_spec k 0); [lia|reflexivity].
  - intros i r Hi (I1 & I2). cbv zeta.
    assert (Hri : geti r i = geti a i).
    { rewrite I2 by lia. destruct (Z.ltb_spec i i); [lia|reflexivity]. }
    rewrite Hri. split.
    + destruct (geti a i >=? 0); [now rewrite aset_length|auto].
    + intros k Hk. destruct (Z.eq_dec k i) as [->|Hne].
      * destruct (Z.ltb_spec i (i + 1)); [|lia]. cbn [andb].
        destruct (geti a i >=? 0); [apply aget_aset_eq; lia|exact Hri].
      * assert (Hsame : (k <? i + 1) = (k <? i)).
        { destruct (Z.ltb_spec k (i + 1)); destruct (Z.ltb_spec k i); auto; lia. }
        rewrite Hsame, <- I2 by lia.
        destruct (geti a i >=? 0); [now rewrite aget_aset_ne by auto|auto].
Qed.

(** X19. [computeReordering] renumbers the connectivity in place: the
    offsets [elementNodeIndex] and the length of [elementTacsNodes] stay,
    a dependent node reference (a negative entry) stays, and a node
    number is replaced by the new number of its local node. *)
Theorem computeReordering_renumbers_connectivity (be : OrderingBackends) mi
  tacs order mat mpi eni etn :
  elementNodeIndex tacs = Some eni -> elementTacsNodes tacs = Some etn ->
  tacsExtNodeNums tacs = None -> meshInitializedFlag tacs = false ->
  0 <= geti eni (numElements tacs) <= Z.of_nat (length etn) ->
  let tacs1 := snd (fst (computeExtNodes tacs)) in
  let res := fst (computeReordering be mi tacs order mat mpi) in
  exists nn etn',
    newNodeIndices res = Some nn /\
    elementNodeIndex res = Some eni /\
    elementTacsNodes res = Some etn' /\
    length etn' = length etn /\
    forall i, 0 <= i < geti eni (numElements tacs) ->
      geti etn' i =
      if geti etn i >=? 0 then geti nn (getLocalNodeNum tacs1 (geti etn i))
      else geti etn i.
Proof.
  intros Heni Hetn Hext Hflag Hend. cbv zeta.
  assert (Heni' : elementNodeIndex tacs <> None) by congruence.
  destruct (computeExtNodes_succeeds tacs Hflag Heni') as (t1 & E).
  destruct (computeExtNodes_result tacs E) as (ext & _ & _ & Et).
  unfold computeReordering. rewrite Heni, Hext. cbn [is_null negb]. cbv zeta.
  rewrite E. cbn [fst snd].
  assert (K1 : elementNodeIndex t1 = Some eni) by (subst t1; exact Heni).
  assert (K2 : elementTacsNodes t1 = Some etn) by (subst t1; exact Hetn).
  assert (K3 : numElements t1 = numElements tacs) by (subst t1; reflexivity).
  clear Et.
  cbn [set_reordered set_newNodeIndices set_tacsExtNodeNums set_bcMap
       set_depNodes set_connectivity newNodeIndices elementNodeIndex
       elementTacsNodes].
  rewrite K1, K2, K3. cbn [deref option_map].
  set (nn := for_ (extNodeOffset t1) (numExtNodes t1) _ _).
  destruct (@replace_nonneg_loop
              (fun node => geti nn (getLocalNodeNum t1 node))
              (geti eni (numElements tacs)) etn Hend) as (L & G).
  cbv zeta in L, G.
  eexists. eexists. split; [reflexivity|]. split; [reflexivity|].
  split; [reflexivity|]. split; [exact L|].
  intros i Hi. rewrite G by lia.
  destruct (Z.ltb_spec i (geti eni (numElements tacs))); [|lia]. reflexivity.
Qed.

End ReorderingMore.


(** ** The coupling nodes *)

Lemma StronglySorted_append (l1 l2 : list Z) :
  StronglySorted Z.lt l1 -> StronglySorted Z.lt l2 ->
  (forall x y, In x l1 -> In y l2 -> x < y) ->
  StronglySorted Z.lt (l1 ++ l2).
Proof.
  induction 1 as [|x r Hs IH Hall]; intros H2 Hlt; simpl; auto.
  constructor.
  - apply IH; auto. intros a b Ha Hb. apply Hlt; auto. now right.
  - apply Forall_app. split; auto.
    apply Forall_forall. intros y Hy. apply Hlt; auto. now left.
Qed.

Lemma StronglySorted_map_increasing (f : Z -> Z) (l : list Z) :
  StronglySorted Z.lt l ->
  (forall x y, In x l -> In y l -> x < y -> f x < f y) ->
  StronglySorted Z.lt (map f l).
Proof.
  induction 1 as [|x r Hs IH Hall]; intros Hf; simpl; constructor.
  - apply IH. intros a b Ha Hb. apply Hf; now right.
  - apply Forall_forall. intros y Hy. apply in_map_iff in Hy.
    destruct Hy as (z & <- & Hz). apply Hf; [now left|now right|].
    rewrite Forall_forall in Hall. auto.
Qed.

Lemma StronglySorted_range lo hi : StronglySorted Z.lt (range lo hi).
Proof.
  destruct (Z.le_gt_cases hi lo) as [H|H].
  - rewrite range_nil by lia. constructor.
  - replace hi with (lo + Z.of_nat (Z.to_nat (hi - lo))) by lia.
    clear H. generalize (Z.to_nat (hi - lo)) as n. intros n. revert lo.
    induction n as [|n IH]; intros lo.
    + rewrite range_nil by lia. constructor.
    + rewrite range_cons by lia. constructor.
      * replace (lo + Z.of_nat (S n)) with (lo + 1 + Z.of_nat n) by lia.
        apply IH.
      * apply Forall_forall. intros y Hy. apply In_range in Hy. lia.
Qed.

Lemma map_aget_front {B : Type} (f : Z -> B) (u rest : list Z) :
  map (fun i => f (geti (u ++ rest) i)) (range 0 (Z.of_nat (length u))) =
  map f u.
Proof.
  rewrite <- (map_map (geti (u ++ rest)) f).
  rewrite (@map_ext_in _ _ (geti (u ++ rest)) (geti u)).
  - rewrite map_aget_range by lia. now rewrite slice_full.
  - intros i Hi. apply In_range in Hi. apply aget_app_l. lia.
Qed.

Section CouplingMore.
Context {TacsScalar : Type}.
Implicit Types tacs : TACSAssembler TacsScalar.

(** X20. Once the external node list has been computed, and when the
    nodes that the other processes ask for are nodes that this process
    owns, the list of coupling nodes that [computeCouplingNodes] returns
    is strictly increasing; it holds every external local node, and of
    the owned nodes exactly those that another process asked for. *)
Theorem computeCouplingNodes_sorted mi tacs mpi ext :
  varMap_consistent tacs -> ExtNodesComputed tacs ext ->
  let cn := computeCouplingNodes mi tacs mpi in
  (forall g, In g (recvNodes cn) -> owned tacs g) ->
  StronglySorted Z.lt (couplingNodes cn) /\
  (forall i, In i (couplingNodes cn) <->
     (0 <= i < numNodes tacs /\ ~ owned_local tacs i) \/
     (exists g, In g (recvNodes cn) /\ i = getLocalNodeNum tacs g)).
Proof.
  intros (Hvm & HnO) Hc. cbv zeta.
  destruct Hc as (He & Hs & Hx & Hn & Ho & Hnn).
  assert (Hoff : 0 <= extNodeOffset tacs <= numExtNodes tacs).
  { rewrite Ho, Hn.
    pose proof (count_below_le ext (geti (ownerRange tacs) (mpiRank tacs))).
    lia. }
  unfold computeCouplingNodes. cbv zeta. cbn [couplingNodes recvNodes].
  set (total := geti _ (mpiSize tacs)).
  set (recv := memcpy (mpi_recvNodes mpi) total).
  unfold FElibrary.uniqueSort. cbv zeta. cbn [fst snd].
  set (u := FElibrary.sort_unique (firstn (Z.to_nat total) recv)).
  assert (Hu : forall g, In g u <-> In g recv).
  { intros g. unfold u. rewrite sort_unique_In. unfold recv, memcpy.
    rewrite firstn_firstn, Nat.min_id. reflexivity. }
  intros Hown. rewrite !for_append. cbn [app].
  rewrite map_aget_front, map_id.
  set (lo := geti (ownerRange tacs) (mpiRank tacs)) in *.
  set (off := extNodeOffset tacs) in *. set (nO := numOwnedNodes tacs) in *.
  assert (Hloc : forall g, In g u ->
            getLocalNodeNum tacs g = g - lo + off /\
            off <= g - lo + off < off + nO).
  { intros g Hg. apply Hu, Hown in Hg.
    rewrite (getLocalNodeNum_owned Hg). split; auto.
    unfold owned in Hg. fold lo in Hg. rewrite Hvm in Hg. fold nO in Hg. lia. }
  split.
  - rewrite <- app_assoc. apply StronglySorted_append.
    + apply StronglySorted_range.
    + apply StronglySorted_append.
      * apply StronglySorted_map_increasing; [apply sort_unique_sorted|].
        intros x y Hx' Hy Hxy.
        destruct (Hloc x Hx') as (-> & _). destruct (Hloc y Hy) as (-> & _).
        lia.
      * apply StronglySorted_map_increasing; [apply StronglySorted_range|].
        intros; lia.
      * intros x y Hx' Hy. apply in_map_iff in Hx'. apply in_map_iff in Hy.
        destruct Hx' as (g & <- & Hg). destruct Hy as (j & <- & Hj).
        apply In_range in Hj. destruct (Hloc g Hg) as (-> & Hr). lia.
    + intros x y Hx' Hy. apply In_range in Hx'. apply in_app_iff in Hy.
      destruct Hy as [Hy|Hy]; apply in_map_iff in Hy.
      * destruct Hy as (g & <- & Hg). destruct (Hloc g Hg) as (-> & Hr). lia.
      * destruct Hy as (j & <- & Hj). apply In_range in Hj. lia.
  - intros i. rewrite !in_app_iff, In_range, !in_map_iff.
    unfold owned_local. fold off nO. split.
    + intros [[Hi|(g & <- & Hg)]|(j & <- & Hj)].
      * left. lia.
      * right. exists g. split; [now apply Hu|reflexivity].
      * apply In_range in Hj. left. lia.
    + intros [(Hi & Hno)|(g & Hg & ->)].
      * destruct (Z.lt_ge_cases i off); [left; left; lia|].
        right. exists (i - nO). split; [lia|]. apply In_range. lia.
      * left; right. exists g. split; [reflexivity|now apply Hu].
Qed.

End CouplingMore.


(** ** The reordering of the owned nodes, [getReordering] and [reorderVec] *)

(** A loop that fills the front of an array. *)
Lemma tabulate_front {A : Type} (d : A) (f : Z -> A) n (a : list A) :
  n <= Z.of_nat (length a) ->
  let r := for_ 0 n (fun i a => aset a i (f i)) a in
  length r = length a /\
  (forall k, 0 <= k < n -> aget d r k = f k) /\
  (forall k, n <= k -> aget d r k = aget d a k).
Proof.
  intros Hlen. cbv zeta. split; [|split].
  - apply (for_aset_length 0 n (fun i _ => i) (fun i _ => f i)).
  - intros k Hk.
    rewrite (@for_split _ 0 (k + 1) n) by lia.
    rewrite (@for_aset_frame A d (k + 1) n (fun i _ => i) (fun i _ => f i))
      by (intros; lia).
    rewrite for_snoc by lia. apply aget_aset_eq.
    rewrite (for_aset_length 0 k (fun i _ => i) (fun i _ => f i)). lia.
  - intros k Hk.
    apply (@for_aset_frame A d 0 n (fun i _ => i) (fun i _ => f i)).
    intros; lia.
Qed.

(** A loop that writes the block of [b] entries from [base] on. *)
Lemma write_block {A : Type} (d : A) (src : Z -> A) base b (x : list A) :
  0 <= base -> base + b <= Z.of_nat (length x) ->
  let r := for_ 0 b (fun k x => aset x (base + k) (src k)) x in
  length r = length x /\
  (forall k, 0 <= k < b -> aget d r (base + k) = src k) /\
  (forall j, j < base \/ base + b <= j -> aget d r j = aget d x j).
Proof.
  intros Hb Hlen. cbv zeta. split; [|split].
  - apply (for_aset_length 0 b (fun k _ => base + k) (fun k _ => src k)).
  - intros k Hk.
    rewrite (@for_split _ 0 (k + 1) b) by lia.
    rewrite (@for_aset_frame A d (k + 1) b (fun i _ => base + i)
               (fun i _ => src i)) by (intros; lia).
    rewrite for_snoc by lia. apply aget_aset_eq.
    rewrite (for_aset_length 0 k (fun i _ => base + i) (fun i _ => src i)).
    lia.
  - intros j Hj.
    apply (@for_aset_frame A d 0 b (fun i _ => base + i) (fun i _ => src i)).
    intros; lia.
Qed.

Section OwnedReordering.
Context {TacsScalar : Type}.
Implicit Types tacs : TACSAssembler TacsScalar.

(** X21. Without a reordering, [getReordering] gives every owned node its
    own number: entry [k] becomes [ownerRange[mpiRank] + k]; with a
    reordering, entry [k] becomes the new number of the owned node [k].
    The entries behind the owned nodes stay. *)
Theorem getReordering_values tacs (oldToNew : list Z) k :
  numOwnedNodes tacs <= Z.of_nat (length oldToNew) -> 0 <= k ->
  let r := getReordering tacs oldToNew in
  length r = length oldToNew /\
  (k < numOwnedNodes tacs ->
   geti r k =
   match newNodeIndices tacs with
   | Some nn => geti nn (extNodeOffset tacs + k)
   | None => geti (ownerRange tacs) (mpiRank tacs) + k
   end) /\
  (numOwnedNodes tacs <= k -> geti r k = geti oldToNew k).
Proof.
  intros Hlen Hk. cbv zeta. unfold getReordering.
  destruct (newNodeIndices tacs) as [nn|].
  - destruct (@tabulate_front Z 0
                (fun k => geti nn (extNodeOffset tacs + k))
                (numOwnedNodes tacs) oldToNew Hlen) as (L & G & F).
    cbv zeta in L, G, F. split; [exact L|]. split; intros; [apply G|apply F]; lia.
  - destruct (@tabulate_front Z 0
                (fun k => geti (ownerRange tacs) (mpiRank tacs) + k)
                (numOwnedNodes tacs) oldToNew Hlen) as (L & G & F).
    cbv zeta in L, G, F. split; [exact L|]. split; intros; [apply G|apply F]; lia.
Qed.


End OwnedReordering.


Section ReorderingOwned.
Context {TacsScalar : Type}.
Implicit Types tacs : TACSAssembler TacsScalar.

(** The layout after [computeExtNodes]. *)
Lemma computeExtNodes_layout tacs t1 :
  computeExtNodes tacs = (0, t1, []) ->
  numOwnedNodes t1 = numOwnedNodes tacs /\
  ownerRange t1 = ownerRange tacs /\ mpiRank t1 = mpiRank tacs /\
  mpiSize t1 = mpiSize tacs /\
  0 <= extNodeOffset t1 <= numExtNodes t1 /\
  numNodes t1 = numOwnedNodes tacs + numExtNodes t1.
Proof.
  intros E. destruct (computeExtNodes_result tacs E) as (ext & _ & Hs & ->).
  cbn [set_extNodes numOwnedNodes ownerRange mpiRank mpiSize extNodeOffset
       numExtNodes numNodes].
  repeat split; auto.
  - rewrite extNodeOffset_counts by auto. lia.
  - rewrite extNodeOffset_counts by auto.
    pose proof (count_below_le ext (geti (ownerRange tacs) (mpiRank tacs))).
    lia.
Qed.

(** The new numbers of the owned nodes after a reordering with
    [DIRECT_SCHUR] on more than one process. *)
Lemma computeReordering_owned_numbers (be : OrderingBackends) mi tacs order
  mpi :
  elementNodeIndex tacs <> None -> tacsExtNodeNums tacs = None ->
  meshInitializedFlag tacs = false -> 1 < mpiSize tacs ->
  varMap_consistent tacs -> backends_valid be ->
  let tacs1 := snd (fst (computeExtNodes tacs)) in
  let res := fst (computeReordering be mi tacs order DIRECT_SCHUR mpi) in
  let lo := geti (ownerRange tacs) (mpiRank tacs) in
  let nO := numOwnedNodes tacs in
  exists nn,
    newNodeIndices res = Some nn /\
    (forall i, owned_local tacs1 i -> lo <= geti nn i < lo + nO) /\
    (forall i i', owned_local tacs1 i -> owned_local tacs1 i' ->
                  geti nn i = geti nn i' -> i = i') /\
    (forall v, lo <= v < lo + nO ->
               exists i, owned_local tacs1 i /\ geti nn i = v).
Proof.
  intros Heni Hnone Hflag Hsize (Hhi & HnO) Hbe. cbv zeta.
  rewrite (@computeReordering_newNodeIndices _ be mi tacs order DIRECT_SCHUR
             mpi Heni Hnone). cbv zeta.
  destruct (computeExtNodes_succeeds tacs Hflag Heni) as (t1 & E).
  rewrite E. cbn [fst snd].
  destruct (@computeExtNodes_layout tacs t1 E) as (EnO & Er & Ek & Ez & Hoff & En).
  rewrite <- (@couplingNodes_length _ mi t1 mpi Hoff).
  set (cn := computeCouplingNodes mi t1 mpi).
  assert (Hmpi : (mpiSize t1 =? 1) = false)
    by (rewrite Ez; apply Z.eqb_neq; lia).
  destruct (@computeReordering_local_blocks _ be t1 order (couplingNodes cn)
              Hbe Hmpi) as (m & Hm & B1 & B2 & Inj & Sur); try lia.
  cbv zeta in B1, B2, Inj, Sur. rewrite Er, Ek, EnO in *.
  set (loc := fst (computeReordering_local be t1 order DIRECT_SCHUR _ _)) in *.
  set (newExt := memcpy _ _).
  set (nn := for_ (extNodeOffset t1) _ _ _).
  assert (Hfr : forall i, owned_local t1 i -> geti nn i = geti loc i).
  { intros i Hi. unfold owned_local in Hi. rewrite EnO in Hi. unfold nn.
    rewrite (@for_aset_frame Z 0 (extNodeOffset t1) (numExtNodes t1)
               (fun i _ => i + numOwnedNodes tacs)
               (fun i _ => geti newExt i)) by (intros; lia).
    rewrite (@for_aset_frame Z 0 0 (extNodeOffset t1)
               (fun i _ => i) (fun i _ => geti newExt i)) by (intros; lia).
    reflexivity. }
  exists nn. split; [reflexivity|]. split; [|split].
  - intros i Hi. rewrite Hfr by auto.
    destruct (in_dec Z.eq_dec i (couplingNodes cn)) as [Hc|Hc].
    + specialize (B2 i Hi Hc). lia.
    + specialize (B1 i Hi Hc). lia.
  - intros i i' Hi Hi'. rewrite !Hfr by auto. now apply Inj.
  - intros v Hv. destruct (Sur v Hv) as (i & Hi & Hval).
    exists i. split; auto. now rewrite Hfr.
Qed.

(** X23. After a reordering with [DIRECT_SCHUR] on more than one process,
    the array that [getReordering] fills is a bijection from the owned
    nodes [0, ..., numOwnedNodes-1] onto the ownership range of the
    process. *)
Theorem getReordering_after_reordering (be : OrderingBackends) mi tacs order
  mpi (oldToNew : list Z) :
  elementNodeIndex tacs <> None -> tacsExtNodeNums tacs = None ->
  meshInitializedFlag tacs = false -> 1 < mpiSize tacs ->
  varMap_consistent tacs -> backends_valid be ->
  numOwnedNodes tacs <= Z.of_nat (length oldToNew) ->
  let res := fst (computeReordering be mi tacs order DIRECT_SCHUR mpi) in
  let r := getReordering res oldToNew in
  let lo := geti (ownerRange tacs) (mpiRank tacs) in
  let hi := geti (ownerRange tacs) (mpiRank tacs + 1) in
  let nO := numOwnedNodes tacs in
  (forall k, 0 <= k < nO -> lo <= geti r k < hi) /\
  (forall k k', 0 <= k < nO -> 0 <= k' < nO ->
                geti r k = geti r k' -> k = k') /\
  (forall v, lo <= v < hi -> exists k, 0 <= k < nO /\ geti r k = v).
Proof.
  intros Heni Hnone Hflag Hsize Hvm Hbe Hlen. cbv zeta.
  destruct (@computeReordering_owned_numbers be mi tacs order mpi Heni Hnone
              Hflag Hsize Hvm Hbe) as (nn & Hnn & Hr & Hi & Hs).
  cbv zeta in Hnn, Hr, Hi, Hs.
  destruct (@computeReordering_keeps _ be mi tacs order DIRECT_SCHUR mpi Heni
              Hnone Hflag) as (_ & _ & _ & _ & _ & KnO & _ & Koff).
  cbv zeta in KnO, Koff.
  destruct (computeExtNodes_succeeds tacs Hflag Heni) as (t1 & E).
  rewrite E in *. cbn [fst snd] in *.
  destruct (@computeExtNodes_layout tacs t1 E) as (EnO & _).
  destruct Hvm as (Hhi & HnO). rewrite Hhi.
  set (res := fst (computeReordering be mi tacs order DIRECT_SCHUR mpi)) in *.
  assert (G : forall k, 0 <= k < numOwnedNodes tacs ->
            geti (getReordering res oldToNew) k =
            geti nn (extNodeOffset t1 + k)).
  { intros k Hk.
    unfold getReordering. rewrite Hnn, KnO, Koff.
    destruct (@tabulate_front Z 0 (fun i => geti nn (extNodeOffset t1 + i))
                (numOwnedNodes tacs) oldToNew Hlen) as (_ & G & _).
    cbv zeta in G. apply G. lia. }
  assert (O : forall k, 0 <= k < numOwnedNodes tacs ->
            owned_local t1 (extNodeOffset t1 + k)).
  { intros k Hk. unfold owned_local. rewrite EnO. lia. }
  split; [|split].
  - intros k Hk. rewrite G by lia. apply Hr. now apply O.
  - intros k k' Hk Hk'. rewrite !G by lia. intros Eq.
    apply Hi in Eq; [lia|now apply O|now apply O].
  - intros v Hv. destruct (Hs v Hv) as (i & Hio & Hval).
    exists (i - extNodeOffset t1). unfold owned_local in Hio.
    rewrite EnO in Hio. split; [lia|].
    rewrite G by lia. rewrite <- Hval. f_equal. lia.
Qed.

(** X24. On a single process whose connectivity and parent lists name
    owned nodes only, [computeReordering] with ordering packages that
    return permutations stores a permutation of the local nodes
    [0, ..., numOwnedNodes-1], and there are no external nodes. *)
Theorem computeReordering_single_process (be : OrderingBackends) mi tacs
  order mat mpi :
  elementNodeIndex tacs <> None -> tacsExtNodeNums tacs = None ->
  meshInitializedFlag tacs = false -> mpiSize tacs = 1 ->
  varMap_consistent tacs -> backends_valid be ->
  (forall g, 0 <= g -> in_connectivity tacs g \/ in_dep_parents tacs g ->
             owned tacs g) ->
  let res := fst (computeReordering be mi tacs order mat mpi) in
  exists nn,
    newNodeIndices res = Some nn /\
    is_permutation_array (numOwnedNodes tacs) nn /\
    numExtNodes res = 0 /\ numNodes res = numOwnedNodes tacs.
Proof.
  intros Heni Hnone Hflag Hsize (Hhi & HnO) Hbe Hall. cbv zeta.
  rewrite (@computeReordering_newNodeIndices _ be mi tacs order mat mpi Heni
             Hnone). cbv zeta.
  destruct (computeExtNodes_succeeds tacs Hflag Heni) as (t1 & E).
  assert (Hres : numExtNodes (fst (computeReordering be mi tacs order mat mpi))
                 = numExtNodes t1 /\
                 numNodes (fst (computeReordering be mi tacs order mat mpi))
                 = numNodes t1).
  { unfold computeReordering.
    destruct (elementNodeIndex tacs); [|congruence].
    rewrite Hnone. cbn [is_null negb]. cbv zeta. rewrite E. cbn [fst snd].
    split; reflexivity. }
  destruct Hres as (R1 & R2). rewrite R1, R2.
  rewrite E. cbn [fst snd].
  destruct (@computeExtNodes_layout tacs t1 E) as (EnO & Er & Ek & Ez & Hoff & En).
  assert (Hnx : numExtNodes t1 = 0).
  { destruct (computeExtNodes_result tacs E) as (ext & Hin & _ & ->).
    cbn [set_extNodes numExtNodes].
    destruct ext as [|g r]; [reflexivity|]. exfalso.
    destruct (proj1 (Hin g) (or_introl eq_refl)) as (Hg & Hno & Hocc).
    apply Hno. now apply Hall. }
  rewrite Hnx in *. assert (Ho : extNodeOffset t1 = 0) by lia. rewrite Ho.
  rewrite !for_nil by lia.
  unfold computeReordering_local. rewrite Ez, Hsize. cbn [Z.eqb Pos.eqb fst].
  cbv zeta. eexists. split; [reflexivity|]. split; [|split; [reflexivity|lia]].
  replace (numOwnedNodes tacs) with (numNodes t1) by lia.
  apply reorder_new_vars_valid; auto; [lia|]. rewrite zeros_length; lia.
Qed.

(** The adjacency does not read [distMatIndices]. *)
Lemma computeLocalNodeToNodeCSR_distMatIndices tacs ix d :
  computeLocalNodeToNodeCSR (set_distMatIndices tacs ix) d =
  computeLocalNodeToNodeCSR tacs d.
Proof.
  unfold computeLocalNodeToNodeCSR, computeNodeToElementCSR, getDepNodes,
    getLocalNodeNum, ext_nodes.
  cbn [set_distMatIndices mpiRank mpiSize numElements numOwnedNodes
       numDependentNodes numExtNodes numNodes extNodeOffset ownerRange
       tacsExtNodeNums extDistIndices elementNodeIndex elementTacsNodes
       depNodes].
  reflexivity.
Qed.

(** X25. After [initialize()], the first [createMat()] stores the global
    numbers of the local nodes [0, ..., numNodes-1] as the indices of the
    matrix, and a second call returns the same matrix and leaves the
    assembler as the first call left it. *)
Theorem createMat_reuses_indices tacs :
  meshInitializedFlag tacs = true -> distMatIndices tacs = None ->
  0 <= numNodes tacs ->
  exists m,
    fst (fst (createMat tacs)) = Some m /\
    createMat (snd (fst (createMat tacs))) =
      (Some m, snd (fst (createMat tacs)), []) /\
    Z.of_nat (length (dm_indices m)) = numNodes tacs /\
    (forall i, 0 <= i < numNodes tacs ->
               geti (dm_indices m) i = getGlobalNodeNum tacs i) /\
    dm_rowp m = fst (computeLocalNodeToNodeCSR tacs 0) /\
    dm_cols m = snd (computeLocalNodeToNodeCSR tacs 0).
Proof.
  intros Hflag Hix Hn.
  set (ix := for_ 0 (numNodes tacs)
               (fun i indices => aset indices i (getGlobalNodeNum tacs i))
               (zeros (numNodes tacs))).
  set (tacs1 := set_distMatIndices tacs (Some ix)).
  set (m0 := {| dm_ownerRange := ownerRange tacs;
                dm_bsize := varsPerNode tacs;
                dm_numNodes := numNodes tacs;
                dm_rowp := fst (computeLocalNodeToNodeCSR tacs 0);
                dm_cols := snd (computeLocalNodeToNodeCSR tacs 0);
                dm_indices := ix;
                dm_bcMap := bcMap tacs |}).
  assert (E : createMat tacs = (Some m0, tacs1, [])).
  { unfold createMat. rewrite Hflag, Hix. cbn [negb]. cbv zeta.
    fold ix. rewrite computeLocalNodeToNodeCSR_distMatIndices. reflexivity. }
  rewrite E. cbn [fst snd]. exists m0. split; [reflexivity|].
  destruct (@tabulate_front Z 0 (getGlobalNodeNum tacs) (numNodes tacs)
              (zeros (numNodes tacs))) as (L & G & _).
  { rewrite zeros_length; lia. }
  cbv zeta in L, G. fold ix in L, G.
  split; [|split; [|split; [|split; reflexivity]]].
  - unfold createMat.
    assert (F1 : meshInitializedFlag tacs1 = true) by exact Hflag.
    assert (F2 : distMatIndices tacs1 = Some ix) by reflexivity.
    rewrite F1, F2. cbn [negb]. cbv zeta. unfold tacs1.
    rewrite computeLocalNodeToNodeCSR_distMatIndices. reflexivity.
  - cbn [dm_indices m0]. rewrite L, zeros_length; lia.
  - intros i Hi. now apply G.
Qed.

End ReorderingOwned.


(** ** From the set-up calls to the adjacency structures *)

Section SetUpToAdjacency.
Context {TacsScalar : Type}.
Implicit Types tacs : TACSAssembler TacsScalar.

Lemma owned_or_not tacs g : owned tacs g \/ ~ owned tacs g.
Proof. unfold owned. lia. Qed.

(** X26. The external nodes make the connectivity local: when the
    offsets of the connectivity and of the table of dependent nodes do
    not decrease, every reference to a dependent node has its row, and
    the parents are independent nodes, then after [computeExtNodes] every
    node of every element, and every parent of a dependent node in it,
    has a local number in [[0, numNodes)]. *)
Theorem computeExtNodes_resolves_connectivity tacs :
  meshInitializedFlag tacs = false -> elementNodeIndex tacs <> None ->
  varMap_consistent tacs -> connectivity_checked tacs ->
  fst (fst (computeExtNodes tacs)) = 0 /\
  connectivity_resolved (snd (fst (computeExtNodes tacs))).
Proof.
  intros Hflag Heni Hvm (Hoffs & Hlow & Hdep).
  destruct (computeExtNodes_succeeds tacs Hflag Heni) as (t1 & E).
  rewrite E. cbn [fst snd]. split; [reflexivity|].
  destruct (computeExtNodes_computed tacs E) as (ext & Hc).
  destruct (computeExtNodes_result tacs E) as (ext' & Hin & _ & Et).
  assert (ext' = ext) as ->.
  { destruct Hc as (He & _). subst t1. cbn in He. congruence. }
  assert (K : elementNodeIndex t1 = elementNodeIndex tacs /\
              elementTacsNodes t1 = elementTacsNodes tacs /\
              depNodes t1 = depNodes tacs /\
              numElements t1 = numElements tacs /\
              numDependentNodes t1 = numDependentNodes tacs /\
              ownerRange t1 = ownerRange tacs /\ mpiRank t1 = mpiRank tacs /\
              numOwnedNodes t1 = numOwnedNodes tacs)
    by (subst t1; cbn; tauto).
  destruct K as (K1 & K2 & K3 & K4 & K5 & K6 & K7 & K8). clear Et.
  assert (Hvm1 : varMap_consistent t1).
  { unfold varMap_consistent. now rewrite K6, K7, K8. }
  assert (Hown : forall g, owned t1 g <-> owned tacs g).
  { intros g. unfold owned. now rewrite K6, K7. }
  assert (Hknown : forall g, 0 <= g ->
            in_connectivity tacs g \/ in_dep_parents tacs g ->
            0 <= getLocalNodeNum t1 g < numNodes t1).
  { intros g Hg Hocc.
    assert (Hk : owned t1 g \/ In g ext).
    { destruct (owned_or_not t1 g) as [Ho|Ho]; [now left|right].
      apply Hin. rewrite <- Hown. auto. }
    pose proof (getLocalNodeNum_known Hvm1 Hc Hk) as Kn. cbv zeta in Kn.
    destruct Hc as (_ & Hs & _ & Hn & Ho & Hnn).
    assert (0 <= extNodeOffset t1 <= numExtNodes t1).
    { rewrite Ho, Hn.
      pose proof (count_below_le ext (geti (ownerRange t1) (mpiRank t1))).
      lia. }
    destruct Hvm1 as (_ & HnO). lia. }
  unfold connectivity_resolved. rewrite K1, K4. split; [|split; [|split]].
  - destruct Hc as (_ & _ & _ & Hn & _ & Hnn). destruct Hvm1 as (_ & HnO). lia.
  - intros e He. destruct (Hoffs e He). lia.
  - intros e node He Hnode Hneg. unfold element_nodes in Hnode.
    rewrite K1, K2 in Hnode. apply in_map_iff in Hnode.
    destruct Hnode as (j & <- & Hj). apply In_range in Hj.
    destruct (Hoffs e He) as (Ha & Hb).
    specialize (Hlow j ltac:(lia)).
    destruct (Hdep (- geti (deref (elementTacsNodes tacs)) j - 1) ltac:(lia))
      as (d & Hd & Hp & _).
    exists d. rewrite K3. split; [exact Hd|lia].
  - intros e n He Hn. unfold element_local_nodes in Hn.
    apply in_flat_map in Hn. destruct Hn as (node & Hnode & Hn).
    unfold element_nodes in Hnode. rewrite K1, K2 in Hnode.
    apply in_map_iff in Hnode. destruct Hnode as (j & <- & Hj).
    apply In_range in Hj. destruct (Hoffs e He) as (Ha & Hb).
    unfold expand_node in Hn.
    destruct (Z.geb_spec (geti (deref (elementTacsNodes tacs)) j) 0) as [Hp|Hp].
    + destruct Hn as [<-|[]]. apply Hknown; [lia|]. left.
      exists j. split; [lia|reflexivity].
    + specialize (Hlow j ltac:(lia)).
      set (node := geti (deref (elementTacsNodes tacs)) j) in *.
      destruct (Hdep (- node - 1) ltac:(lia)) as (d & Hd & Hr & Hend & Hpar).
      unfold dep_parents, getDepNodes in Hn. rewrite K3, Hd in Hn.
      cbn [fst snd] in Hn. apply in_map_iff in Hn.
      destruct Hn as (kp & <- & Hkp). apply In_range in Hkp.
      apply Hknown; [apply Hpar; lia|]. right.
      exists d, kp. split; [exact Hd|]. split; [lia|reflexivity].
Qed.

(** X27. An accepted connectivity can be read back: when
    [setElementConnectivity] accepts its arguments, the row of element
    [e] in the stored connectivity is the part of [conn] between
    [ptr[e]] and [ptr[e+1]]. *)
Theorem setElementConnectivity_round_trip tacs (conn ptr : list Z) e :
  meshInitializedFlag tacs = false -> tacsExtNodeNums tacs = None ->
  sizes_match tacs ptr ->
  (forall i j, ~ node_out_of_range tacs conn ptr i j) ->
  offsets_bounded (numElements tacs) ptr ->
  0 <= e < numElements tacs -> 0 <= geti ptr e ->
  geti ptr (numElements tacs) <= Z.of_nat (length conn) ->
  let r := setElementConnectivity tacs conn ptr in
  snd r = [] /\
  element_nodes (snd (fst r)) e = slice conn (geti ptr e) (geti ptr (e + 1)).
Proof.
  intros Hflag Hext Hsz Hok Hoff He Hp Hlen. cbv zeta.
  rewrite (@setElementConnectivity_accepts _ tacs conn ptr Hflag Hext Hsz Hok Hoff).
  cbn [fst snd]. split; [reflexivity|].
  unfold element_nodes.
  cbn [set_connectivity elementNodeIndex elementTacsNodes deref].
  rewrite !aget_memcpy by lia.
  pose proof (Hoff e He) as Hb.
  rewrite (@map_ext_in _ _ (geti (memcpy conn (geti ptr (numElements tacs))))
             (geti conn)).
  - apply map_aget_range; lia.
  - intros j Hj. apply In_range in Hj. apply aget_memcpy. lia.
Qed.

End SetUpToAdjacency.


(** * The further properties on the examples *)

Lemma mesh1_ext_consistent : varMap_consistent mesh1_ext.
Proof. split; by_computation. Qed.

Lemma computeNodeToElementCSR_rows_witness :
  csr_row (computeNodeToElementCSR mesh1_ext) 1 = [0; 1] /\
  (In 1 (csr_row (computeNodeToElementCSR mesh1_ext) 1) <->
   0 <= 1 < numElements mesh1_ext /\
   In 1 (element_local_nodes mesh1_ext 1)) /\
  StronglySorted Z.lt (csr_row (computeNodeToElementCSR mesh1_ext) 1).
Proof.
  split; [reflexivity|].
  apply (@computeNodeToElementCSR_rows Z mesh1_ext 1 1 mesh1_ext_resolved).
  split; by_computation.
Defined.

Lemma computeLocalNodeToNodeCSR_symmetric_witness :
  In 2 (csr_row (computeLocalNodeToNodeCSR mesh1_ext 1) 0) <->
  In 0 (csr_row (computeLocalNodeToNodeCSR mesh1_ext 1) 2).
Proof.
  apply (@computeLocalNodeToNodeCSR_symmetric Z mesh1_ext 1 0 2
           mesh1_ext_resolved); split; by_computation.
Defined.

Lemma computeLocalNodeToNodeCSR_wellformed_witness :
  computeLocalNodeToNodeCSR mesh1_ext 1 = ([0; 2; 4; 6], [1; 2; 0; 2; 0; 1]) /\
  forall p, 0 <= p < geti (fst (computeLocalNodeToNodeCSR mesh1_ext 1))
                       (numNodes mesh1_ext) ->
            0 <= geti (snd (computeLocalNodeToNodeCSR mesh1_ext 1)) p
              < numNodes mesh1_ext.
Proof.
  split; [reflexivity|].
  apply (@computeLocalNodeToNodeCSR_wellformed Z mesh1_ext 1
           mesh1_ext_resolved).
Defined.

Lemma mesh1_known_2 : owned mesh1_ext 2 \/ In 2 [2].
Proof. right. now left. Qed.

Lemma mesh1_known_4 : owned mesh1_ext 4 \/ In 4 [2].
Proof. left. split; by_computation. Qed.

Lemma getLocalNodeNum_order_preserving_witness :
  getLocalNodeNum mesh1_ext 2 = 0 /\ getLocalNodeNum mesh1_ext 4 = 2 /\
  0 <= getLocalNodeNum mesh1_ext 2 /\
  getLocalNodeNum mesh1_ext 2 < getLocalNodeNum mesh1_ext 4 /\
  getLocalNodeNum mesh1_ext 4 < numNodes mesh1_ext.
Proof.
  split; [reflexivity|]. split; [reflexivity|].
  apply (@getLocalNodeNum_order_preserving Z mesh1_ext [2] 2 4
           mesh1_ext_consistent mesh1_ext_computed mesh1_known_2
           mesh1_known_4).
  lia.
Defined.

Lemma getLocalNodeNum_unknown_witness :
  (getLocalNodeNum mesh1_ext 0 = -1 <->
   ~ (owned mesh1_ext 0 \/ In 0 [2])) /\
  (owned mesh1_ext 0 \/ In 0 [2] -> getLocalNodeNum_stderr mesh1_ext 0 = []) /\
  (~ (owned mesh1_ext 0 \/ In 0 [2]) ->
   exists text,
     getLocalNodeNum_stderr mesh1_ext 0 = [(mpiRank mesh1_ext, text)]).
Proof.
  exact (@getLocalNodeNum_unknown Z mesh1_ext [2] 0 mesh1_ext_consistent
           mesh1_ext_computed).
Defined.


(** The elements of the chain and its connectivity. *)
Lemma chain_elements_displacements i :
  0 <= i < numElements mesh1_dep ->
  numDisplacements (element_at chain_elements i) = varsPerNode mesh1_dep.
Proof.
  change (numElements mesh1_dep) with 2. intros Hi.
  assert (i = 0 \/ i = 1) as [->| ->] by lia; reflexivity.
Qed.

Lemma chain_elements_nodes eni i :
  elementNodeIndex mesh1_dep = Some eni -> 0 <= i < numElements mesh1_dep ->
  geti eni (i + 1) - geti eni i = numNodes_of (element_at chain_elements i).
Proof.
  change (numElements mesh1_dep) with 2. intros E Hi.
  vm_compute in E. injection E as <-.
  assert (i = 0 \/ i = 1) as [->| ->] by lia; reflexivity.
Qed.

Lemma setElements_accepts_witness :
  exists st',
    setElements mesh1_dep new_ElementStorage chain_elements =
    (0, set_elements mesh1_dep
          (Some (memcpy chain_elements (numElements mesh1_dep))), st', []) /\
    maxElementSize st' = 2 /\ maxElementNodes st' = 2.
Proof.
  destruct (@setElements_accepts Z mesh1_dep new_ElementStorage chain_elements
              eq_refl chain_elements_displacements chain_elements_nodes)
    as (st' & E & _).
  exists st'. split; [exact E|].
  assert (st' = mesh1_storage) as ->
    by (unfold mesh1_storage; rewrite E; reflexivity).
  split; reflexivity.
Defined.

Lemma chain_bad_elements_displacements :
  (exists i, 0 <= i < numElements mesh1_dep /\
             numDisplacements (element_at chain_bad_elements i) <>
             varsPerNode mesh1_dep) \/
  (exists eni i, elementNodeIndex mesh1_dep = Some eni /\
                 0 <= i < numElements mesh1_dep /\
                 geti eni (i + 1) - geti eni i <>
                 numNodes_of (element_at chain_bad_elements i)).
Proof.
  left. exists 1. split; [split; by_computation|by_computation].
Qed.

Lemma setElements_rejects_witness :
  exists st' text,
    setElements mesh1_dep new_ElementStorage chain_bad_elements =
    (1, set_elements mesh1_dep
          (Some (memcpy chain_bad_elements (numElements mesh1_dep))), st',
     [(mpiRank mesh1_dep, text)]).
Proof.
  exact (@setElements_rejects Z mesh1_dep new_ElementStorage
           chain_bad_elements eq_refl chain_bad_elements_displacements).
Defined.

Lemma elements_fit_connectivity_checked_witness :
  fst (fst (fst (setElements mesh1_dep new_ElementStorage chain_elements)))
    = 0 /\
  elements_fit_connectivity mesh1_ready.
Proof.
  split; [reflexivity|].
  apply (proj1 (@elements_fit_connectivity_checked Z mesh1_dep
                  new_ElementStorage chain_elements [] [])).
  reflexivity.
Defined.


(** [initialize()] on the chain. *)
Lemma initialize_refused_witness :
  exists text,
    initialize zops 3 no_external_bcs mesh1_dep new_ElementStorage =
    (Some 1, mesh1_dep, new_ElementStorage, [(mpiRank mesh1_dep, text)]).
Proof.
  apply (@initialize_refused Z zops 3 no_external_bcs mesh1_dep
           new_ElementStorage).
  right; right; left. reflexivity.
Defined.

Lemma mesh1_ready_dep :
  numDependentNodes mesh1_ready <= 0 \/ depNodes mesh1_ready <> None.
Proof. right. by_computation. Qed.

Lemma mesh1_ready_elements : elements mesh1_ready <> None.
Proof. by_computation. Qed.

Lemma mesh1_ready_connectivity : elementNodeIndex mesh1_ready <> None.
Proof. by_computation. Qed.

Lemma initialize_establishes_layout_witness :
  meshInitializedFlag mesh1_started = true /\
  extDistIndices mesh1_started = Some [2] /\
  exists ext,
    extDistIndices mesh1_started = Some ext /\
    ExtNodesComputed mesh1_started ext.
Proof.
  split; [reflexivity|]. split; [reflexivity|].
  destruct (@initialize_establishes_layout Z zops 3 no_external_bcs
              mesh1_ready mesh1_storage eq_refl mesh1_ready_dep
              mesh1_ready_elements mesh1_ready_connectivity eq_refl)
    as (_ & _ & _ & _ & _ & _ & _ & _ & _ & _ & _ & _ & ext & H1 & H2 & _).
  exists ext. split; [exact H1|exact H2].
Defined.

Lemma setup_frozen_after_initialize_witness :
  (exists text, setElementConnectivity mesh1_started mesh1_conn mesh1_ptr =
                (Some 1, mesh1_started, [(mpiRank mesh1_started, text)])) /\
  (exists text, initialize zops 3 no_external_bcs mesh1_started
                  mesh1_started_storage =
                (Some 1, mesh1_started, mesh1_started_storage,
                 [(mpiRank mesh1_started, text)])).
Proof.
  destruct (@setup_frozen_after_initialize Z zops 3 no_external_bcs
              mesh1_ready mesh1_storage mesh1_started_storage mesh1_conn
              mesh1_ptr [0; 2] [2; 4] [1; 1] chain_elements 1 [3] 1 None None
              eq_refl) as (H1 & _ & _ & _ & _ & H6).
  split; [exact H1|exact H6].
Defined.

Lemma mesh1_started_resolved : connectivity_resolved mesh1_started.
Proof.
  unfold connectivity_resolved.
  change (numElements mesh1_started) with 2.
  split; [by_computation|]. split; [|split].
  - intros e He. assert (e = 0 \/ e = 1) as [->| ->] by lia; by_computation.
  - intros e node He Hin Hneg.
    exists {| dep_refs := 1; depNodePtr := [0; 2]; depNodeConn := [2; 4];
              depNodeWeights := [1; 1] |}.
    split; [reflexivity|].
    assert (e = 0 \/ e = 1) as [->| ->] by lia; vm_compute in Hin;
      destruct Hin as [<-|[<-|[]]]; try lia; by_computation.
  - intros e n He Hin.
    assert (e = 0 \/ e = 1) as [->| ->] by lia; vm_compute in Hin;
      repeat (destruct Hin as [<-|Hin]; [vm_compute; split; congruence|]);
      destruct Hin.
Qed.

(** The second element of the chain has the node 3 and a dependent node
    with two parents: three independent nodes. *)
Lemma initialize_indep_nodes_bound_witness :
  Z.of_nat (length (element_local_nodes mesh1_started 1)) = 3 /\
  maxElementIndepNodes mesh1_started_storage = 3 /\
  maxElementNodes mesh1_started_storage <=
    maxElementIndepNodes mesh1_started_storage /\
  (numDependentNodes mesh1_started > 0 ->
   Z.of_nat (length (element_local_nodes mesh1_started 1)) <=
   maxElementIndepNodes mesh1_started_storage).
Proof.
  split; [reflexivity|]. split; [reflexivity|].
  apply (@initialize_indep_nodes_bound Z zops 3 no_external_bcs mesh1_ready
           mesh1_storage 1 eq_refl mesh1_ready_dep mesh1_ready_elements
           mesh1_ready_connectivity mesh1_started_resolved).
  split; by_computation.
Defined.

Lemma getDataPointers_within_data_witness :
  getDataPointers 3 mesh1_started_storage true true true true true false
    true true =
  [Some 0; Some 2; Some 4; Some 6; Some 8; None; Some 14; Some 17] /\
  elementData mesh1_started_storage =
    Some (dataSize_of 3 mesh1_started_storage) /\
  0 <= 17 /\
  17 + nth 7 (segment_sizes 3 mesh1_started_storage) 0
    <= dataSize_of 3 mesh1_started_storage.
Proof.
  split; [reflexivity|]. split; [reflexivity|].
  destruct (@getDataPointers_within_data 3 mesh1_started_storage true true
              true true true false true true 7 17) as (H1 & H2 & _);
    try by_computation.
  split; [exact H1|exact H2].
Defined.

Lemma addBCs_batches_witness :
  bcMap (fst (addBCs (fst (addBCs mesh1 1 [3] 1 None None)) 2 [2; 4] 1 None
                None)) =
  bcMap (fst (addBCs mesh1 3 [3; 2; 4] 1 None None)).
Proof.
  exact (f_equal (@bcMap Z) (@addBCs_batches Z mesh1 [3] [2; 4] 1 None None)).
Defined.

Lemma computeMatReordering_inverse_witness :
  exists perm nv,
    computeMatReordering natural_backends RCM_ORDER 3 [0; 0; 0; 0] []
      (Some [0; 0; 0]) (Some [0; 0; 0]) = (Some perm, Some nv) /\
    is_permutation_array 3 perm /\ is_permutation_array 3 nv /\
    (forall k, 0 <= k < 3 ->
               geti nv (geti perm k) = k /\ geti perm (geti nv k) = k).
Proof.
  apply (@computeMatReordering_inverse natural_backends RCM_ORDER 3
           [0; 0; 0; 0] [] [0; 0; 0] [0; 0; 0] natural_backends_valid);
    try reflexivity; try lia. discriminate.
Defined.

Lemma mesh1_dep_connectivity : elementNodeIndex mesh1_dep <> None.
Proof. by_computation. Qed.


Lemma computeReordering_renumbers_connectivity_witness :
  elementTacsNodes
    (fst (computeReordering natural_backends mesh1_intervals mesh1_dep
            RCM_ORDER DIRECT_SCHUR mesh1_exchange)) = Some [2; 4; 4; -1] /\
  exists nn etn',
    newNodeIndices
      (fst (computeReordering natural_backends mesh1_intervals mesh1_dep
              RCM_ORDER DIRECT_SCHUR mesh1_exchange)) = Some nn /\
    elementTacsNodes
      (fst (computeReordering natural_backends mesh1_intervals mesh1_dep
              RCM_ORDER DIRECT_SCHUR mesh1_exchange)) = Some etn' /\
    length etn' = length [2; 3; 3; -1].
Proof.
  split; [reflexivity|].
  destruct (@computeReordering_renumbers_connectivity Z natural_backends
              mesh1_intervals mesh1_dep RCM_ORDER DIRECT_SCHUR mesh1_exchange
              [0; 2; 4] [2; 3; 3; -1] eq_refl eq_refl eq_refl eq_refl)
    as (nn & etn' & H1 & _ & H3 & H4 & _).
  - split; by_computation.
  - exists nn, etn'. split; [exact H1|]. split; [exact H3|exact H4].
Defined.

Lemma mesh1_received_owned g :
  In g (recvNodes (computeCouplingNodes mesh1_intervals mesh1_ext
                     mesh1_exchange)) -> owned mesh1_ext g.
Proof.
  intros H. vm_compute in H. destruct H as [<-|[]]. split; by_computation.
Qed.

Lemma computeCouplingNodes_sorted_witness :
  couplingNodes (computeCouplingNodes mesh1_intervals mesh1_ext
                   mesh1_exchange) = [0; 1] /\
  StronglySorted Z.lt
    (couplingNodes (computeCouplingNodes mesh1_intervals mesh1_ext
                      mesh1_exchange)).
Proof.
  split; [reflexivity|].
  exact (proj1 (@computeCouplingNodes_sorted Z mesh1_intervals mesh1_ext
                  mesh1_exchange [2] mesh1_ext_consistent mesh1_ext_computed
                  mesh1_received_owned)).
Defined.

Lemma getReordering_values_witness :
  getReordering mesh1_ext [0; 0] = [3; 4] /\
  length (getReordering mesh1_ext [0; 0]) = length [0; 0] /\
  (1 < numOwnedNodes mesh1_ext ->
   geti (getReordering mesh1_ext [0; 0]) 1 =
   match newNodeIndices mesh1_ext with
   | Some nn => geti nn (extNodeOffset mesh1_ext + 1)
   | None => geti (ownerRange mesh1_ext) (mpiRank mesh1_ext) + 1
   end) /\
  (numOwnedNodes mesh1_ext <= 1 ->
   geti (getReordering mesh1_ext [0; 0]) 1 = geti [0; 0] 1).
Proof.
  split; [reflexivity|].
  apply (@getReordering_values Z mesh1_ext [0; 0] 1); by_computation.
Defined.


Lemma getReordering_after_reordering_witness :
  getReordering
    (fst (computeReordering natural_backends mesh1_intervals mesh1_dep
            RCM_ORDER DIRECT_SCHUR mesh1_exchange)) [0; 0] = [4; 3] /\
  forall v, 3 <= v < 5 ->
    exists k, 0 <= k < 2 /\
      geti (getReordering
              (fst (computeReordering natural_backends mesh1_intervals
                      mesh1_dep RCM_ORDER DIRECT_SCHUR mesh1_exchange))
              [0; 0]) k = v.
Proof.
  split; [reflexivity|].
  apply (@getReordering_after_reordering Z natural_backends mesh1_intervals
           mesh1_dep RCM_ORDER mesh1_exchange [0; 0] mesh1_dep_connectivity
           eq_refl eq_refl eq_refl mesh1_dep_consistent
           natural_backends_valid).
  by_computation.
Defined.

(** The serial mesh. *)
Lemma serial_mesh_consistent : varMap_consistent serial_mesh.
Proof. split; by_computation. Qed.

Lemma serial_mesh_connectivity : elementNodeIndex serial_mesh <> None.
Proof. by_computation. Qed.

Lemma serial_mesh_owned g :
  0 <= g -> in_connectivity serial_mesh g \/ in_dep_parents serial_mesh g ->
  owned serial_mesh g.
Proof.
  intros Hg [(i & Hi & <-)|(d & i & Hd & _)]; [|discriminate].
  change (geti (deref (elementNodeIndex serial_mesh)) (numElements serial_mesh))
    with 4 in Hi.
  assert (i = 0 \/ i = 1 \/ i = 2 \/ i = 3) as [->|[->|[->| ->]]] by lia;
    split; by_computation.
Qed.

Lemma computeReordering_single_process_witness :
  newNodeIndices
    (fst (computeReordering natural_backends mesh1_intervals serial_mesh
            RCM_ORDER DIRECT_SCHUR mesh1_exchange)) = Some [0; 1; 2] /\
  exists nn,
    newNodeIndices
      (fst (computeReordering natural_backends mesh1_intervals serial_mesh
              RCM_ORDER DIRECT_SCHUR mesh1_exchange)) = Some nn /\
    is_permutation_array (numOwnedNodes serial_mesh) nn.
Proof.
  split; [reflexivity|].
  destruct (@computeReordering_single_process Z natural_backends
              mesh1_intervals serial_mesh RCM_ORDER DIRECT_SCHUR
              mesh1_exchange serial_mesh_connectivity eq_refl eq_refl eq_refl
              serial_mesh_consistent natural_backends_valid serial_mesh_owned)
    as (nn & H1 & H2 & _).
  exists nn. split; [exact H1|exact H2].
Defined.

Lemma createMat_reuses_indices_witness :
  exists m,
    fst (fst (createMat mesh1_started)) = Some m /\
    createMat (snd (fst (createMat mesh1_started))) =
      (Some m, snd (fst (createMat mesh1_started)), []) /\
    dm_indices m = [2; 3; 4].
Proof.
  destruct (@createMat_reuses_indices Z mesh1_started eq_refl eq_refl)
    as (m & H1 & H2 & _); [by_computation|].
  exists m. split; [exact H1|]. split; [exact H2|].
  vm_compute in H1. injection H1 as <-. reflexivity.
Defined.

Lemma mesh1_dep_checked : connectivity_checked mesh1_dep.
Proof.
  unfold connectivity_checked. cbv zeta.
  change (numElements mesh1_dep) with 2.
  change (numDependentNodes mesh1_dep) with 1.
  change (deref (elementNodeIndex mesh1_dep)) with [0; 2; 4].
  change (deref (elementTacsNodes mesh1_dep)) with [2; 3; 3; -1].
  split; [|split].
  - intros e He.
    assert (e = 0 \/ e = 1) as [->| ->] by lia; repeat split; by_computation.
  - intros j Hj. change (geti [0; 2; 4] 2) with 4 in Hj.
    assert (j = 0 \/ j = 1 \/ j = 2 \/ j = 3) as [->|[->|[->| ->]]] by lia;
      by_computation.
  - intros dep Hdep. assert (dep = 0) as -> by lia.
    exists {| dep_refs := 1; depNodePtr := [0; 2]; depNodeConn := [2; 4];
              depNodeWeights := [1; 1] |}.
    split; [reflexivity|]. cbn [depNodePtr depNodeConn].
    split; [split; by_computation|]. split; [by_computation|].
    intros kp Hkp. change (geti [0; 2] 0) with 0 in Hkp.
    change (geti [0; 2] (0 + 1)) with 2 in Hkp.
    assert (kp = 0 \/ kp = 1) as [->| ->] by lia; by_computation.
Qed.

Lemma computeExtNodes_resolves_connectivity_witness :
  fst (fst (computeExtNodes mesh1_dep)) = 0 /\
  connectivity_resolved (snd (fst (computeExtNodes mesh1_dep))).
Proof.
  exact (@computeExtNodes_resolves_connectivity Z mesh1_dep eq_refl
           mesh1_dep_connectivity mesh1_dep_consistent mesh1_dep_checked).
Defined.

Lemma mesh1_sizes_match : sizes_match mesh1 mesh1_ptr.
Proof. intros els i H. discriminate. Qed.

Lemma mesh1_nodes_in_range i j :
  ~ node_out_of_range mesh1 mesh1_conn mesh1_ptr i j.
Proof.
  intros (Hi & Hj & Hsz & Hbad).
  change (numElements mesh1) with 2 in Hi.
  change (geti mesh1_ptr (numElements mesh1)) with 4 in Hsz.
  change (geti (ownerRange mesh1) (mpiSize mesh1)) with 5 in Hbad.
  change (numDependentNodes mesh1) with 1 in Hbad.
  assert (i = 0 \/ i = 1) as [->| ->] by lia;
    vm_compute (geti mesh1_ptr _) in Hj;
    assert (j = 0 \/ j = 1 \/ j = 2 \/ j = 3) as [->|[->|[->| ->]]] by lia;
    vm_compute (geti mesh1_conn _) in Hbad; lia.
Qed.

Lemma mesh1_offsets_bounded : offsets_bounded (numElements mesh1) mesh1_ptr.
Proof.
  intros i Hi. change (numElements mesh1) with 2 in *.
  assert (i = 0 \/ i = 1) as [->| ->] by lia; by_computation.
Qed.

Lemma setElementConnectivity_round_trip_witness :
  snd (setElementConnectivity mesh1 mesh1_conn mesh1_ptr) = [] /\
  element_nodes (snd (fst (setElementConnectivity mesh1 mesh1_conn mesh1_ptr)))
    1 = [3; -1].
Proof.
  destruct (@setElementConnectivity_round_trip Z mesh1 mesh1_conn mesh1_ptr 1
              eq_refl eq_refl mesh1_sizes_match mesh1_nodes_in_range
              mesh1_offsets_bounded) as (H1 & H2); try by_computation.
  - split; by_computation.
  - split; [exact H1|]. rewrite H2. reflexivity.
Defined.
